(** * SDL-Mixer-X, [src/codecs/music_wav.c]: a shallow embedding

    The WAV/AIFF streaming decoder: G.711 sample expansion, the packed
    24-bit expansion pass, the INFO tag reader, and the loop-aware
    playback functions [WAV_Play], [WAV_GetSome] and [WAV_Seek].

    Conventions.  C integers are [Z] with the conversions written out
    ([Uint8], [Uint32], [Sint16], ...).  C division and remainder are
    [Z.quot] and [Z.rem].  Bytes are [Z] in [0, 256).  A [double] is a
    binary64 primitive float. *)

From Stdlib Require Import String Ascii ZArith List Bool Lia Floats.
Import ListNotations.
Open Scope Z_scope.

(** ** Machine integers *)

Definition Uint8 (z : Z) : Z := z mod 2 ^ 8.
Definition Uint16 (z : Z) : Z := z mod 2 ^ 16.
Definition Uint32 (z : Z) : Z := z mod 2 ^ 32.
Definition Uint64 (z : Z) : Z := z mod 2 ^ 64.

(** Conversion to a signed type of [w] bits (two's complement). *)
Definition to_signed (w : Z) (z : Z) : Z :=
  let u := z mod 2 ^ w in
  if u <? 2 ^ (w - 1) then u else u - 2 ^ w.

Definition Sint16 (z : Z) : Z := to_signed 16 z.
Definition Sint32 (z : Z) : Z := to_signed 32 z.
Definition Sint64 (z : Z) : Z := to_signed 64 z.

(** ** G.711 sample expansion *)

Definition SIGN_BIT : Z := 0x80.
Definition QUANT_MASK : Z := 0xf.
Definition SEG_SHIFT : Z := 4.
Definition SEG_MASK : Z := 0x70.
Definition BIAS : Z := 0x84.

(** [ALAW_To_PCM16], lines 228-249. *)
Definition ALAW_To_PCM16 (a_val : Z) : Z :=
  let a_val := Uint8 (Z.lxor (Uint8 a_val) 0x55) in
  let t := Sint16 (Z.shiftl (Z.land a_val QUANT_MASK) 4) in
  let seg := Sint16 (Z.shiftr (Z.land a_val SEG_MASK) SEG_SHIFT) in
  let t :=
    if seg =? 0 then Sint16 (t + 8)
    else if seg =? 1 then Sint16 (t + 0x108)
    else Sint16 (Z.shiftl (Sint16 (t + 0x108)) (seg - 1)) in
  Sint16 (if Z.land a_val SIGN_BIT =? 0 then - t else t).

(** [uLAW_To_PCM16], lines 264-277. *)
Definition uLAW_To_PCM16 (u_val : Z) : Z :=
  let u_val := Uint8 (Z.lnot (Uint8 u_val)) in
  let t := Sint16 (Sint16 (Z.shiftl (Z.land u_val QUANT_MASK) 3) + BIAS) in
  let t := Sint16 (Z.shiftl t (Z.shiftr (Z.land u_val SEG_MASK) SEG_SHIFT)) in
  Sint16 (if Z.land u_val SIGN_BIT =? 0 then t - BIAS else BIAS - t).

(** The mu-law reconstruction as the specification words it: complement
    the byte, split it into sign / 3-bit segment / 4-bit quantization,
    magnitude [(((quantization << 3) + BIAS) << segment) - BIAS], then
    apply the sign. *)
Definition ulaw_reconstruct (b : Z) : Z :=
  let c := 255 - b mod 256 in
  let sign := c / 128 in
  let segment := (c / 16) mod 8 in
  let quantization := c mod 16 in
  let magnitude := ((quantization * 8 + 0x84) * 2 ^ segment) - 0x84 in
  if sign =? 0 then magnitude else - magnitude.

(** The A-law reconstruction as the specification words it. *)
Definition alaw_reconstruct (b : Z) : Z :=
  let c := Z.lxor (b mod 256) 0x55 in
  let sign := c / 128 in
  let segment := (c / 16) mod 8 in
  let quantization := c mod 16 in
  let magnitude :=
    if segment =? 0 then quantization * 16 + 8
    else if segment =? 1 then quantization * 16 + 0x108
    else (quantization * 16 + 0x108) * 2 ^ (segment - 1) in
  if sign =? 0 then - magnitude else magnitude.

(** ** The byte source *)

(** Modelled from the spec: the physical byte source is an external
    collaborator "assumed to already provide random-access seek/read/tell".
    It is a file image with a cursor.  A seek to a negative offset fails
    and leaves the cursor alone; a seek past the end succeeds; a read
    returns the bytes that are there, at most the number asked for. *)
Record SDL_RWops := mkRW { rw_data : list Z; rw_pos : Z }.

Definition SDL_RWtell (s : SDL_RWops) : Z := rw_pos s.

(** [SDL_RWseek(src, offset, RW_SEEK_SET)]: the new position, or -1. *)
Definition SDL_RWseek (s : SDL_RWops) (offset : Z) : Z * SDL_RWops :=
  if offset <? 0 then (-1, s) else (offset, mkRW (rw_data s) offset).

Definition rw_available (s : SDL_RWops) : Z :=
  Z.max 0 (Z.of_nat (length (rw_data s)) - rw_pos s).

(** [SDL_RWread(src, ptr, 1, n)] with [n] converted to [size_t]: the
    bytes read and the advanced source. *)
Definition SDL_RWread (s : SDL_RWops) (n : Z) : list Z * SDL_RWops :=
  let k := Z.min (Uint64 n) (rw_available s) in
  let got := firstn (Z.to_nat k) (skipn (Z.to_nat (rw_pos s)) (rw_data s)) in
  (got, mkRW (rw_data s) (rw_pos s + Z.of_nat (length got))).

(** ** The output queue *)

(** Modelled from the spec: the mixing/resampling stage that consumes the
    produced PCM is an external collaborator.  [SDL_AudioStream] is a
    first-in first-out byte queue that converts nothing: what is put can
    be got, and a put never fails. *)
Definition SDL_AudioStream := list Z.

Definition SDL_AudioStreamGet (q : SDL_AudioStream) (len : Z)
  : list Z * SDL_AudioStream :=
  let k := Z.to_nat (Z.min (Z.max len 0) (Z.of_nat (length q))) in
  (firstn k q, skipn k q).

Definition SDL_AudioStreamPut (q : SDL_AudioStream) (data : list Z)
  : Z * SDL_AudioStream := (0, q ++ data).

Definition SDL_AudioStreamFlush (q : SDL_AudioStream) : SDL_AudioStream := q.

(** ** The tag store *)

(** Modelled from the spec: [Mix_MusicMetaTags], [meta_tags_set] and
    [meta_tags_get] live in another file of the repository.  "Flat set of
    at most four recognized string fields (title, artist, album,
    copyright) ...; last write wins per field"; a lookup returns "absence
    rather than an error when a tag was never set". *)
Inductive Mix_MusicMetaTag :=
  | MIX_META_TITLE | MIX_META_ARTIST | MIX_META_ALBUM | MIX_META_COPYRIGHT.

Record Mix_MusicMetaTags := mkTags {
  tag_title : option (list Z);
  tag_artist : option (list Z);
  tag_album : option (list Z);
  tag_copyright : option (list Z) }.

Definition meta_tags_init : Mix_MusicMetaTags := mkTags None None None None.

Definition meta_tags_get (tags : Mix_MusicMetaTags) (t : Mix_MusicMetaTag)
  : option (list Z) :=
  match t with
  | MIX_META_TITLE => tag_title tags
  | MIX_META_ARTIST => tag_artist tags
  | MIX_META_ALBUM => tag_album tags
  | MIX_META_COPYRIGHT => tag_copyright tags
  end.

Definition meta_tags_set (tags : Mix_MusicMetaTags) (t : Mix_MusicMetaTag)
  (value : list Z) : Mix_MusicMetaTags :=
  match t with
  | MIX_META_TITLE =>
      mkTags (Some value) (tag_artist tags) (tag_album tags) (tag_copyright tags)
  | MIX_META_ARTIST =>
      mkTags (tag_title tags) (Some value) (tag_album tags) (tag_copyright tags)
  | MIX_META_ALBUM =>
      mkTags (tag_title tags) (tag_artist tags) (Some value) (tag_copyright tags)
  | MIX_META_COPYRIGHT =>
      mkTags (tag_title tags) (tag_artist tags) (tag_album tags) (Some value)
  end.

(** ** The decoder instance *)

Record WAVLoopPoint := mkLoop {
  lp_active : bool;
  lp_start : Z;
  lp_stop : Z;
  lp_initial_play_count : Z;
  lp_current_play_count : Z }.

Record SDL_AudioSpec := mkSpec {
  spec_freq : Z;
  spec_format : Z;
  spec_channels : Z;
  spec_samples : Z;
  spec_size : Z }.

(** The [decode] function pointer ranges over four functions. *)
Inductive decoder := Fetch_pcm | Fetch_pcm24be | Fetch_ulaw | Fetch_alaw.

Record WAV_Music := mkMusic {
  src : SDL_RWops;
  spec : SDL_AudioSpec;
  play_count : Z;
  start : Z;
  stop : Z;
  samplesize : Z;
  buffer : list Z;
  stream : SDL_AudioStream;
  loops : list WAVLoopPoint;
  tags : Mix_MusicMetaTags;
  encoding : Z;
  decode : decoder }.

Definition set_src (m : WAV_Music) (s : SDL_RWops) : WAV_Music :=
  mkMusic s (spec m) (play_count m) (start m) (stop m) (samplesize m)
    (buffer m) (stream m) (loops m) (tags m) (encoding m) (decode m).

Definition set_play_count (m : WAV_Music) (n : Z) : WAV_Music :=
  mkMusic (src m) (spec m) n (start m) (stop m) (samplesize m)
    (buffer m) (stream m) (loops m) (tags m) (encoding m) (decode m).

Definition set_buffer (m : WAV_Music) (b : list Z) : WAV_Music :=
  mkMusic (src m) (spec m) (play_count m) (start m) (stop m) (samplesize m)
    b (stream m) (loops m) (tags m) (encoding m) (decode m).

Definition set_stream (m : WAV_Music) (q : SDL_AudioStream) : WAV_Music :=
  mkMusic (src m) (spec m) (play_count m) (start m) (stop m) (samplesize m)
    (buffer m) q (loops m) (tags m) (encoding m) (decode m).

Definition set_loops (m : WAV_Music) (l : list WAVLoopPoint) : WAV_Music :=
  mkMusic (src m) (spec m) (play_count m) (start m) (stop m) (samplesize m)
    (buffer m) (stream m) l (tags m) (encoding m) (decode m).

Definition set_tags (m : WAV_Music) (t : Mix_MusicMetaTags) : WAV_Music :=
  mkMusic (src m) (spec m) (play_count m) (start m) (stop m) (samplesize m)
    (buffer m) (stream m) (loops m) t (encoding m) (decode m).

(** [SDL_AUDIO_BITSIZE] and the format codes of the SDL headers: the
    sample size in bits is the low byte of a format. *)
Definition SDL_AUDIO_BITSIZE (format : Z) : Z := Z.land format 0xFF.

Definition AUDIO_U8 : Z := 0x0008.
Definition AUDIO_S16 : Z := 0x8010.
Definition AUDIO_S32MSB : Z := 0x9020.

(** ** [WAV_Play], lines 202-216 *)

Definition rearm (loop : WAVLoopPoint) : WAVLoopPoint :=
  mkLoop true (lp_start loop) (lp_stop loop)
    (lp_initial_play_count loop) (lp_initial_play_count loop).

Definition WAV_Play (music : WAV_Music) (play_count : Z) : Z * WAV_Music :=
  let music := set_loops music (map rearm (loops music)) in
  let music := set_play_count music play_count in
  let '(r, s) := SDL_RWseek (src music) (start music) in
  if r <? 0 then (-1, set_src music s) else (0, set_src music s).

(** ** The scratch buffer as a logged memory

    The in-place expansion passes read and write [music->buffer] byte by
    byte.  They are written in a small state monad over the buffer that
    also records every access, most recent first.  A read outside the
    list yields 0 and a write outside it does nothing (in C both are
    undefined). *)

Inductive access := Rd (i : Z) | Wr (i : Z).

Record mem := mkMem { mem_bytes : list Z; mem_log : list access }.

Definition M (A : Type) : Type := mem -> A * mem.

Definition ret {A : Type} (a : A) : M A := fun m => (a, m).

Definition bind {A B : Type} (c : M A) (k : A -> M B) : M B :=
  fun m => let '(a, m') := c m in k a m'.

Notation "x <- c ;; k" := (bind c (fun x => k))
  (at level 61, c at next level, right associativity).
Notation "c ;;; k" := (bind c (fun _ => k))
  (at level 61, right associativity).

Definition byte_at (l : list Z) (i : Z) : Z :=
  if i <? 0 then 0 else nth (Z.to_nat i) l 0.

Fixpoint upd_nth {A : Type} (n : nat) (f : A -> A) (l : list A) : list A :=
  match l, n with
  | [], _ => []
  | x :: l', O => f x :: l'
  | x :: l', S n' => x :: upd_nth n' f l'
  end.

Definition set_byte (l : list Z) (i : Z) (v : Z) : list Z :=
  if i <? 0 then l else upd_nth (Z.to_nat i) (fun _ => v) l.

Definition load8 (i : Z) : M Z :=
  fun m => (byte_at (mem_bytes m) i, mkMem (mem_bytes m) (Rd i :: mem_log m)).

Definition store8 (i : Z) (v : Z) : M unit :=
  fun m => (tt, mkMem (set_byte (mem_bytes m) i (Uint8 v)) (Wr i :: mem_log m)).

(** [SDL_SwapLE32( *((Uint32 * )(buffer + i)))]: on either host byte order
    the load followed by the swap is the little-endian value of the four
    bytes at [i .. i+3]. *)
Definition load32le (i : Z) : M Z :=
  b0 <- load8 i ;;
  b1 <- load8 (i + 1) ;;
  b2 <- load8 (i + 2) ;;
  b3 <- load8 (i + 3) ;;
  ret (Z.lor (Z.lor b0 (Z.shiftl b1 8)) (Z.lor (Z.shiftl b2 16) (Z.shiftl b3 24))).

(** The accesses of a run in the order they happened. *)
Definition trace (m : mem) : list access := rev (mem_log m).

(** A read of byte [i] that comes after a write of byte [i]. *)
Definition read_after_write (t : list access) : Prop :=
  exists i before between after',
    t = before ++ Wr i :: between ++ Rd i :: after'.

(** ** The decode strategies, lines 279-334 *)

(** What [SDL_RWread] into [music->buffer] leaves in the buffer: the bytes
    read, then the old content.  (More bytes than the buffer holds would
    overrun it in C; the list just grows.) *)
Definition read_into (buf got : list Z) : list Z :=
  got ++ skipn (length got) buf.

Definition fetch_pcm (music : WAV_Music) (len : Z) : option Z * WAV_Music :=
  let '(got, s) := SDL_RWread (src music) len in
  (Some (Sint32 (Z.of_nat (length got))),
   set_buffer (set_src music s) (read_into (buffer music) got)).

(** With the load taken little-endian, [sign_extend_24_32] receives the
    swapped word. *)
Definition sign_extend_24_32 (x : Z) : Z :=
  let bits := 24 in
  let m := Z.shiftl 1 (bits - 1) in
  let x := Z.land (Z.shiftr x 8) 0x00FFFFFF in
  Uint32 (Z.lxor x m - m).

(** The [for] loop of [fetch_pcm24be], lines 300-306.  [i] drops by 3
    each turn, so [fuel] turns are enough when [i < 3 * fuel]. *)
Fixpoint pcm24_loop (fuel : nat) (i o : Z) : M unit :=
  match fuel with
  | O => ret tt
  | S fuel' =>
      if 0 <=? i then
        x <- load32le i ;;
        let decoded := sign_extend_24_32 x in
        store8 (o + 0) (Z.land (Z.shiftr decoded 0) 0xFF) ;;;
        store8 (o + 1) (Z.land (Z.shiftr decoded 8) 0xFF) ;;;
        store8 (o + 2) (Z.land (Z.shiftr decoded 16) 0xFF) ;;;
        store8 (o + 3) (Z.land (Z.shiftr decoded 24) 0xFF) ;;;
        pcm24_loop fuel' (i - 3) (o - 4)
      else ret tt
  end.

(** The whole expansion pass over a buffer holding [len] source bytes. *)
Definition pcm24_pass (buf : list Z) (len : Z) : mem :=
  snd (pcm24_loop (Z.to_nat len) (len - 1) (Z.quot (len - 1) 3 * 4)
         (mkMem buf [])).

(** The count left after dropping a partial frame, lines 297-299 and
    315-317: [length % music->samplesize] is an [int] remainder.  With
    [samplesize] 0 it is a division by zero, which stops the program
    (and so does the one overflowing remainder, [INT_MIN % -1]): [None]
    then, and no count. *)
Definition whole_frames (len samplesize : Z) : option Z :=
  if (samplesize =? 0) || ((len =? - 2 ^ 31) && (samplesize =? -1)) then None
  else
    Some (if Z.rem len samplesize =? 0 then len
          else len - Z.rem len samplesize).

(** The two expansion strategies return the number of bytes they leave
    in the buffer, or [None] when the remainder above stops the program;
    the instance is then as the read before it left it. *)
Definition fetch_pcm24be (music : WAV_Music) (len : Z)
  : option Z * WAV_Music :=
  let '(got, s) := SDL_RWread (src music) (Z.quot len 4 * 3) in
  let buf := read_into (buffer music) got in
  let len := Sint32 (Z.of_nat (length got)) in
  match whole_frames len (samplesize music) with
  | None => (None, set_buffer (set_src music s) buf)
  | Some len =>
      let m := pcm24_pass buf len in
      (Some (Sint32 (Z.quot (len - samplesize music) 3 * 4)),
       set_buffer (set_src music s) (mem_bytes m))
  end.

(** The [for] loop of [fetch_xlaw], lines 318-322. *)
Fixpoint xlaw_loop (decode_sample : Z -> Z) (fuel : nat) (i o : Z) : M unit :=
  match fuel with
  | O => ret tt
  | S fuel' =>
      if 0 <=? i then
        b <- load8 i ;;
        let decoded := Uint16 (decode_sample b) in
        store8 o (Z.land decoded 0xFF) ;;;
        store8 (o + 1) (Z.land (Z.shiftr decoded 8) 0xFF) ;;;
        xlaw_loop decode_sample fuel' (i - 1) (o - 2)
      else ret tt
  end.

Definition xlaw_pass (decode_sample : Z -> Z) (buf : list Z) (len : Z) : mem :=
  snd (xlaw_loop decode_sample (Z.to_nat len) (len - 1) ((len - 1) * 2)
         (mkMem buf [])).

Definition fetch_xlaw (decode_sample : Z -> Z) (music : WAV_Music) (len : Z)
  : option Z * WAV_Music :=
  let '(got, s) := SDL_RWread (src music) (Z.quot len 2) in
  let buf := read_into (buffer music) got in
  let len := Sint32 (Z.of_nat (length got)) in
  match whole_frames len (samplesize music) with
  | None => (None, set_buffer (set_src music s) buf)
  | Some len =>
      let m := xlaw_pass decode_sample buf len in
      (Some (Sint32 (len * 2)), set_buffer (set_src music s) (mem_bytes m))
  end.

Definition fetch_ulaw := fetch_xlaw uLAW_To_PCM16.
Definition fetch_alaw := fetch_xlaw ALAW_To_PCM16.

(** [music->decode(music, amount)]: the value returned, [None] when the
    call does not return, and the instance afterwards. *)
Definition call_decode (music : WAV_Music) (amount : Z)
  : option Z * WAV_Music :=
  match decode music with
  | Fetch_pcm => fetch_pcm music amount
  | Fetch_pcm24be => fetch_pcm24be music amount
  | Fetch_ulaw => fetch_ulaw music amount
  | Fetch_alaw => fetch_alaw music amount
  end.

(** ** [WAV_GetSome], lines 337-423 *)

Definition bytes_per_sample (music : WAV_Music) : Z :=
  Z.quot (SDL_AUDIO_BITSIZE (spec_format (spec music))) 8
  * spec_channels (spec music).

(** [loop_start] and [loop_stop] of lines 367-368; the products are
    formed in [Uint32]. *)
Definition loop_start (music : WAV_Music) (loop : WAVLoopPoint) : Z :=
  start music + Uint32 (lp_start loop * Uint32 (bytes_per_sample music)).

Definition loop_stop (music : WAV_Music) (loop : WAVLoopPoint) : Z :=
  start music
  + Uint32 (Uint32 (lp_stop loop + 1) * Uint32 (bytes_per_sample music)).

(** The [for] loop of lines 363-376: the first active loop point whose
    window holds [pos], with its index. *)
Fixpoint find_loop (music : WAV_Music) (pos : Z) (i : nat)
  (ls : list WAVLoopPoint) : option (nat * WAVLoopPoint) :=
  match ls with
  | [] => None
  | loop :: rest =>
      if lp_active loop
         && (loop_start music loop <=? pos) && (pos <? loop_stop music loop)
      then Some (i, loop)
      else find_loop music pos (S i) rest
  end.

Definition deactivate (loop : WAVLoopPoint) : WAVLoopPoint :=
  mkLoop false (lp_start loop) (lp_stop loop)
    (lp_initial_play_count loop) (lp_current_play_count loop).

Definition count_down (loop : WAVLoopPoint) : WAVLoopPoint :=
  mkLoop (lp_active loop) (lp_start loop) (lp_stop loop)
    (lp_initial_play_count loop)
    (if 0 <? lp_current_play_count loop
     then Uint32 (lp_current_play_count loop - 1)
     else lp_current_play_count loop).

(** What one call hands back: the return value, whether [*done] was set,
    the bytes written to [data], and the instance afterwards.  A call
    that the frame remainder of an expansion stops does not return:
    [returned] is [None], nothing was written to [data] or [*done], and
    [after] is the instance as the program left it. *)
Record chunk := mkChunk {
  returned : option Z;
  done : bool;
  produced : list Z;
  after : WAV_Music }.

(** Lines 394-404. *)
Definition loop_boundary (music : WAV_Music)
  (found : option (nat * WAVLoopPoint)) (stop_ : Z) : bool * WAV_Music :=
  match found with
  | Some (i, loop) =>
      if stop_ <=? SDL_RWtell (src music) then
        if lp_current_play_count loop =? 1 then
          (false, set_loops music (upd_nth i deactivate (loops music)))
        else
          let music := set_loops music (upd_nth i count_down (loops music)) in
          let '(_, s) := SDL_RWseek (src music) (loop_start music loop) in
          (true, set_src music s)
      else (false, music)
  | None => (false, music)
  end.

(** Lines 406-422. *)
Definition region_boundary (music : WAV_Music) (looped at_end : bool) : chunk :=
  if negb looped && (at_end || (stop music <=? SDL_RWtell (src music))) then
    if play_count music =? 1 then
      mkChunk (Some 0) false []
        (set_stream (set_play_count music 0)
           (SDL_AudioStreamFlush (stream music)))
    else
      let play_count := if 0 <? play_count music then play_count music - 1 else -1 in
      let '(r, music) := WAV_Play music play_count in
      if r <? 0 then mkChunk (Some (-1)) false [] music
      else mkChunk (Some 0) false [] music
  else mkChunk (Some 0) false [] music.

(** Lines 360-383: the fetch ceiling and the byte budget of the fetch. *)
Definition fetch_ceiling (music : WAV_Music)
  (found : option (nat * WAVLoopPoint)) : Z :=
  match found with
  | Some (_, loop) => loop_stop music loop
  | None => stop music
  end.

Definition fetch_amount (music : WAV_Music) (stop_ pos : Z) : Z :=
  let amount := Sint32 (spec_size (spec music)) in
  if stop_ - pos <? amount then Sint32 (stop_ - pos) else amount.

Definition WAV_GetSome (music : WAV_Music) (bytes : Z) : chunk :=
  let '(out, q) := SDL_AudioStreamGet (stream music) bytes in
  let filled := Z.of_nat (length out) in
  if negb (filled =? 0) then mkChunk (Some filled) false out (set_stream music q)
  else if play_count music =? 0 then mkChunk (Some 0) true [] music
  else
    let pos := SDL_RWtell (src music) in
    let found := find_loop music pos 0 (loops music) in
    let stop_ := fetch_ceiling music found in
    let '(amount, music) := call_decode music (fetch_amount music stop_ pos) in
    match amount with
    | None => mkChunk None false [] music
    | Some amount =>
        let '(result, music, at_end) :=
          if 0 <? amount then
            let '(r, q) :=
              SDL_AudioStreamPut (stream music)
                (firstn (Z.to_nat amount) (buffer music)) in
            (r, set_stream music q, false)
          else (0, music, true) in
        if result <? 0 then mkChunk (Some (-1)) false [] music
        else
          let '(looped, music) := loop_boundary music found stop_ in
          region_boundary music looped at_end
    end.

(** The instance after [n] successive calls, the [k]-th with byte budget
    [budget k].  (The program ends at a call that does not return; from
    the instance it leaves, every further call would not return
    either.) *)
Fixpoint calls (budget : nat -> Z) (n : nat) (music : WAV_Music) : WAV_Music :=
  match n with
  | O => music
  | S n' => after (WAV_GetSome (calls budget n' music) (budget n'))
  end.

(** ** [WAV_Seek], lines 431-439 *)

(** An integer converted to [double]; exact below 2^53 in magnitude,
    rounded to nearest above. *)
Definition double_of_Z (z : Z) : float :=
  if z <? 0 then PrimFloat.opp (of_uint63 (Uint63.of_Z (- z)))
  else of_uint63 (Uint63.of_Z z).

(** A [double] with its fraction dropped, when that is an integer of
    the range of [Sint64]; [None] for the values whose conversion C
    leaves undefined (not a number, infinite, or outside the range of
    the type). *)
Definition truncated (f : float) : option Z :=
  match Prim2SF f with
  | S754_zero _ => Some 0
  | S754_finite s m e =>
      let mag := if 0 <=? e then Z.shiftl (Zpos m) e else Z.shiftr (Zpos m) (- e) in
      let v := if s then - mag else mag in
      if (- 2 ^ 63 <=? v) && (v <? 2 ^ 63) then Some v else None
  | _ => None
  end.

(** The cast [(Sint64)f] as an x86-64 host performs it (the conversion
    instruction [cvttsd2si]): the truncated value, and the most negative
    integer for the values whose conversion C leaves undefined. *)
Definition double_to_Sint64 (f : float) : Z :=
  match truncated f with
  | Some v => v
  | None => - 2 ^ 63
  end.

(** [position * (double)music->spec.freq * music->samplesize]. *)
Definition seek_product (music : WAV_Music) (position : float) : float :=
  PrimFloat.mul
    (PrimFloat.mul position (double_of_Z (spec_freq (spec music))))
    (double_of_Z (samplesize music)).

Definition seek_offset (music : WAV_Music) (position : float) : Z :=
  double_to_Sint64 (seek_product music position).

(** The sum [music->start + offset] is formed in [Sint64], wrapping as
    the host's addition does. *)
Definition WAV_Seek (music : WAV_Music) (position : float) : Z * WAV_Music :=
  let destpos := Sint64 (start music + seek_offset music position) in
  if stop music <? destpos then (-1, music)
  else
    let '(_, s) := SDL_RWseek (src music) destpos in
    (0, set_src music s).

(** ** The INFO tag reader, lines 630-692 *)

Definition bytes_of_string (s : string) : list Z :=
  map (fun b => Z.of_N (Byte.to_N b)) (list_byte_of_string s).

(** A byte of the chunk buffer; [None] outside it. *)
Definition chunk_byte (data : list Z) (i : Z) : option Z :=
  if i <? 0 then None else nth_error data (Z.to_nat i).

Definition load_le32 (data : list Z) (i : Z) : option Z :=
  match chunk_byte data i, chunk_byte data (i + 1),
        chunk_byte data (i + 2), chunk_byte data (i + 3) with
  | Some b0, Some b1, Some b2, Some b3 =>
      Some (b0 + 2 ^ 8 * b1 + 2 ^ 16 * b2 + 2 ^ 24 * b3)
  | _, _, _, _ => None
  end.

Definition load_be32 (data : list Z) (i : Z) : option Z :=
  match chunk_byte data i, chunk_byte data (i + 1),
        chunk_byte data (i + 2), chunk_byte data (i + 3) with
  | Some b0, Some b1, Some b2, Some b3 =>
      Some (2 ^ 24 * b0 + 2 ^ 16 * b1 + 2 ^ 8 * b2 + b3)
  | _, _, _, _ => None
  end.

(** The C string that starts at [l]: the bytes before the first NUL;
    [None] when the list ends first. *)
Fixpoint c_string (l : list Z) : option (list Z) :=
  match l with
  | [] => None
  | b :: l' =>
      if b =? 0 then Some []
      else match c_string l' with
           | Some s => Some (b :: s)
           | None => None
           end
  end.

(** [SDL_strlcpy(field, data + i, maxlen)] into a zeroed [field]: the
    string left in [field].  The source is scanned up to its NUL. *)
Definition SDL_strlcpy (data : list Z) (i : Z) (maxlen : Z) : option (list Z) :=
  if i <? 0 then None
  else match c_string (skipn (Z.to_nat i) data) with
       | None => None
       | Some s =>
           if 0 <? maxlen
           then Some (firstn (Z.to_nat (Z.min (Z.of_nat (length s)) (maxlen - 1))) s)
           else Some []
       end.

(** [SDL_strncmp(data + i, lit, 4) == 0] for a literal of four non-NUL
    characters. *)
Definition tag_at (data : list Z) (i : Z) (lit : string) : bool :=
  if i <? 0 then false
  else if list_eq_dec Z.eq_dec (firstn 4 (skipn (Z.to_nat i) data))
            (bytes_of_string lit)
       then true else false.

(** [read_meta_field]: the tags and the index [*i] afterwards; [None]
    when it reads outside the chunk buffer. *)
Definition read_meta_field (tags : Mix_MusicMetaTags)
  (tag_type : Mix_MusicMetaTag) (i : Z) (chunk_length : Z) (data : list Z)
  (fieldOffset : Z) : option (Mix_MusicMetaTags * Z) :=
  let isID3 := fieldOffset =? 7 in
  let i := i + 4 in
  match (if isID3 then load_be32 data i else load_le32 data i) with
  | None => None
  | Some len =>
      if chunk_length <? len then Some (tags, i)
      else
        let i := i + fieldOffset in
        match SDL_strlcpy data i (if isID3 then Uint32 (len - 1) else len) with
        | None => None
        | Some field => Some (meta_tags_set tags tag_type field, i + len)
        end
  end.

(** The scan of lines 669-684. *)
Fixpoint info_scan (fuel : nat) (tags : Mix_MusicMetaTags) (i : Z)
  (chunk_length : Z) (data : list Z) : option Mix_MusicMetaTags :=
  match fuel with
  | O => Some tags
  | S fuel' =>
      if i <? Uint32 (chunk_length - 4) then
        let field tag_type :=
          match read_meta_field tags tag_type i chunk_length data 4 with
          | None => None
          | Some (tags', i') => info_scan fuel' tags' i' chunk_length data
          end in
        if tag_at data i "INAM" then field MIX_META_TITLE
        else if tag_at data i "IART" then field MIX_META_ARTIST
        else if tag_at data i "IALB" then field MIX_META_ALBUM
        else if tag_at data i "BCPR" then field MIX_META_COPYRIGHT
        else info_scan fuel' tags (i + 1) chunk_length data
      else Some tags
  end.

(** [ParseLIST]: [loaded] and the instance; [None] when the scan reads
    outside the chunk buffer.  Every turn of the scan moves [i] up by at
    least one, so [chunk_length] turns are enough. *)
Definition ParseLIST (wave : WAV_Music) (chunk_length : Z)
  : option (bool * WAV_Music) :=
  let '(data, s) := SDL_RWread (src wave) chunk_length in
  let wave := set_src wave s in
  if negb (Z.of_nat (length data) =? chunk_length) then Some (false, wave)
  else if tag_at data 0 "INFO" then
    match info_scan (Z.to_nat chunk_length) (tags wave) 4 chunk_length data with
    | None => None
    | Some tags' => Some (true, set_tags wave tags')
    end
  else Some (false, wave).

(** ** Auxiliary notions used by the statements *)

(** The sign carried by a spec float; a NaN carries none. *)
Definition sf_sign_is (b : bool) (x : spec_float) : Prop :=
  match x with
  | S754_zero s | S754_infinity s | S754_finite s _ _ => s = b
  | S754_nan => True
  end.

(** Every byte value satisfies a decidable predicate once the 256 of
    them do. *)
Definition all_bytes (p : Z -> bool) : bool :=
  forallb (fun n => p (Z.of_nat n)) (seq 0 256).

(** *** The accesses of the in-place passes *)

(** The accesses the 24-bit loop makes, in order; they do not depend on
    the bytes. *)
Fixpoint pcm24_accesses (fuel : nat) (i o : Z) : list access :=
  match fuel with
  | O => []
  | S fuel' =>
      if 0 <=? i then
        [Rd i; Rd (i + 1); Rd (i + 2); Rd (i + 3);
         Wr (o + 0); Wr (o + 1); Wr (o + 2); Wr (o + 3)]
        ++ pcm24_accesses fuel' (i - 3) (o - 4)
      else []
  end.

(** The accesses the law-expansion loop makes, in order. *)
Fixpoint xlaw_accesses (fuel : nat) (i o : Z) : list access :=
  match fuel with
  | O => []
  | S fuel' =>
      if 0 <=? i then
        [Rd i; Wr o; Wr (o + 1)] ++ xlaw_accesses fuel' (i - 1) (o - 2)
      else []
  end.

(** *** Notions for following a session call by call *)

Definition cursor (music : WAV_Music) : Z := SDL_RWtell (src music).

(** The active flag and the remaining count of the only loop point. *)
Definition only_loop (music : WAV_Music) : option (bool * Z) :=
  match loops music with
  | [loop] => Some (lp_active loop, lp_current_play_count loop)
  | _ => None
  end.

Definition loop_with (loop : WAVLoopPoint) (act : bool) (count : Z)
  : WAVLoopPoint :=
  mkLoop act (lp_start loop) (lp_stop loop) (lp_initial_play_count loop) count.

(** The instances a session over [music] with the one loop point [loop]
    goes through: only the cursor, the queue, the scratch buffer and the
    loop point's flag and count move. *)
Definition session_state (music : WAV_Music) (loop : WAVLoopPoint)
  (act : bool) (count pos : Z) (q : SDL_AudioStream) (buf : list Z)
  : WAV_Music :=
  mkMusic (mkRW (rw_data (src music)) pos) (spec music) (play_count music)
    (start music) (stop music) (samplesize music) buf q
    [loop_with loop act count] (tags music) (encoding music) (decode music).

(** Some instance of the session with the given flag and count and the
    cursor in [lo, hi). *)
Definition in_phase (music : WAV_Music) (loop : WAVLoopPoint)
  (act : bool) (count lo hi : Z) (m : WAV_Music) : Prop :=
  exists pos q buf,
    lo <= pos < hi /\ m = session_state music loop act count pos q buf.

(** How the pass over the region ends: with overall count 1 the count
    becomes 0 and nothing else moves; otherwise Play starts the next
    pass. *)
Definition pass_ended (music : WAV_Music) (loop : WAVLoopPoint)
  (m : WAV_Music) : Prop :=
  (play_count music = 1 ->
     play_count m = 0 /\ cursor m = stop music /\
     only_loop m = Some (false, 1)) /\
  (play_count music <> 1 ->
     play_count m
     = (if 0 <? play_count music then play_count music - 1 else -1) /\
     cursor m = start music /\
     loops m = [rearm loop]).

(** From [m], whatever positive budgets the caller uses, some call
    leaves an instance in [P], and before it every instance is in [I]. *)
Definition reaches (P I : WAV_Music -> Prop) (m : WAV_Music) : Prop :=
  forall budget, (forall k, 0 < budget k) ->
    exists n, (0 < n)%nat /\ P (calls budget n m) /\
              forall j, (j < n)%nat -> I (calls budget j m).

(** *** Example instances *)

(** A concrete instance: 8-bit mono PCM at 8000 Hz, a data region of
    three fetches (3 x 4096 bytes) at file offset 44, one loop point over
    frames 4096..8191 to be played three times. *)
Definition demo_file : list Z :=
  repeat 0 44 ++ repeat 7 (Z.to_nat 12288).

Definition demo_music : WAV_Music :=
  mkMusic (mkRW demo_file 1000)
    (mkSpec 8000 AUDIO_U8 1 4096 4096)
    1 44 12332 1
    (repeat 0 (Z.to_nat 4096)) []
    [mkLoop true 4096 8191 3 3]
    meta_tags_init 1 Fetch_pcm.

(** The instance with a loop point over frames 1000..1999 instead: no
    fetch of the pass starts inside its byte window [1044, 2044). *)
Definition demo_skip_music : WAV_Music :=
  mkMusic (mkRW demo_file 0)
    (mkSpec 8000 AUDIO_U8 1 4096 4096)
    1 44 12332 1
    (repeat 0 (Z.to_nat 4096)) []
    [mkLoop true 1000 1999 3 3]
    meta_tags_init 1 Fetch_pcm.

(** The instance [demo_music] over a file that ends 10000 bytes into the
    data region, although the data chunk declares 12288. *)
Definition demo_cut_music : WAV_Music :=
  mkMusic (mkRW (repeat 0 44 ++ repeat 7 (Z.to_nat 10000)) 0)
    (mkSpec 8000 AUDIO_U8 1 4096 4096)
    1 44 12332 1
    (repeat 0 (Z.to_nat 4096)) []
    [mkLoop true 4096 8191 3 3]
    meta_tags_init 1 Fetch_pcm.

(** A small mu-law instance (one source byte per frame, two output
    bytes): a data region of 64 bytes at file offset 44, and a loop point
    over frames 0..15, whose window [44, 76) starts at the region
    start. *)
Definition demo_ulaw_music : WAV_Music :=
  mkMusic (mkRW (repeat 0 44 ++ repeat 7 64) 0)
    (mkSpec 8000 AUDIO_S16 1 4096 8192)
    1 44 108 1
    (repeat 0 (Z.to_nat 8192)) []
    [mkLoop true 0 15 3 3]
    meta_tags_init 7 Fetch_ulaw.

(** A mono 24-bit instance: frame size 3, a scratch buffer of
    4 x 4096 bytes, and a source holding four samples. *)
Definition demo24_source : list Z :=
  [0x01; 0x02; 0x03; 0x11; 0x12; 0x13; 0x21; 0x22; 0x23; 0x31; 0x32; 0x33].

Definition demo24_music : WAV_Music :=
  mkMusic (mkRW demo24_source 0)
    (mkSpec 8000 AUDIO_S32MSB 1 4096 16384)
    1 0 12 3
    (repeat 0 (Z.to_nat 16384)) []
    []
    meta_tags_init 1 Fetch_pcm24be.

(** An INFO chunk of 16 bytes: the marker, one "INAM" record that
    declares 16 value bytes, and the 4 bytes that are left: "Hi" and two
    NULs. *)
Definition demo_info_chunk : list Z :=
  bytes_of_string "INFO" ++ bytes_of_string "INAM" ++ [16; 0; 0; 0]
  ++ bytes_of_string "Hi" ++ [0; 0].

Definition demo_info_wave : WAV_Music :=
  mkMusic (mkRW demo_info_chunk 0)
    (mkSpec 0 0 0 0 0) 0 0 0 0 [] [] [] meta_tags_init 1 Fetch_pcm.

(** ** Notions used by the further properties *)

(** What one expanded sample leaves in its two output bytes: the low and
    the high byte of the 16-bit sample. *)
Definition sample_lo (decode_sample : Z -> Z) (b : Z) : Z :=
  Z.land (Uint16 (decode_sample b)) 0xFF.

Definition sample_hi (decode_sample : Z -> Z) (b : Z) : Z :=
  Z.land (Z.shiftr (Uint16 (decode_sample b)) 8) 0xFF.

(** The part of a loop point that parsing fixes. *)
Definition loop_shape (loop : WAVLoopPoint) : Z * Z * Z :=
  (lp_start loop, lp_stop loop, lp_initial_play_count loop).

(** The part of an instance that parsing fixes: everything but the
    cursor, the repeat count, the scratch buffer, the queue, and the
    flag and remaining count of each loop point. *)
Definition description (music : WAV_Music) :=
  (spec music, start music, stop music, samplesize music, tags music,
   encoding music, decode music, rw_data (src music),
   map loop_shape (loops music)).

(** The number of source bytes a strategy asks for when handed the byte
    budget [amount]. *)
Definition source_request (d : decoder) (amount : Z) : Z :=
  match d with
  | Fetch_pcm => amount
  | Fetch_pcm24be => Z.quot amount 4 * 3
  | Fetch_ulaw | Fetch_alaw => Z.quot amount 2
  end.

(** Bytes [lo, hi) of the source. *)
Definition source_bytes (music : WAV_Music) (lo hi : Z) : list Z :=
  firstn (Z.to_nat (hi - lo)) (skipn (Z.to_nat lo) (rw_data (src music))).

(** The bytes of the data region. *)
Definition region_bytes (music : WAV_Music) : list Z :=
  source_bytes music (start music) (stop music).

(** The bytes handed to the caller by the first [n] calls. *)
Fixpoint played (budget : nat -> Z) (n : nat) (music : WAV_Music) : list Z :=
  match n with
  | O => []
  | S n' =>
      played budget n' music
      ++ produced (WAV_GetSome (calls budget n' music) (budget n'))
  end.

(** What a direct-copy session without loop points still owes the
    caller: the queue, the rest of the current pass, and the passes to
    come. *)
Definition remaining (music : WAV_Music) : list Z :=
  stream music
  ++ (if play_count music =? 0 then []
      else source_bytes music (cursor music) (stop music)
           ++ concat (repeat (region_bytes music)
                        (Z.to_nat (play_count music - 1)))).

(** The instance with the queue and the scratch buffer taken from
    [other]. *)
Definition with_scratch_of (other music : WAV_Music) : WAV_Music :=
  set_stream (set_buffer music (buffer other)) (stream other).

(** The instances of a direct-copy session without loop points. *)
Definition plain_session (m : WAV_Music) : Prop :=
  decode m = Fetch_pcm /\ loops m = [] /\
  0 < spec_size (spec m) < 2 ^ 31 /\
  0 <= start m <= stop m /\
  stop m <= Z.of_nat (length (rw_data (src m))) /\
  start m <= cursor m <= stop m /\
  0 <= play_count m.

(** A bound on the calls still to come. *)
Definition calls_left (m : WAV_Music) : Z :=
  Z.of_nat (length (stream m))
  + (if play_count m =? 0 then 0
     else 2 * (stop m - cursor m) + 1
          + (play_count m - 1) * (2 * (stop m - start m) + 1)).

(** ** Reading integers from the byte source *)

(** The little- and big-endian value of the bytes at [i ..] of a list; a
    byte that is not there counts as 0. *)
Definition le16 (data : list Z) (i : Z) : Z :=
  byte_at data i + 2 ^ 8 * byte_at data (i + 1).

Definition le32 (data : list Z) (i : Z) : Z :=
  byte_at data i + 2 ^ 8 * byte_at data (i + 1)
  + 2 ^ 16 * byte_at data (i + 2) + 2 ^ 24 * byte_at data (i + 3).

Definition be16 (data : list Z) (i : Z) : Z :=
  2 ^ 8 * byte_at data i + byte_at data (i + 1).

Definition be32 (data : list Z) (i : Z) : Z :=
  2 ^ 24 * byte_at data i + 2 ^ 16 * byte_at data (i + 1)
  + 2 ^ 8 * byte_at data (i + 2) + byte_at data (i + 3).

(** [SDL_ReadLE32], [SDL_ReadBE32], [SDL_ReadBE16]: the value is read
    into a zeroed variable, so the bytes a short read does not deliver
    count as 0. *)
Definition SDL_ReadLE32 (s : SDL_RWops) : Z * SDL_RWops :=
  let '(got, s') := SDL_RWread s 4 in (le32 got 0, s').

Definition SDL_ReadBE32 (s : SDL_RWops) : Z * SDL_RWops :=
  let '(got, s') := SDL_RWread s 4 in (be32 got 0, s').

Definition SDL_ReadBE16 (s : SDL_RWops) : Z * SDL_RWops :=
  let '(got, s') := SDL_RWread s 2 in (be16 got 0, s').

(** [SDL_RWseek(src, offset, RW_SEEK_CUR)]. *)
Definition SDL_RWseek_cur (s : SDL_RWops) (offset : Z) : Z * SDL_RWops :=
  SDL_RWseek s (rw_pos s + offset).

(** [SDL_RWread(src, data, chunk_length, 1)]: one object of
    [chunk_length] bytes.  The result counts whole objects: it is 0 when
    fewer bytes are there, or when the object is empty. *)
Definition read_chunk (s : SDL_RWops) (chunk_length : Z)
  : bool * list Z * SDL_RWops :=
  let '(data, s') := SDL_RWread s chunk_length in
  (negb (chunk_length =? 0) && (Z.of_nat (length data) =? chunk_length),
   data, s').

(** ** The container parsers, lines 149-193 and 482-986 *)

Definition RIFF : Z := 0x46464952.
Definition WAVE : Z := 0x45564157.
Definition FMT : Z := 0x20746D66.
Definition DATA : Z := 0x61746164.
Definition SMPL : Z := 0x6c706d73.
Definition LIST : Z := 0x5453494c.
Definition ID3_ : Z := 0x20336469.
Definition PCM_CODE : Z := 1.
Definition FLOAT_CODE : Z := 3.
Definition ALAW_CODE : Z := 6.
Definition uLAW_CODE : Z := 7.

Definition FORM : Z := 0x4d524f46.
Definition AIFF : Z := 0x46464941.
Definition AIFC : Z := 0x43464941.
Definition FVER : Z := 0x52455646.
Definition SSND : Z := 0x444e5353.
Definition COMM : Z := 0x4d4d4f43.
Definition NONE : Z := 0x454E4F4E.
Definition sowt : Z := 0x74776F73.
Definition raw_ : Z := 0x20776172.
Definition ulaw : Z := 0x77616C75.
Definition alaw : Z := 0x77616C61.
Definition fl32 : Z := 0x32336C66.

(** Further format codes of the SDL headers. *)
Definition AUDIO_S8 : Z := 0x8008.
Definition AUDIO_S16LSB : Z := 0x8010.
Definition AUDIO_S16MSB : Z := 0x9010.
Definition AUDIO_S32LSB : Z := 0x8020.
Definition AUDIO_S32 : Z := AUDIO_S32LSB.
Definition AUDIO_F32LSB : Z := 0x8120.
Definition AUDIO_F32 : Z := AUDIO_F32LSB.
Definition AUDIO_F32MSB : Z := 0x9120.

Definition set_spec (m : WAV_Music) (sp : SDL_AudioSpec) : WAV_Music :=
  mkMusic (src m) sp (play_count m) (start m) (stop m) (samplesize m)
    (buffer m) (stream m) (loops m) (tags m) (encoding m) (decode m).

Definition set_start (m : WAV_Music) (z : Z) : WAV_Music :=
  mkMusic (src m) (spec m) (play_count m) z (stop m) (samplesize m)
    (buffer m) (stream m) (loops m) (tags m) (encoding m) (decode m).

Definition set_stop (m : WAV_Music) (z : Z) : WAV_Music :=
  mkMusic (src m) (spec m) (play_count m) (start m) z (samplesize m)
    (buffer m) (stream m) (loops m) (tags m) (encoding m) (decode m).

Definition set_samplesize (m : WAV_Music) (z : Z) : WAV_Music :=
  mkMusic (src m) (spec m) (play_count m) (start m) (stop m) z
    (buffer m) (stream m) (loops m) (tags m) (encoding m) (decode m).

Definition set_encoding (m : WAV_Music) (z : Z) : WAV_Music :=
  mkMusic (src m) (spec m) (play_count m) (start m) (stop m) (samplesize m)
    (buffer m) (stream m) (loops m) (tags m) z (decode m).

Definition set_decode (m : WAV_Music) (d : decoder) : WAV_Music :=
  mkMusic (src m) (spec m) (play_count m) (start m) (stop m) (samplesize m)
    (buffer m) (stream m) (loops m) (tags m) (encoding m) d.

Definition set_freq (sp : SDL_AudioSpec) (z : Z) : SDL_AudioSpec :=
  mkSpec z (spec_format sp) (spec_channels sp) (spec_samples sp) (spec_size sp).

Definition set_format (sp : SDL_AudioSpec) (z : Z) : SDL_AudioSpec :=
  mkSpec (spec_freq sp) z (spec_channels sp) (spec_samples sp) (spec_size sp).

(** Lines 556-562 and 979-983: channels, samples and size of the spec,
    the size formed in [Uint32]. *)
Definition calculate_spec (sp : SDL_AudioSpec) (channels : Z) : SDL_AudioSpec :=
  let channels := Uint8 channels in
  let samples := 4096 in
  let size := Uint32 (Z.quot (SDL_AUDIO_BITSIZE (spec_format sp)) 8) in
  let size := Uint32 (size * channels) in
  let size := Uint32 (size * samples) in
  mkSpec (spec_freq sp) (spec_format sp) channels samples size.

(** The first [switch] of [ParseFMT], lines 508-526. *)
Definition fmt_decoder (encoding : Z) : option decoder :=
  if (encoding =? PCM_CODE) || (encoding =? FLOAT_CODE) then Some Fetch_pcm
  else if encoding =? uLAW_CODE then Some Fetch_ulaw
  else if encoding =? ALAW_CODE then Some Fetch_alaw
  else None.

(** The second [switch] of [ParseFMT], lines 529-555. *)
Definition fmt_format (bitsamplerate encoding : Z) : option Z :=
  if bitsamplerate =? 8 then
    if encoding =? PCM_CODE then Some AUDIO_U8
    else if encoding =? ALAW_CODE then Some AUDIO_S16
    else if encoding =? uLAW_CODE then Some AUDIO_S16
    else None
  else if bitsamplerate =? 16 then
    if encoding =? PCM_CODE then Some AUDIO_S16 else None
  else if bitsamplerate =? 32 then
    if encoding =? PCM_CODE then Some AUDIO_S32
    else if encoding =? FLOAT_CODE then Some AUDIO_F32
    else None
  else None.

(** [ParseFMT], lines 482-569: [loaded] and the instance.  The [WaveFMT]
    fields lie at offsets 0 (encoding), 2 (channels), 4 (frequency) and
    14 (bitspersample) of the chunk. *)
Definition ParseFMT (wave : WAV_Music) (chunk_length : Z) : bool * WAV_Music :=
  if chunk_length <? 16 then (false, wave)
  else
    let '(ok, data, s) := read_chunk (src wave) chunk_length in
    let wave := set_src wave s in
    if negb ok then (false, wave)
    else
      let wave := set_encoding wave (le16 data 0) in
      match fmt_decoder (encoding wave) with
      | None => (false, wave)
      | Some d =>
          let wave := set_decode wave d in
          let wave := set_spec wave (set_freq (spec wave) (Sint32 (le32 data 4))) in
          let bitsamplerate := le16 data 14 in
          match fmt_format bitsamplerate (encoding wave) with
          | None => (false, wave)
          | Some f =>
              let sp := calculate_spec (set_format (spec wave) f) (le16 data 2) in
              let wave := set_spec wave sp in
              let wave :=
                set_samplesize wave
                  (spec_channels sp * Z.quot bitsamplerate 8) in
              (true, wave)
          end
      end.

(** [ParseDATA], lines 571-577. *)
Definition ParseDATA (wave : WAV_Music) (chunk_length : Z) : bool * WAV_Music :=
  let wave := set_start wave (SDL_RWtell (src wave)) in
  let wave := set_stop wave (start wave + chunk_length) in
  let '(_, s) := SDL_RWseek_cur (src wave) chunk_length in
  (true, set_src wave s).

(** [AddLoopPoint], lines 579-597.  The function does not write
    [loop->active]: the flag holds what the allocation held, here
    [junk].  The allocation is taken to succeed. *)
Definition AddLoopPoint (junk : bool) (wave : WAV_Music)
  (play_count start stop : Z) : bool * WAV_Music :=
  (true,
   set_loops wave (loops wave ++ [mkLoop junk start stop play_count play_count])).

(** The [for] loop of [ParseSMPL], lines 617-623, [todo] turns from
    record [i] on.  A [SampleLoop] record is 24 bytes, the first at
    offset 36 of the chunk, with [type] at 4, [start] at 8, [end] at 12
    and [play_count] at 20; [None] when a record lies outside the chunk
    buffer.  [junk n] is what the allocation of loop point [n] held. *)
Fixpoint smpl_loops (junk : nat -> bool) (todo : nat) (i : Z) (data : list Z)
  (wave : WAV_Music) : option WAV_Music :=
  match todo with
  | O => Some wave
  | S todo' =>
      let at_ := 36 + 24 * i in
      match load_le32 data (at_ + 4), load_le32 data (at_ + 20),
            load_le32 data (at_ + 8), load_le32 data (at_ + 12) with
      | Some loop_type, Some play_count, Some start, Some stop =>
          let wave :=
            if loop_type =? 0
            then snd (AddLoopPoint (junk (length (loops wave))) wave
                        play_count start stop)
            else wave in
          smpl_loops junk todo' (i + 1) data wave
      | _, _, _, _ => None
      end
  end.

(** [ParseSMPL], lines 599-628; [sample_loops] lies at offset 28. *)
Definition ParseSMPL (junk : nat -> bool) (wave : WAV_Music) (chunk_length : Z)
  : option (bool * WAV_Music) :=
  let '(ok, data, s) := read_chunk (src wave) chunk_length in
  let wave := set_src wave s in
  if negb ok then Some (false, wave)
  else
    match load_le32 data 28 with
    | None => None
    | Some sample_loops =>
        match smpl_loops junk (Z.to_nat sample_loops) 0 data wave with
        | None => None
        | Some wave => Some (true, wave)
        end
    end.

(** [ParseID3], lines 694-720.  The ID3 reader [id3tag] is an external
    collaborator, handed the tags, the chunk bytes and their number. *)
Definition ParseID3 (id3tag : Mix_MusicMetaTags -> list Z -> Z -> Mix_MusicMetaTags)
  (wave : WAV_Music) (chunk_length : Z) : bool * WAV_Music :=
  let '(ok, data, s) := read_chunk (src wave) chunk_length in
  let wave := set_src wave s in
  if negb ok then (false, wave)
  else if list_eq_dec Z.eq_dec (firstn 3 data) (bytes_of_string "ID3")
       then (true, set_tags wave (id3tag (tags wave) data chunk_length))
       else (false, wave).

(** How a run of a loader ends: with a result, in a read outside a
    buffer, or not within the turns allowed. *)
Inductive outcome (A : Type) :=
  | Returns (a : A)
  | Reads_outside
  | Out_of_turns.

Arguments Returns {A} a.
Arguments Reads_outside {A}.
Arguments Out_of_turns {A}.

(** The chunk loop of [LoadWAVMusic], lines 743-790, at most [turns]
    turns of it. *)
Fixpoint wav_chunks (id3tag : Mix_MusicMetaTags -> list Z -> Z -> Mix_MusicMetaTags)
  (junk : nat -> bool) (turns : nat) (wave : WAV_Music)
  (found_FMT found_DATA : bool) : outcome (bool * WAV_Music) :=
  match turns with
  | O => Out_of_turns
  | S turns' =>
      let '(chunk_type, s) := SDL_ReadLE32 (src wave) in
      let '(chunk_length, s) := SDL_ReadLE32 s in
      let wave := set_src wave s in
      if chunk_length =? 0 then
        if negb found_FMT then Returns (false, wave)
        else if negb found_DATA then Returns (false, wave)
        else Returns (true, wave)
      else if chunk_type =? FMT then
        let '(ok, wave) := ParseFMT wave chunk_length in
        if ok then wav_chunks id3tag junk turns' wave true found_DATA
        else Returns (false, wave)
      else if chunk_type =? DATA then
        let '(ok, wave) := ParseDATA wave chunk_length in
        if ok then wav_chunks id3tag junk turns' wave found_FMT true
        else Returns (false, wave)
      else if chunk_type =? SMPL then
        match ParseSMPL junk wave chunk_length with
        | None => Reads_outside
        | Some (ok, wave) =>
            if ok then wav_chunks id3tag junk turns' wave found_FMT found_DATA
            else Returns (false, wave)
        end
      else if chunk_type =? LIST then
        match ParseLIST wave chunk_length with
        | None => Reads_outside
        | Some (ok, wave) =>
            if ok then wav_chunks id3tag junk turns' wave found_FMT found_DATA
            else Returns (false, wave)
        end
      else if chunk_type =? ID3_ then
        let '(ok, wave) := ParseID3 id3tag wave chunk_length in
        if ok then wav_chunks id3tag junk turns' wave found_FMT found_DATA
        else Returns (false, wave)
      else
        let '(_, s) := SDL_RWseek_cur (src wave) chunk_length in
        wav_chunks id3tag junk turns' (set_src wave s) found_FMT found_DATA
  end.

(** [LoadWAVMusic], lines 722-791. *)
Definition LoadWAVMusic (id3tag : Mix_MusicMetaTags -> list Z -> Z -> Mix_MusicMetaTags)
  (junk : nat -> bool) (turns : nat) (wave : WAV_Music)
  : outcome (bool * WAV_Music) :=
  let wave := set_tags wave meta_tags_init in
  let '(wavelen, s) := SDL_ReadLE32 (src wave) in
  let '(WAVEmagic, s) := SDL_ReadLE32 s in
  wav_chunks id3tag junk turns (set_src wave s) false false.

(** [SANE_to_Uint32], lines 797-817, on the bytes of [sanebuf]. *)
Definition SANE_to_Uint32 (sanebuf : list Z) : Z :=
  let b := byte_at sanebuf in
  if negb (Z.land (b 0) 0x80 =? 0) then 0
  else if b 0 <=? 0x3F then 1
  else if 0x40 <? b 0 then 0x4000000
  else if (b 0 =? 0x40) && (0x1C <? b 1) then 800000000
  else
    Uint32 (Z.shiftr
              (Z.lor (Z.lor (Z.lor (Z.shiftl (b 2) 23) (Z.shiftl (b 3) 15))
                        (Z.shiftl (b 4) 7))
                 (Z.shiftr (b 5) 1))
              (29 - b 1)).

(** The locals of [LoadAIFFMusic] that the chunk loop sets. *)
Record aiff_locals := mkAiff {
  found_SSND : bool;
  found_COMM : bool;
  found_FVER : bool;
  channels : Z;
  numsamples : Z;
  aiff_samplesize : Z;
  frequency : Z;
  compressionType : Z }.

(** The [switch] of lines 875-904; [Reads_outside] when the frequency
    field is not all there, so that [SANE_to_Uint32] would read bytes
    of [sane_freq] that were never written. *)
Definition aiff_chunk (is_AIFC : bool) (chunk_type : Z) (wave : WAV_Music)
  (st : aiff_locals) : outcome (WAV_Music * aiff_locals) :=
  if chunk_type =? SSND then
    let '(offset, s) := SDL_ReadBE32 (src wave) in
    let '(blocksize, s) := SDL_ReadBE32 s in
    let wave := set_start (set_src wave s) (SDL_RWtell s + offset) in
    Returns (wave,
             mkAiff true (found_COMM st) (found_FVER st) (channels st)
               (numsamples st) (aiff_samplesize st) (frequency st)
               (compressionType st))
  else if chunk_type =? FVER then
    let '(AIFCVersion1, s) := SDL_ReadBE32 (src wave) in
    Returns (set_src wave s,
             mkAiff (found_SSND st) (found_COMM st) true (channels st)
               (numsamples st) (aiff_samplesize st) (frequency st)
               (compressionType st))
  else if chunk_type =? COMM then
    let '(channels', s) := SDL_ReadBE16 (src wave) in
    let '(numsamples', s) := SDL_ReadBE32 s in
    let '(samplesize', s) := SDL_ReadBE16 s in
    let '(sane_freq, s) := SDL_RWread s 10 in
    if negb (length sane_freq =? 10)%nat then Reads_outside
    else
      let frequency' := SANE_to_Uint32 sane_freq in
      let '(compressionType', s) :=
        if is_AIFC then SDL_ReadLE32 s else (compressionType st, s) in
      Returns (set_src wave s,
               mkAiff (found_SSND st) true (found_FVER st) channels'
                 numsamples' samplesize' frequency' compressionType')
  else Returns (wave, st).

(** The [do ... while] loop of lines 866-906, at most [turns] turns. *)
Fixpoint aiff_chunks (turns : nat) (is_AIFC : bool) (wave : WAV_Music)
  (st : aiff_locals) : outcome (WAV_Music * aiff_locals) :=
  match turns with
  | O => Out_of_turns
  | S turns' =>
      let '(chunk_type, s) := SDL_ReadLE32 (src wave) in
      let '(chunk_length, s) := SDL_ReadBE32 s in
      let next_chunk := SDL_RWtell s + chunk_length in
      let wave := set_src wave s in
      if chunk_length =? 0 then Returns (wave, st)
      else
        match aiff_chunk is_AIFC chunk_type wave st with
        | Returns (wave, st) =>
            if negb (found_SSND st) || negb (found_COMM st)
               || (is_AIFC && negb (found_FVER st))
            then
              let '(r, s) := SDL_RWseek (src wave) next_chunk in
              if r =? -1 then Returns (set_src wave s, st)
              else aiff_chunks turns' is_AIFC (set_src wave s) st
            else Returns (wave, st)
        | Reads_outside => Reads_outside
        | Out_of_turns => Out_of_turns
        end
  end.

(** The [switch] of lines 924-978: the instance with strategy and
    encoding set, and the format; [None] at [unsupported_format]. *)
Definition aiff_format (is_AIFC : bool) (samplesize compressionType : Z)
  (wave : WAV_Music) : WAV_Music * option Z :=
  if samplesize =? 8 then
    if negb is_AIFC then (wave, Some AUDIO_S8)
    else if compressionType =? raw_ then (wave, Some AUDIO_U8)
    else if compressionType =? sowt then (wave, Some AUDIO_S8)
    else if compressionType =? ulaw then
      (set_decode (set_encoding wave uLAW_CODE) Fetch_ulaw, Some AUDIO_S16LSB)
    else if compressionType =? alaw then
      (set_decode (set_encoding wave ALAW_CODE) Fetch_alaw, Some AUDIO_S16LSB)
    else (wave, None)
  else if samplesize =? 16 then
    if negb is_AIFC then (wave, Some AUDIO_S16MSB)
    else if compressionType =? sowt then (wave, Some AUDIO_S16LSB)
    else if compressionType =? NONE then (wave, Some AUDIO_S16MSB)
    else (wave, None)
  else if samplesize =? 24 then
    let wave := set_decode (set_encoding wave PCM_CODE) Fetch_pcm24be in
    if negb is_AIFC then (wave, Some AUDIO_S32MSB)
    else if compressionType =? sowt then (wave, Some AUDIO_S32LSB)
    else if compressionType =? NONE then (wave, Some AUDIO_S32MSB)
    else (wave, None)
  else if samplesize =? 32 then
    if negb is_AIFC then (wave, Some AUDIO_S32MSB)
    else if compressionType =? sowt then (wave, Some AUDIO_S32LSB)
    else if compressionType =? NONE then (wave, Some AUDIO_S32MSB)
    else if compressionType =? fl32 then (wave, Some AUDIO_F32MSB)
    else (wave, None)
  else (wave, None).

(** [LoadAIFFMusic], lines 819-986.  The products of lines 918-919 are
    formed in [int] and in [Uint32]. *)
Definition LoadAIFFMusic (turns : nat) (wave : WAV_Music)
  : outcome (bool * WAV_Music) :=
  let '(chunk_length, s) := SDL_ReadBE32 (src wave) in
  let '(AIFFmagic, s) := SDL_ReadLE32 s in
  let wave := set_src wave s in
  if negb (AIFFmagic =? AIFF) && negb (AIFFmagic =? AIFC)
  then Returns (false, wave)
  else
    let is_AIFC := AIFFmagic =? AIFC in
    match aiff_chunks turns is_AIFC wave
            (mkAiff false false false 0 0 0 0 0) with
    | Reads_outside => Reads_outside
    | Out_of_turns => Out_of_turns
    | Returns (wave, st) =>
        if negb (found_SSND st) then Returns (false, wave)
        else if negb (found_COMM st) then Returns (false, wave)
        else
          let bytes := Z.quot (aiff_samplesize st) 8 in
          let wave := set_samplesize wave (Sint32 (channels st * bytes)) in
          let wave :=
            set_stop wave
              (start wave
               + Uint32 (Uint32 (channels st * numsamples st) * bytes)) in
          let wave :=
            set_spec wave (mkSpec (Sint32 (frequency st)) 0 0 0 0) in
          match aiff_format is_AIFC (aiff_samplesize st) (compressionType st) wave with
          | (wave, None) => Returns (false, wave)
          | (wave, Some f) =>
              Returns
                (true,
                 set_spec wave
                   (calculate_spec (set_format (spec wave) f) (channels st)))
          end
    end.

(** [WAV_CreateFromRW], lines 149-193: [Returns (true, music)] for the
    new instance, [Returns (false, _)] for [NULL].  The instance starts
    zeroed (the allocation of the instance itself is taken to succeed).
    [SDL_malloc n] is what the allocation of the scratch buffer gives:
    the [n] bytes a fresh block holds, or [None] for [NULL].
    [SDL_NewAudioStream format channels freq] tells whether the queue
    can be made for this source format (the target format is a global
    of the mixer); a new queue is empty. *)
Definition WAV_CreateFromRW
  (id3tag : Mix_MusicMetaTags -> list Z -> Z -> Mix_MusicMetaTags)
  (junk : nat -> bool) (SDL_malloc : Z -> option (list Z))
  (SDL_NewAudioStream : Z -> Z -> Z -> bool) (turns : nat)
  (src : SDL_RWops) : outcome (bool * WAV_Music) :=
  let music :=
    mkMusic src (mkSpec 0 0 0 0 0) 0 0 0 0 [] [] []
      (mkTags None None None None) PCM_CODE Fetch_pcm in
  let '(magic, s) := SDL_ReadLE32 src in
  let music := set_src music s in
  let loaded :=
    if (magic =? RIFF) || (magic =? WAVE)
    then LoadWAVMusic id3tag junk turns music
    else if magic =? FORM then LoadAIFFMusic turns music
    else Returns (false, music) in
  match loaded with
  | Returns (true, music) =>
      match SDL_malloc (spec_size (spec music)) with
      | None => Returns (false, music)
      | Some block =>
          let music := set_buffer music block in
          if SDL_NewAudioStream (spec_format (spec music))
               (spec_channels (spec music)) (spec_freq (spec music))
          then Returns (true, set_stream music [])
          else Returns (false, music)
      end
  | other => other
  end.

(** The 64-bit mantissa of a 10-byte extended-precision number: bytes 2
    to 9, most significant first.  With the sign clear and exponent
    field [e] (bytes 0 and 1) the number is [mantissa * 2 ^ (e - 16383 - 63)]. *)
Definition sane_mantissa (sanebuf : list Z) : Z :=
  be32 sanebuf 2 * 2 ^ 32 + be32 sanebuf 6.

(** The combinations [ParseFMT] takes: encoding, bits per sample, and
    the strategy and output format they select. *)
Definition fmt_table : list (Z * Z * decoder * Z) :=
  [(PCM_CODE, 8, Fetch_pcm, AUDIO_U8);
   (PCM_CODE, 16, Fetch_pcm, AUDIO_S16);
   (PCM_CODE, 32, Fetch_pcm, AUDIO_S32);
   (FLOAT_CODE, 32, Fetch_pcm, AUDIO_F32);
   (ALAW_CODE, 8, Fetch_alaw, AUDIO_S16);
   (uLAW_CODE, 8, Fetch_ulaw, AUDIO_S16)].

(** The payload of a chunk of [chunk_length] bytes at the cursor. *)
Definition chunk_payload (wave : WAV_Music) (chunk_length : Z) : list Z :=
  source_bytes wave (cursor wave) (cursor wave + chunk_length).

(** A format chunk: PCM, 2 channels, 44100 Hz, 16 bits. *)
Definition demo_fmt_chunk : list Z :=
  [1; 0; 2; 0; 0x44; 0xAC; 0; 0; 0x10; 0xB1; 2; 0; 4; 0; 16; 0].

Definition demo_fmt_wave : WAV_Music :=
  mkMusic (mkRW demo_fmt_chunk 0) (mkSpec 0 0 0 0 0) 0 0 0 0 [] [] []
    meta_tags_init PCM_CODE Fetch_pcm.

(** *** Chunks as a file stores them *)

(** The four bytes of a 32-bit value, least significant first. *)
Definition le32_bytes (v : Z) : list Z :=
  [v mod 2 ^ 8; (v / 2 ^ 8) mod 2 ^ 8; (v / 2 ^ 16) mod 2 ^ 8;
   (v / 2 ^ 24) mod 2 ^ 8].

(** The [SampleLoop] record of the source, and its 24 bytes. *)
Record SampleLoop := mkSampleLoop {
  sl_identifier : Z;
  sl_type : Z;
  sl_start : Z;
  sl_end : Z;
  sl_fraction : Z;
  sl_play_count : Z }.

Definition sample_loop_bytes (r : SampleLoop) : list Z :=
  le32_bytes (sl_identifier r) ++ le32_bytes (sl_type r)
  ++ le32_bytes (sl_start r) ++ le32_bytes (sl_end r)
  ++ le32_bytes (sl_fraction r) ++ le32_bytes (sl_play_count r).

Definition sample_loop_fits (r : SampleLoop) : Prop :=
  0 <= sl_type r < 2 ^ 32 /\ 0 <= sl_start r < 2 ^ 32 /\
  0 <= sl_end r < 2 ^ 32 /\ 0 <= sl_play_count r < 2 ^ 32.

(** A [SamplerChunk]: the 28 bytes of the first seven fields, the number
    of records, [sampler_data], the records, and what may follow. *)
Definition smpl_chunk (fields : list Z) (sampler_data : Z)
  (records : list SampleLoop) (rest : list Z) : list Z :=
  fields ++ le32_bytes (Z.of_nat (length records)) ++ le32_bytes sampler_data
  ++ concat (map sample_loop_bytes records) ++ rest.

(** The loop points [ParseSMPL] is to add for the records, as Play
    leaves them. *)
Definition forward_loops (records : list SampleLoop) : list WAVLoopPoint :=
  map (fun r => mkLoop true (sl_start r) (sl_end r)
                  (sl_play_count r) (sl_play_count r))
    (filter (fun r => sl_type r =? 0) records).

(** A sample-loop chunk with a forward record over frames 100..199, to
    be played 3 times, and a record of type 1. *)
Definition demo_smpl_records : list SampleLoop :=
  [mkSampleLoop 0 0 100 199 0 3; mkSampleLoop 1 1 5 6 0 2].

Definition demo_smpl_wave : WAV_Music :=
  mkMusic (mkRW (smpl_chunk (repeat 0 28) 0 demo_smpl_records []) 0)
    (mkSpec 0 0 0 0 0) 0 0 0 0 [] [] []
    meta_tags_init PCM_CODE Fetch_pcm.

(** The sub-tag of each kind of field in an INFO list. *)
Definition info_tag (t : Mix_MusicMetaTag) : string :=
  match t with
  | MIX_META_TITLE => "INAM"
  | MIX_META_ARTIST => "IART"
  | MIX_META_ALBUM => "IALB"
  | MIX_META_COPYRIGHT => "BCPR"
  end.

(** A field as a file stores it: sub-tag, length, and the text with its
    closing NUL, which the length counts. *)
Definition info_record (field : Mix_MusicMetaTag * list Z) : list Z :=
  bytes_of_string (info_tag (fst field))
  ++ le32_bytes (Z.of_nat (length (snd field)) + 1)
  ++ snd field ++ [0].

Definition info_chunk (fields : list (Mix_MusicMetaTag * list Z)) : list Z :=
  bytes_of_string "INFO" ++ concat (map info_record fields).

(** The tags after the fields were set one after the other. *)
Definition set_fields (tags : Mix_MusicMetaTags)
  (fields : list (Mix_MusicMetaTag * list Z)) : Mix_MusicMetaTags :=
  fold_left (fun tags field => meta_tags_set tags (fst field) (snd field))
    fields tags.

Definition demo_info_fields : list (Mix_MusicMetaTag * list Z) :=
  [(MIX_META_TITLE, bytes_of_string "Song"); (MIX_META_ARTIST, bytes_of_string "Me");
   (MIX_META_TITLE, bytes_of_string "Song 2")].

Definition demo_fields_wave : WAV_Music :=
  mkMusic (mkRW (info_chunk demo_info_fields) 0)
    (mkSpec 0 0 0 0 0) 0 0 0 0 [] [] []
    meta_tags_init PCM_CODE Fetch_pcm.

(** [s'] is [s] with the cursor moved on, or left. *)
Definition moved_on (s s' : SDL_RWops) : Prop :=
  rw_data s' = rw_data s /\ rw_pos s <= rw_pos s'.

(** The two bytes of a 16-bit value, least significant first. *)
Definition le16_bytes (v : Z) : list Z := [v mod 2 ^ 8; (v / 2 ^ 8) mod 2 ^ 8].

(** A chunk record: tag, length of the payload, payload. *)
Definition chunk_record (tag : Z) (payload : list Z) : list Z :=
  le32_bytes tag ++ le32_bytes (Z.of_nat (length payload)) ++ payload.

(** The 16 bytes of a [WaveFMT]. *)
Definition fmt_payload (encoding channels frequency byterate blockalign
                          bitspersample : Z) : list Z :=
  le16_bytes encoding ++ le16_bytes channels ++ le32_bytes frequency
  ++ le32_bytes byterate ++ le16_bytes blockalign ++ le16_bytes bitspersample.

(** A WAVE file of a format chunk and a data chunk. *)
Definition wav_file (wavelen : Z) (fmt payload : list Z) : list Z :=
  le32_bytes RIFF ++ le32_bytes wavelen ++ le32_bytes WAVE
  ++ chunk_record FMT fmt ++ chunk_record DATA payload.

(** What [ParseFMT] sets, and what [ParseDATA] sets. *)
Definition format_part (w : WAV_Music) :=
  (encoding w, decode w, spec w, samplesize w).

Definition region_part (w : WAV_Music) := (start w, stop w).

(** The format of an instance hangs together: strategy and output
    format are a row of the table, the frame size is that of the row,
    and one fetch of [spec.size] bytes is 4096 frames. *)
Definition format_consistent (w : WAV_Music) : Prop :=
  (exists bits,
     In (encoding w, bits, decode w, spec_format (spec w)) fmt_table /\
     samplesize w = spec_channels (spec w) * Z.quot bits 8) /\
  spec_samples (spec w) = 4096 /\
  0 <= spec_channels (spec w) < 256 /\
  spec_size (spec w) = 4096 * bytes_per_sample w /\
  source_request (decode w) (spec_size (spec w)) = 4096 * samplesize w.

(** The chunk walk so far: a format chunk was taken only if the format
    is consistent, a data chunk only if the region is not empty, begins
    after [origin] and ends at or before the cursor. *)
Definition walk_invariant (origin : Z) (found_FMT found_DATA : bool)
  (w : WAV_Music) : Prop :=
  (found_FMT = true -> format_consistent w) /\
  (found_DATA = true ->
   origin < start w < stop w /\ stop w - start w < 2 ^ 32 /\
   stop w <= cursor w).

(** A WAVE file: PCM, 2 channels, 44100 Hz, 16 bits, one frame of data;
    and the instance [WAV_CreateFromRW] hands to [LoadWAVMusic] for
    it. *)
Definition demo_wav_file : list Z :=
  wav_file 0 (fmt_payload 1 2 44100 0 0 16) [1; 2; 3; 4].

Definition demo_wav_wave : WAV_Music :=
  mkMusic (mkRW demo_wav_file 4) (mkSpec 0 0 0 0 0) 0 0 0 0 [] [] []
    (mkTags None None None None) PCM_CODE Fetch_pcm.

(** The bytes of a 16-bit and of a 32-bit value, most significant
    first. *)
Definition be16_bytes (v : Z) : list Z := [(v / 2 ^ 8) mod 2 ^ 8; v mod 2 ^ 8].

Definition be32_bytes (v : Z) : list Z :=
  [(v / 2 ^ 24) mod 2 ^ 8; (v / 2 ^ 16) mod 2 ^ 8; (v / 2 ^ 8) mod 2 ^ 8;
   v mod 2 ^ 8].

(** An AIFF file of a common chunk and a sound-data chunk with offset 0:
    [sane] is the 10-byte sample rate. *)
Definition aiff_file (formlen channels numsamples bits : Z) (sane : list Z)
  (blocksize : Z) (payload : list Z) : list Z :=
  le32_bytes FORM ++ be32_bytes formlen ++ le32_bytes AIFF
  ++ (le32_bytes COMM ++ be32_bytes 18
      ++ be16_bytes channels ++ be32_bytes numsamples ++ be16_bytes bits
      ++ sane)
  ++ (le32_bytes SSND ++ be32_bytes (8 + Z.of_nat (length payload))
      ++ be32_bytes 0 ++ be32_bytes blocksize ++ payload).

(** The sample sizes [LoadAIFFMusic] takes in a file that is not AIFC,
    with the strategy and output format they select. *)
Definition aiff_table : list (Z * decoder * Z) :=
  [(8, Fetch_pcm, AUDIO_S8); (16, Fetch_pcm, AUDIO_S16MSB);
   (24, Fetch_pcm24be, AUDIO_S32MSB); (32, Fetch_pcm, AUDIO_S32MSB)].

(** *** Notions for a law-expansion session *)

(** The 16-bit samples of the bytes, low byte first. *)
Definition expand (decode_sample : Z -> Z) (bytes : list Z) : list Z :=
  flat_map
    (fun b => [sample_lo decode_sample b; sample_hi decode_sample b]) bytes.

(** The strategy of the instance is the expansion with [decode_sample]. *)
Definition decodes_with (decode_sample : Z -> Z) (m : WAV_Music) : Prop :=
  (decode m = Fetch_ulaw /\ decode_sample = uLAW_To_PCM16) \/
  (decode m = Fetch_alaw /\ decode_sample = ALAW_To_PCM16).

(** The instances of a law-expansion session over one channel, without
    loop points. *)
Definition law_session (decode_sample : Z -> Z) (m : WAV_Music) : Prop :=
  decodes_with decode_sample m /\ samplesize m = 1 /\ loops m = [] /\
  2 <= spec_size (spec m) < 2 ^ 31 /\
  spec_size (spec m) <= Z.of_nat (length (buffer m)) /\
  0 <= start m <= stop m /\
  stop m <= Z.of_nat (length (rw_data (src m))) /\
  start m <= cursor m <= stop m /\
  0 <= play_count m.

(** What such a session still hands out: the queue, the samples of the
    rest of the pass but for its last byte, and the passes to come,
    each without the last byte of the region. *)
Definition law_owed (decode_sample : Z -> Z) (m : WAV_Music) : list Z :=
  stream m
  ++ (if play_count m =? 0 then []
      else expand decode_sample (source_bytes m (cursor m) (stop m - 1))
           ++ concat (repeat
                        (expand decode_sample
                           (source_bytes m (start m) (stop m - 1)))
                        (Z.to_nat (play_count m - 1)))).

(** A bound on the calls still to come. *)
Definition law_calls_left (m : WAV_Music) : Z :=
  Z.of_nat (length (stream m))
  + (if play_count m =? 0 then 0
     else 3 * (stop m - cursor m) + 1
          + (play_count m - 1) * (3 * (stop m - start m) + 1)).

(** ** A direct-copy session with one loop point *)

(** One pass from [pos] on, when the window [lo, hi) is to be played
    [c] times in all: the bytes up to the window end, the window
    [c - 1] times more, and the bytes after it. *)
Definition pass_from (m : WAV_Music) (lo hi c pos : Z) : list Z :=
  source_bytes m pos hi
  ++ concat (repeat (source_bytes m lo hi) (Z.to_nat (c - 1)))
  ++ source_bytes m hi (stop m).

(** What such a session owes the caller beyond the queue: the rest of
    the current pass and the passes to come, each with the loop point
    re-armed. *)
Definition loop_rest (m : WAV_Music) : list Z :=
  if play_count m =? 0 then []
  else match loops m with
       | [loop] =>
           let lo := loop_start m loop in
           let hi := loop_stop m loop in
           (if lp_active loop
            then pass_from m lo hi (lp_current_play_count loop) (cursor m)
            else source_bytes m (cursor m) (stop m))
           ++ concat (repeat (pass_from m lo hi (lp_initial_play_count loop)
                                (start m))
                        (Z.to_nat (play_count m - 1)))
       | _ => []
       end.

Definition loop_owed (m : WAV_Music) : list Z := stream m ++ loop_rest m.

(** The instances of a direct-copy session with one loop point whose
    window is at least one fetch long and ends inside the region: while
    the loop point is active the cursor is before the window end, once
    it is switched off the cursor is behind it. *)
Definition loop_session (m : WAV_Music) : Prop :=
  decode m = Fetch_pcm /\
  0 < spec_size (spec m) < 2 ^ 31 /\
  0 <= start m /\
  stop m <= Z.of_nat (length (rw_data (src m))) /\
  0 <= play_count m /\
  exists loop,
    loops m = [loop] /\
    spec_size (spec m) <= loop_stop m loop - loop_start m loop /\
    loop_stop m loop <= stop m /\
    1 <= lp_initial_play_count loop < 2 ^ 32 /\
    if lp_active loop
    then start m <= cursor m < loop_stop m loop /\
         1 <= lp_current_play_count loop < 2 ^ 32
    else loop_stop m loop <= cursor m <= stop m /\
         (play_count m <> 0 -> cursor m < stop m).

(** A bound on the calls still to come. *)
Definition loop_calls_left (m : WAV_Music) : Z :=
  Z.of_nat (length (stream m)) + 2 * Z.of_nat (length (loop_rest m))
  + play_count m.

(** Every loop window ends at or before the region stop. *)
Definition windows_inside (m : WAV_Music) : Prop :=
  Forall (fun loop => loop_stop m loop <= stop m) (loops m).

(** An AIFC file of a version chunk, a common chunk and a sound-data
    chunk with offset 0: [compression] is the compression type and
    [name] the bytes of the compression name that follow it. *)
Definition aifc_file (formlen version channels numsamples bits : Z)
  (sane : list Z) (compression : Z) (name : list Z) (blocksize : Z)
  (payload : list Z) : list Z :=
  le32_bytes FORM ++ be32_bytes formlen ++ le32_bytes AIFC
  ++ (le32_bytes FVER ++ be32_bytes 4 ++ be32_bytes version)
  ++ (le32_bytes COMM ++ be32_bytes (22 + Z.of_nat (length name))
      ++ be16_bytes channels ++ be32_bytes numsamples ++ be16_bytes bits
      ++ sane ++ le32_bytes compression ++ name)
  ++ (le32_bytes SSND ++ be32_bytes (8 + Z.of_nat (length payload))
      ++ be32_bytes 0 ++ be32_bytes blocksize ++ payload).

(** The sample sizes and compression types [LoadAIFFMusic] takes in an
    AIFC file, with the encoding, strategy and output format they
    select. *)
Definition aifc_table : list (Z * Z * Z * decoder * Z) :=
  [(8, raw_, PCM_CODE, Fetch_pcm, AUDIO_U8);
   (8, sowt, PCM_CODE, Fetch_pcm, AUDIO_S8);
   (8, ulaw, uLAW_CODE, Fetch_ulaw, AUDIO_S16LSB);
   (8, alaw, ALAW_CODE, Fetch_alaw, AUDIO_S16LSB);
   (16, sowt, PCM_CODE, Fetch_pcm, AUDIO_S16LSB);
   (16, NONE, PCM_CODE, Fetch_pcm, AUDIO_S16MSB);
   (24, sowt, PCM_CODE, Fetch_pcm24be, AUDIO_S32LSB);
   (24, NONE, PCM_CODE, Fetch_pcm24be, AUDIO_S32MSB);
   (32, sowt, PCM_CODE, Fetch_pcm, AUDIO_S32LSB);
   (32, NONE, PCM_CODE, Fetch_pcm, AUDIO_S32MSB);
   (32, fl32, PCM_CODE, Fetch_pcm, AUDIO_F32MSB)].

(** A WAVE file of a format chunk, a data chunk and, behind it, a
    sample-loop chunk with the one record [r]. *)
Definition looped_wav_file (wavelen : Z) (fmt payload fields : list Z)
  (sampler_data : Z) (r : SampleLoop) : list Z :=
  wav_file wavelen fmt payload
  ++ chunk_record SMPL (smpl_chunk fields sampler_data [r] []).

(** * Properties *)

(** ** G.711 *)

Lemma all_bytes_spec (p : Z -> bool) :
  all_bytes p = true -> forall b, 0 <= b < 256 -> p b = true.
Proof.
  unfold all_bytes. intros H b Hb.
  rewrite forallb_forall in H.
  specialize (H (Z.to_nat b)).
  rewrite Z2Nat.id in H by lia.
  apply H. apply in_seq. lia.
Qed.

Lemma Uint8_range z : 0 <= Uint8 z < 256.
Proof. unfold Uint8. apply Z.mod_pos_bound. reflexivity. Qed.

Lemma Uint8_idem z : Uint8 (Uint8 z) = Uint8 z.
Proof. unfold Uint8. apply Z.mod_mod. discriminate. Qed.

Lemma uLAW_To_PCM16_Uint8 u : uLAW_To_PCM16 (Uint8 u) = uLAW_To_PCM16 u.
Proof. unfold uLAW_To_PCM16. now rewrite Uint8_idem. Qed.

Lemma ALAW_To_PCM16_Uint8 a : ALAW_To_PCM16 (Uint8 a) = ALAW_To_PCM16 a.
Proof. unfold ALAW_To_PCM16. now rewrite Uint8_idem. Qed.

Lemma ulaw_reconstruct_Uint8 u : ulaw_reconstruct (Uint8 u) = ulaw_reconstruct u.
Proof.
  unfold ulaw_reconstruct, Uint8. change (2 ^ 8) with 256.
  now rewrite Z.mod_mod by discriminate.
Qed.

Lemma alaw_reconstruct_Uint8 a : alaw_reconstruct (Uint8 a) = alaw_reconstruct a.
Proof.
  unfold alaw_reconstruct, Uint8. change (2 ^ 8) with 256.
  now rewrite Z.mod_mod by discriminate.
Qed.

Lemma uLAW_To_PCM16_reconstruct u : uLAW_To_PCM16 u = ulaw_reconstruct u.
Proof.
  rewrite <- uLAW_To_PCM16_Uint8, <- ulaw_reconstruct_Uint8.
  pose proof (Uint8_range u) as Hr.
  apply Z.eqb_eq.
  apply (all_bytes_spec (fun b => uLAW_To_PCM16 b =? ulaw_reconstruct b));
    [vm_compute; reflexivity | exact Hr].
Qed.

Lemma ALAW_To_PCM16_reconstruct a : ALAW_To_PCM16 a = alaw_reconstruct a.
Proof.
  rewrite <- ALAW_To_PCM16_Uint8, <- alaw_reconstruct_Uint8.
  pose proof (Uint8_range a) as Hr.
  apply Z.eqb_eq.
  apply (all_bytes_spec (fun b => ALAW_To_PCM16 b =? alaw_reconstruct b));
    [vm_compute; reflexivity | exact Hr].
Qed.

Lemma ALAW_To_PCM16_nonzero a : ALAW_To_PCM16 a <> 0.
Proof.
  rewrite <- ALAW_To_PCM16_Uint8.
  pose proof (Uint8_range a) as Hr.
  intro H0.
  assert (negb (ALAW_To_PCM16 (Uint8 a) =? 0) = true) as Hn.
  { apply (all_bytes_spec (fun b => negb (ALAW_To_PCM16 b =? 0)));
      [vm_compute; reflexivity | exact Hr]. }
  rewrite H0 in Hn. discriminate.
Qed.

(** C6.  The mu-law expansion of the silence codepoint 0xFF is the
    sample 0, and on every byte the expansion equals the reconstruction
    (((quantization << 3) + BIAS) << segment) - BIAS with BIAS = 0x84,
    signed by the complemented byte's top bit. *)
Theorem uLAW_silence_is_zero :
  uLAW_To_PCM16 0xFF = 0 /\
  BIAS = 0x84 /\
  forall u, uLAW_To_PCM16 u = ulaw_reconstruct u.
Proof.
  split; [reflexivity | split; [reflexivity | ]].
  exact uLAW_To_PCM16_reconstruct.
Qed.

(** C5 as stated fails: the A-law expansion of 0xD5 is not the sample 0. *)
Lemma ALAW_D5_not_zero : ALAW_To_PCM16 0xD5 <> 0.
Proof. vm_compute. discriminate. Qed.

(** C5, amended.  The A-law expansion of 0xD5 is the sample 8, the
    smallest positive level (segment 0, quantization 0, magnitude
    (0 << 4) + 8); its mirror 0x55 gives -8, and no byte expands to 0. *)
Theorem ALAW_D5_is_eight :
  ALAW_To_PCM16 0xD5 = 8 /\
  ALAW_To_PCM16 0x55 = -8 /\
  (forall a, ALAW_To_PCM16 a = alaw_reconstruct a) /\
  (forall a, ALAW_To_PCM16 a <> 0).
Proof.
  split; [reflexivity | split; [reflexivity | split]].
  - exact ALAW_To_PCM16_reconstruct.
  - exact ALAW_To_PCM16_nonzero.
Qed.

(** ** Seeking *)

Lemma binary_round_aux_sign s m e l :
  sf_sign_is s (binary_round_aux prec emax s m e l).
Proof.
  unfold binary_round_aux.
  destruct (shr_fexp prec emax m e l) as [mrs' e'].
  destruct (shr_fexp prec emax _ e' loc_Exact) as [mrs'' e''].
  destruct (shr_m mrs''); simpl; auto.
  destruct (e'' <=? _); simpl; auto.
Qed.

Lemma SFmul_sign a b x y :
  sf_sign_is a x -> sf_sign_is b y ->
  sf_sign_is (xorb a b) (SF64mul x y).
Proof.
  unfold SF64mul, SFmul.
  destruct x, y; simpl; intros; subst; auto.
  apply binary_round_aux_sign.
Qed.

Lemma double_of_Z_sign z :
  0 <= z -> sf_sign_is false (Prim2SF (double_of_Z z)).
Proof.
  intros Hz. unfold double_of_Z.
  destruct (z <? 0) eqn:E; [apply Z.ltb_lt in E; lia | ].
  rewrite of_uint63_spec.
  pose proof (Uint63.to_Z_bounded (Uint63.of_Z z)) as Hb.
  unfold binary_normalize.
  destruct (Uint63.to_Z (Uint63.of_Z z)) as [ | p | p ]; simpl; auto.
  - unfold binary_round. destruct (shl_align p 0 _).
    apply binary_round_aux_sign.
  - lia.
Qed.

Lemma negative_double_sign (position : float) :
  PrimFloat.ltb position 0%float = true ->
  sf_sign_is true (Prim2SF position).
Proof.
  rewrite ltb_spec.
  change (Prim2SF 0%float) with (S754_zero false).
  destruct (Prim2SF position) as [ s | s | | s m e ]; simpl; auto;
    destruct s; simpl; auto; discriminate.
Qed.

Lemma truncated_nonpos f v :
  sf_sign_is true (Prim2SF f) -> truncated f = Some v -> v <= 0.
Proof.
  unfold truncated.
  destruct (Prim2SF f) as [ s | s | | s m e ]; intros Hs Hv;
    try discriminate.
  - inversion Hv. lia.
  - cbn in Hs. subst s.
    destruct (andb _ _); [ | discriminate].
    inversion Hv.
    assert (0 <= if 0 <=? e then Z.shiftl (Z.pos m) e else Z.shiftr (Z.pos m) (- e)).
    { destruct (0 <=? e); [apply Z.shiftl_nonneg | apply Z.shiftr_nonneg]; lia. }
    lia.
Qed.

Lemma truncated_range f v :
  truncated f = Some v -> - 2 ^ 63 <= v < 2 ^ 63.
Proof.
  unfold truncated.
  destruct (Prim2SF f) as [ s | s | | s m e ]; intros Hv; try discriminate.
  - inversion Hv. lia.
  - destruct (andb _ _) eqn:E; [ | discriminate].
    inversion Hv. subst v.
    apply andb_true_iff in E. destruct E as [E1 E2].
    apply Z.leb_le in E1. apply Z.ltb_lt in E2. lia.
Qed.

Lemma double_to_Sint64_range f : - 2 ^ 63 <= double_to_Sint64 f < 2 ^ 63.
Proof.
  unfold double_to_Sint64.
  destruct (truncated f) as [v | ] eqn:E; [exact (truncated_range f v E) | lia].
Qed.

(** The offset of a negative seconds argument is never positive,
    whether the product converts or not. *)
Lemma seek_offset_negative music position :
  PrimFloat.ltb position 0%float = true ->
  0 <= spec_freq (spec music) -> 0 <= samplesize music ->
  - 2 ^ 63 <= seek_offset music position <= 0.
Proof.
  intros Hneg Hf Hs. unfold seek_offset.
  split; [apply double_to_Sint64_range | ].
  unfold double_to_Sint64.
  destruct (truncated (seek_product music position)) as [v | ] eqn:Ho; [ | lia].
  apply (truncated_nonpos _ _) in Ho; auto.
  unfold seek_product. rewrite !mul_spec.
  change true with (xorb (xorb true false) false).
  apply SFmul_sign; [apply SFmul_sign | ];
    auto using negative_double_sign, double_of_Z_sign.
Qed.

Lemma Sint64_small z : - 2 ^ 63 <= z < 2 ^ 63 -> Sint64 z = z.
Proof.
  intros Hz. unfold Sint64, to_signed.
  change (2 ^ (64 - 1)) with (2 ^ 63).
  destruct (Z_lt_le_dec z 0).
  - rewrite <- (Z.mod_add z 1 (2 ^ 64)) by discriminate.
    rewrite Z.mod_small by lia.
    destruct (z + 1 * 2 ^ 64 <? 2 ^ 63) eqn:E;
      [apply Z.ltb_lt in E; lia | lia].
  - rewrite Z.mod_small by lia.
    destruct (z <? 2 ^ 63) eqn:E; [reflexivity | apply Z.ltb_ge in E; lia].
Qed.




(** C10 as stated fails: a negative seconds argument whose product
    truncates to 0 is accepted, but the cursor is put at the region
    start, not before it. *)
Lemma WAV_Seek_negative_lands_on_start :
  PrimFloat.ltb (-0x1p-30)%float 0%float = true /\
  ~ (forall music',
       WAV_Seek demo_music (-0x1p-30)%float = (0, music') ->
       SDL_RWtell (src music') < start demo_music).
Proof.
  split; [vm_compute; reflexivity | ].
  intros H.
  specialize (H (set_src demo_music (mkRW demo_file 44))
                ltac:(vm_compute; reflexivity)).
  vm_compute in H. discriminate.
Qed.

(** C10, amended.  Seek returns -1 exactly when the computed target
    strictly exceeds the region stop, and no lower bound is checked: for
    every negative seconds argument, finite or not (frequency and frame
    size not negative, region start a 64-bit offset that is not negative
    and not after the stop), the target is at or before the region
    start, Seek returns 0, and the reposition is requested at that
    target without looking at its outcome.  The cursor ends on the
    target when the target is not negative, and stays where it was when
    the source refuses a negative target. *)
Theorem WAV_Seek_no_lower_bound :
  forall music position,
    let destpos := Sint64 (start music + seek_offset music position) in
    (fst (WAV_Seek music position) = -1 <-> stop music < destpos) /\
    (PrimFloat.ltb position 0%float = true ->
     0 <= spec_freq (spec music) -> 0 <= samplesize music ->
     0 <= start music <= stop music -> start music < 2 ^ 63 ->
     destpos = start music + seek_offset music position /\
     destpos <= start music /\
     WAV_Seek music position =
       (0, set_src music (snd (SDL_RWseek (src music) destpos))) /\
     (0 <= destpos ->
        SDL_RWtell (snd (SDL_RWseek (src music) destpos)) = destpos) /\
     (destpos < 0 -> snd (SDL_RWseek (src music) destpos) = src music)).
Proof.
  intros music position destpos. split.
  - unfold WAV_Seek. fold destpos.
    destruct (stop music <? destpos) eqn:E.
    + apply Z.ltb_lt in E. simpl. tauto.
    + apply Z.ltb_ge in E.
      destruct (SDL_RWseek (src music) destpos) as [r s]. simpl.
      split; [discriminate | lia].
  - intros Hneg Hf Hs Hr Hstart.
    pose proof (seek_offset_negative _ _ Hneg Hf Hs) as Hoff.
    assert (destpos = start music + seek_offset music position) as Hd.
    { unfold destpos. apply Sint64_small. lia. }
    split; [exact Hd | ]. split; [lia | ].
    split; [ | split].
    + unfold WAV_Seek. fold destpos.
      destruct (stop music <? destpos) eqn:E; [apply Z.ltb_lt in E; lia | ].
      destruct (SDL_RWseek (src music) destpos) as [r s]. reflexivity.
    + intros Hpos. unfold SDL_RWseek.
      destruct (destpos <? 0) eqn:E; [apply Z.ltb_lt in E; lia | reflexivity].
    + intros Hlt. unfold SDL_RWseek.
      apply Z.ltb_lt in Hlt. now rewrite Hlt.
Qed.

Lemma WAV_Seek_no_lower_bound_witness :
  seek_offset demo_music (-1)%float = -8000 /\
  WAV_Seek demo_music (-1)%float = (0, demo_music) /\
  seek_offset demo_music neg_infinity = - 2 ^ 63 /\
  WAV_Seek demo_music neg_infinity = (0, demo_music).
Proof.
  split; [vm_compute; reflexivity | ].
  destruct (WAV_Seek_no_lower_bound demo_music (-1)%float) as [_ H].
  destruct (WAV_Seek_no_lower_bound demo_music neg_infinity) as [_ H'].
  split; [ | split; [vm_compute; reflexivity | ]].
  - destruct H as (_ & _ & H & _).
    + vm_compute; reflexivity.
    + vm_compute; discriminate.
    + vm_compute; discriminate.
    + vm_compute. split; discriminate.
    + vm_compute; reflexivity.
    + rewrite H. vm_compute. reflexivity.
  - destruct H' as (_ & _ & H' & _).
    + vm_compute; reflexivity.
    + vm_compute; discriminate.
    + vm_compute; discriminate.
    + vm_compute. split; discriminate.
    + vm_compute; reflexivity.
    + rewrite H'. vm_compute. reflexivity.
Defined.

(** ** The 24-bit expansion pass *)

Lemma pcm24_loop_trace fuel : forall i o m,
  trace (snd (pcm24_loop fuel i o m)) = trace m ++ pcm24_accesses fuel i o.
Proof.
  induction fuel as [ | fuel IH]; intros i o m.
  - simpl. now rewrite app_nil_r.
  - cbn [pcm24_loop pcm24_accesses]. destruct (0 <=? i).
    + unfold bind at 1. unfold load32le. unfold bind, load8, store8, ret.
      cbn [fst snd]. 
      rewrite IH. unfold trace. cbn [mem_log rev].
      repeat rewrite <- app_assoc. reflexivity.
    + cbn. now rewrite app_nil_r.
Qed.

Lemma pcm24_pass_trace buf len :
  trace (pcm24_pass buf len)
  = pcm24_accesses (Z.to_nat len) (len - 1) (Z.quot (len - 1) 3 * 4).
Proof. unfold pcm24_pass. now rewrite pcm24_loop_trace. Qed.

Lemma pcm24_accesses_hazard n : forall fuel i o,
  i = 8 + 3 * Z.of_nat n -> o = 8 + 4 * Z.of_nat n ->
  (n + 2 <= fuel)%nat ->
  exists before after',
    pcm24_accesses fuel i o
    = before ++ Wr 8 :: [Wr 9; Wr 10; Wr 11; Rd 5; Rd 6; Rd 7] ++ Rd 8 :: after'.
Proof.
  induction n as [ | n IH]; intros fuel i o Hi Ho Hf.
  - destruct fuel as [ | [ | fuel]]; try lia.
    change (Z.of_nat 0) with 0 in *. change (8 + 3 * 0) with 8 in Hi.
    change (8 + 4 * 0) with 8 in Ho.
    subst i o. cbn [pcm24_accesses].
    change (0 <=? 8) with true. change (0 <=? 8 - 3) with true. cbv iota.
    exists [Rd 8; Rd (8 + 1); Rd (8 + 2); Rd (8 + 3)].
    eexists. cbn [app]. reflexivity.
  - destruct fuel as [ | fuel]; [lia | ].
    cbn [pcm24_accesses]. destruct (0 <=? i) eqn:E; [ | apply Z.leb_gt in E; lia].
    destruct (IH fuel (i - 3) (o - 4)) as (before & after' & Heq); try lia.
    rewrite Heq.
    eexists (_ :: _ :: _ :: _ :: _ :: _ :: _ :: _ :: before), after'.
    reflexivity.
Qed.

(** C3.  For every buffer content and every positive multiple of 12 as
    the number of source bytes, the 24-bit expansion pass does read a
    byte after an earlier turn of the same pass has overwritten it: the
    turn at [i = 8] stores to bytes 8..11, and the next turn, at
    [i = 5], loads bytes 5..8. *)
Theorem pcm24_pass_reads_overwritten_byte :
  forall buf k, 0 < k ->
    read_after_write (trace (pcm24_pass buf (12 * k))).
Proof.
  intros buf k Hk. rewrite pcm24_pass_trace.
  destruct (pcm24_accesses_hazard (Z.to_nat (4 * k - 3)) (Z.to_nat (12 * k))
              (12 * k - 1) (Z.quot (12 * k - 1) 3 * 4))
    as (before & after' & Heq).
  - rewrite Z2Nat.id by lia. lia.
  - rewrite Z2Nat.id by lia.
    rewrite Z.quot_div_nonneg by lia.
    assert ((12 * k - 1) / 3 = 4 * k - 1) as Hq
      by (symmetry; apply Z.div_unique with 2; lia).
    rewrite Hq. lia.
  - lia.
  - exists 8, before, [Wr 9; Wr 10; Wr 11; Rd 5; Rd 6; Rd 7], after'.
    exact Heq.
Qed.

Lemma pcm24_pass_reads_overwritten_byte_witness :
  0 < 1 /\ read_after_write (trace (pcm24_pass demo24_source (12 * 1))).
Proof.
  split; [lia | apply pcm24_pass_reads_overwritten_byte; lia].
Defined.

(** ** The sibling pass: law expansion keeps the discipline *)

Lemma read_after_write_Rd r t :
  read_after_write (Rd r :: t) -> read_after_write t.
Proof.
  intros (i & before & between & after' & H).
  destruct before as [ | a before]; [discriminate | ].
  inversion H. subst. exists i, before, between, after'. reflexivity.
Qed.

Lemma read_after_write_Wr w t :
  read_after_write (Wr w :: t) -> In (Rd w) t \/ read_after_write t.
Proof.
  intros (i & before & between & after' & H).
  destruct before as [ | a before].
  - inversion H. subst. left. apply in_or_app. right. left. reflexivity.
  - inversion H. subst. right. exists i, before, between, after'. reflexivity.
Qed.

Lemma xlaw_accesses_reads fuel : forall i o r,
  In (Rd r) (xlaw_accesses fuel i o) -> 0 <= r <= i.
Proof.
  induction fuel as [ | fuel IH]; intros i o r Hin; cbn [xlaw_accesses] in Hin.
  - destruct Hin.
  - destruct (0 <=? i) eqn:E; [ | destruct Hin].
    apply Z.leb_le in E.
    cbn [app In] in Hin.
    destruct Hin as [H | [H | [H | H]]]; try discriminate.
    + inversion H. lia.
    + apply IH in H. lia.
Qed.

Lemma xlaw_loop_trace decode_sample fuel : forall i o m,
  trace (snd (xlaw_loop decode_sample fuel i o m))
  = trace m ++ xlaw_accesses fuel i o.
Proof.
  induction fuel as [ | fuel IH]; intros i o m.
  - cbn. now rewrite app_nil_r.
  - cbn [xlaw_loop xlaw_accesses]. destruct (0 <=? i).
    + unfold bind at 1. unfold bind, load8, store8, ret.
      cbn [fst snd]. rewrite IH. unfold trace. cbn [mem_log rev].
      repeat rewrite <- app_assoc. reflexivity.
    + cbn. now rewrite app_nil_r.
Qed.

Lemma xlaw_accesses_safe fuel : forall i,
  ~ read_after_write (xlaw_accesses fuel i (i * 2)).
Proof.
  induction fuel as [ | fuel IH]; intros i Hraw; cbn [xlaw_accesses] in Hraw.
  - destruct Hraw as (j & [ | a before] & between & after' & H); discriminate.
  - destruct (0 <=? i) eqn:E.
    + apply Z.leb_le in E. cbn [app] in Hraw.
      apply read_after_write_Rd in Hraw.
      apply read_after_write_Wr in Hraw.
      destruct Hraw as [Hin | Hraw].
      * destruct Hin as [H | Hin]; [discriminate | ].
        apply xlaw_accesses_reads in Hin. lia.
      * apply read_after_write_Wr in Hraw.
        destruct Hraw as [Hin | Hraw].
        -- apply xlaw_accesses_reads in Hin. lia.
        -- replace (i * 2 - 2) with ((i - 1) * 2) in Hraw by lia.
           exact (IH _ Hraw).
    + destruct Hraw as (j & [ | a before] & between & after' & H); discriminate.
Qed.

(** The law-expansion pass (one byte read at [i], two written at [2i],
    [2i+1], downwards) never reads a byte it has overwritten. *)
Lemma xlaw_pass_never_reads_overwritten_byte decode_sample buf len :
  ~ read_after_write (trace (xlaw_pass decode_sample buf len)).
Proof.
  unfold xlaw_pass. rewrite xlaw_loop_trace. cbn [trace mem_log rev app].
  apply xlaw_accesses_safe.
Qed.

(** In both loops the fuel handed over by the pass is never what stops
    the loop. *)
Lemma pcm24_loop_fuel fuel : forall extra i o m,
  i < 3 * Z.of_nat fuel ->
  pcm24_loop (fuel + extra) i o m = pcm24_loop fuel i o m.
Proof.
  induction fuel as [ | fuel IH]; intros extra i o m Hi.
  - destruct extra; [reflexivity | ]. cbn [Nat.add pcm24_loop].
    destruct (0 <=? i) eqn:E; [apply Z.leb_le in E; lia | reflexivity].
  - cbn [Nat.add pcm24_loop]. destruct (0 <=? i); [ | reflexivity].
    unfold bind.
    destruct (load32le i m) as [x m1].
    destruct (store8 (o + 0) _ m1) as [u1 m2].
    destruct (store8 (o + 1) _ m2) as [u2 m3].
    destruct (store8 (o + 2) _ m3) as [u3 m4].
    destruct (store8 (o + 3) _ m4) as [u4 m5].
    apply IH. lia.
Qed.

Lemma xlaw_loop_fuel decode_sample fuel : forall extra i o m,
  i < Z.of_nat fuel ->
  xlaw_loop decode_sample (fuel + extra) i o m
  = xlaw_loop decode_sample fuel i o m.
Proof.
  induction fuel as [ | fuel IH]; intros extra i o m Hi.
  - destruct extra; [reflexivity | ]. cbn [Nat.add xlaw_loop].
    destruct (0 <=? i) eqn:E; [apply Z.leb_le in E; lia | reflexivity].
  - cbn [Nat.add xlaw_loop]. destruct (0 <=? i); [ | reflexivity].
    unfold bind.
    destruct (load8 i m) as [x m1].
    destruct (store8 o _ m1) as [u1 m2].
    destruct (store8 (o + 1) _ m2) as [u2 m3].
    apply IH. lia.
Qed.

(** *** The value returned by [fetch_pcm24be] *)

Lemma Sint32_small z : - 2 ^ 31 <= z < 2 ^ 31 -> Sint32 z = z.
Proof.
  intros Hz. unfold Sint32, to_signed.
  change (2 ^ (32 - 1)) with (2 ^ 31).
  destruct (Z_lt_le_dec z 0).
  - rewrite <- (Z.mod_add z 1 (2 ^ 32)) by discriminate.
    rewrite Z.mod_small by lia.
    destruct (z + 1 * 2 ^ 32 <? 2 ^ 31) eqn:E;
      [apply Z.ltb_lt in E; lia | lia].
  - rewrite Z.mod_small by lia.
    destruct (z <? 2 ^ 31) eqn:E; [reflexivity | apply Z.ltb_ge in E; lia].
Qed.

Lemma whole_frames_multiple len ss :
  0 <= len -> 0 < ss ->
  exists q, whole_frames len ss = Some (ss * q) /\ 0 <= q /\ ss * q <= len.
Proof.
  intros Hl Hs. unfold whole_frames.
  replace (ss =? 0) with false by (symmetry; apply Z.eqb_neq; lia).
  replace (ss =? -1) with false by (symmetry; apply Z.eqb_neq; lia).
  rewrite andb_false_r. cbn [orb].
  pose proof (Z.quot_rem' len ss) as Hqr.
  pose proof (Z.rem_bound_pos len ss Hl Hs) as Hb.
  assert (0 <= Z.quot len ss) by (apply Z.quot_pos; lia).
  exists (Z.quot len ss).
  destruct (Z.rem len ss =? 0) eqn:E.
  - apply Z.eqb_eq in E. split; [f_equal; lia | lia].
  - split; [f_equal; lia | lia].
Qed.

(** On every input with a frame size that is not 0 the 24-bit strategy
    reports one frame of output less than the samples it has
    expanded. *)
Lemma fetch_pcm24be_returned music len channels :
  0 < channels < 2 ^ 16 ->
  samplesize music = 3 * channels ->
  let got := fst (SDL_RWread (src music) (Z.quot len 4 * 3)) in
  Z.of_nat (length got) < 2 ^ 30 ->
  exists kept,
    whole_frames (Z.of_nat (length got)) (samplesize music) = Some kept /\
    fst (fetch_pcm24be music len) = Some (Z.quot kept 3 * 4 - 4 * channels).
Proof.
  intros Hc Hss got Hgot.
  unfold fetch_pcm24be.
  destruct (SDL_RWread (src music) (Z.quot len 4 * 3)) as [got' s] eqn:Er.
  subst got. cbn [fst] in *.
  rewrite (Sint32_small (Z.of_nat (length got'))) by lia.
  destruct (whole_frames_multiple (Z.of_nat (length got')) (samplesize music))
    as (q & Hq & Hq0 & Hle); try lia.
  rewrite Hq. exists (samplesize music * q). split; [reflexivity | ].
  cbn [fst]. rewrite Hss in *. f_equal.
  replace (3 * channels * q - 3 * channels) with ((channels * q - channels) * 3) by lia.
  replace (3 * channels * q) with ((channels * q) * 3) by lia.
  rewrite !Z.quot_mul by lia.
  rewrite Sint32_small by nia. lia.
Qed.

(** C4.  At budget 16 over four 3-byte samples (frame size 3) the 24-bit
    strategy reads 12 source bytes, keeps all 12, and returns 12, not
    (12 / 3) x 4 = 16; the three samples it reports are not the first
    three of the source either (the first is never expanded, and two
    have a byte taken from an already expanded neighbour). *)
Theorem fetch_pcm24be_drops_a_frame :
  let '(returned, music') := fetch_pcm24be demo24_music 16 in
  returned = Some 12 /\
  SDL_RWtell (src music') = 12 /\
  whole_frames 12 (samplesize demo24_music) = Some 12 /\
  firstn 16 (buffer music')
  = [0x11; 0x21; 0x22; 0x00;  0x21; 0x22; 0x31; 0x00;
     0x31; 0x32; 0x33; 0x00;  0x00; 0x00; 0x00; 0x00].
Proof. vm_compute. repeat split. Qed.

(** ** The INFO tag reader *)

(** The guard of [read_meta_field] compares the declared length with
    the length of the whole chunk. *)
Lemma read_meta_field_broken_length tags tag_type i chunk_length data len :
  load_le32 data (i + 4) = Some len ->
  chunk_length < len ->
  read_meta_field tags tag_type i chunk_length data 4 = Some (tags, i + 4).
Proof.
  intros Hl Hlt. unfold read_meta_field.
  change (4 =? 7) with false. cbv iota. rewrite Hl.
  apply Z.ltb_lt in Hlt. now rewrite Hlt.
Qed.

(** C8.  An INFO chunk of 16 bytes whose "INAM" record declares 16 value
    bytes where only 4 remain: the declared length does not exceed the
    chunk length, so the field is recorded and the title becomes "Hi". *)
Theorem ParseLIST_records_overlong_field :
  Z.of_nat (length demo_info_chunk) = 16 /\
  load_le32 demo_info_chunk 8 = Some 16 /\
  Z.of_nat (length (skipn 12 demo_info_chunk)) = 4 /\
  option_map (fun r => (fst r, meta_tags_get (tags (snd r)) MIX_META_TITLE))
    (ParseLIST demo_info_wave 16)
  = Some (true, Some (bytes_of_string "Hi")).
Proof. vm_compute. repeat split. Qed.

(** When a decode call returns: direct copy always does; an expansion
    does not when the frame size is 0 (the remainder divides by zero),
    and does when the frame size is positive. *)
Lemma call_decode_returns music amount :
  (decode music = Fetch_pcm ->
   exists n, fst (call_decode music amount) = Some n) /\
  (decode music <> Fetch_pcm -> samplesize music = 0 ->
   fst (call_decode music amount) = None) /\
  (0 < samplesize music ->
   exists n, fst (call_decode music amount) = Some n).
Proof.
  unfold call_decode, fetch_ulaw, fetch_alaw, fetch_xlaw, fetch_pcm24be,
    fetch_pcm.
  split; [ | split].
  - intros ->. destruct (SDL_RWread _ _) as [got s']. cbn [fst]. eauto.
  - intros Hd Hs. rewrite Hs.
    destruct (decode music); [contradiction | | | ];
      destruct (SDL_RWread _ _) as [got s']; reflexivity.
  - intros Hs.
    assert (forall len, exists kept,
              whole_frames len (samplesize music) = Some kept) as Hk.
    { intros len. unfold whole_frames.
      replace (samplesize music =? 0) with false
        by (symmetry; apply Z.eqb_neq; lia).
      replace (samplesize music =? -1) with false
        by (symmetry; apply Z.eqb_neq; lia).
      rewrite andb_false_r. cbn [orb]. eauto. }
    destruct (decode music);
      destruct (SDL_RWread _ _) as [got s'];
      try (destruct (Hk (Sint32 (Z.of_nat (length got)))) as [kept ->]);
      cbn [fst]; eauto.
Qed.

(** ** Playback: what a call leaves alone *)

(** A decode strategy touches the source and the scratch buffer only. *)
Lemma call_decode_frame music amount :
  exists s buf, snd (call_decode music amount) = set_buffer (set_src music s) buf.
Proof.
  unfold call_decode, fetch_ulaw, fetch_alaw, fetch_xlaw, fetch_pcm24be, fetch_pcm.
  destruct (decode music);
    match goal with
    | |- context [SDL_RWread ?s ?n] => destruct (SDL_RWread s n) as [got s']
    end; try destruct (whole_frames _ _); cbn [snd]; eauto.
Qed.

Lemma loop_boundary_play_count music found stop_ :
  play_count (snd (loop_boundary music found stop_)) = play_count music.
Proof.
  unfold loop_boundary.
  destruct found as [[i loop] | ]; [ | reflexivity].
  destruct (stop_ <=? _); [ | reflexivity].
  destruct (_ =? 1); [reflexivity | ].
  destruct (SDL_RWseek _ _). reflexivity.
Qed.

Lemma WAV_Play_play_count music n : play_count (snd (WAV_Play music n)) = n.
Proof.
  unfold WAV_Play. destruct (SDL_RWseek _ _) as [r s].
  destruct (r <? 0); reflexivity.
Qed.

Lemma WAV_Play_loops music n :
  loops (snd (WAV_Play music n)) = map rearm (loops music).
Proof.
  unfold WAV_Play. destruct (SDL_RWseek _ _) as [r s].
  destruct (r <? 0); reflexivity.
Qed.

Lemma WAV_Play_ok music n :
  0 <= start music ->
  WAV_Play music n
  = (0, set_src (set_play_count (set_loops music (map rearm (loops music))) n)
          (mkRW (rw_data (src music)) (start music))).
Proof.
  intros Hs. unfold WAV_Play, SDL_RWseek. cbn [src start set_play_count set_loops].
  assert ((start music <? 0) = false) as E by (apply Z.ltb_ge; lia).
  rewrite E. cbv iota beta. rewrite E. reflexivity.
Qed.

Lemma region_boundary_negative music looped at_end :
  play_count music < 0 ->
  play_count (after (region_boundary music looped at_end)) < 0 /\
  done (region_boundary music looped at_end) = false.
Proof.
  intros Hpc. unfold region_boundary.
  destruct (negb looped && _); [ | auto].
  destruct (play_count music =? 1) eqn:E1; [apply Z.eqb_eq in E1; lia | ].
  destruct (0 <? play_count music) eqn:E2; [apply Z.ltb_lt in E2; lia | ].
  pose proof (WAV_Play_play_count music (-1)) as Hp.
  destruct (WAV_Play music (-1)) as [r m']. cbn [snd] in Hp.
  destruct (r <? 0); cbn [after done]; split; auto; lia.
Qed.

(** One call keeps a negative repeat count negative and does not set
    [*done]. *)
Lemma WAV_GetSome_negative music bytes :
  play_count music < 0 ->
  play_count (after (WAV_GetSome music bytes)) < 0 /\
  done (WAV_GetSome music bytes) = false.
Proof.
  intros Hpc. unfold WAV_GetSome.
  destruct (SDL_AudioStreamGet (stream music) bytes) as [out q].
  destruct (negb _); [cbn; auto | ].
  destruct (play_count music =? 0) eqn:E0; [apply Z.eqb_eq in E0; lia | ].
  destruct (call_decode_frame music
              (fetch_amount music
                 (fetch_ceiling music
                    (find_loop music (SDL_RWtell (src music)) 0 (loops music)))
                 (SDL_RWtell (src music)))) as (s & buf & Hd).
  destruct (call_decode music _) as [[amount | ] m1]; cbn [snd] in Hd; subst m1;
    [ | cbn; auto].
  destruct (0 <? amount).
  - cbn [SDL_AudioStreamPut]. change (0 <? 0) with false. cbv iota.
    match goal with
    | |- context [loop_boundary ?m ?f ?st] =>
        pose proof (loop_boundary_play_count m f st) as Hl;
        destruct (loop_boundary m f st) as [looped m2]
    end.
    cbn [snd] in Hl. apply region_boundary_negative. rewrite Hl. exact Hpc.
  - change (0 <? 0) with false. cbv iota.
    match goal with
    | |- context [loop_boundary ?m ?f ?st] =>
        pose proof (loop_boundary_play_count m f st) as Hl;
        destruct (loop_boundary m f st) as [looped m2]
    end.
    cbn [snd] in Hl. apply region_boundary_negative. rewrite Hl. exact Hpc.
Qed.

Lemma calls_negative budget n : forall music,
  play_count music < 0 -> play_count (calls budget n music) < 0.
Proof.
  induction n as [ | n IH]; intros music Hpc; cbn [calls]; auto.
  apply WAV_GetSome_negative. auto.
Qed.

(** ** Playback: the two kinds of call *)

(** While the queue holds bytes a call with a positive budget only hands
    bytes out. *)
Lemma WAV_GetSome_drain music bytes :
  stream music <> [] -> 0 < bytes ->
  exists k,
    (0 < k <= length (stream music))%nat /\
    WAV_GetSome music bytes
    = mkChunk (Some (Z.of_nat k)) false (firstn k (stream music))
        (set_stream music (skipn k (stream music))).
Proof.
  intros Hq Hb. unfold WAV_GetSome, SDL_AudioStreamGet.
  set (k := Z.to_nat (Z.min (Z.max bytes 0) (Z.of_nat (length (stream music))))).
  assert (0 < k <= length (stream music))%nat as Hk.
  { destruct (stream music) as [ | x q]; [congruence | ].
    subst k. cbn [length]. lia. }
  exists k. split; [exact Hk | ].
  rewrite length_firstn.
  replace (Nat.min k (length (stream music))) with k by lia.
  destruct (Z.of_nat k =? 0) eqn:E; [apply Z.eqb_eq in E; lia | ].
  reflexivity.
Qed.

Lemma SDL_RWread_full data pos n :
  0 <= pos -> 0 <= n < 2 ^ 64 -> pos + n <= Z.of_nat (length data) ->
  let got := firstn (Z.to_nat n) (skipn (Z.to_nat pos) data) in
  SDL_RWread (mkRW data pos) n = (got, mkRW data (pos + n)) /\
  length got = Z.to_nat n.
Proof.
  intros Hp Hn Hl got.
  assert (length got = Z.to_nat n) as Hg.
  { subst got. rewrite length_firstn, length_skipn. lia. }
  split; [ | exact Hg].
  unfold SDL_RWread, rw_available, Uint64. cbn [rw_data rw_pos].
  rewrite Z.mod_small by lia.
  replace (Z.min n (Z.max 0 (Z.of_nat (length data) - pos))) with n by lia.
  fold got. rewrite Hg. rewrite Z2Nat.id by lia. reflexivity.
Qed.

Lemma firstn_read_into buf got :
  firstn (length got) (read_into buf got) = got.
Proof.
  unfold read_into. rewrite firstn_app, Nat.sub_diag, firstn_all.
  cbn [firstn]. apply app_nil_r.
Qed.

(** With the queue empty and the repeat count not 0, a direct-copy call
    whose [amount] bytes are all in the source reads them, queues them,
    and then handles the loop and region boundaries. *)
Lemma WAV_GetSome_fetch_pcm music bytes amount :
  stream music = [] -> play_count music <> 0 -> decode music = Fetch_pcm ->
  let pos := SDL_RWtell (src music) in
  let found := find_loop music pos 0 (loops music) in
  let stop_ := fetch_ceiling music found in
  fetch_amount music stop_ pos = amount ->
  0 < amount < 2 ^ 31 -> 0 <= pos ->
  pos + amount <= Z.of_nat (length (rw_data (src music))) ->
  let got := firstn (Z.to_nat amount) (skipn (Z.to_nat pos) (rw_data (src music))) in
  let fetched :=
    set_stream
      (set_buffer (set_src music (mkRW (rw_data (src music)) (pos + amount)))
         (read_into (buffer music) got))
      got in
  length got = Z.to_nat amount /\
  WAV_GetSome music bytes
  = (let '(looped, music') := loop_boundary fetched found stop_ in
     region_boundary music' looped false).
Proof.
  intros Hq Hpc Hdec pos found stop_ Ha Hamt Hpos Hlen got fetched.
  destruct (SDL_RWread_full (rw_data (src music)) pos amount) as [Hr Hg];
    try lia.
  split; [exact Hg | ].
  unfold WAV_GetSome. rewrite Hq.
  unfold SDL_AudioStreamGet at 1. cbn [length firstn skipn].
  rewrite Z.min_r by lia. cbn [Z.to_nat firstn skipn length Z.of_nat].
  change (negb (0 =? 0)) with false. cbv iota.
  destruct (play_count music =? 0) eqn:E0; [apply Z.eqb_eq in E0; lia | ].
  fold pos. fold found. fold stop_. rewrite Ha.
  unfold call_decode. rewrite Hdec. unfold fetch_pcm.
  replace (src music) with (mkRW (rw_data (src music)) pos)
    by (subst pos; unfold SDL_RWtell; destruct (src music); reflexivity).
  rewrite Hr. rewrite Hg.
  rewrite Z2Nat.id by lia. rewrite Sint32_small by lia.
  assert ((0 <? amount) = true) as E1 by (apply Z.ltb_lt; lia).
  rewrite E1.
  cbn [set_buffer set_src buffer stream src SDL_AudioStreamPut].
  pose proof (firstn_read_into (buffer music) got) as Hf.
  subst got fetched. rewrite Hg in Hf. rewrite Hf, Hq. cbn [app].
  change (0 <? 0) with false. cbv iota.
  reflexivity.
Qed.

(** A direct-copy call that starts outside every loop window, with the
    rest of the region within one fetch, ends the pass. *)
Lemma WAV_GetSome_region_end music bytes :
  stream music = [] -> play_count music <> 0 -> decode music = Fetch_pcm ->
  let pos := SDL_RWtell (src music) in
  find_loop music pos 0 (loops music) = None ->
  0 <= start music -> 0 <= pos < stop music ->
  stop music - pos <= spec_size (spec music) < 2 ^ 31 ->
  stop music <= Z.of_nat (length (rw_data (src music))) ->
  let result := WAV_GetSome music bytes in
  returned result = Some 0 /\
  done result = false /\
  rw_data (src (after result)) = rw_data (src music) /\
  (play_count music = 1 ->
     play_count (after result) = 0 /\
     SDL_RWtell (src (after result)) = stop music /\
     loops (after result) = loops music) /\
  (play_count music <> 1 ->
     play_count (after result)
     = (if 0 <? play_count music then play_count music - 1 else -1) /\
     SDL_RWtell (src (after result)) = start music /\
     loops (after result) = map rearm (loops music)).
Proof.
  intros Hq Hpc Hdec pos Hfind Hstart Hpos Hsize Hdata result.
  assert (fetch_amount music (stop music) pos = stop music - pos) as Ha.
  { unfold fetch_amount. rewrite Sint32_small by lia.
    destruct (stop music - pos <? spec_size (spec music)) eqn:E.
    - apply Sint32_small. lia.
    - apply Z.ltb_ge in E. lia. }
  destruct (WAV_GetSome_fetch_pcm music bytes (stop music - pos)) as [Hg Hres];
    auto; try lia.
  { fold pos. rewrite Hfind. exact Ha. }
  fold pos in Hres. rewrite Hfind in Hres.
  subst result. rewrite Hres. clear Hres.
  cbn [loop_boundary fetch_ceiling]. unfold region_boundary.
  cbn [set_stream set_buffer set_src src stop play_count negb andb orb
       SDL_RWtell rw_pos].
  replace (pos + (stop music - pos)) with (stop music) by lia.
  rewrite Z.leb_refl. cbn [orb].
  destruct (play_count music =? 1) eqn:E1.
  - apply Z.eqb_eq in E1. cbn. repeat split; auto; lia.
  - apply Z.eqb_neq in E1.
    rewrite WAV_Play_ok by (cbn; exact Hstart).
    change (0 <? 0) with false. cbn. repeat split; auto; lia.
Qed.

(** C7 as stated fails: after Play with repeat count 0 the first call
    signals the end of the stream and produces nothing. *)
Lemma play_count_zero_is_done :
  let session := snd (WAV_Play demo_music 0) in
  done (WAV_GetSome session 4096) = true /\
  returned (WAV_GetSome session 4096) = Some 0 /\
  produced (WAV_GetSome session 4096) = [].
Proof. vm_compute. repeat split. Qed.

(** C7, amended.  The infinite convention of the code is a negative
    repeat count (0 means finished).  After Play with a negative count,
    however many calls follow, the count stays negative and no call
    signals the end of the stream; and a direct-copy call that meets the
    region stop starts the next pass: cursor at the region start, count
    -1, every loop point re-armed. *)
Theorem negative_play_count_never_done :
  forall music n budget k,
    n < 0 ->
    let session := snd (WAV_Play music n) in
    let now := calls budget k session in
    let result := WAV_GetSome now (budget k) in
    play_count now < 0 /\
    done result = false /\
    (decode now = Fetch_pcm -> stream now = [] ->
     find_loop now (SDL_RWtell (src now)) 0 (loops now) = None ->
     0 <= start now -> 0 <= SDL_RWtell (src now) < stop now ->
     stop now - SDL_RWtell (src now) <= spec_size (spec now) < 2 ^ 31 ->
     stop now <= Z.of_nat (length (rw_data (src now))) ->
     returned result = Some 0 /\
     SDL_RWtell (src (after result)) = start now /\
     play_count (after result) = -1 /\
     loops (after result) = map rearm (loops now)).
Proof.
  intros music n budget k Hn session now result.
  assert (play_count now < 0) as Hnow.
  { subst now. apply calls_negative. subst session.
    rewrite WAV_Play_play_count. exact Hn. }
  split; [exact Hnow | ].
  split; [apply WAV_GetSome_negative; exact Hnow | ].
  intros Hdec Hq Hfind Hstart Hpos Hsize Hdata.
  destruct (WAV_GetSome_region_end now (budget k)) as (Hr & _ & _ & _ & Hre);
    auto; try lia.
  destruct Hre as (Hc & Hp & Hl); [lia | ].
  fold result in Hr, Hc, Hp, Hl.
  destruct (0 <? play_count now) eqn:E; [apply Z.ltb_lt in E; lia | ].
  auto.
Qed.

Lemma negative_play_count_never_done_witness :
  -1 < 0 /\
  let now := calls (fun _ => 4096) 8 (snd (WAV_Play demo_music (-1))) in
  play_count now = -1 /\
  SDL_RWtell (src now) = 8236 /\
  done (WAV_GetSome now 4096) = false /\
  SDL_RWtell (src (after (WAV_GetSome now 4096))) = 44.
Proof.
  split; [lia | ].
  pose proof (negative_play_count_never_done demo_music (-1) (fun _ => 4096) 8%nat
                ltac:(lia)) as H.
  cbv zeta in H. destruct H as (_ & Hd & H).
  cbv zeta. split; [vm_compute; reflexivity | ].
  split; [vm_compute; reflexivity | ].
  split; [exact Hd | ].
  destruct H as (_ & Hp & _).
  - vm_compute; reflexivity.
  - vm_compute; reflexivity.
  - vm_compute; reflexivity.
  - vm_compute; discriminate.
  - vm_compute. split; [discriminate | reflexivity].
  - vm_compute. split; [discriminate | reflexivity].
  - vm_compute; discriminate.
  - rewrite Hp. vm_compute. reflexivity.
Defined.

(** ** Playback: a fetch that yields nothing *)

(** C2 as stated fails: in a session over a file cut short, the call in
    which the source yields nothing returns 0, not a failure, and
    restarts the pass: the repeat count drops from 2 to 1, the loop
    point goes from inactive with 1 pass left back to active with 3,
    and the cursor moves from 10044 to the region start. *)
Lemma short_read_restarts_pass :
  let now := calls (fun _ => 4096) 10 (snd (WAV_Play demo_cut_music 2)) in
  let result := WAV_GetSome now 4096 in
  stream now = [] /\
  fetch_ceiling now (find_loop now (SDL_RWtell (src now)) 0 (loops now)) = 12332 /\
  fst (call_decode now (fetch_amount now 12332 (SDL_RWtell (src now)))) = Some 0 /\
  returned result = Some 0 /\
  (play_count now, play_count (after result)) = (2, 1) /\
  (loops now, loops (after result))
  = ([mkLoop false 4096 8191 3 1], [mkLoop true 4096 8191 3 3]) /\
  (SDL_RWtell (src now), SDL_RWtell (src (after result))) = (10044, 44).
Proof. vm_compute. repeat split. Qed.

(** C2, amended.  When the queue has nothing to hand out, the repeat
    count is not 0, and the decode strategy returns a non-positive count
    with the cursor short of the fetch ceiling, the call treats it as the
    end of the region.  With repeat count 1 it returns 0, sets the count
    to 0 and leaves the loop points and the cursor as the read left
    them.  Otherwise it re-runs Play with the count decremented (or -1
    if it was not positive): every loop point is re-armed, and the call
    returns 0 with the cursor at the region start, or -1 only if that
    seek fails. *)
Theorem WAV_GetSome_short_read_ends_pass :
  forall music bytes amount,
    fst (SDL_AudioStreamGet (stream music) bytes) = [] ->
    play_count music <> 0 ->
    let pos := SDL_RWtell (src music) in
    let stop_ := fetch_ceiling music (find_loop music pos 0 (loops music)) in
    let decoded := call_decode music (fetch_amount music stop_ pos) in
    fst decoded = Some amount -> amount <= 0 ->
    SDL_RWtell (src (snd decoded)) < stop_ ->
    let result := WAV_GetSome music bytes in
    done result = false /\
    (play_count music = 1 ->
       returned result = Some 0 /\
       play_count (after result) = 0 /\
       loops (after result) = loops music /\
       src (after result) = src (snd decoded)) /\
    (play_count music <> 1 ->
       let n := if 0 <? play_count music then play_count music - 1 else -1 in
       after result = snd (WAV_Play (snd decoded) n) /\
       returned result
       = Some (if fst (WAV_Play (snd decoded) n) <? 0 then -1 else 0) /\
       play_count (after result) = n /\
       loops (after result) = map rearm (loops music) /\
       (0 <= start music ->
          returned result = Some 0 /\
          SDL_RWtell (src (after result)) = start music)).
Proof.
  intros music bytes amount Hget Hpc pos stop_ decoded Hdecoded Hamt Htell result.
  subst result. unfold WAV_GetSome.
  destruct (SDL_AudioStreamGet (stream music) bytes) as [out q].
  cbn [fst] in Hget. subst out. cbn [length Z.of_nat].
  change (negb (0 =? 0)) with false. cbv iota.
  destruct (play_count music =? 0) eqn:E0; [apply Z.eqb_eq in E0; lia | ].
  fold pos. fold stop_. fold decoded.
  destruct (call_decode_frame music (fetch_amount music stop_ pos))
    as (s & buf & Hframe).
  fold decoded in Hframe.
  destruct decoded as [amount' fetched]. cbn [fst snd] in *. subst amount'.
  assert ((0 <? amount) = false) as E1 by (apply Z.ltb_ge; lia).
  rewrite E1. change (0 <? 0) with false. cbv iota.
  assert (loop_boundary fetched (find_loop music pos 0 (loops music)) stop_
          = (false, fetched)) as Hlb.
  { unfold loop_boundary.
    destruct (find_loop music pos 0 (loops music)) as [[i loop] | ];
      [ | reflexivity].
    assert ((stop_ <=? SDL_RWtell (src fetched)) = false) as E2
      by (apply Z.leb_gt; lia).
    now rewrite E2. }
  rewrite Hlb. unfold region_boundary. cbn [negb andb orb].
  assert (play_count fetched = play_count music) as Hpcf by (subst fetched; reflexivity).
  assert (loops fetched = loops music) as Hlf by (subst fetched; reflexivity).
  assert (start fetched = start music) as Hsf by (subst fetched; reflexivity).
  rewrite Hpcf.
  destruct (play_count music =? 1) eqn:E3.
  - apply Z.eqb_eq in E3. cbn [done]. split; [reflexivity | ]. split.
    + intros _. cbn. auto.
    + intros Hne. lia.
  - apply Z.eqb_neq in E3.
    set (n := if 0 <? play_count music then play_count music - 1 else -1).
    pose proof (WAV_Play_play_count fetched n) as Hp1.
    pose proof (WAV_Play_loops fetched n) as Hp2.
    pose proof (WAV_Play_ok fetched n) as Hp3.
    destruct (WAV_Play fetched n) as [r played]. cbn [fst snd] in *.
    split; [destruct (r <? 0); reflexivity | ].
    split; [intros H1; lia | ].
    intros _.
    split; [destruct (r <? 0); reflexivity | ].
    split; [destruct (r <? 0); reflexivity | ].
    split; [destruct (r <? 0); exact Hp1 | ].
    split; [destruct (r <? 0); cbn [after]; rewrite Hp2, Hlf; reflexivity | ].
    intros Hstart. rewrite Hsf in Hp3. specialize (Hp3 Hstart).
    inversion Hp3. subst r. change (0 <? 0) with false. cbn. auto.
Qed.

Lemma WAV_GetSome_short_read_ends_pass_witness :
  let now := calls (fun _ => 4096) 10 (snd (WAV_Play demo_cut_music 2)) in
  fst (SDL_AudioStreamGet (stream now) 4096) = [] /\
  play_count now <> 0 /\
  returned (WAV_GetSome now 4096) = Some 0 /\
  SDL_RWtell (src (after (WAV_GetSome now 4096))) = 44.
Proof.
  cbv zeta.
  split; [vm_compute; reflexivity | ].
  split; [vm_compute; discriminate | ].
  pose proof (WAV_GetSome_short_read_ends_pass
                (calls (fun _ => 4096) 10 (snd (WAV_Play demo_cut_music 2))) 4096
                0
                ltac:(vm_compute; reflexivity)
                ltac:(vm_compute; discriminate)
                ltac:(vm_compute; reflexivity)
                ltac:(lia)
                ltac:(vm_compute; reflexivity)) as H.
  cbv zeta in H. destruct H as (_ & _ & H).
  destruct H as (_ & _ & _ & _ & H); [vm_compute; discriminate | ].
  destruct H as [Hr Hc]; [vm_compute; discriminate | ].
  split; [exact Hr | ].
  rewrite Hc. vm_compute. reflexivity.
Defined.

(** ** Playback: following a session call by call *)

Lemma calls_front budget n : forall music,
  calls budget (S n) music
  = calls (fun k => budget (S k)) n (after (WAV_GetSome music (budget 0%nat))).
Proof.
  induction n as [ | n IH]; intros music.
  - reflexivity.
  - cbn [calls] in *. rewrite IH. reflexivity.
Qed.

Lemma calls_add budget n1 n2 : forall music,
  calls budget (n1 + n2) music
  = calls (fun k => budget (n1 + k)%nat) n2 (calls budget n1 music).
Proof.
  induction n2 as [ | n2 IH]; intros music.
  - now rewrite Nat.add_0_r.
  - rewrite Nat.add_succ_r. cbn [calls]. rewrite IH. reflexivity.
Qed.

Lemma reaches_step (P I : WAV_Music -> Prop) music :
  I music ->
  (forall bytes, 0 < bytes ->
     P (after (WAV_GetSome music bytes))
     \/ reaches P I (after (WAV_GetSome music bytes))) ->
  reaches P I music.
Proof.
  intros HI Hstep budget Hb.
  destruct (Hstep (budget 0%nat) (Hb 0%nat)) as [HP | Hr].
  - exists 1%nat. split; [lia | ]. split; [exact HP | ].
    intros j Hj. replace j with 0%nat by lia. exact HI.
  - destruct (Hr (fun k => budget (S k)) (fun k => Hb (S k)))
      as (n & Hn & HP & Hbefore).
    exists (S n). split; [lia | ]. rewrite calls_front.
    split; [exact HP | ].
    intros [ | j] Hj; [exact HI | ].
    rewrite calls_front. apply Hbefore. lia.
Qed.

(** A phase that starts after [n0] calls of a session. *)
Lemma reaches_from (P I : WAV_Music -> Prop) budget n0 music m :
  (forall k, 0 < budget k) ->
  calls budget n0 music = m ->
  reaches P I m ->
  exists n,
    (n0 < n)%nat /\ P (calls budget n music) /\
    forall j, (n0 <= j < n)%nat -> I (calls budget j music).
Proof.
  intros Hb Hm Hr.
  destruct (Hr (fun k => budget (n0 + k)%nat) (fun k => Hb _))
    as (n & Hn & HP & HI).
  exists (n0 + n)%nat. split; [lia | ].
  rewrite calls_add, Hm. split; [exact HP | ].
  intros j Hj. replace j with (n0 + (j - n0))%nat by lia.
  rewrite calls_add, Hm. apply HI. lia.
Qed.

Section OneLoopSession.

Variable music : WAV_Music.
Variable loop : WAVLoopPoint.

Hypothesis Hdecode : decode music = Fetch_pcm.
Hypothesis Hcount : play_count music <> 0.
Hypothesis Hsize : 0 < spec_size (spec music) < 2 ^ 31.
Hypothesis Hstart : 0 <= start music.
Hypothesis Hinside : loop_stop music loop < stop music.
Hypothesis Hdata : stop music <= Z.of_nat (length (rw_data (src music))).

Local Abbreviation St := (session_state music loop).
Local Abbreviation lo := (loop_start music loop).
Local Abbreviation hi := (loop_stop music loop).

Lemma lo_ge_start : start music <= lo.
Proof.
  unfold loop_start, Uint32.
  pose proof (Z.mod_pos_bound (lp_start loop * (bytes_per_sample music mod 2 ^ 32))
                (2 ^ 32) ltac:(reflexivity)).
  lia.
Qed.

Lemma hi_ge_start : start music <= hi.
Proof.
  unfold loop_stop. unfold Uint32 at 1.
  pose proof (Z.mod_pos_bound
                (Uint32 (lp_stop loop + 1) * Uint32 (bytes_per_sample music))
                (2 ^ 32) ltac:(reflexivity)).
  lia.
Qed.

Lemma find_loop_active act count pos q buf :
  find_loop (St act count pos q buf) pos 0 [loop_with loop act count]
  = if act && (lo <=? pos) && (pos <? hi)
    then Some (0%nat, loop_with loop act count) else None.
Proof. reflexivity. Qed.

(** A call with bytes in the queue. *)
Lemma session_drain act count pos q buf bytes :
  q <> [] -> 0 < bytes ->
  exists q',
    (length q' < length q)%nat /\
    after (WAV_GetSome (St act count pos q buf) bytes)
    = St act count pos q' buf.
Proof.
  intros Hq Hb.
  destruct (WAV_GetSome_drain (St act count pos q buf) bytes) as (k & Hk & Hres);
    auto.
  rewrite Hres. cbn [after stream session_state] in *.
  exists (skipn k q). split; [rewrite length_skipn; lia | reflexivity].
Qed.

Lemma amount_to (ceiling pos : Z) :
  pos < ceiling ->
  fetch_amount music ceiling pos = Z.min (spec_size (spec music)) (ceiling - pos).
Proof.
  intros Hp. unfold fetch_amount. rewrite Sint32_small by lia.
  destruct (ceiling - pos <? spec_size (spec music)) eqn:E.
  - apply Z.ltb_lt in E. rewrite Sint32_small by lia. lia.
  - apply Z.ltb_ge in E. lia.
Qed.

(** A fetch inside the window of the active loop point. *)
Lemma session_fetch_in_loop count pos buf bytes :
  lo <= pos < hi ->
  let amount := Z.min (spec_size (spec music)) (hi - pos) in
  exists q' buf',
    length q' = Z.to_nat amount /\
    after (WAV_GetSome (St true count pos [] buf) bytes)
    = if pos + amount <? hi then St true count (pos + amount) q' buf'
      else if count =? 1 then St false count hi q' buf'
      else St true (lp_current_play_count (count_down (loop_with loop true count)))
             lo q' buf'.
Proof.
  intros Hpos amount.
  pose proof lo_ge_start as Hlo.
  destruct (WAV_GetSome_fetch_pcm (St true count pos [] buf) bytes amount)
    as [Hg Hres]; auto; cbn [session_state src rw_pos rw_data SDL_RWtell spec loops];
    try lia.
  { rewrite find_loop_active.
    replace (true && (lo <=? pos) && (pos <? hi)) with true
      by (symmetry; rewrite !andb_true_iff, Z.leb_le, Z.ltb_lt; lia).
    cbn [fetch_ceiling]. apply (amount_to hi pos). lia. }
  cbn [session_state src rw_pos rw_data SDL_RWtell spec loops buffer] in Hres, Hg.
  rewrite find_loop_active in Hres.
  replace (true && (lo <=? pos) && (pos <? hi)) with true in Hres
    by (symmetry; rewrite !andb_true_iff, Z.leb_le, Z.ltb_lt; lia).
  cbn [fetch_ceiling] in Hres.
  rewrite Hres. clear Hres.
  set (got := firstn (Z.to_nat amount) (skipn (Z.to_nat pos) (rw_data (src music)))) in *.
  exists got, (read_into buf got). split; [exact Hg | ].
  unfold loop_boundary.
  change (loop_stop _ (loop_with loop true count)) with hi.
  change (SDL_RWtell (src (set_stream _ got))) with (pos + amount).
  change (set_stream (set_buffer (set_src (St true count pos [] buf) _) _) got)
    with (St true count (pos + amount) got (read_into buf got)).
  change (lp_current_play_count (loop_with loop true count)) with count.
  destruct (pos + amount <? hi) eqn:E.
  - apply Z.ltb_lt in E.
    replace (hi <=? pos + amount) with false by (symmetry; apply Z.leb_gt; lia).
    unfold region_boundary.
    change (SDL_RWtell (src (St true count (pos + amount) got (read_into buf got))))
      with (pos + amount).
    change (stop (St true count (pos + amount) got (read_into buf got)))
      with (stop music).
    replace (stop music <=? pos + amount) with false
      by (symmetry; apply Z.leb_gt; lia).
    reflexivity.
  - apply Z.ltb_ge in E.
    assert (pos + amount = hi) as Heq by lia.
    rewrite Heq. rewrite Z.leb_refl.
    destruct (count =? 1) eqn:E1.
    + unfold region_boundary.
      change (SDL_RWtell (src (set_loops _ _))) with hi.
      change (stop (set_loops _ _)) with (stop music).
      replace (stop music <=? hi) with false
        by (symmetry; apply Z.leb_gt; lia).
      reflexivity.
    + change (loop_start (set_loops _ _) (loop_with loop true count)) with lo.
      unfold SDL_RWseek.
      replace (lo <? 0) with false by (symmetry; apply Z.ltb_ge; lia).
      unfold region_boundary. cbn [negb andb]. reflexivity.
Qed.

(** A fetch past the window, the loop point no longer active. *)
Lemma session_fetch_past_loop count pos buf bytes :
  hi <= pos < stop music ->
  let amount := Z.min (spec_size (spec music)) (stop music - pos) in
  let m := after (WAV_GetSome (St false count pos [] buf) bytes) in
  if pos + amount <? stop music
  then exists q' buf',
         length q' = Z.to_nat amount /\
         m = St false count (pos + amount) q' buf'
  else (play_count music = 1 ->
          play_count m = 0 /\ cursor m = stop music /\
          only_loop m = Some (false, count)) /\
       (play_count music <> 1 ->
          play_count m
          = (if 0 <? play_count music then play_count music - 1 else -1) /\
          cursor m = start music /\
          loops m = [rearm loop]).
Proof.
  intros Hpos amount m.
  pose proof hi_ge_start as Hhi.
  destruct (pos + amount <? stop music) eqn:E.
  - apply Z.ltb_lt in E.
    destruct (WAV_GetSome_fetch_pcm (St false count pos [] buf) bytes amount)
      as [Hg Hres]; auto;
      cbn [session_state src rw_pos rw_data SDL_RWtell spec loops];
      try lia.
    { rewrite find_loop_active. cbn [andb fetch_ceiling].
      apply (amount_to (stop music) pos). lia. }
    cbn [session_state src rw_pos rw_data SDL_RWtell spec loops buffer] in Hres, Hg.
    rewrite find_loop_active in Hres. cbn [andb fetch_ceiling] in Hres.
    subst m. rewrite Hres. clear Hres.
    set (got := firstn (Z.to_nat amount) (skipn (Z.to_nat pos) (rw_data (src music)))) in *.
    exists got, (read_into buf got). split; [exact Hg | ].
    cbn [loop_boundary]. unfold region_boundary.
    change (set_stream (set_buffer (set_src (St false count pos [] buf) _) _) got)
      with (St false count (pos + amount) got (read_into buf got)).
    change (SDL_RWtell (src (St false count (pos + amount) got (read_into buf got))))
      with (pos + amount).
    change (stop (St false count (pos + amount) got (read_into buf got)))
      with (stop music).
    replace (stop music <=? pos + amount) with false
      by (symmetry; apply Z.leb_gt; lia).
    reflexivity.
  - apply Z.ltb_ge in E.
    destruct (WAV_GetSome_region_end (St false count pos [] buf) bytes)
      as (_ & _ & _ & H1 & H2); auto;
      cbn [session_state src rw_pos rw_data SDL_RWtell spec loops stop start];
      try lia.
    fold m in H1, H2.
    cbn [session_state play_count loops stop start map] in H1, H2.
    split.
    + intros Hone. destruct (H1 Hone) as (Hp & Hc & Hl).
      split; [exact Hp | ]. split; [exact Hc | ].
      unfold only_loop. rewrite Hl. reflexivity.
    + intros Hne. destruct (H2 Hne) as (Hp & Hc & Hl).
      split; [exact Hp | ]. split; [exact Hc | ].
      rewrite Hl. reflexivity.
Qed.

(** From a call boundary inside the window to the call that meets the
    loop's stop. *)
Lemma loop_phase count : forall measure pos q buf,
  lo <= pos < hi ->
  (2 * Z.to_nat (hi - pos) + length q <= measure)%nat ->
  reaches
    (fun m => exists q' buf',
       m = if count =? 1 then St false count hi q' buf'
           else St true (lp_current_play_count
                           (count_down (loop_with loop true count)))
                  lo q' buf')
    (in_phase music loop true count lo hi)
    (St true count pos q buf).
Proof.
  induction measure as [ | measure IH]; intros pos q buf Hpos Hm; [lia | ].
  apply reaches_step.
  - exists pos, q, buf. auto.
  - intros bytes Hb. destruct q as [ | x q].
    + destruct (session_fetch_in_loop count pos buf bytes Hpos)
        as (q' & buf' & Hlen & Hafter).
      rewrite Hafter. clear Hafter.
      destruct (pos + _ <? hi) eqn:E.
      * right. apply Z.ltb_lt in E. apply IH; [lia | ].
        rewrite Hlen. cbn [length] in Hm. lia.
      * left. eauto.
    + destruct (session_drain true count pos (x :: q) buf bytes)
        as (q' & Hlen & Hafter); [discriminate | exact Hb | ].
      rewrite Hafter. right. apply IH; [exact Hpos | lia].
Qed.

(** From the loop's stop, the loop point inactive, to the call that
    meets the region's stop. *)
Lemma tail_phase count : forall measure pos q buf,
  hi <= pos < stop music ->
  (2 * Z.to_nat (stop music - pos) + length q <= measure)%nat ->
  reaches
    (fun m =>
       (play_count music = 1 ->
          play_count m = 0 /\ cursor m = stop music /\
          only_loop m = Some (false, count)) /\
       (play_count music <> 1 ->
          play_count m
          = (if 0 <? play_count music then play_count music - 1 else -1) /\
          cursor m = start music /\
          loops m = [rearm loop]))
    (in_phase music loop false count hi (stop music))
    (St false count pos q buf).
Proof.
  induction measure as [ | measure IH]; intros pos q buf Hpos Hm; [lia | ].
  apply reaches_step.
  - exists pos, q, buf. auto.
  - intros bytes Hb. destruct q as [ | x q].
    + pose proof (session_fetch_past_loop count pos buf bytes Hpos) as Hf.
      cbv zeta in Hf.
      destruct (pos + _ <? stop music) eqn:E.
      * right. apply Z.ltb_lt in E.
        destruct Hf as (q' & buf' & Hlen & Hafter).
        rewrite Hafter. apply IH; [lia | ].
        rewrite Hlen. cbn [length] in Hm. lia.
      * left. exact Hf.
    + destruct (session_drain false count pos (x :: q) buf bytes)
        as (q' & Hlen & Hafter); [discriminate | exact Hb | ].
      rewrite Hafter. right. apply IH; [exact Hpos | lia].
Qed.

End OneLoopSession.

Lemma in_phase_reads music loop act count lo hi m :
  in_phase music loop act count lo hi m ->
  lo <= cursor m < hi /\ only_loop m = Some (act, count).
Proof.
  intros (pos & q & buf & Hpos & Hm). subst m. split; [exact Hpos | reflexivity].
Qed.

(** C1 as stated fails: in this session the first fetch starts at the
    region start, before the loop's byte window [1044, 2044), and runs to
    4140; no call ever starts inside the window, so the loop point keeps
    its count of 3 and its active flag through the whole session, which
    ends after three fetches. *)
Lemma loop_window_stepped_over :
  (cursor (snd (WAV_Play demo_skip_music 1)) = 44 /\
   loop_start demo_skip_music (mkLoop true 1000 1999 3 3) = 1044 /\
   loop_stop demo_skip_music (mkLoop true 1000 1999 3 3) = 2044) /\
  map (fun n => (cursor (calls (fun _ => 4096) n (snd (WAV_Play demo_skip_music 1))),
                 only_loop (calls (fun _ => 4096) n (snd (WAV_Play demo_skip_music 1)))))
      [0; 1; 2; 3; 4; 5; 6]%nat
  = [(44, Some (true, 3)); (4140, Some (true, 3)); (4140, Some (true, 3));
     (8236, Some (true, 3)); (8236, Some (true, 3));
     (12332, Some (true, 3)); (12332, Some (true, 3))] /\
  done (WAV_GetSome (calls (fun _ => 4096) 6 (snd (WAV_Play demo_skip_music 1))) 4096)
  = true.
Proof. vm_compute. repeat split. Qed.

(** C1, amended.  Take a direct-copy session with a repeat count other
    than 0, its one loop point active with 3 passes left, the window
    ending before the region stop, the region backed by the source, and
    a call boundary at which the cursor is inside the window.  Then calls
    n1 < n2 < n3 < n4 exist such that: up to n1 the cursor stays in the
    window with count 3, and call n1 leaves the cursor on the loop's
    start with count 2; up to n2 likewise with count 2, and call n2
    leaves the cursor on the loop's start with count 1; up to n3 likewise
    with count 1, and call n3 leaves the cursor on the loop's stop with
    the loop inactive and no seek back; from n3 up to n4 the cursor moves
    on between the loop's stop and the region's stop with the loop
    inactive; call n4 meets the region's stop and ends the pass. *)
Theorem loop_window_traversed_three_times :
  forall music loop budget,
    decode music = Fetch_pcm ->
    play_count music <> 0 ->
    0 < spec_size (spec music) < 2 ^ 31 ->
    0 <= start music ->
    loop_stop music loop < stop music ->
    stop music <= Z.of_nat (length (rw_data (src music))) ->
    loops music = [loop] ->
    lp_active loop = true ->
    lp_current_play_count loop = 3 ->
    loop_start music loop <= cursor music < loop_stop music loop ->
    (forall k, 0 < budget k) ->
    let at_call n := calls budget n music in
    let in_window m := loop_start music loop <= cursor m < loop_stop music loop in
    exists n1 n2 n3 n4,
      (0 < n1 < n2)%nat /\ (n2 < n3 < n4)%nat /\
      (forall n, (n < n1)%nat ->
         in_window (at_call n) /\ only_loop (at_call n) = Some (true, 3)) /\
      (cursor (at_call n1) = loop_start music loop /\
       only_loop (at_call n1) = Some (true, 2)) /\
      (forall n, (n1 <= n < n2)%nat ->
         in_window (at_call n) /\ only_loop (at_call n) = Some (true, 2)) /\
      (cursor (at_call n2) = loop_start music loop /\
       only_loop (at_call n2) = Some (true, 1)) /\
      (forall n, (n2 <= n < n3)%nat ->
         in_window (at_call n) /\ only_loop (at_call n) = Some (true, 1)) /\
      (cursor (at_call n3) = loop_stop music loop /\
       only_loop (at_call n3) = Some (false, 1)) /\
      (forall n, (n3 <= n < n4)%nat ->
         loop_stop music loop <= cursor (at_call n) < stop music /\
         only_loop (at_call n) = Some (false, 1)) /\
      pass_ended music loop (at_call n4).
Proof.
  intros music loop budget Hdec Hpc Hsize Hstart Hinside Hdata Hloops Hact Hcur
    Hwin Hb at_call in_window.
  assert (music = session_state music loop true 3 (cursor music)
                    (stream music) (buffer music)) as E0.
  { unfold session_state, loop_with, cursor, SDL_RWtell.
    destruct music as [[data pos] sp pc st sto ss buf q ls tg enc dec].
    cbn in *. subst ls. destruct loop as [a s e i c]. cbn in *. subst a c.
    reflexivity. }
  assert (loop_start music loop < loop_stop music loop) as Hlh by lia.
  destruct (reaches_from _ _ budget 0%nat music _ Hb E0
              (loop_phase music loop Hdec Hpc Hsize Hstart Hinside Hdata 3
                 _ _ _ _ Hwin (le_n _)))
    as (n1 & Hn1 & (q1 & b1 & E1) & I1).
  change (3 =? 1) with false in E1. cbv iota in E1.
  change (lp_current_play_count (count_down (loop_with loop true 3))) with 2 in E1.
  destruct (reaches_from _ _ budget n1 music _ Hb E1
              (loop_phase music loop Hdec Hpc Hsize Hstart Hinside Hdata 2
                 _ _ _ _ (conj (Z.le_refl _) Hlh) (le_n _)))
    as (n2 & Hn2 & (q2 & b2 & E2) & I2).
  change (2 =? 1) with false in E2. cbv iota in E2.
  change (lp_current_play_count (count_down (loop_with loop true 2))) with 1 in E2.
  destruct (reaches_from _ _ budget n2 music _ Hb E2
              (loop_phase music loop Hdec Hpc Hsize Hstart Hinside Hdata 1
                 _ _ _ _ (conj (Z.le_refl _) Hlh) (le_n _)))
    as (n3 & Hn3 & (q3 & b3 & E3) & I3).
  change (1 =? 1) with true in E3. cbv iota in E3.
  destruct (reaches_from _ _ budget n3 music _ Hb E3
              (tail_phase music loop Hdec Hpc Hsize Hstart Hdata 1
                 _ _ _ _ (conj (Z.le_refl _) Hinside) (le_n _)))
    as (n4 & Hn4 & E4 & I4).
  exists n1, n2, n3, n4. subst at_call in_window. cbv beta.
  split; [lia | ]. split; [lia | ].
  split; [intros n Hn; apply (in_phase_reads music loop _ _ _ _ _ (I1 n ltac:(lia))) | ].
  split; [rewrite E1; split; reflexivity | ].
  split; [intros n Hn; apply (in_phase_reads music loop _ _ _ _ _ (I2 n ltac:(lia))) | ].
  split; [rewrite E2; split; reflexivity | ].
  split; [intros n Hn; apply (in_phase_reads music loop _ _ _ _ _ (I3 n ltac:(lia))) | ].
  split; [rewrite E3; split; reflexivity | ].
  split; [intros n Hn; apply (in_phase_reads music loop _ _ _ _ _ (I4 n ltac:(lia))) | ].
  exact E4.
Qed.

Lemma loop_window_traversed_three_times_witness :
  let music := calls (fun _ => 4096) 1 (snd (WAV_Play demo_music 1)) in
  let loop := mkLoop true 4096 8191 3 3 in
  let at_call n := calls (fun _ => 4096) n music in
  (loops music = [loop] /\ cursor music = 4140 /\
   loop_start music loop = 4140 /\ loop_stop music loop = 8236) /\
  exists n1 n2 n3 n4,
    (0 < n1 < n2)%nat /\ (n2 < n3 < n4)%nat /\
    (cursor (at_call n1), only_loop (at_call n1)) = (4140, Some (true, 2)) /\
    (cursor (at_call n2), only_loop (at_call n2)) = (4140, Some (true, 1)) /\
    (cursor (at_call n3), only_loop (at_call n3)) = (8236, Some (false, 1)) /\
    pass_ended music loop (at_call n4).
Proof.
  cbv zeta.
  split; [vm_compute; repeat split | ].
  destruct (loop_window_traversed_three_times
              (calls (fun _ => 4096) 1 (snd (WAV_Play demo_music 1)))
              (mkLoop true 4096 8191 3 3) (fun _ => 4096))
    as (n1 & n2 & n3 & n4 & H12 & H34 & _ & [C1 L1] & _ & [C2 L2] & _ & [C3 L3] & _ & H4).
  - vm_compute; reflexivity.
  - vm_compute; discriminate.
  - vm_compute; split; reflexivity.
  - vm_compute; discriminate.
  - vm_compute; reflexivity.
  - vm_compute; discriminate.
  - vm_compute; reflexivity.
  - reflexivity.
  - reflexivity.
  - vm_compute; split; [discriminate | reflexivity].
  - intros k. reflexivity.
  - exists n1, n2, n3, n4.
    split; [exact H12 | ]. split; [exact H34 | ].
    rewrite C1, L1, C2, L2, C3, L3.
    split; [vm_compute; reflexivity | ].
    split; [vm_compute; reflexivity | ].
    split; [vm_compute; reflexivity | ].
    exact H4.
Defined.

(** Outside the amended statement: under law expansion a fetch asks for
    [amount] output bytes and reads [amount / 2] source bytes, so the
    cursor halves its distance to the loop's stop and never meets it.
    In this session the window is [44, 76); the sixth fetch, one byte
    short of the stop, reads nothing, which ends the pass: the loop
    point still has its 3 passes and the rest of the region is never
    played. *)
Lemma law_session_ends_short_of_loop_stop :
  let last := calls (fun _ => 4096) 11 (snd (WAV_Play demo_ulaw_music 1)) in
  loop_stop demo_ulaw_music (mkLoop true 0 15 3 3) = 76 /\
  cursor last = 75 /\
  only_loop last = Some (true, 3) /\
  play_count last = 0 /\
  done (WAV_GetSome last 4096) = true.
Proof. vm_compute. repeat split. Qed.

(** * Further properties of the code *)

(** ** G.711: symmetry, range and order *)

Lemma strictly_rising (f : Z -> Z) (lo hi : Z) :
  (forall a, lo <= a -> a + 1 < hi -> f a < f (a + 1)) ->
  forall a b, lo <= a -> a < b -> b < hi -> f a < f b.
Proof.
  intros Hstep a b Hlo Hab Hhi.
  remember (Z.to_nat (b - a - 1)) as n eqn:Hn.
  revert b Hab Hhi Hn.
  induction n as [ | n IH]; intros b Hab Hhi Hn.
  - replace b with (a + 1) by lia. apply Hstep; lia.
  - apply Z.lt_trans with (f (b - 1)).
    + apply IH; lia.
    + replace b with (b - 1 + 1) at 2 by lia. apply Hstep; lia.
Qed.

Lemma uLAW_facts a :
  0 <= a < 256 ->
  uLAW_To_PCM16 (Z.lxor a 0x80) = - uLAW_To_PCM16 a /\
  - 32124 <= uLAW_To_PCM16 a <= 32124 /\
  (a + 1 < 128 -> uLAW_To_PCM16 a < uLAW_To_PCM16 (a + 1) <= 0) /\
  (128 <= a -> a + 1 < 256 -> 0 <= uLAW_To_PCM16 (a + 1) < uLAW_To_PCM16 a).
Proof.
  intros Ha.
  pose proof (all_bytes_spec
    (fun a =>
       (uLAW_To_PCM16 (Z.lxor a 0x80) =? - uLAW_To_PCM16 a)
       && (- 32124 <=? uLAW_To_PCM16 a) && (uLAW_To_PCM16 a <=? 32124)
       && implb (a + 1 <? 128)
            ((uLAW_To_PCM16 a <? uLAW_To_PCM16 (a + 1))
             && (uLAW_To_PCM16 (a + 1) <=? 0))
       && implb ((128 <=? a) && (a + 1 <? 256))
            ((0 <=? uLAW_To_PCM16 (a + 1))
             && (uLAW_To_PCM16 (a + 1) <? uLAW_To_PCM16 a)))) as H.
  specialize (H ltac:(vm_compute; reflexivity) a Ha). cbv beta in H.
  rewrite !andb_true_iff, Z.eqb_eq, !Z.leb_le in H.
  destruct H as ((((H1 & H2) & H3) & H4) & H5).
  split; [exact H1 | ]. split; [lia | ]. split.
  - intros Hlt. apply Z.ltb_lt in Hlt. rewrite Hlt in H4. cbn [implb] in H4.
    rewrite andb_true_iff, Z.ltb_lt, Z.leb_le in H4. exact H4.
  - intros Hge Hlt. apply Z.leb_le in Hge. apply Z.ltb_lt in Hlt.
    rewrite Hge, Hlt in H5. cbn [implb andb] in H5.
    rewrite andb_true_iff, Z.ltb_lt, Z.leb_le in H5. exact H5.
Qed.

(** X1.  mu-law expansion: flipping the sign bit of the byte negates the
    sample; no sample exceeds 32124 in magnitude (the 16-bit
    conversions never wrap); over 0x00..0x7F the sample strictly rises
    with the byte and over 0x80..0xFF it strictly falls; two different
    bytes give the same sample only for 0x7F and 0xFF (both 0). *)
Theorem uLAW_To_PCM16_shape :
  forall a b, 0 <= a < 256 -> 0 <= b < 256 ->
    uLAW_To_PCM16 (Z.lxor a 0x80) = - uLAW_To_PCM16 a /\
    - 32124 <= uLAW_To_PCM16 a <= 32124 /\
    (a < b < 128 -> uLAW_To_PCM16 a < uLAW_To_PCM16 b <= 0) /\
    (128 <= a < b -> 0 <= uLAW_To_PCM16 b < uLAW_To_PCM16 a) /\
    (uLAW_To_PCM16 a = uLAW_To_PCM16 b ->
       a = b \/ (a = 0x7F /\ b = 0xFF) \/ (a = 0xFF /\ b = 0x7F)).
Proof.
  assert (forall a b, 0 <= a -> a < b -> b < 128 ->
            uLAW_To_PCM16 a < uLAW_To_PCM16 b) as Hup.
  { apply strictly_rising. intros a Ha Hlt.
    apply (uLAW_facts a); lia. }
  assert (forall a b, 128 <= a -> a < b -> b < 256 ->
            - uLAW_To_PCM16 a < - uLAW_To_PCM16 b) as Hdown.
  { apply (strictly_rising (fun a => - uLAW_To_PCM16 a)). intros a Ha Hlt.
    pose proof (uLAW_facts a) as H. lia. }
  assert (forall b, 0 <= b < 128 -> uLAW_To_PCM16 b <= 0) as Hneg.
  { intros b Hb. destruct (Z.eq_dec b 0) as [-> | Hb0]; [vm_compute; discriminate | ].
    pose proof (uLAW_facts (b - 1)) as H.
    replace (b - 1 + 1) with b in H by lia. lia. }
  assert (forall b, 128 <= b < 256 -> 0 <= uLAW_To_PCM16 b) as Hpos.
  { intros b Hb. destruct (Z.eq_dec b 128) as [-> | Hb0]; [vm_compute; discriminate | ].
    pose proof (uLAW_facts (b - 1)) as H.
    replace (b - 1 + 1) with b in H by lia. lia. }
  assert (uLAW_To_PCM16 0x7F = 0) as H7F by reflexivity.
  assert (uLAW_To_PCM16 0xFF = 0) as HFF by reflexivity.
  intros a b Ha Hb.
  destruct (uLAW_facts a Ha) as (Hodd & Hrange & _ & _).
  split; [exact Hodd | ]. split; [exact Hrange | ].
  split; [intros Hab; split; [apply Hup | apply Hneg]; lia | ].
  split; [intros Hab; pose proof (Hdown a b); pose proof (Hpos b); lia | ].
  intros Heq.
  assert (forall x y, 0 <= x < 256 -> 0 <= y < 256 -> x < y ->
            uLAW_To_PCM16 x = uLAW_To_PCM16 y -> x = 0x7F /\ y = 0xFF) as Hlt.
  { intros x y Hx Hy Hxy Hxyeq.
    destruct (Z_lt_le_dec y 128) as [Hy128 | Hy128].
    - pose proof (Hup x y). lia.
    - destruct (Z_lt_le_dec x 128) as [Hx128 | Hx128].
      + pose proof (Hneg x). pose proof (Hpos y).
        assert (x = 0x7F).
        { destruct (Z.eq_dec x 0x7F) as [ | Hne]; [assumption | ].
          pose proof (Hup x 0x7F). lia. }
        assert (y = 0xFF).
        { destruct (Z.eq_dec y 0xFF) as [ | Hne]; [assumption | ].
          pose proof (Hdown y 0xFF). lia. }
        auto.
      + pose proof (Hdown x y). lia. }
  destruct (Z.lt_trichotomy a b) as [Hab | [Hab | Hab]].
  - right. left. apply Hlt; auto.
  - left. exact Hab.
  - right. right. apply and_comm. apply Hlt; auto.
Qed.

Lemma uLAW_To_PCM16_shape_witness :
  (0 <= 0x10 < 256 /\ 0 <= 0x20 < 256) /\
  uLAW_To_PCM16 0x10 < uLAW_To_PCM16 0x20 <= 0.
Proof.
  split; [lia | ].
  apply (uLAW_To_PCM16_shape 0x10 0x20); lia.
Defined.

Lemma ALAW_facts c :
  0 <= c < 256 ->
  ALAW_To_PCM16 (Z.lxor c 0x80) = - ALAW_To_PCM16 c /\
  8 <= Z.abs (ALAW_To_PCM16 c) <= 32256 /\
  (c < 128 -> ALAW_To_PCM16 (Z.lxor c 0x55) < 0) /\
  (c + 1 < 128 ->
     ALAW_To_PCM16 (Z.lxor (c + 1) 0x55) < ALAW_To_PCM16 (Z.lxor c 0x55)) /\
  0 <= Z.lxor c 0x55 < 256 /\
  (c < 128 <-> Z.lxor c 0x55 < 128).
Proof.
  intros Hc.
  pose proof (all_bytes_spec
    (fun c =>
       (ALAW_To_PCM16 (Z.lxor c 0x80) =? - ALAW_To_PCM16 c)
       && (8 <=? Z.abs (ALAW_To_PCM16 c)) && (Z.abs (ALAW_To_PCM16 c) <=? 32256)
       && implb (c <? 128) (ALAW_To_PCM16 (Z.lxor c 0x55) <? 0)
       && implb (c + 1 <? 128)
            (ALAW_To_PCM16 (Z.lxor (c + 1) 0x55)
             <? ALAW_To_PCM16 (Z.lxor c 0x55))
       && (0 <=? Z.lxor c 0x55) && (Z.lxor c 0x55 <? 256)
       && Bool.eqb (c <? 128) (Z.lxor c 0x55 <? 128))) as H.
  specialize (H ltac:(vm_compute; reflexivity) c Hc). cbv beta in H.
  rewrite !andb_true_iff, Z.eqb_eq, !Z.leb_le, Z.ltb_lt in H.
  destruct H as (((((((H1 & H2) & H3) & H4) & H5) & H6) & H7) & H8).
  split; [exact H1 | ]. split; [lia | ].
  split; [ | split; [ | split; [lia | ]]].
  - intros Hlt. apply Z.ltb_lt in Hlt. rewrite Hlt in H4. cbn [implb] in H4.
    apply Z.ltb_lt in H4. exact H4.
  - intros Hlt. apply Z.ltb_lt in Hlt. rewrite Hlt in H5. cbn [implb] in H5.
    apply Z.ltb_lt in H5. exact H5.
  - apply Bool.eqb_prop in H8. rewrite <- !Z.ltb_lt, H8. tauto.
Qed.

Lemma lxor_55_involutive a : Z.lxor (Z.lxor a 0x55) 0x55 = a.
Proof. now rewrite Z.lxor_assoc, Z.lxor_nilpotent, Z.lxor_0_r. Qed.

(** X2.  A-law expansion: flipping the sign bit of the byte negates the
    sample; every magnitude lies between 8 and 32256 (no wrap, and no
    zero level); different bytes give different samples; and among the
    bytes without the sign bit the sample strictly falls as the code
    [byte xor 0x55] rises. *)
Theorem ALAW_To_PCM16_shape :
  forall a b, 0 <= a < 256 -> 0 <= b < 256 ->
    ALAW_To_PCM16 (Z.lxor a 0x80) = - ALAW_To_PCM16 a /\
    8 <= Z.abs (ALAW_To_PCM16 a) <= 32256 /\
    (Z.lxor a 0x55 < Z.lxor b 0x55 < 128 ->
       ALAW_To_PCM16 b < ALAW_To_PCM16 a < 0) /\
    (ALAW_To_PCM16 a = ALAW_To_PCM16 b -> a = b).
Proof.
  assert (forall c d, 0 <= c -> c < d -> d < 128 ->
            - ALAW_To_PCM16 (Z.lxor c 0x55) < - ALAW_To_PCM16 (Z.lxor d 0x55))
    as Hdown.
  { apply (strictly_rising (fun c => - ALAW_To_PCM16 (Z.lxor c 0x55))).
    intros c Hc Hlt. pose proof (ALAW_facts c) as H. lia. }
  assert (forall a b, 0 <= a < 256 -> 0 <= b < 256 ->
            Z.lxor a 0x55 < Z.lxor b 0x55 < 128 ->
            ALAW_To_PCM16 b < ALAW_To_PCM16 a < 0) as Hord.
  { intros a b Ha Hb Hab.
    destruct (ALAW_facts a Ha) as (_ & _ & _ & _ & Hra & Hia).
    destruct (ALAW_facts b Hb) as (_ & _ & _ & _ & Hrb & Hib).
    pose proof (Hdown (Z.lxor a 0x55) (Z.lxor b 0x55)) as H.
    rewrite !lxor_55_involutive in H.
    destruct (ALAW_facts (Z.lxor a 0x55) Hra) as (_ & _ & Hneg & _).
    rewrite lxor_55_involutive in Hneg. lia. }
  assert (forall a b, 0 <= a < 128 -> 0 <= b < 128 ->
            ALAW_To_PCM16 a = ALAW_To_PCM16 b -> a = b) as Hinj.
  { intros a b Ha Hb Heq.
    destruct (ALAW_facts a ltac:(lia)) as (_ & _ & _ & _ & Hra & Hia).
    destruct (ALAW_facts b ltac:(lia)) as (_ & _ & _ & _ & Hrb & Hib).
    destruct (Z.lt_trichotomy (Z.lxor a 0x55) (Z.lxor b 0x55)) as [H | [H | H]].
    - pose proof (Hord a b). lia.
    - rewrite <- (lxor_55_involutive a), H. apply lxor_55_involutive.
    - pose proof (Hord b a). lia. }
  assert (forall a, 0 <= a < 128 -> ALAW_To_PCM16 a < 0) as Hneg.
  { intros a Ha.
    destruct (ALAW_facts a ltac:(lia)) as (_ & _ & _ & _ & Hra & Hia).
    destruct (ALAW_facts (Z.lxor a 0x55) Hra) as (_ & _ & Hn & _).
    rewrite lxor_55_involutive in Hn. lia. }
  assert (forall a, 128 <= a < 256 ->
            0 <= Z.lxor a 0x80 < 128 /\ Z.lxor (Z.lxor a 0x80) 0x80 = a) as Hflip.
  { intros a Ha.
    pose proof (all_bytes_spec
      (fun a => implb (128 <=? a)
                  ((0 <=? Z.lxor a 0x80) && (Z.lxor a 0x80 <? 128)))
      ltac:(vm_compute; reflexivity) a ltac:(lia)) as H.
    cbv beta in H. replace (128 <=? a) with true in H
      by (symmetry; apply Z.leb_le; lia).
    cbn [implb] in H. rewrite andb_true_iff, Z.leb_le, Z.ltb_lt in H.
    split; [exact H | ].
    now rewrite Z.lxor_assoc, Z.lxor_nilpotent, Z.lxor_0_r. }
  intros a b Ha Hb.
  destruct (ALAW_facts a Ha) as (Hodd & Hrange & _).
  split; [exact Hodd | ]. split; [exact Hrange | ].
  split; [apply Hord; assumption | ].
  intros Heq.
  destruct (ALAW_facts b Hb) as (Hoddb & _).
  destruct (Z_lt_le_dec a 128) as [Ha128 | Ha128];
    destruct (Z_lt_le_dec b 128) as [Hb128 | Hb128].
  - apply Hinj; auto; lia.
  - destruct (Hflip b ltac:(lia)) as [Hfb _].
    pose proof (Hneg a ltac:(lia)). pose proof (Hneg _ Hfb). lia.
  - destruct (Hflip a ltac:(lia)) as [Hfa _].
    pose proof (Hneg b ltac:(lia)). pose proof (Hneg _ Hfa). lia.
  - destruct (Hflip a ltac:(lia)) as [Hfa Hia].
    destruct (Hflip b ltac:(lia)) as [Hfb Hib].
    rewrite <- Hia, <- Hib. f_equal. apply Hinj; auto. lia.
Qed.

Lemma ALAW_To_PCM16_shape_witness :
  (0 <= 0x55 < 256 /\ 0 <= 0x54 < 256) /\
  ALAW_To_PCM16 0x54 < ALAW_To_PCM16 0x55 < 0.
Proof.
  split; [lia | ].
  apply (ALAW_To_PCM16_shape 0x55 0x54); try lia.
  vm_compute. split; reflexivity.
Defined.

(** ** The sign extension of a packed 24-bit sample *)

Lemma land_pow2_small y n : 0 <= n -> 0 <= y < 2 ^ n -> Z.land y (2 ^ n) = 0.
Proof.
  intros Hn Hy. apply Z.bits_inj'. intros k Hk.
  rewrite Z.land_spec, Z.bits_0, Z.pow2_bits_eqb by lia.
  destruct (Z.eqb_spec n k) as [<- | Hne]; [ | apply andb_false_r].
  destruct (Z.eq_dec y 0) as [-> | Hy0]; [now rewrite Z.bits_0 | ].
  rewrite Z.bits_above_log2; [reflexivity | lia | ].
  apply Z.log2_lt_pow2; lia.
Qed.

Lemma lxor_top_bit y n :
  0 <= n -> 0 <= y < 2 ^ (n + 1) ->
  Z.lxor y (2 ^ n) = if y <? 2 ^ n then y + 2 ^ n else y - 2 ^ n.
Proof.
  intros Hn Hy.
  replace (2 ^ (n + 1)) with (2 * 2 ^ n) in Hy
    by (rewrite Z.pow_add_r by lia; lia).
  destruct (y <? 2 ^ n) eqn:E.
  - apply Z.ltb_lt in E. symmetry. apply Z.add_nocarry_lxor.
    apply land_pow2_small; lia.
  - apply Z.ltb_ge in E.
    assert (Z.land (y - 2 ^ n) (2 ^ n) = 0) as H0
      by (apply land_pow2_small; lia).
    apply Z.add_nocarry_lxor in H0.
    replace y with (y - 2 ^ n + 2 ^ n) at 1 by lia.
    rewrite H0, Z.lxor_assoc, Z.lxor_nilpotent, Z.lxor_0_r. reflexivity.
Qed.

(** X3.  [sign_extend_24_32] turns the little-endian word loaded at
    [buffer + i] into the two's-complement 32-bit value of the 24-bit
    sample held in the word's upper three bytes: read as a signed 32-bit
    number the result is the signed 24-bit value of [x >> 8], for every
    word. *)
Theorem sign_extend_24_32_signed :
  forall x,
    0 <= sign_extend_24_32 x < 2 ^ 32 /\
    Sint32 (sign_extend_24_32 x) = to_signed 24 (Z.shiftr x 8).
Proof.
  intros x. unfold sign_extend_24_32, Sint32, to_signed, Uint32.
  change (Z.shiftl 1 (24 - 1)) with (2 ^ 23).
  change 0x00FFFFFF with (Z.ones 24).
  rewrite Z.land_ones by lia.
  set (y := Z.shiftr x 8 mod 2 ^ 24).
  assert (0 <= y < 2 ^ 24) as Hy by (apply Z.mod_pos_bound; lia).
  split; [apply Z.mod_pos_bound; lia | ].
  rewrite Z.mod_mod by lia.
  rewrite (lxor_top_bit y 23) by (change (2 ^ (23 + 1)) with (2 ^ 24); lia).
  change (2 ^ (32 - 1)) with (2 ^ 31). change (2 ^ (24 - 1)) with (2 ^ 23).
  destruct (y <? 2 ^ 23) eqn:E.
  - apply Z.ltb_lt in E.
    replace (y + 2 ^ 23 - 2 ^ 23) with y by lia.
    rewrite Z.mod_small by lia.
    destruct (y <? 2 ^ 31) eqn:E1; [reflexivity | apply Z.ltb_ge in E1; lia].
  - apply Z.ltb_ge in E.
    replace (y - 2 ^ 23 - 2 ^ 23) with (y - 2 ^ 24) by lia.
    rewrite <- (Z.mod_add (y - 2 ^ 24) 1 (2 ^ 32)) by lia.
    rewrite Z.mod_small by lia.
    destruct (y - 2 ^ 24 + 1 * 2 ^ 32 <? 2 ^ 31) eqn:E1;
      [apply Z.ltb_lt in E1; lia | lia].
Qed.

(** ** The law-expansion pass, byte by byte *)

Lemma length_upd_nth {A : Type} (f : A -> A) : forall l n,
  length (upd_nth n f l) = length l.
Proof.
  induction l as [ | x l IH]; intros [ | n]; cbn; auto.
Qed.

Lemma nth_upd_nth (v d : Z) : forall l n k,
  nth k (upd_nth n (fun _ => v) l) d
  = if (k =? n)%nat && (n <? length l)%nat then v else nth k l d.
Proof.
  induction l as [ | x l IH]; intros n k.
  - destruct n; cbn; rewrite andb_false_r; reflexivity.
  - destruct n as [ | n], k as [ | k]; cbn [upd_nth nth]; auto.
Qed.

Lemma length_set_byte l i v : length (set_byte l i v) = length l.
Proof. unfold set_byte. destruct (i <? 0); auto using length_upd_nth. Qed.

Lemma byte_at_set_byte l i v k :
  0 <= k ->
  byte_at (set_byte l i v) k
  = if (k =? i) && (i <? Z.of_nat (length l)) then v else byte_at l k.
Proof.
  intros Hk. unfold byte_at, set_byte.
  replace (k <? 0) with false by (symmetry; apply Z.ltb_ge; lia).
  destruct (i <? 0) eqn:Ei.
  - apply Z.ltb_lt in Ei.
    replace (k =? i) with false by (symmetry; apply Z.eqb_neq; lia).
    reflexivity.
  - apply Z.ltb_ge in Ei. rewrite nth_upd_nth.
    replace (Z.to_nat k =? Z.to_nat i)%nat with (k =? i)
      by (destruct (Z.eqb_spec k i), (Nat.eqb_spec (Z.to_nat k) (Z.to_nat i));
          auto; lia).
    replace (Z.to_nat i <? length l)%nat with (i <? Z.of_nat (length l))
      by (destruct (Z.ltb_spec i (Z.of_nat (length l))),
                   (Nat.ltb_spec (Z.to_nat i) (length l)); auto; lia).
    reflexivity.
Qed.

Lemma Uint8_land_FF d : Uint8 (Z.land d 0xFF) = Z.land d 0xFF.
Proof.
  unfold Uint8. change 0xFF with (Z.ones 8). rewrite Z.land_ones by lia.
  apply Z.mod_mod. lia.
Qed.

Lemma xlaw_loop_bytes decode_sample fuel : forall i m,
  i < Z.of_nat fuel ->
  2 * i + 1 < Z.of_nat (length (mem_bytes m)) ->
  let r := mem_bytes (snd (xlaw_loop decode_sample fuel i (i * 2) m)) in
  length r = length (mem_bytes m) /\
  (forall j, 0 <= j <= i ->
     byte_at r (2 * j) = sample_lo decode_sample (byte_at (mem_bytes m) j) /\
     byte_at r (2 * j + 1) = sample_hi decode_sample (byte_at (mem_bytes m) j)) /\
  (forall k, 2 * i + 1 < k -> byte_at r k = byte_at (mem_bytes m) k).
Proof.
  induction fuel as [ | fuel IH]; intros i m Hi Hlen r.
  - subst r. cbn. split; [reflexivity | ]. split; [intros j Hj; lia | auto].
  - subst r.
    destruct (0 <=? i) eqn:E.
    + set (b := byte_at (mem_bytes m) i).
      set (m' := mkMem
                   (set_byte
                      (set_byte (mem_bytes m) (i * 2)
                         (Uint8 (Z.land (Uint16 (decode_sample b)) 0xFF)))
                      (i * 2 + 1)
                      (Uint8 (Z.land (Z.shiftr (Uint16 (decode_sample b)) 8) 0xFF)))
                   (Wr (i * 2 + 1) :: Wr (i * 2) :: Rd i :: mem_log m)).
      assert (xlaw_loop decode_sample (S fuel) i (i * 2) m
              = xlaw_loop decode_sample fuel (i - 1) ((i - 1) * 2) m') as Hstep.
      { cbn [xlaw_loop]. rewrite E. unfold bind, load8, store8.
        cbn [mem_bytes mem_log].
        replace (i * 2 - 2) with ((i - 1) * 2) by lia. reflexivity. }
      rewrite Hstep. clear Hstep.
      apply Z.leb_le in E.
      assert (length (mem_bytes m') = length (mem_bytes m)) as Hl'
        by (subst m'; cbn [mem_bytes]; now rewrite !length_set_byte).
      assert (forall k, 0 <= k ->
                byte_at (mem_bytes m') k
                = if k =? i * 2 + 1 then sample_hi decode_sample b
                  else if k =? i * 2 then sample_lo decode_sample b
                  else byte_at (mem_bytes m) k) as Hm'.
      { intros k Hk. subst m'. cbn [mem_bytes].
        rewrite !byte_at_set_byte, !length_set_byte, !Uint8_land_FF by lia.
        fold (sample_lo decode_sample b). fold (sample_hi decode_sample b).
        replace (i * 2 + 1 <? Z.of_nat (length (mem_bytes m))) with true
          by (symmetry; apply Z.ltb_lt; lia).
        replace (i * 2 <? Z.of_nat (length (mem_bytes m))) with true
          by (symmetry; apply Z.ltb_lt; lia).
        rewrite !andb_true_r. reflexivity. }
      destruct (IH (i - 1) m') as (Hlr & Hdec & Hrest); [lia | lia | ].
      cbv zeta in Hlr, Hdec, Hrest.
      split; [congruence | ].
      split.
      * intros j Hj.
        destruct (Z.eq_dec j i) as [-> | Hne].
        -- rewrite !Hrest by lia. rewrite !Hm' by lia.
           replace (2 * i =? i * 2 + 1) with false by (symmetry; apply Z.eqb_neq; lia).
           replace (2 * i =? i * 2) with true by (symmetry; apply Z.eqb_eq; lia).
           replace (2 * i + 1 =? i * 2 + 1) with true by (symmetry; apply Z.eqb_eq; lia).
           auto.
        -- destruct (Hdec j ltac:(lia)) as [H1 H2].
           rewrite H1, H2, Hm' by lia.
           replace (j =? i * 2 + 1) with false by (symmetry; apply Z.eqb_neq; lia).
           replace (j =? i * 2) with false by (symmetry; apply Z.eqb_neq; lia).
           auto.
      * intros k Hk. rewrite Hrest by lia. rewrite Hm' by lia.
        replace (k =? i * 2 + 1) with false by (symmetry; apply Z.eqb_neq; lia).
        replace (k =? i * 2) with false by (symmetry; apply Z.eqb_neq; lia).
        reflexivity.
    + apply Z.leb_gt in E. cbn [xlaw_loop].
      replace (0 <=? i) with false by (symmetry; apply Z.leb_gt; lia).
      cbn. split; [reflexivity | ]. split; [intros j Hj; lia | auto].
Qed.

(** X4.  The in-place law-expansion pass is correct: over a buffer that
    holds [len] source bytes and has room for [2 * len], afterwards the
    bytes [2j] and [2j+1] are the low and high byte of the expansion of
    source byte [j], for every [j < len]; the bytes from [2 * len] on
    and the length of the buffer are as before. *)
Theorem xlaw_pass_expands_every_sample :
  forall decode_sample buf len,
    0 <= len -> 2 * len <= Z.of_nat (length buf) ->
    let out := mem_bytes (xlaw_pass decode_sample buf len) in
    length out = length buf /\
    (forall j, 0 <= j < len ->
       byte_at out (2 * j) = sample_lo decode_sample (byte_at buf j) /\
       byte_at out (2 * j + 1) = sample_hi decode_sample (byte_at buf j)) /\
    (forall k, 2 * len <= k -> byte_at out k = byte_at buf k).
Proof.
  intros decode_sample buf len Hlen Hroom out. subst out. unfold xlaw_pass.
  destruct (Z.eq_dec len 0) as [-> | Hne].
  - cbn. split; [reflexivity | ]. split; [intros j Hj; lia | auto].
  - destruct (xlaw_loop_bytes decode_sample (Z.to_nat len) (len - 1) (mkMem buf []))
      as (H1 & H2 & H3); cbn [mem_bytes]; try lia.
    cbv zeta in H1, H2, H3. cbn [mem_bytes] in H1, H2, H3.
    split; [exact H1 | ].
    split; [intros j Hj; apply H2; lia | intros k Hk; apply H3; lia].
Qed.

Lemma xlaw_pass_expands_every_sample_witness :
  (0 <= 2 /\ 2 * 2 <= Z.of_nat (length [0xFF; 0x80; 9; 9])) /\
  byte_at (mem_bytes (xlaw_pass uLAW_To_PCM16 [0xFF; 0x80; 9; 9] 2)) (2 * 1 + 1)
  = sample_hi uLAW_To_PCM16 0x80.
Proof.
  split; [cbn; lia | ].
  destruct (xlaw_pass_expands_every_sample uLAW_To_PCM16 [0xFF; 0x80; 9; 9] 2)
    as (_ & H & _); [lia | cbn; lia | ].
  apply (H 1). lia.
Defined.

(** ** Playback: what a session cannot change *)

Lemma SDL_RWread_bounds s n :
  0 <= rw_pos s ->
  0 <= n < 2 ^ 64 ->
  let '(got, s') := SDL_RWread s n in
  Z.of_nat (length got) = Z.min n (rw_available s) /\
  s' = mkRW (rw_data s) (rw_pos s + Z.min n (rw_available s)).
Proof.
  intros Hp Hn. unfold SDL_RWread, Uint64. rewrite Z.mod_small by lia.
  set (k := Z.min n (rw_available s)).
  assert (0 <= k <= rw_available s) as Hk by (unfold rw_available in *; lia).
  assert (Z.of_nat (length (firstn (Z.to_nat k)
                              (skipn (Z.to_nat (rw_pos s)) (rw_data s)))) = k)
    as Hl.
  { rewrite length_firstn, length_skipn. unfold rw_available in Hk. lia. }
  rewrite Hl. auto.
Qed.

Lemma call_decode_request music amount :
  exists got buf,
    SDL_RWread (src music) (source_request (decode music) amount)
    = (got, src (snd (call_decode music amount))) /\
    snd (call_decode music amount)
    = set_buffer (set_src music (src (snd (call_decode music amount)))) buf.
Proof.
  unfold call_decode, source_request, fetch_ulaw, fetch_alaw, fetch_xlaw,
    fetch_pcm24be, fetch_pcm.
  destruct (decode music);
    match goal with
    | |- context [SDL_RWread ?s ?n] => destruct (SDL_RWread s n) as [got s']
    end; try destruct (whole_frames _ _);
    cbn [snd set_buffer set_src src]; eauto.
Qed.

(** X5.  No decode strategy takes more from the source than the byte
    budget it is handed, and none moves the cursor back: a call with
    budget [amount >= 0], from a cursor that is not negative, advances the cursor by exactly the smaller of
    what the strategy asks for ([amount] for direct copy,
    [(amount / 4) * 3] for packed 24-bit, [amount / 2] for law
    expansion) and what the source still holds, and beyond the cursor it
    changes only the scratch buffer. *)
Theorem call_decode_consumes_at_most_budget :
  forall music amount,
    0 <= cursor music ->
    0 <= amount < 2 ^ 63 ->
    let music' := snd (call_decode music amount) in
    let taken := Z.min (source_request (decode music) amount)
                   (rw_available (src music)) in
    cursor music' = cursor music + taken /\
    0 <= taken <= amount /\
    set_buffer music' (buffer music)
    = set_src music (mkRW (rw_data (src music)) (cursor music + taken)).
Proof.
  intros music amount Hc Ha music' taken.
  assert (0 <= source_request (decode music) amount <= amount) as Hreq.
  { unfold source_request. destruct (decode music).
    - lia.
    - pose proof (Z.quot_pos amount 4). 
      pose proof (Z.mul_quot_le amount 4). lia.
    - pose proof (Z.quot_pos amount 2). pose proof (Z.mul_quot_le amount 2). lia.
    - pose proof (Z.quot_pos amount 2). pose proof (Z.mul_quot_le amount 2). lia. }
  destruct (call_decode_request music amount) as (got & buf & Hr & Hm).
  fold music' in Hr, Hm.
  pose proof (SDL_RWread_bounds (src music) (source_request (decode music) amount)
                Hc ltac:(lia)) as Hb.
  rewrite Hr in Hb. destruct Hb as [Hlen Hs].
  fold taken in Hlen, Hs.
  assert (0 <= rw_available (src music)) by (unfold rw_available; lia).
  split; [unfold cursor, SDL_RWtell; rewrite Hs; reflexivity | ].
  split; [lia | ].
  rewrite Hm, Hs. reflexivity.
Qed.

Lemma call_decode_consumes_at_most_budget_witness :
  0 <= cursor demo24_music /\ 0 <= 16 < 2 ^ 63 /\
  cursor (snd (call_decode demo24_music 16)) = cursor demo24_music + 12.
Proof.
  split; [vm_compute; discriminate | ]. split; [lia | ].
  destruct (call_decode_consumes_at_most_budget demo24_music 16
              ltac:(vm_compute; discriminate) ltac:(lia)) as (H & _).
  rewrite H. reflexivity.
Defined.

Lemma map_loop_shape_upd_nth (f : WAVLoopPoint -> WAVLoopPoint) :
  (forall l, loop_shape (f l) = loop_shape l) ->
  forall ls n, map loop_shape (upd_nth n f ls) = map loop_shape ls.
Proof.
  intros Hf. induction ls as [ | l ls IH]; intros [ | n]; cbn [upd_nth map];
    rewrite ?Hf, ?IH; reflexivity.
Qed.

Lemma map_loop_shape_rearm ls :
  map loop_shape (map rearm ls) = map loop_shape ls.
Proof. rewrite map_map. apply map_ext. intros l. reflexivity. Qed.

Lemma rw_data_SDL_RWseek s offset :
  rw_data (snd (SDL_RWseek s offset)) = rw_data s.
Proof. unfold SDL_RWseek. destruct (offset <? 0); reflexivity. Qed.

Lemma rw_data_SDL_RWread s n : rw_data (snd (SDL_RWread s n)) = rw_data s.
Proof. reflexivity. Qed.

Lemma description_call_decode music amount :
  description (snd (call_decode music amount)) = description music.
Proof.
  destruct (call_decode_request music amount) as (got & buf & Hr & Hm).
  rewrite Hm. unfold description. cbn [set_buffer set_src spec start stop
    samplesize tags encoding decode src loops].
  pose proof (rw_data_SDL_RWread (src music)
                (source_request (decode music) amount)) as Hd.
  rewrite Hr in Hd. cbn [snd] in Hd. rewrite Hd. reflexivity.
Qed.

Lemma description_WAV_Play music n :
  description (snd (WAV_Play music n)) = description music.
Proof.
  unfold WAV_Play.
  pose proof (rw_data_SDL_RWseek
                (src (set_play_count (set_loops music (map rearm (loops music))) n))
                (start (set_play_count (set_loops music (map rearm (loops music))) n)))
    as Hd.
  destruct (SDL_RWseek _ _) as [r s]. cbn [snd] in Hd.
  destruct (r <? 0); unfold description;
    cbn [snd set_src set_play_count set_loops spec start stop samplesize tags
         encoding decode src loops] in *;
    rewrite Hd, map_loop_shape_rearm; reflexivity.
Qed.

Lemma description_loop_boundary music found stop_ :
  description (snd (loop_boundary music found stop_)) = description music.
Proof.
  unfold loop_boundary. destruct found as [[i loop] | ]; [ | reflexivity].
  destruct (stop_ <=? _); [ | reflexivity].
  destruct (_ =? 1).
  - unfold description. cbn [snd set_loops spec start stop samplesize tags
      encoding decode src loops].
    rewrite map_loop_shape_upd_nth by reflexivity. reflexivity.
  - pose proof (rw_data_SDL_RWseek
                  (src (set_loops music (upd_nth i count_down (loops music))))
                  (loop_start (set_loops music (upd_nth i count_down (loops music)))
                     loop)) as Hd.
    destruct (SDL_RWseek _ _) as [r s]. cbn [snd] in Hd.
    unfold description. cbn [snd set_src set_loops spec start stop samplesize
      tags encoding decode src loops] in *.
    rewrite Hd, map_loop_shape_upd_nth by reflexivity. reflexivity.
Qed.

Lemma description_region_boundary music looped at_end :
  description (after (region_boundary music looped at_end)) = description music.
Proof.
  unfold region_boundary.
  destruct (negb looped && _); [ | reflexivity].
  destruct (play_count music =? 1); [reflexivity | ].
  pose proof (description_WAV_Play music
                (if 0 <? play_count music then play_count music - 1 else -1)) as Hd.
  destruct (WAV_Play music _) as [r m']. cbn [snd] in Hd.
  destruct (r <? 0); exact Hd.
Qed.

Lemma description_WAV_GetSome music bytes :
  description (after (WAV_GetSome music bytes)) = description music.
Proof.
  unfold WAV_GetSome.
  destruct (SDL_AudioStreamGet (stream music) bytes) as [out q].
  destruct (negb _); [reflexivity | ].
  destruct (play_count music =? 0); [reflexivity | ].
  set (found := find_loop music (SDL_RWtell (src music)) 0 (loops music)).
  set (stop_ := fetch_ceiling music found).
  pose proof (description_call_decode music
                (fetch_amount music stop_ (SDL_RWtell (src music)))) as Hd.
  destruct (call_decode music _) as [[amount | ] m1]; cbn [snd] in Hd;
    [ | exact Hd].
  destruct (0 <? amount).
  - cbn [SDL_AudioStreamPut]. change (0 <? 0) with false. cbv iota.
    pose proof (description_loop_boundary
                  (set_stream m1 (stream m1 ++ firstn (Z.to_nat amount) (buffer m1)))
                  found stop_) as Hl.
    destruct (loop_boundary _ found stop_) as [looped m2]. cbn [snd] in Hl.
    rewrite description_region_boundary, Hl. exact Hd.
  - change (0 <? 0) with false. cbv iota.
    pose proof (description_loop_boundary m1 found stop_) as Hl.
    destruct (loop_boundary _ found stop_) as [looped m2]. cbn [snd] in Hl.
    rewrite description_region_boundary, Hl. exact Hd.
Qed.

Lemma description_calls budget n music :
  description (calls budget n music) = description music.
Proof.
  induction n as [ | n IH]; cbn [calls]; [reflexivity | ].
  rewrite description_WAV_GetSome. exact IH.
Qed.

(** X6.  Playing never touches what parsing fixed: through Play and any
    number of calls of [WAV_GetSome], with any budgets and any decode
    strategy, the audio spec, the region, the frame size, the tags, the
    strategy, the content of the source, and the start, stop and initial
    count of every loop point stay as they were. *)
Theorem session_keeps_description :
  forall music play_count budget n,
    description (calls budget n (snd (WAV_Play music play_count)))
    = description music.
Proof.
  intros music pc budget n.
  rewrite description_calls. apply description_WAV_Play.
Qed.

(** ** Playback: the repeat count *)

Lemma call_decode_play_count music amount :
  play_count (snd (call_decode music amount)) = play_count music.
Proof.
  destruct (call_decode_request music amount) as (got & buf & _ & Hm).
  rewrite Hm. reflexivity.
Qed.

Lemma region_boundary_play_count music looped at_end :
  let c := region_boundary music looped at_end in
  done c = false /\
  (0 <= play_count music ->
   play_count music - 1 <= play_count (after c) <= play_count music /\
   (play_count music <> 0 -> 0 <= play_count (after c))).
Proof.
  unfold region_boundary.
  destruct (negb looped && _); [ | cbn; split; [reflexivity | lia]].
  destruct (play_count music =? 1) eqn:E1.
  - apply Z.eqb_eq in E1. cbn. split; [reflexivity | lia].
  - apply Z.eqb_neq in E1.
    pose proof (WAV_Play_play_count music
                  (if 0 <? play_count music then play_count music - 1 else -1))
      as Hp.
    destruct (WAV_Play music _) as [r m']. cbn [snd] in Hp.
    destruct (0 <? play_count music) eqn:E2;
      [apply Z.ltb_lt in E2 | apply Z.ltb_ge in E2];
      destruct (r <? 0); cbn [done after]; (split; [reflexivity | lia]).
Qed.

(** X7.  The repeat count only runs down.  In one call of [WAV_GetSome]
    a count that is not negative drops by one or stays, and never passes
    below 0.  The end of the stream is signalled only by a call that
    finds the count at 0; that call returns 0, hands out nothing and
    leaves the instance as it was, and once the count is 0 and the queue
    empty every call is such a call. *)
Theorem WAV_GetSome_play_count_runs_down :
  forall music bytes,
    let c := WAV_GetSome music bytes in
    (0 <= play_count music ->
     play_count music - 1 <= play_count (after c) <= play_count music /\
     0 <= play_count (after c)) /\
    (done c = true ->
     play_count music = 0 /\ c = mkChunk (Some 0) true [] music) /\
    (play_count music = 0 -> stream music = [] ->
     c = mkChunk (Some 0) true [] music).
Proof.
  intros music bytes c. subst c. unfold WAV_GetSome.
  destruct (SDL_AudioStreamGet (stream music) bytes) as [out q] eqn:EG.
  destruct (negb (Z.of_nat (length out) =? 0)) eqn:EF.
  - cbn [after done set_stream play_count].
    split; [lia | ]. split; [discriminate | ].
    intros _ Hq. rewrite Hq in EG. unfold SDL_AudioStreamGet in EG.
    cbn [length Z.of_nat] in EG. rewrite Z.min_r in EG by lia.
    cbn in EG. injection EG as <- <-. discriminate.
  - destruct (play_count music =? 0) eqn:E0.
    + apply Z.eqb_eq in E0. cbn [after done]. split; [lia | ]. auto.
    + apply Z.eqb_neq in E0.
      set (found := find_loop music (SDL_RWtell (src music)) 0 (loops music)).
      set (stop_ := fetch_ceiling music found).
      pose proof (call_decode_play_count music
                    (fetch_amount music stop_ (SDL_RWtell (src music)))) as Hd.
      destruct (call_decode music _) as [[amount | ] m1]; cbn [snd] in Hd.
      2: { cbn [after done]. rewrite Hd.
           split; [intros; lia | ]. split; [discriminate | intros; contradiction]. }
      assert (forall m, play_count m = play_count music ->
                let c := (let '(looped, m2) := loop_boundary m found stop_ in
                          region_boundary m2 looped (negb (0 <? amount))) in
                (0 <= play_count music ->
                 play_count music - 1 <= play_count (after c) <= play_count music /\
                 0 <= play_count (after c)) /\
                done c = false) as Hrest.
      { intros m Hm.
        pose proof (loop_boundary_play_count m found stop_) as Hl.
        destruct (loop_boundary m found stop_) as [looped m2]. cbn [snd] in Hl.
        destruct (region_boundary_play_count m2 looped (negb (0 <? amount)))
          as [Hdone Hpc].
        cbv zeta. rewrite Hl, Hm in Hpc. split; [ | exact Hdone].
        intros H0. destruct (Hpc H0) as [H1 H2]. split; [exact H1 | ].
        apply H2, E0. }
      destruct (0 <? amount) eqn:EA.
      * cbn [SDL_AudioStreamPut]. change (0 <? 0) with false. cbv iota.
        destruct (Hrest (set_stream m1
                           (stream m1 ++ firstn (Z.to_nat amount) (buffer m1)))
                    Hd) as [H1 H2].
        cbn [negb] in H1, H2.
        split; [exact H1 | ]. split; [ | intros; contradiction].
        intros Hdone. rewrite H2 in Hdone. discriminate.
      * change (0 <? 0) with false. cbv iota.
        destruct (Hrest m1 Hd) as [H1 H2].
        cbn [negb] in H1, H2.
        split; [exact H1 | ]. split; [ | intros; contradiction].
        intros Hdone. rewrite H2 in Hdone. discriminate.
Qed.

(** ** Playback: what Play resets *)

Lemma rearm_by_shape l1 l2 :
  map loop_shape l1 = map loop_shape l2 -> map rearm l1 = map rearm l2.
Proof.
  revert l2. induction l1 as [ | a l1 IH]; intros [ | b l2] H;
    cbn [map] in *; try discriminate; [reflexivity | ].
  injection H as H1 H2 H3 Hr. f_equal; [ | apply IH, Hr].
  unfold rearm. rewrite H1, H2, H3. reflexivity.
Qed.

(** X8.  A session leaves nothing behind that Play does not reset, the
    queue and the scratch buffer apart: when the region start is not
    negative, Play after any Play and any number of calls of
    [WAV_GetSome] gives the same result and the same instance as Play on
    the instance the session began with, once queue and scratch buffer
    are set alike. *)
Theorem WAV_Play_resets_session :
  forall music first budget n again,
    0 <= start music ->
    let used := calls budget n (snd (WAV_Play music first)) in
    WAV_Play (with_scratch_of music used) again = WAV_Play music again.
Proof.
  intros music first budget n again Hs used.
  pose proof (description_calls budget n (snd (WAV_Play music first))) as Hd.
  rewrite description_WAV_Play in Hd.
  fold used in Hd. unfold description in Hd.
  injection Hd as Hspec Hstart Hstop Hss Htags Henc Hdec Hdata Hloops.
  rewrite !WAV_Play_ok
    by (unfold with_scratch_of; cbn [set_stream set_buffer start]; lia).
  apply rearm_by_shape in Hloops.
  unfold with_scratch_of.
  destruct used as [s sp pc st sto ss buf q ls tg enc dec].
  destruct music as [s0 sp0 pc0 st0 sto0 ss0 buf0 q0 ls0 tg0 enc0 dec0].
  cbn in *. subst.
  unfold set_src, set_play_count, set_loops, set_stream, set_buffer.
  cbn [src spec play_count start stop samplesize buffer stream loops tags
       encoding decode].
  rewrite Hloops, Hdata. reflexivity.
Qed.

Lemma WAV_Play_resets_session_witness :
  0 <= start demo24_music /\
  WAV_Play
    (with_scratch_of demo24_music
       (calls (fun _ => 16) 2 (snd (WAV_Play demo24_music 1)))) 5
  = WAV_Play demo24_music 5.
Proof.
  split; [vm_compute; discriminate | ].
  apply (WAV_Play_resets_session demo24_music 1 (fun _ => 16) 2 5).
  vm_compute; discriminate.
Defined.

(** ** Playback: a loop point whose count is 0 *)

Lemma WAV_GetSome_done music bytes :
  done (WAV_GetSome music bytes) = true -> play_count music = 0.
Proof.
  unfold WAV_GetSome.
  destruct (SDL_AudioStreamGet (stream music) bytes) as [out q].
  destruct (negb _); [discriminate | ].
  destruct (play_count music =? 0) eqn:E0; [intros _; apply Z.eqb_eq, E0 | ].
  destruct (call_decode music _) as [[amount | ] m1]; [ | discriminate].
  destruct (0 <? amount).
  - cbn [SDL_AudioStreamPut]. change (0 <? 0) with false. cbv iota.
    destruct (loop_boundary _ _ _) as [looped m2].
    rewrite (proj1 (region_boundary_play_count m2 looped false)). discriminate.
  - change (0 <? 0) with false. cbv iota.
    destruct (loop_boundary _ _ _) as [looped m2].
    rewrite (proj1 (region_boundary_play_count m2 looped true)). discriminate.
Qed.

(** X9.  A loop point whose remaining count is 0 is repeated without
    end.  In a direct-copy session with a repeat count other than 0, the
    one loop point active with count 0, its window ending before the
    region stop, a fetch size from 1 to 2^31 - 1 and a region that
    starts at an offset that is not negative and is backed by the
    source: once a call starts
    with the cursor inside the window, after every number of calls with
    positive budgets the cursor is inside the window, the loop point is
    active with count 0, the repeat count is what it was, and the next
    call does not signal the end of the stream. *)
Theorem zero_count_loop_never_ends :
  forall music loop budget,
    decode music = Fetch_pcm ->
    play_count music <> 0 ->
    0 < spec_size (spec music) < 2 ^ 31 ->
    0 <= start music ->
    loop_stop music loop < stop music ->
    stop music <= Z.of_nat (length (rw_data (src music))) ->
    loops music = [loop] ->
    lp_active loop = true ->
    lp_current_play_count loop = 0 ->
    loop_start music loop <= cursor music < loop_stop music loop ->
    (forall k, 0 < budget k) ->
    forall n,
      let m := calls budget n music in
      loop_start music loop <= cursor m < loop_stop music loop /\
      only_loop m = Some (true, 0) /\
      play_count m = play_count music /\
      done (WAV_GetSome m (budget n)) = false.
Proof.
  intros music loop budget Hdec Hpc Hsize Hstart Hinside Hdata Hloops Hact Hcur
    Hwin Hb n.
  assert (in_phase music loop true 0 (loop_start music loop)
            (loop_stop music loop) (calls budget n music)) as Hphase.
  { induction n as [ | n IH].
    - exists (cursor music), (stream music), (buffer music).
      split; [exact Hwin | ].
      unfold session_state, loop_with, cursor, SDL_RWtell.
      destruct music as [[data pos] sp pc st sto ss buf q ls tg enc dec].
      cbn in *. subst ls. destruct loop as [a s e i c]. cbn in *. subst a c.
      reflexivity.
    - cbn [calls]. destruct IH as (pos & q & buf & Hpos & Hm). rewrite Hm.
      destruct q as [ | x q].
      + destruct (session_fetch_in_loop music loop Hdec Hpc Hsize Hstart Hinside
                    Hdata 0 pos buf (budget n) Hpos)
          as (q' & buf' & _ & Hafter).
        rewrite Hafter. change (0 =? 1) with false. cbv iota.
        change (lp_current_play_count (count_down (loop_with loop true 0)))
          with 0.
        destruct (_ <? _) eqn:E.
        * apply Z.ltb_lt in E. exists (pos + Z.min (spec_size (spec music))
                                               (loop_stop music loop - pos)), q', buf'.
          split; [lia | reflexivity].
        * exists (loop_start music loop), q', buf'. split; [lia | reflexivity].
      + destruct (session_drain music loop true 0 pos (x :: q) buf (budget n))
          as (q' & _ & Hafter); [discriminate | apply Hb | ].
        rewrite Hafter. exists pos, q', buf. auto. }
  cbv zeta.
  destruct Hphase as (pos & q & buf & Hpos & Hm).
  split; [rewrite Hm; exact Hpos | ].
  split; [rewrite Hm; reflexivity | ].
  split; [rewrite Hm; reflexivity | ].
  destruct (done (WAV_GetSome (calls budget n music) (budget n))) eqn:E;
    [ | reflexivity].
  apply WAV_GetSome_done in E. rewrite Hm in E. cbn in E. contradiction.
Qed.

Lemma zero_count_loop_never_ends_witness :
  let music := set_loops (calls (fun _ => 4096) 1 (snd (WAV_Play demo_music 1)))
                 [mkLoop true 4096 8191 0 0] in
  let loop := mkLoop true 4096 8191 0 0 in
  (cursor music = 4140 /\
   loop_start music loop = 4140 /\ loop_stop music loop = 8236) /\
  only_loop (calls (fun _ => 4096) 1000 music) = Some (true, 0).
Proof.
  cbv zeta.
  split; [vm_compute; repeat split | ].
  apply (zero_count_loop_never_ends
           (set_loops (calls (fun _ => 4096) 1 (snd (WAV_Play demo_music 1)))
              [mkLoop true 4096 8191 0 0])
           (mkLoop true 4096 8191 0 0) (fun _ => 4096)).
  - vm_compute; reflexivity.
  - vm_compute; discriminate.
  - vm_compute; split; reflexivity.
  - vm_compute; discriminate.
  - vm_compute; reflexivity.
  - vm_compute; discriminate.
  - reflexivity.
  - reflexivity.
  - reflexivity.
  - vm_compute; split; [discriminate | reflexivity].
  - intros k. reflexivity.
Defined.

(** ** Playback: a direct-copy session without loop points *)

Lemma firstn_add_split {A : Type} (a b : nat) : forall l : list A,
  firstn (a + b) l = firstn a l ++ firstn b (skipn a l).
Proof.
  induction a as [ | a IH]; intros [ | x l]; cbn [Nat.add firstn skipn app];
    try reflexivity.
  - now rewrite firstn_nil.
  - now rewrite IH.
Qed.

Lemma source_bytes_split music lo mid hi :
  0 <= lo <= mid -> mid <= hi ->
  source_bytes music lo mid ++ source_bytes music mid hi
  = source_bytes music lo hi.
Proof.
  intros H1 H2. unfold source_bytes.
  replace (Z.to_nat (hi - lo)) with (Z.to_nat (mid - lo) + Z.to_nat (hi - mid))%nat
    by lia.
  rewrite firstn_add_split, skipn_skipn.
  replace (Z.to_nat (mid - lo) + Z.to_nat lo)%nat with (Z.to_nat mid) by lia.
  reflexivity.
Qed.

Lemma source_bytes_empty music lo : source_bytes music lo lo = [].
Proof. unfold source_bytes. now rewrite Z.sub_diag. Qed.

Lemma played_front budget n : forall music,
  played budget (S n) music
  = produced (WAV_GetSome music (budget 0%nat))
    ++ played (fun k => budget (S k)) n (after (WAV_GetSome music (budget 0%nat))).
Proof.
  induction n as [ | n IH]; intros music.
  - cbn [played calls app]. now rewrite app_nil_r.
  - change (played budget (S (S n)) music)
      with (played budget (S n) music
            ++ produced (WAV_GetSome (calls budget (S n) music) (budget (S n)))).
    rewrite IH, calls_front, <- app_assoc. reflexivity.
Qed.

Lemma plain_session_after m c :
  plain_session m ->
  description (after c) = description m ->
  (start m <= cursor (after c) <= stop m) ->
  0 <= play_count (after c) ->
  plain_session (after c).
Proof.
  intros (Hdec & Hl & Hsz & Hst & Hdata & _ & _) Hd Hc Hp.
  unfold description in Hd.
  injection Hd as Hspec Hstart Hstop _ _ _ Hdecode Hrw Hloops.
  rewrite Hl in Hloops. cbn [map] in Hloops.
  unfold plain_session.
  rewrite Hspec, Hstart, Hstop, Hdecode, Hrw.
  repeat split; try tauto; try lia.
  destruct (loops (after c)); [reflexivity | discriminate].
Qed.

Lemma remaining_after m m' :
  description m' = description m ->
  remaining m'
  = stream m'
    ++ (if play_count m' =? 0 then []
        else source_bytes m (cursor m') (stop m)
             ++ concat (repeat (region_bytes m) (Z.to_nat (play_count m' - 1)))).
Proof.
  intros Hd. unfold description in Hd.
  injection Hd as _ Hstart Hstop _ _ _ _ Hrw _.
  unfold remaining, region_bytes, source_bytes.
  rewrite Hstart, Hstop, Hrw. reflexivity.
Qed.

(** A call of a plain session that finds the queue empty and the repeat
    count not 0. *)
Lemma plain_session_fetch m bytes :
  plain_session m -> stream m = [] -> play_count m <> 0 ->
  let c := WAV_GetSome m bytes in
  let a := Z.min (spec_size (spec m)) (stop m - cursor m) in
  produced c = [] /\ done c = false /\
  stream (after c) = source_bytes m (cursor m) (cursor m + a) /\
  (if cursor m + a <? stop m
   then cursor (after c) = cursor m + a /\ play_count (after c) = play_count m
   else if play_count m =? 1
        then play_count (after c) = 0 /\ cursor (after c) = stop m
        else play_count (after c) = play_count m - 1 /\
             cursor (after c) = start m).
Proof.
  intros (Hdec & Hl & Hsz & Hst & Hdata & Hcur & Hpc) Hq Hne c a.
  assert (0 <= a) as Ha0 by lia.
  assert (a < 2 ^ 31) as Ha1 by lia.
  assert (fetch_amount m (stop m) (cursor m) = a) as Hamt.
  { unfold fetch_amount. rewrite Sint32_small by lia.
    destruct (stop m - cursor m <? spec_size (spec m)) eqn:E.
    - apply Z.ltb_lt in E. rewrite Sint32_small by lia. lia.
    - apply Z.ltb_ge in E. lia. }
  destruct (SDL_RWread_full (rw_data (src m)) (cursor m) a) as [Hr Hg];
    try lia.
  assert (source_bytes m (cursor m) (cursor m + a)
          = firstn (Z.to_nat a) (skipn (Z.to_nat (cursor m)) (rw_data (src m))))
    as Hsb by (unfold source_bytes; f_equal; lia).
  rewrite Hsb. clear Hsb.
  set (got := firstn (Z.to_nat a) (skipn (Z.to_nat (cursor m)) (rw_data (src m))))
    in *.
  pose proof (firstn_read_into (buffer m) got) as Hf. rewrite Hg in Hf.
  set (m1 := set_buffer (set_src m (mkRW (rw_data (src m)) (cursor m + a)))
               (read_into (buffer m) got)).
  assert (c = region_boundary (if 0 <? a then set_stream m1 got else m1) false
                (negb (0 <? a))) as Hc.
  { subst c. unfold WAV_GetSome. rewrite Hq.
    unfold SDL_AudioStreamGet. cbn [length firstn skipn].
    rewrite Z.min_r by lia. cbn [Z.to_nat firstn skipn length Z.of_nat].
    change (negb (0 =? 0)) with false. cbv iota.
    destruct (play_count m =? 0) eqn:E0; [apply Z.eqb_eq in E0; lia | ].
    rewrite Hl. cbn [find_loop fetch_ceiling].
    change (SDL_RWtell (src m)) with (cursor m). rewrite Hamt.
    unfold call_decode. rewrite Hdec. unfold fetch_pcm.
    replace (src m) with (mkRW (rw_data (src m)) (cursor m))
      by (unfold cursor, SDL_RWtell; destruct (src m); reflexivity).
    rewrite Hr, Hg. rewrite Z2Nat.id by lia. rewrite Sint32_small by lia.
    cbn [set_buffer set_src buffer stream src SDL_AudioStreamPut rw_data].
    fold m1.
    destruct (0 <? a) eqn:EA.
    - change (buffer m1) with (read_into (buffer m) got).
      change (stream m1) with (stream m).
      rewrite Hf, Hq. cbn [app]. change (0 <? 0) with false. reflexivity.
    - change (0 <? 0) with false. reflexivity. }
  rewrite Hc. clear Hc c.
  assert (0 <= start m) as Hs0 by lia.
  unfold region_boundary. cbn [negb andb].
  destruct (0 <? a) eqn:EA.
  - change (SDL_RWtell (src (set_stream m1 got))) with (cursor m + a).
    change (stop (set_stream m1 got)) with (stop m).
    change (play_count (set_stream m1 got)) with (play_count m).
    cbn [negb orb].
    destruct (cursor m + a <? stop m) eqn:E.
    + apply Z.ltb_lt in E.
      replace (stop m <=? cursor m + a) with false
        by (symmetry; apply Z.leb_gt; lia).
      cbn. auto.
    + apply Z.ltb_ge in E.
      replace (stop m <=? cursor m + a) with true
        by (symmetry; apply Z.leb_le; lia).
      destruct (play_count m =? 1) eqn:E1.
      * cbn. repeat split; auto. lia.
      * rewrite WAV_Play_ok by exact Hs0.
        change (0 <? 0) with false. cbv iota.
        replace (0 <? play_count m) with true by (symmetry; apply Z.ltb_lt; lia).
        cbn. auto.
  - apply Z.ltb_ge in EA. assert (a = 0) as Hz by lia.
    assert (got = []) as Hgot
      by (destruct got; [reflexivity | cbn in Hg; lia]).
    cbn [negb orb].
    change (play_count m1) with (play_count m).
    replace (cursor m + a <? stop m) with false
      by (symmetry; apply Z.ltb_ge; lia).
    destruct (play_count m =? 1) eqn:E1.
    + cbn. rewrite Hq, Hgot. repeat split; auto. lia.
    + rewrite WAV_Play_ok by exact Hs0.
      change (0 <? 0) with false. cbv iota.
      replace (0 <? play_count m) with true by (symmetry; apply Z.ltb_lt; lia).
      cbn. rewrite Hq, Hgot. auto.
Qed.

Lemma source_bytes_length music lo hi :
  0 <= lo <= hi -> hi <= Z.of_nat (length (rw_data (src music))) ->
  Z.of_nat (length (source_bytes music lo hi)) = hi - lo.
Proof.
  intros H1 H2. unfold source_bytes. rewrite length_firstn, length_skipn. lia.
Qed.

Lemma WAV_GetSome_finished music bytes :
  stream music = [] -> play_count music = 0 ->
  WAV_GetSome music bytes = mkChunk (Some 0) true [] music.
Proof.
  intros Hq Hp. unfold WAV_GetSome, SDL_AudioStreamGet. rewrite Hq, Hp.
  cbn [length Z.of_nat]. rewrite Z.min_r by lia. reflexivity.
Qed.

Lemma calls_left_nonneg m : plain_session m -> 0 <= calls_left m.
Proof.
  intros (_ & _ & _ & Hst & _ & Hcur & Hpc). unfold calls_left.
  destruct (play_count m =? 0) eqn:E; [lia | ].
  apply Z.eqb_neq in E. nia.
Qed.

(** One call of a plain session: either it signals the end and nothing
    is owed, or it hands out a front part of what is owed and comes
    nearer to the end. *)
Lemma plain_session_step m bytes :
  plain_session m -> 0 < bytes ->
  let c := WAV_GetSome m bytes in
  (done c = true /\ remaining m = []) \/
  (done c = false /\ plain_session (after c) /\
   produced c ++ remaining (after c) = remaining m /\
   calls_left (after c) < calls_left m).
Proof.
  intros Hp Hb c.
  pose proof (description_WAV_GetSome m bytes) as Hd. fold c in Hd.
  destruct (stream m) as [ | x q] eqn:Hq.
  2: { right.
       destruct (WAV_GetSome_drain m bytes) as (k & Hk & Hres);
         [rewrite Hq; discriminate | exact Hb | ].
       fold c in Hres. rewrite Hres. cbn [done produced after].
       split; [reflexivity | ].
       split.
       { destruct Hp as (H1 & H2 & H3 & H4 & H5 & H6 & H7).
         unfold plain_session. cbn [set_stream decode loops spec start stop src
           play_count]. change (cursor (set_stream m _)) with (cursor m). tauto. }
       unfold remaining, calls_left.
       cbn [set_stream stream play_count stop start].
       change (cursor (set_stream m _)) with (cursor m).
       change (source_bytes (set_stream m ?q) ?a ?b) with (source_bytes m a b).
       change (region_bytes (set_stream m ?q)) with (region_bytes m).
       rewrite Hq in *. rewrite app_assoc, firstn_skipn.
       split; [reflexivity | ]. rewrite length_skipn. lia. }
  destruct (Z.eq_dec (play_count m) 0) as [Hz | Hnz].
  { left. subst c. rewrite WAV_GetSome_finished by assumption.
    split; [reflexivity | ]. unfold remaining. rewrite Hq, Hz. reflexivity. }
  right.
  destruct (plain_session_fetch m bytes Hp Hq Hnz) as (Hprod & Hdone & Hstream & Hcase).
  fold c in Hprod, Hdone, Hstream, Hcase.
  pose proof Hp as (Hdec & Hl & Hsz & Hst & Hdata & Hcur & Hpc).
  set (a := Z.min (spec_size (spec m)) (stop m - cursor m)) in *.
  assert (Z.of_nat (length (stream (after c))) = a) as Hlen.
  { rewrite Hstream, source_bytes_length; lia. }
  assert (stream (after c) ++ source_bytes m (cursor m + a) (stop m)
          = source_bytes m (cursor m) (stop m)) as Hsplit.
  { rewrite Hstream. apply source_bytes_split; lia. }
  split; [exact Hdone | ].
  rewrite Hprod. cbn [app]. rewrite (remaining_after m (after c) Hd).
  unfold calls_left.
  assert (stop (after c) = stop m /\ start (after c) = start m) as [Hsto Hsta].
  { unfold description in Hd. injection Hd. auto. }
  rewrite Hsto, Hsta, Hlen.
  unfold remaining at 1. rewrite Hq. cbn [app length Z.of_nat].
  destruct (play_count m =? 0) eqn:E0; [apply Z.eqb_eq in E0; contradiction | ].
  destruct (cursor m + a <? stop m) eqn:E.
  - apply Z.ltb_lt in E. destruct Hcase as [Hc' Hp'].
    rewrite Hc', Hp', E0.
    split; [apply (plain_session_after m c);
             [exact Hp | exact Hd | rewrite Hc'; lia | rewrite Hp'; lia] | ].
    split; [rewrite app_assoc, Hsplit; reflexivity | lia].
  - apply Z.ltb_ge in E. assert (cursor m + a = stop m) as Heq by lia.
    rewrite Heq, source_bytes_empty, app_nil_r in Hsplit.
    destruct (play_count m =? 1) eqn:E1.
    + apply Z.eqb_eq in E1. destruct Hcase as [Hp' Hc'].
      rewrite Hp', Hc'. change (0 =? 0) with true. cbv iota.
      split; [apply (plain_session_after m c);
             [exact Hp | exact Hd | rewrite Hc'; lia | rewrite Hp'; lia] | ].
      rewrite E1. cbn [Z.sub Z.to_nat repeat concat].
      rewrite Hsplit, !app_nil_r. split; [reflexivity | lia].
    + apply Z.eqb_neq in E1. destruct Hcase as [Hp' Hc'].
      rewrite Hp', Hc'.
      replace (play_count m - 1 =? 0) with false
        by (symmetry; apply Z.eqb_neq; lia).
      split; [apply (plain_session_after m c);
             [exact Hp | exact Hd | rewrite Hc'; lia | rewrite Hp'; lia] | ].
      replace (Z.to_nat (play_count m - 1))
        with (S (Z.to_nat (play_count m - 1 - 1))) by lia.
      cbn [repeat concat]. rewrite Hsplit.
      split; [reflexivity | nia].
Qed.

Lemma plain_session_plays : forall (bound : nat) m budget,
  plain_session m -> (forall k, 0 < budget k) ->
  calls_left m <= Z.of_nat bound ->
  exists n,
    played budget n m = remaining m /\
    done (WAV_GetSome (calls budget n m) (budget n)) = true /\
    forall j, (j < n)%nat ->
      done (WAV_GetSome (calls budget j m) (budget j)) = false.
Proof.
  induction bound as [ | bound IH]; intros m budget Hp Hb Hm;
    destruct (plain_session_step m (budget 0%nat) Hp (Hb 0%nat))
      as [[Hdone Hrem] | (Hdone & Hp' & Hown & Hless)].
  - exists 0%nat. cbn [played calls]. rewrite Hrem. split; [reflexivity | ].
    split; [exact Hdone | lia].
  - pose proof (calls_left_nonneg _ Hp'). lia.
  - exists 0%nat. cbn [played calls]. rewrite Hrem. split; [reflexivity | ].
    split; [exact Hdone | lia].
  - destruct (IH _ (fun k => budget (S k)) Hp' (fun k => Hb (S k)) ltac:(lia))
      as (n & Hplayed & Hend & Hbefore).
    exists (S n). rewrite played_front, Hplayed, Hown.
    split; [reflexivity | ].
    rewrite calls_front. split; [exact Hend | ].
    intros [ | j] Hj; [exact Hdone | ].
    rewrite calls_front. apply Hbefore. lia.
Qed.

(** Play in front of a plain session. *)
Lemma WAV_Play_plain_session music k :
  decode music = Fetch_pcm ->
  loops music = [] ->
  stream music = [] ->
  0 < spec_size (spec music) < 2 ^ 31 ->
  0 <= start music <= stop music ->
  stop music <= Z.of_nat (length (rw_data (src music))) ->
  0 <= k ->
  plain_session (snd (WAV_Play music k)) /\
  remaining (snd (WAV_Play music k))
  = concat (repeat (region_bytes music) (Z.to_nat k)).
Proof.
  intros Hdec Hl Hq Hsz Hst Hdata Hk.
  rewrite WAV_Play_ok by lia. cbn [snd]. rewrite Hl. split.
  - unfold plain_session, cursor.
    cbn [set_src set_play_count set_loops decode loops spec start stop src
         rw_data play_count SDL_RWtell rw_pos map].
    repeat split; auto; lia.
  - unfold remaining, region_bytes, source_bytes, cursor.
    cbn [set_src set_play_count set_loops stream play_count src rw_data
         SDL_RWtell rw_pos start stop].
    rewrite Hq. cbn [app].
    destruct (k =? 0) eqn:E.
    + apply Z.eqb_eq in E. subst k. reflexivity.
    + apply Z.eqb_neq in E.
      replace (Z.to_nat k) with (S (Z.to_nat (k - 1))) by lia.
      reflexivity.
Qed.



(** ** The sample rate of an AIFF file *)

Lemma lor_disjoint hi lo n :
  0 <= n -> 0 <= lo < 2 ^ n -> Z.lor (hi * 2 ^ n) lo = hi * 2 ^ n + lo.
Proof.
  intros Hn Hlo.
  assert (Z.land (hi * 2 ^ n) lo = 0) as Hland.
  { apply Z.bits_inj'. intros k Hk. rewrite Z.land_spec, Z.bits_0.
    destruct (Z.lt_ge_cases k n) as [Hlt | Hge].
    - rewrite Z.mul_pow2_bits_low by lia. reflexivity.
    - assert (Z.testbit lo k = false) as ->; [ | apply andb_false_r].
      apply Z.testbit_false; [exact Hk | ].
      rewrite Z.div_small; [reflexivity | ].
      pose proof (Z.pow_le_mono_r 2 n k ltac:(lia) Hge). lia. }
  rewrite <- Z.lxor_lor by exact Hland.
  symmetry. apply Z.add_nocarry_lxor. exact Hland.
Qed.

Lemma byte_at_range l :
  Forall (fun b => 0 <= b < 256) l -> forall i, 0 <= byte_at l i < 256.
Proof.
  intros Hl i. unfold byte_at. destruct (i <? 0); [lia | ].
  destruct (nth_in_or_default (Z.to_nat i) l 0) as [Hin | ->]; [ | lia].
  rewrite Forall_forall in Hl. apply Hl, Hin.
Qed.

(** X11.  For a number that is not negative and whose exponent field is
    [0x4000 + e] with [e <= 28], that is, a number from 2 up to 2^30,
    [SANE_to_Uint32] is the integer part of the extended-precision
    number: its 64-bit mantissa divided by [2 ^ (62 - e)], whatever the
    low mantissa bytes hold; and when the mantissa is normalised (top
    bit set) the result lies in [2 ^ (e + 1), 2 ^ (e + 2)). *)
Theorem SANE_to_Uint32_integer_part :
  forall sanebuf,
    Forall (fun b => 0 <= b < 256) sanebuf ->
    byte_at sanebuf 0 = 0x40 ->
    byte_at sanebuf 1 <= 0x1C ->
    let e := byte_at sanebuf 1 in
    SANE_to_Uint32 sanebuf = sane_mantissa sanebuf / 2 ^ (62 - e) /\
    (0x80 <= byte_at sanebuf 2 ->
     2 ^ (e + 1) <= SANE_to_Uint32 sanebuf < 2 ^ (e + 2)).
Proof.
  intros buf Hall H0 H1 e.
  pose proof (byte_at_range buf Hall) as Hbytes.
  pose proof (Hbytes 1) as B1. pose proof (Hbytes 2) as B2.
  pose proof (Hbytes 3) as B3. pose proof (Hbytes 4) as B4.
  pose proof (Hbytes 5) as B5. pose proof (Hbytes 6) as B6.
  pose proof (Hbytes 7) as B7. pose proof (Hbytes 8) as B8.
  pose proof (Hbytes 9) as B9.
  fold e in H1, B1.
  set (hi := be32 buf 2).
  assert (0 <= be32 buf 6 < 2 ^ 32) as Hlo
    by (unfold be32; change (6 + 1) with 7; change (6 + 2) with 8;
        change (6 + 3) with 9; lia).
  assert (hi = 2 ^ 24 * byte_at buf 2 + 2 ^ 16 * byte_at buf 3
               + 2 ^ 8 * byte_at buf 4 + byte_at buf 5) as Hhi
    by reflexivity.
  assert (0 <= hi < 2 ^ 32) as Hhr by lia.
  assert (SANE_to_Uint32 buf = Uint32 (Z.shiftr (hi / 2) (29 - e))) as Hval.
  { unfold SANE_to_Uint32. rewrite H0. fold e.
    change (negb (Z.land 64 128 =? 0)) with false.
    change (64 <=? 63) with false. change (64 <? 64) with false.
    change (64 =? 64) with true. cbv iota. cbn [andb].
    replace (28 <? e) with false by (symmetry; apply Z.ltb_ge; lia).
    f_equal. f_equal.
    rewrite !Z.shiftl_mul_pow2, Z.shiftr_div_pow2 by lia.
    rewrite lor_disjoint by lia.
    replace (byte_at buf 2 * 2 ^ 23 + byte_at buf 3 * 2 ^ 15)
      with ((byte_at buf 2 * 2 ^ 8 + byte_at buf 3) * 2 ^ 15) by lia.
    rewrite lor_disjoint by lia.
    assert (0 <= byte_at buf 5 / 2 ^ 1 < 2 ^ 7) as Hq.
    { split; [apply Z.div_pos; lia | ].
      apply Z.div_lt_upper_bound; lia. }
    replace ((byte_at buf 2 * 2 ^ 8 + byte_at buf 3) * 2 ^ 15
             + byte_at buf 4 * 2 ^ 7)
      with ((byte_at buf 2 * 2 ^ 16 + byte_at buf 3 * 2 ^ 8 + byte_at buf 4)
            * 2 ^ 7) by lia.
    rewrite lor_disjoint by lia.
    rewrite Hhi.
    replace (2 ^ 24 * byte_at buf 2 + 2 ^ 16 * byte_at buf 3
             + 2 ^ 8 * byte_at buf 4 + byte_at buf 5)
      with ((byte_at buf 2 * 2 ^ 16 + byte_at buf 3 * 2 ^ 8 + byte_at buf 4)
            * 2 ^ 7 * 2 + byte_at buf 5) by lia.
    rewrite Z.div_add_l by lia. reflexivity. }
  assert (sane_mantissa buf / 2 ^ (62 - e) = hi / 2 / 2 ^ (29 - e)) as Hm.
  { unfold sane_mantissa. fold hi.
    replace (62 - e) with (32 + (1 + (29 - e))) by lia.
    rewrite !Z.pow_add_r by lia.
    rewrite <- Z.div_div by lia.
    rewrite Z.div_add_l by lia.
    rewrite (Z.div_small (be32 buf 6)) by lia. rewrite Z.add_0_r.
    rewrite <- Z.div_div by lia. reflexivity. }
  assert (0 <= hi / 2 < 2 ^ 31) as Hh2.
  { split; [apply Z.div_pos; lia | apply Z.div_lt_upper_bound; lia]. }
  assert (0 < 2 ^ (29 - e)) as Hp by (apply Z.pow_pos_nonneg; lia).
  assert (0 <= hi / 2 / 2 ^ (29 - e) < 2 ^ 32) as Hr.
  { split; [apply Z.div_pos; lia | ].
    apply Z.div_lt_upper_bound; [lia | ]. nia. }
  rewrite Hval, Z.shiftr_div_pow2 by lia.
  unfold Uint32. rewrite Z.mod_small by exact Hr.
  split; [symmetry; exact Hm | ].
  intros Hnorm.
  assert (2 ^ 30 <= hi / 2) as Hge by (apply Z.div_le_lower_bound; lia).
  replace (2 ^ 30) with (2 ^ (e + 1) * 2 ^ (29 - e)) in Hge
    by (rewrite <- Z.pow_add_r by lia; f_equal; lia).
  replace (2 ^ 31) with (2 ^ (e + 2) * 2 ^ (29 - e)) in Hh2
    by (rewrite <- Z.pow_add_r by lia; f_equal; lia).
  split.
  - apply Z.div_le_lower_bound; lia.
  - apply Z.div_lt_upper_bound; lia.
Qed.

(** 44100 Hz as an AIFF file stores it: 40 0E AC 44 00 00 00 00 00 00. *)
Lemma SANE_to_Uint32_integer_part_witness :
  SANE_to_Uint32 [0x40; 0x0E; 0xAC; 0x44; 0; 0; 0; 0; 0; 0]
  = sane_mantissa [0x40; 0x0E; 0xAC; 0x44; 0; 0; 0; 0; 0; 0] / 2 ^ (62 - 14) /\
  sane_mantissa [0x40; 0x0E; 0xAC; 0x44; 0; 0; 0; 0; 0; 0] / 2 ^ (62 - 14)
  = 44100.
Proof.
  split; [ | reflexivity].
  apply (SANE_to_Uint32_integer_part [0x40; 0x0E; 0xAC; 0x44; 0; 0; 0; 0; 0; 0]).
  - repeat constructor; lia.
  - reflexivity.
  - vm_compute; discriminate.
Defined.

(** ** The format chunk *)

Lemma rw_available_nonneg s : 0 <= rw_available s.
Proof. unfold rw_available. lia. Qed.

(** A read of one whole object of [n > 0] bytes. *)
Lemma read_chunk_spec wave n :
  0 <= cursor wave -> 0 < n < 2 ^ 64 ->
  read_chunk (src wave) n
  = if n <=? rw_available (src wave)
    then (true, chunk_payload wave n,
          mkRW (rw_data (src wave)) (cursor wave + n))
    else (false,
          firstn (Z.to_nat (rw_available (src wave)))
            (skipn (Z.to_nat (cursor wave)) (rw_data (src wave))),
          mkRW (rw_data (src wave)) (cursor wave + rw_available (src wave))).
Proof.
  intros Hc Hn. unfold read_chunk.
  pose proof (SDL_RWread_bounds (src wave) n Hc ltac:(lia)) as Hb.
  unfold cursor, SDL_RWtell in *.
  destruct (SDL_RWread (src wave) n) as [got s'] eqn:E.
  destruct Hb as [Hlen Hs']. subst s'.
  assert (got = firstn (Z.to_nat (Z.min n (rw_available (src wave))))
                  (skipn (Z.to_nat (rw_pos (src wave))) (rw_data (src wave))))
    as Hgot.
  { unfold SDL_RWread in E. unfold Uint64 in E.
    rewrite Z.mod_small in E by lia. injection E as <- _. reflexivity. }
  replace (n =? 0) with false by (symmetry; apply Z.eqb_neq; lia).
  cbn [negb andb]. rewrite Hlen.
  pose proof (rw_available_nonneg (src wave)) as Ha.
  destruct (n <=? rw_available (src wave)) eqn:En.
  - apply Z.leb_le in En. rewrite Z.min_l in * by lia.
    rewrite Z.eqb_refl. subst got.
    unfold chunk_payload, source_bytes, cursor, SDL_RWtell.
    replace (rw_pos (src wave) + n - rw_pos (src wave)) with n by lia.
    reflexivity.
  - apply Z.leb_gt in En. rewrite Z.min_r in * by lia.
    replace (rw_available (src wave) =? n) with false
      by (symmetry; apply Z.eqb_neq; lia).
    subst got. reflexivity.
Qed.

Lemma fmt_table_complete e b :
  (exists d f, fmt_decoder e = Some d /\ fmt_format b e = Some f) <->
  (exists d f, In (e, b, d, f) fmt_table).
Proof.
  split.
  - intros (d & f & Hd & Hf). exists d, f.
    unfold fmt_decoder, fmt_format, PCM_CODE, FLOAT_CODE, ALAW_CODE, uLAW_CODE
      in *.
    destruct (e =? 1) eqn:E1; [apply Z.eqb_eq in E1; subst e | ];
      [ | destruct (e =? 3) eqn:E3; [apply Z.eqb_eq in E3; subst e | ];
          [ | destruct (e =? 7) eqn:E7; [apply Z.eqb_eq in E7; subst e | ];
              [ | destruct (e =? 6) eqn:E6; [apply Z.eqb_eq in E6; subst e | ]]]];
      cbn [orb] in Hd; try discriminate;
      change (1 =? 6) with false in Hf; change (1 =? 7) with false in Hf;
      change (3 =? 6) with false in Hf; change (3 =? 7) with false in Hf;
      change (7 =? 6) with false in Hf;
      (destruct (b =? 8) eqn:B8; [apply Z.eqb_eq in B8; subst b | ];
       [ | destruct (b =? 16) eqn:B16; [apply Z.eqb_eq in B16; subst b | ];
           [ | destruct (b =? 32) eqn:B32; [apply Z.eqb_eq in B32; subst b | ]]]);
      try discriminate;
      injection Hd as <-; injection Hf as <-; cbn; tauto.
  - intros (d & f & Hin). cbn in Hin.
    repeat (destruct Hin as [Hin | Hin];
            [injection Hin as <- <- <- <-; vm_compute; eauto | ]).
    contradiction.
Qed.

Lemma fmt_table_row e b d f :
  In (e, b, d, f) fmt_table ->
  fmt_decoder e = Some d /\ fmt_format b e = Some f.
Proof.
  intros Hin. cbn in Hin.
  repeat (destruct Hin as [Hin | Hin];
          [injection Hin as <- <- <- <-; vm_compute; auto | ]).
  contradiction.
Qed.

(** [ParseFMT] on a chunk that is all there. *)
Lemma ParseFMT_readable wave n :
  0 <= cursor wave -> 16 <= n < 2 ^ 64 -> n <= rw_available (src wave) ->
  let data := chunk_payload wave n in
  let e := le16 data 0 in
  let b := le16 data 14 in
  let read := set_encoding
                (set_src wave (mkRW (rw_data (src wave)) (cursor wave + n))) e in
  ParseFMT wave n
  = match fmt_decoder e with
    | None => (false, read)
    | Some d =>
        let wave := set_spec (set_decode read d)
                      (set_freq (spec wave) (Sint32 (le32 data 4))) in
        match fmt_format b e with
        | None => (false, wave)
        | Some f =>
            let sp := calculate_spec (set_format (spec wave) f) (le16 data 2) in
            (true, set_samplesize (set_spec wave sp)
                     (spec_channels sp * Z.quot b 8))
        end
    end.
Proof.
  intros Hc Hn Ha data e b read. unfold ParseFMT.
  replace (n <? 16) with false by (symmetry; apply Z.ltb_ge; lia).
  rewrite read_chunk_spec by lia.
  replace (n <=? rw_available (src wave)) with true
    by (symmetry; apply Z.leb_le; lia).
  cbn [negb].
  fold data. cbn [encoding set_encoding]. fold e. fold read.
  destruct (fmt_decoder e); reflexivity.
Qed.

(** What a call of [ParseFMT] that returns true has found and done. *)
Lemma ParseFMT_true wave n :
  0 <= cursor wave -> 0 <= n < 2 ^ 32 ->
  fst (ParseFMT wave n) = true ->
  let data := chunk_payload wave n in
  16 <= n <= rw_available (src wave) /\
  exists d f,
    In (le16 data 0, le16 data 14, d, f) fmt_table /\
    snd (ParseFMT wave n)
    = mkMusic (mkRW (rw_data (src wave)) (cursor wave + n))
        (calculate_spec
           (mkSpec (Sint32 (le32 data 4)) f (spec_channels (spec wave))
              (spec_samples (spec wave)) (spec_size (spec wave)))
           (le16 data 2))
        (play_count wave) (start wave) (stop wave)
        (Uint8 (le16 data 2) * Z.quot (le16 data 14) 8)
        (buffer wave) (stream wave) (loops wave) (tags wave)
        (le16 data 0) d.
Proof.
  intros Hc Hn Htrue data.
  destruct (Z.lt_ge_cases n 16) as [Hshort | Hlong].
  { exfalso. unfold ParseFMT in Htrue.
    replace (n <? 16) with true in Htrue by (symmetry; apply Z.ltb_lt; lia).
    discriminate. }
  destruct (Z.lt_ge_cases (rw_available (src wave)) n) as [Hcut | Hthere].
  { exfalso. unfold ParseFMT in Htrue.
    replace (n <? 16) with false in Htrue by (symmetry; apply Z.ltb_ge; lia).
    rewrite read_chunk_spec in Htrue by lia.
    replace (n <=? rw_available (src wave)) with false in Htrue
      by (symmetry; apply Z.leb_gt; lia).
    discriminate. }
  split; [lia | ].
  pose proof (ParseFMT_readable wave n Hc ltac:(lia) Hthere) as E.
  cbv zeta in E. fold data in E. rewrite E in Htrue |- *. clear E.
  pose proof (fmt_table_complete (le16 data 0) (le16 data 14)) as Htab.
  destruct (fmt_decoder (le16 data 0)) as [d | ] eqn:Ed; [ | discriminate].
  destruct (fmt_format (le16 data 14) (le16 data 0)) as [f | ] eqn:Ef;
    [ | discriminate].
  exists d, f. split; [ | reflexivity].
  destruct (proj1 Htab) as (d' & f' & Hin); [eauto | ].
  destruct (fmt_table_row _ _ _ _ Hin) as [Hd' Hf'].
  rewrite Ed in Hd'. rewrite Ef in Hf'.
  injection Hd' as <-. injection Hf' as <-. exact Hin.
Qed.

(** X12.  [ParseFMT] takes exactly six kinds of format chunk.  With the
    cursor not negative and a declared length below 2^32, it returns
    true if and only if the length is at least 16, the whole chunk is
    there to read, and encoding and bits per sample are one of: PCM with
    8, 16 or 32 bits, float with 32 bits, A-law with 8 bits, mu-law with
    8 bits; the strategy and the output format are then the ones of that
    row (direct copy for PCM and float, the law expansions with signed
    16-bit output for the two laws). *)
Theorem ParseFMT_accepts_six_formats :
  forall wave chunk_length,
    0 <= cursor wave -> 0 <= chunk_length < 2 ^ 32 ->
    let data := chunk_payload wave chunk_length in
    let wave' := snd (ParseFMT wave chunk_length) in
    (fst (ParseFMT wave chunk_length) = true <->
     16 <= chunk_length <= rw_available (src wave) /\
     exists d f, In (le16 data 0, le16 data 14, d, f) fmt_table) /\
    (fst (ParseFMT wave chunk_length) = true ->
     In (encoding wave', le16 data 14, decode wave', spec_format (spec wave'))
       fmt_table).
Proof.
  intros wave n Hc Hn data wave'. split; [split | ].
  - intros Htrue.
    destruct (ParseFMT_true wave n Hc Hn Htrue) as (Hlen & d & f & Hin & _).
    split; [exact Hlen | eauto].
  - intros (Hlen & d & f & Hin).
    rewrite ParseFMT_readable by lia. cbv zeta. fold data.
    destruct (fmt_table_row _ _ _ _ Hin) as [-> ->]. reflexivity.
  - intros Htrue.
    destruct (ParseFMT_true wave n Hc Hn Htrue) as (_ & d & f & Hin & Hres).
    subst wave'. rewrite Hres. exact Hin.
Qed.

Lemma ParseFMT_accepts_six_formats_witness :
  (0 <= cursor demo_fmt_wave /\ 0 <= 16 < 2 ^ 32) /\
  fst (ParseFMT demo_fmt_wave 16) = true.
Proof.
  split; [vm_compute; repeat split; discriminate | ].
  apply (ParseFMT_accepts_six_formats demo_fmt_wave 16);
    [vm_compute; discriminate | lia | ].
  split; [vm_compute; split; discriminate | ].
  exists Fetch_pcm, AUDIO_S16. right. left. reflexivity.
Defined.

Lemma calculate_size k c :
  0 <= k <= 4 -> 0 <= c < 256 ->
  Uint32 (Uint32 (Uint32 k * c) * 4096) = k * c * 4096.
Proof.
  intros Hk Hc. unfold Uint32.
  rewrite (Z.mod_small k) by lia.
  rewrite (Z.mod_small (k * c)) by nia.
  apply Z.mod_small. nia.
Qed.

(** X13.  After a format chunk is taken, one fetch is 4096 whole frames
    on both sides: the byte budget [spec.size] is 4096 output frames,
    the bytes the selected strategy reads from the source for that
    budget are 4096 input frames of [samplesize] bytes, the channel
    count is a byte, and the budget is below 2^31 (and 0 only for 0
    channels). *)
Theorem ParseFMT_fetch_is_4096_frames :
  forall wave chunk_length,
    0 <= cursor wave -> 0 <= chunk_length < 2 ^ 32 ->
    fst (ParseFMT wave chunk_length) = true ->
    let wave' := snd (ParseFMT wave chunk_length) in
    spec_samples (spec wave') = 4096 /\
    0 <= spec_channels (spec wave') < 256 /\
    spec_size (spec wave') = 4096 * bytes_per_sample wave' /\
    source_request (decode wave') (spec_size (spec wave'))
    = 4096 * samplesize wave' /\
    0 <= spec_size (spec wave') < 2 ^ 31 /\
    (spec_size (spec wave') = 0 <-> spec_channels (spec wave') = 0).
Proof.
  intros wave n Hc Hn Htrue wave'.
  destruct (ParseFMT_true wave n Hc Hn Htrue) as (_ & d & f & Hin & Hres).
  subst wave'. rewrite Hres. clear Hres.
  set (data := chunk_payload wave n) in *.
  unfold bytes_per_sample, calculate_spec.
  cbn [spec spec_samples spec_channels spec_size spec_format spec_freq
       decode samplesize].
  pose proof (Uint8_range (le16 data 2)) as Hch.
  set (c := Uint8 (le16 data 2)) in *.
  set (b := le16 data 14) in *.
  cbn in Hin.
  repeat (destruct Hin as [Hin | Hin];
          [injection Hin as _ Hb <- <-; rewrite <- Hb;
           unfold AUDIO_U8, AUDIO_S16, AUDIO_S32, AUDIO_S32LSB, AUDIO_F32,
             AUDIO_F32LSB, SDL_AUDIO_BITSIZE, source_request;
           match goal with
           | |- context [Z.quot (Z.land ?x 255) 8] =>
               let v := eval vm_compute in (Z.quot (Z.land x 255) 8) in
               change (Z.quot (Z.land x 255) 8) with v
           end;
           match goal with
           | |- context [Z.quot ?x 8] =>
               let v := eval vm_compute in (Z.quot x 8) in
               change (Z.quot x 8) with v
           end;
           rewrite calculate_size by lia;
           repeat split; try lia;
           rewrite Z.quot_div_nonneg by lia;
           symmetry; apply Z.div_unique with 0; lia
          | ]).
  contradiction.
Qed.

Lemma ParseFMT_fetch_is_4096_frames_witness :
  (0 <= cursor demo_fmt_wave /\ 0 <= 16 < 2 ^ 32) /\
  spec_size (spec (snd (ParseFMT demo_fmt_wave 16)))
  = 4096 * bytes_per_sample (snd (ParseFMT demo_fmt_wave 16)).
Proof.
  split; [vm_compute; repeat split; discriminate | ].
  apply (ParseFMT_fetch_is_4096_frames demo_fmt_wave 16);
    [vm_compute; discriminate | lia | reflexivity].
Defined.

(** ** The sample-loop chunk *)

Lemma chunk_byte_app pre post k :
  (k < length post)%nat ->
  chunk_byte (pre ++ post) (Z.of_nat (length pre) + Z.of_nat k)
  = nth_error post k.
Proof.
  intros Hk. unfold chunk_byte.
  replace (Z.of_nat (length pre) + Z.of_nat k <? 0) with false
    by (symmetry; apply Z.ltb_ge; lia).
  replace (Z.to_nat (Z.of_nat (length pre) + Z.of_nat k))
    with (length pre + k)%nat by lia.
  rewrite nth_error_app2 by lia. f_equal. lia.
Qed.

Lemma le32_bytes_value v :
  0 <= v < 2 ^ 32 ->
  v mod 2 ^ 8 + 2 ^ 8 * ((v / 2 ^ 8) mod 2 ^ 8)
  + 2 ^ 16 * ((v / 2 ^ 16) mod 2 ^ 8) + 2 ^ 24 * ((v / 2 ^ 24) mod 2 ^ 8) = v.
Proof.
  intros Hv.
  pose proof (Z.div_mod v (2 ^ 8) ltac:(lia)).
  pose proof (Z.div_mod (v / 2 ^ 8) (2 ^ 8) ltac:(lia)).
  pose proof (Z.div_mod (v / 2 ^ 8 / 2 ^ 8) (2 ^ 8) ltac:(lia)).
  replace (v / 2 ^ 16) with (v / 2 ^ 8 / 2 ^ 8)
    by (rewrite Z.div_div by lia; reflexivity).
  replace (v / 2 ^ 24) with (v / 2 ^ 8 / 2 ^ 8 / 2 ^ 8)
    by (rewrite !Z.div_div by lia; reflexivity).
  assert (v / 2 ^ 8 / 2 ^ 8 / 2 ^ 8 < 2 ^ 8).
  { rewrite !Z.div_div by lia. apply Z.div_lt_upper_bound; lia. }
  assert (0 <= v / 2 ^ 8 / 2 ^ 8 / 2 ^ 8).
  { rewrite !Z.div_div by lia. apply Z.div_pos; lia. }
  rewrite (Z.mod_small (v / 2 ^ 8 / 2 ^ 8 / 2 ^ 8)) by lia.
  lia.
Qed.

(** Reading back a 32-bit value where it was stored. *)
Lemma load_le32_stored pre v post i :
  0 <= v < 2 ^ 32 -> i = Z.of_nat (length pre) ->
  load_le32 (pre ++ le32_bytes v ++ post) i = Some v.
Proof.
  intros Hv ->. unfold load_le32.
  pose proof (chunk_byte_app pre (le32_bytes v ++ post) 0) as H0.
  pose proof (chunk_byte_app pre (le32_bytes v ++ post) 1) as H1.
  pose proof (chunk_byte_app pre (le32_bytes v ++ post) 2) as H2.
  pose proof (chunk_byte_app pre (le32_bytes v ++ post) 3) as H3.
  cbn [le32_bytes app length nth_error Z.of_nat] in H0, H1, H2, H3.
  rewrite Z.add_0_r in H0.
  change (Z.pos (Pos.of_succ_nat 0)) with 1 in H1.
  change (Z.pos (Pos.of_succ_nat 1)) with 2 in H2.
  change (Z.pos (Pos.of_succ_nat 2)) with 3 in H3.
  cbn [le32_bytes app].
  rewrite H0, H1, H2, H3 by lia.
  f_equal. apply le32_bytes_value, Hv.
Qed.

Lemma length_le32_bytes v : length (le32_bytes v) = 4%nat.
Proof. reflexivity. Qed.

Lemma length_sample_loop_bytes r : length (sample_loop_bytes r) = 24%nat.
Proof. reflexivity. Qed.

(** The fields of a record read back from where the record lies. *)
Lemma load_sample_loop pre r post at_ :
  sample_loop_fits r -> at_ = Z.of_nat (length pre) ->
  let data := pre ++ sample_loop_bytes r ++ post in
  load_le32 data (at_ + 4) = Some (sl_type r) /\
  load_le32 data (at_ + 20) = Some (sl_play_count r) /\
  load_le32 data (at_ + 8) = Some (sl_start r) /\
  load_le32 data (at_ + 12) = Some (sl_end r).
Proof.
  intros (Ht & Hs & He & Hc) -> data. subst data. unfold sample_loop_bytes.
  set (b0 := le32_bytes (sl_identifier r)).
  set (b4 := le32_bytes (sl_fraction r)).
  repeat split.
  - replace (pre ++ (b0 ++ le32_bytes (sl_type r) ++ le32_bytes (sl_start r)
                     ++ le32_bytes (sl_end r) ++ b4
                     ++ le32_bytes (sl_play_count r)) ++ post)
      with ((pre ++ b0) ++ le32_bytes (sl_type r)
            ++ (le32_bytes (sl_start r) ++ le32_bytes (sl_end r) ++ b4
                ++ le32_bytes (sl_play_count r) ++ post))
      by (rewrite <- !app_assoc; reflexivity).
    apply load_le32_stored; [exact Ht | ].
    rewrite length_app. subst b0. rewrite length_le32_bytes. lia.
  - replace (pre ++ (b0 ++ le32_bytes (sl_type r) ++ le32_bytes (sl_start r)
                     ++ le32_bytes (sl_end r) ++ b4
                     ++ le32_bytes (sl_play_count r)) ++ post)
      with ((pre ++ b0 ++ le32_bytes (sl_type r) ++ le32_bytes (sl_start r)
                 ++ le32_bytes (sl_end r) ++ b4)
            ++ le32_bytes (sl_play_count r) ++ post)
      by (rewrite <- !app_assoc; reflexivity).
    apply load_le32_stored; [exact Hc | ].
    rewrite !length_app. subst b0 b4. rewrite !length_le32_bytes. lia.
  - replace (pre ++ (b0 ++ le32_bytes (sl_type r) ++ le32_bytes (sl_start r)
                     ++ le32_bytes (sl_end r) ++ b4
                     ++ le32_bytes (sl_play_count r)) ++ post)
      with ((pre ++ b0 ++ le32_bytes (sl_type r))
            ++ le32_bytes (sl_start r)
            ++ (le32_bytes (sl_end r) ++ b4
                ++ le32_bytes (sl_play_count r) ++ post))
      by (rewrite <- !app_assoc; reflexivity).
    apply load_le32_stored; [exact Hs | ].
    rewrite !length_app. subst b0. rewrite !length_le32_bytes. lia.
  - replace (pre ++ (b0 ++ le32_bytes (sl_type r) ++ le32_bytes (sl_start r)
                     ++ le32_bytes (sl_end r) ++ b4
                     ++ le32_bytes (sl_play_count r)) ++ post)
      with ((pre ++ b0 ++ le32_bytes (sl_type r) ++ le32_bytes (sl_start r))
            ++ le32_bytes (sl_end r)
            ++ (b4 ++ le32_bytes (sl_play_count r) ++ post))
      by (rewrite <- !app_assoc; reflexivity).
    apply load_le32_stored; [exact He | ].
    rewrite !length_app. subst b0. rewrite !length_le32_bytes. lia.
Qed.

(** The loop of [ParseSMPL] over records that are all there. *)
Lemma smpl_loops_records junk : forall records pre post wave i,
  Forall sample_loop_fits records ->
  Z.of_nat (length pre) = 36 + 24 * i ->
  exists added,
    smpl_loops junk (length records) i
      (pre ++ concat (map sample_loop_bytes records) ++ post) wave
    = Some (set_loops wave (loops wave ++ added)) /\
    map rearm added = forward_loops records.
Proof.
  induction records as [ | r records IH]; intros pre post wave i Hfit Hpre.
  - exists []. cbn [length smpl_loops]. rewrite app_nil_r.
    split; [ | reflexivity].
    destruct wave; reflexivity.
  - inversion Hfit as [ | r' rs' Hr Hrest]; subst r' rs'.
    cbn [length smpl_loops map concat].
    rewrite <- (app_assoc (sample_loop_bytes r)).
    destruct (load_sample_loop pre r
                (concat (map sample_loop_bytes records) ++ post)
                (36 + 24 * i) Hr (eq_sym Hpre))
      as (Ht & Hc & Hs & He).
    cbv zeta in Ht, Hc, Hs, He. rewrite Ht, Hc, Hs, He.
    set (wave1 := if sl_type r =? 0
                  then snd (AddLoopPoint (junk (length (loops wave))) wave
                              (sl_play_count r) (sl_start r) (sl_end r))
                  else wave).
    destruct (IH (pre ++ sample_loop_bytes r) post wave1 (i + 1) Hrest)
      as (added & Hrun & Hshape).
    { rewrite length_app, length_sample_loop_bytes. lia. }
    rewrite <- app_assoc in Hrun. rewrite Hrun.
    unfold forward_loops. cbn [filter].
    subst wave1. destruct (sl_type r =? 0).
    + exists (mkLoop (junk (length (loops wave))) (sl_start r) (sl_end r)
                (sl_play_count r) (sl_play_count r) :: added).
      cbn [AddLoopPoint snd set_loops loops src spec play_count start stop
           samplesize buffer stream tags encoding decode].
      rewrite <- app_assoc. cbn [app map]. rewrite Hshape.
      split; reflexivity.
    + exists added. split; [reflexivity | exact Hshape].
Qed.

(** X14.  [ParseSMPL] turns the forward records of a sample-loop chunk
    into loop points, in order.  For a chunk that is all there, with 28
    bytes of leading fields, a record count that is the number of
    records that follow, and 32-bit fields: the call returns true, moves
    the cursor past the chunk, and leaves the loop points it found
    followed by one new loop point per record of type 0 (start, stop
    and both counts from the record's start, end and play count);
    records of another type add nothing.  The new points' active flags
    are whatever the allocation held; after Play the loop points are the
    old ones re-armed followed by the new ones, active, whatever that
    was. *)
Theorem ParseSMPL_adds_forward_loops :
  forall junk wave fields sampler_data records rest chunk_length k,
    0 <= cursor wave ->
    length fields = 28%nat ->
    0 <= sampler_data < 2 ^ 32 ->
    Forall sample_loop_fits records ->
    chunk_length < 2 ^ 32 ->
    chunk_payload wave chunk_length
    = smpl_chunk fields sampler_data records rest ->
    chunk_length
    = Z.of_nat (length (smpl_chunk fields sampler_data records rest)) ->
    exists wave',
      ParseSMPL junk wave chunk_length = Some (true, wave') /\
      cursor wave' = cursor wave + chunk_length /\
      length (loops wave')
      = (length (loops wave) + length (forward_loops records))%nat /\
      loops (snd (WAV_Play wave' k))
      = map rearm (loops wave) ++ forward_loops records.
Proof.
  intros junk wave fields sampler_data records rest n k Hc Hf Hsd Hfit Hn
    Hdata Hlen.
  assert (36 <= n) as Hn36.
  { rewrite Hlen. unfold smpl_chunk.
    rewrite !length_app, Hf, !length_le32_bytes. lia. }
  assert (n <= rw_available (src wave)) as Havail.
  { pose proof (f_equal (fun l => Z.of_nat (length l)) Hdata) as Hl.
    cbv beta in Hl. rewrite <- Hlen in Hl.
    unfold chunk_payload, source_bytes in Hl.
    rewrite length_firstn, length_skipn in Hl.
    unfold rw_available, cursor, SDL_RWtell in *. lia. }
  unfold ParseSMPL. rewrite read_chunk_spec by lia.
  replace (n <=? rw_available (src wave)) with true
    by (symmetry; apply Z.leb_le; exact Havail).
  cbn [negb]. rewrite Hdata.
  assert (Z.of_nat (length records) < 2 ^ 32) as Hcount.
  { rewrite Hlen in Hn. unfold smpl_chunk in Hn.
    rewrite !length_app, Hf, !length_le32_bytes in Hn.
    assert (length records <= length (concat (map sample_loop_bytes records)))%nat.
    { clear. induction records as [ | r rs IH]; [cbn; lia | ].
      cbn [map concat length]. rewrite length_app, length_sample_loop_bytes.
      lia. }
    lia. }
  unfold smpl_chunk at 1.
  rewrite load_le32_stored by (rewrite ?Hf; lia).
  rewrite Nat2Z.id.
  set (wave0 := set_src wave (mkRW (rw_data (src wave)) (cursor wave + n))).
  destruct (smpl_loops_records junk records
              (fields ++ le32_bytes (Z.of_nat (length records))
               ++ le32_bytes sampler_data)
              rest wave0 0 Hfit) as (added & Hrun & Hshape).
  { rewrite !length_app, Hf, !length_le32_bytes. lia. }
  unfold smpl_chunk. rewrite <- !app_assoc in Hrun. rewrite Hrun.
  eexists. split; [reflexivity | ].
  split; [reflexivity | ].
  split.
  - cbn [set_loops loops]. subst wave0. cbn [set_src loops].
    rewrite length_app, <- Hshape, length_map. reflexivity.
  - rewrite WAV_Play_loops. cbn [set_loops loops]. subst wave0.
    cbn [set_src loops]. rewrite map_app, Hshape. reflexivity.
Qed.

Lemma ParseSMPL_adds_forward_loops_witness :
  exists wave',
    ParseSMPL (fun _ => false) demo_smpl_wave 84 = Some (true, wave') /\
    loops (snd (WAV_Play wave' 1)) = [mkLoop true 100 199 3 3].
Proof.
  destruct (ParseSMPL_adds_forward_loops (fun _ => false) demo_smpl_wave
              (repeat 0 28) 0 demo_smpl_records [] 84 1)
    as (wave' & Hparse & _ & _ & Hloops).
  - vm_compute; discriminate.
  - reflexivity.
  - lia.
  - repeat (constructor; [unfold sample_loop_fits; cbn; lia | ]).
    constructor.
  - lia.
  - reflexivity.
  - reflexivity.
  - exists wave'. split; [exact Hparse | exact Hloops].
Defined.

(** ** The INFO list, read back *)

Lemma skipn_app_length {A : Type} (pre post : list A) n :
  n = length pre -> skipn n (pre ++ post) = post.
Proof.
  intros ->. rewrite skipn_app, Nat.sub_diag, skipn_all. reflexivity.
Qed.

Lemma tag_at_stored pre t post i lit :
  i = Z.of_nat (length pre) ->
  tag_at (pre ++ bytes_of_string (info_tag t) ++ post) i lit
  = if list_eq_dec Z.eq_dec (bytes_of_string (info_tag t)) (bytes_of_string lit)
    then true else false.
Proof.
  intros ->. unfold tag_at.
  replace (Z.of_nat (length pre) <? 0) with false
    by (symmetry; apply Z.ltb_ge; lia).
  rewrite skipn_app_length by lia.
  replace (firstn 4 (bytes_of_string (info_tag t) ++ post))
    with (bytes_of_string (info_tag t)); [reflexivity | ].
  destruct t; reflexivity.
Qed.

Lemma c_string_stored text post :
  Forall (fun b => b <> 0) text -> c_string (text ++ 0 :: post) = Some text.
Proof.
  induction 1 as [ | b text Hb _ IH]; cbn [app c_string].
  - reflexivity.
  - replace (b =? 0) with false by (symmetry; apply Z.eqb_neq; exact Hb).
    rewrite IH. reflexivity.
Qed.

Lemma length_info_record field :
  length (info_record field) = (9 + length (snd field))%nat.
Proof.
  unfold info_record. rewrite !length_app, length_le32_bytes.
  destruct (fst field); cbn [length info_tag]; cbn; lia.
Qed.

(** [read_meta_field] on a field that lies at [i]. *)
Lemma read_meta_field_stored tags pre field post i n :
  Forall (fun b => b <> 0) (snd field) ->
  i = Z.of_nat (length pre) ->
  Z.of_nat (length (snd field)) + 1 <= n -> n < 2 ^ 32 ->
  read_meta_field tags (fst field) i n (pre ++ info_record field ++ post) 4
  = Some (meta_tags_set tags (fst field) (snd field),
          i + Z.of_nat (length (info_record field))).
Proof.
  intros Htext -> Hlen Hn. unfold read_meta_field.
  change (4 =? 7) with false. cbv iota.
  set (tag := bytes_of_string (info_tag (fst field))).
  assert (length tag = 4%nat) as Htag by (subst tag; destruct (fst field); reflexivity).
  set (len := Z.of_nat (length (snd field)) + 1) in *.
  assert (pre ++ info_record field ++ post
          = (pre ++ tag) ++ le32_bytes len ++ (snd field ++ [0] ++ post)) as E1.
  { unfold info_record. fold tag. fold len. rewrite <- !app_assoc. reflexivity. }
  rewrite E1 at 1.
  rewrite load_le32_stored by (rewrite ?length_app, ?Htag; lia).
  replace (n <? len) with false by (symmetry; apply Z.ltb_ge; lia).
  unfold SDL_strlcpy.
  replace (Z.of_nat (length pre) + 4 + 4 <? 0) with false
    by (symmetry; apply Z.ltb_ge; lia).
  assert (pre ++ info_record field ++ post
          = (pre ++ tag ++ le32_bytes len) ++ (snd field ++ 0 :: post)) as E2.
  { unfold info_record. fold tag. fold len. rewrite <- !app_assoc. reflexivity. }
  rewrite E2.
  rewrite skipn_app_length
    by (rewrite !length_app, Htag, length_le32_bytes; lia).
  rewrite c_string_stored by exact Htext.
  replace (0 <? len) with true by (symmetry; apply Z.ltb_lt; lia).
  replace (Z.to_nat (Z.min (Z.of_nat (length (snd field))) (len - 1)))
    with (length (snd field)) by lia.
  rewrite firstn_all. f_equal. f_equal.
  rewrite length_info_record. lia.
Qed.

(** The scan over fields that follow one another up to the end of the
    chunk. *)
Lemma info_scan_fields : forall fields pre tags fuel n,
  Forall (fun field => Forall (fun b => b <> 0) (snd field)) fields ->
  (length fields <= fuel)%nat ->
  n = Z.of_nat (length (pre ++ concat (map info_record fields))) ->
  (4 <= length pre)%nat -> n < 2 ^ 32 ->
  info_scan fuel tags (Z.of_nat (length pre)) n
    (pre ++ concat (map info_record fields))
  = Some (set_fields tags fields).
Proof.
  induction fields as [ | field fields IH]; intros pre tags fuel n Htext Hfuel
    Hn Hpre Hbound.
  - cbn [map concat] in *. rewrite app_nil_r in *. subst n.
    destruct fuel as [ | fuel]; [reflexivity | ].
    cbn [info_scan]. unfold Uint32. rewrite Z.mod_small by lia.
    replace (Z.of_nat (length pre) <? Z.of_nat (length pre) - 4) with false
      by (symmetry; apply Z.ltb_ge; lia).
    reflexivity.
  - inversion Htext as [ | f fs Hf Hrest]; subst f fs.
    destruct fuel as [ | fuel]; [cbn [length] in Hfuel; lia | ].
    cbn [map concat] in *.
    rewrite length_app, length_app, length_info_record in Hn.
    cbn [info_scan]. unfold Uint32. rewrite Z.mod_small by lia.
    replace (Z.of_nat (length pre) <? n - 4) with true
      by (symmetry; apply Z.ltb_lt; lia).
    set (data := pre ++ info_record field ++ concat (map info_record fields)).
    assert (forall lit,
              tag_at data (Z.of_nat (length pre)) lit
              = if list_eq_dec Z.eq_dec (bytes_of_string (info_tag (fst field)))
                     (bytes_of_string lit) then true else false) as Htag.
    { intros lit. subst data. unfold info_record. rewrite <- !app_assoc.
      apply tag_at_stored. reflexivity. }
    pose proof (read_meta_field_stored tags pre field
                  (concat (map info_record fields)) (Z.of_nat (length pre)) n
                  Hf eq_refl ltac:(lia) Hbound) as Hread.
    fold data in Hread.
    pose proof (IH (pre ++ info_record field) (meta_tags_set tags (fst field) (snd field))
                  fuel n Hrest ltac:(cbn [length] in Hfuel; lia)) as Hnext.
    rewrite <- app_assoc in Hnext. fold data in Hnext.
    rewrite length_app in Hnext.
    rewrite Nat2Z.inj_add in Hnext.
    specialize (Hnext ltac:(subst data; rewrite !length_app, length_info_record; lia)
                  ltac:(lia) Hbound).
    rewrite !Htag.
    destruct field as [t text]. cbn [fst snd] in *.
    destruct t; cbn [info_tag];
      repeat match goal with
             | |- context [list_eq_dec Z.eq_dec (bytes_of_string ?a) (bytes_of_string ?b)] =>
                 let v := eval vm_compute in
                   (if list_eq_dec Z.eq_dec (bytes_of_string a) (bytes_of_string b)
                    then true else false) in
                 change (if list_eq_dec Z.eq_dec (bytes_of_string a) (bytes_of_string b)
                         then true else false) with v
             end;
      cbv iota; rewrite Hread; exact Hnext.
Qed.

(** X15.  The INFO reader reads back what a well-formed list holds.  For
    a chunk that is all there and consists of "INFO" and then fields,
    each a sub-tag (INAM, IART, IALB, BCPR), a length and a text without
    NUL closed by a NUL that the length counts: [ParseLIST] returns
    true, moves the cursor past the chunk, and sets each field's tag to
    its text, in the order of the chunk, so that of two fields of a kind
    the later wins and kinds without a field keep what they had. *)
Theorem ParseLIST_reads_back_fields :
  forall wave fields chunk_length,
    0 <= cursor wave ->
    Forall (fun field => Forall (fun b => b <> 0) (snd field)) fields ->
    chunk_length < 2 ^ 32 ->
    chunk_payload wave chunk_length = info_chunk fields ->
    chunk_length = Z.of_nat (length (info_chunk fields)) ->
    ParseLIST wave chunk_length
    = Some (true,
            set_tags
              (set_src wave
                 (mkRW (rw_data (src wave)) (cursor wave + chunk_length)))
              (set_fields (tags wave) fields)).
Proof.
  intros wave fields n Hc Htext Hn Hdata Hlen.
  assert (4 <= n) as Hn4.
  { rewrite Hlen. unfold info_chunk. rewrite length_app. cbn [length]. 
    change (length (bytes_of_string "INFO")) with 4%nat. lia. }
  assert (n <= rw_available (src wave)) as Havail.
  { pose proof (f_equal (fun l => Z.of_nat (length l)) Hdata) as Hl.
    cbv beta in Hl. rewrite <- Hlen in Hl.
    unfold chunk_payload, source_bytes in Hl.
    rewrite length_firstn, length_skipn in Hl.
    unfold rw_available, cursor, SDL_RWtell in *. lia. }
  pose proof (read_chunk_spec wave n Hc ltac:(lia)) as Hread.
  replace (n <=? rw_available (src wave)) with true in Hread
    by (symmetry; apply Z.leb_le; exact Havail).
  unfold read_chunk in Hread. unfold ParseLIST.
  destruct (SDL_RWread (src wave) n) as [data s].
  injection Hread as Hok -> ->.
  rewrite Hdata, <- Hlen, Z.eqb_refl. cbn [negb].
  change (tag_at (info_chunk fields) 0 "INFO") with true. cbv iota.
  cbn [set_src tags].
  unfold info_chunk in *.
  pose proof (info_scan_fields fields (bytes_of_string "INFO") (tags wave)
                (Z.to_nat n) n Htext) as Hscan.
  change (Z.of_nat (length (bytes_of_string "INFO"))) with 4 in Hscan.
  rewrite Hscan; [reflexivity | | exact Hlen | cbn; lia | exact Hn].
  rewrite Hlen, length_app, Nat2Z.id.
  assert (length fields <= length (concat (map info_record fields)))%nat.
  { clear. induction fields as [ | f fs IH]; [cbn; lia | ].
    cbn [map concat length]. rewrite length_app, length_info_record. lia. }
  lia.
Qed.

Lemma ParseLIST_reads_back_fields_witness :
  exists wave',
    ParseLIST demo_fields_wave 43 = Some (true, wave') /\
    meta_tags_get (tags wave') MIX_META_TITLE = Some (bytes_of_string "Song 2") /\
    meta_tags_get (tags wave') MIX_META_ARTIST = Some (bytes_of_string "Me") /\
    meta_tags_get (tags wave') MIX_META_ALBUM = None.
Proof.
  eexists. split.
  - apply (ParseLIST_reads_back_fields demo_fields_wave demo_info_fields 43).
    + vm_compute; discriminate.
    + repeat (constructor; [vm_compute; repeat constructor; discriminate | ]).
      constructor.
    + lia.
    + reflexivity.
    + reflexivity.
  - repeat split.
Defined.

(** ** The chunk walk always ends *)

Lemma moved_on_refl s : moved_on s s.
Proof. split; [reflexivity | lia]. Qed.

Lemma moved_on_trans s1 s2 s3 :
  moved_on s1 s2 -> moved_on s2 s3 -> moved_on s1 s3.
Proof. intros [D1 P1] [D2 P2]. split; [congruence | lia]. Qed.

Lemma moved_on_available s s' :
  moved_on s s' -> rw_available s' <= rw_available s.
Proof. intros [D P]. unfold rw_available. rewrite D. lia. Qed.

Lemma SDL_RWread_moved_on s n : moved_on s (snd (SDL_RWread s n)).
Proof. split; [reflexivity | cbn; lia]. Qed.

Lemma read_chunk_moved_on s n : moved_on s (snd (read_chunk s n)).
Proof.
  unfold read_chunk. pose proof (SDL_RWread_moved_on s n) as H.
  destruct (SDL_RWread s n). exact H.
Qed.

Lemma SDL_RWseek_cur_moved_on s n :
  0 <= n -> moved_on s (snd (SDL_RWseek_cur s n)).
Proof.
  intros Hn. unfold SDL_RWseek_cur, SDL_RWseek.
  destruct (rw_pos s + n <? 0); [apply moved_on_refl | ].
  split; [reflexivity | cbn; lia].
Qed.

Lemma ParseFMT_moved_on wave n :
  moved_on (src wave) (src (snd (ParseFMT wave n))).
Proof.
  unfold ParseFMT. destruct (n <? 16); [apply moved_on_refl | ].
  pose proof (read_chunk_moved_on (src wave) n) as H.
  destruct (read_chunk (src wave) n) as [[ok data] s]. cbn [snd] in H.
  destruct (negb ok); [exact H | ].
  cbn [encoding set_encoding set_src].
  destruct (fmt_decoder _); [ | exact H].
  destruct (fmt_format _ _); exact H.
Qed.

Lemma ParseDATA_moved_on wave n :
  0 <= n -> moved_on (src wave) (src (snd (ParseDATA wave n))).
Proof.
  intros Hn. unfold ParseDATA. cbn [set_start set_stop src].
  pose proof (SDL_RWseek_cur_moved_on (src wave) n Hn) as H.
  destruct (SDL_RWseek_cur (src wave) n). exact H.
Qed.

Lemma smpl_loops_src junk : forall todo i data wave wave',
  smpl_loops junk todo i data wave = Some wave' -> src wave' = src wave.
Proof.
  induction todo as [ | todo IH]; intros i data wave wave' H; cbn [smpl_loops] in H.
  - injection H as <-. reflexivity.
  - destruct (load_le32 data (36 + 24 * i + 4)); [ | discriminate].
    destruct (load_le32 data (36 + 24 * i + 20)); [ | discriminate].
    destruct (load_le32 data (36 + 24 * i + 8)); [ | discriminate].
    destruct (load_le32 data (36 + 24 * i + 12)); [ | discriminate].
    apply IH in H. rewrite H. destruct (_ =? 0); reflexivity.
Qed.

Lemma ParseSMPL_moved_on junk wave n ok wave' :
  ParseSMPL junk wave n = Some (ok, wave') -> moved_on (src wave) (src wave').
Proof.
  unfold ParseSMPL. pose proof (read_chunk_moved_on (src wave) n) as H.
  destruct (read_chunk (src wave) n) as [[ok' data] s]. cbn [snd] in H.
  destruct (negb ok').
  - intros E. injection E as _ <-. exact H.
  - destruct (load_le32 data 28); [ | discriminate].
    destruct (smpl_loops _ _ _ _ _) as [w | ] eqn:E; [ | discriminate].
    intros E'. injection E' as _ <-.
    apply smpl_loops_src in E. rewrite E. exact H.
Qed.

Lemma ParseLIST_moved_on wave n ok wave' :
  ParseLIST wave n = Some (ok, wave') -> moved_on (src wave) (src wave').
Proof.
  unfold ParseLIST. pose proof (SDL_RWread_moved_on (src wave) n) as H.
  destruct (SDL_RWread (src wave) n) as [data s]. cbn [snd] in H.
  destruct (negb _); [intros E; injection E as _ <-; exact H | ].
  destruct (tag_at data 0 "INFO"); [ | intros E; injection E as _ <-; exact H].
  destruct (info_scan _ _ _ _ _); [ | discriminate].
  intros E. injection E as _ <-. exact H.
Qed.

Lemma ParseID3_moved_on id3tag wave n :
  moved_on (src wave) (src (snd (ParseID3 id3tag wave n))).
Proof.
  unfold ParseID3. pose proof (read_chunk_moved_on (src wave) n) as H.
  destruct (read_chunk (src wave) n) as [[ok data] s]. cbn [snd] in H.
  destruct (negb ok); [exact H | ].
  destruct (list_eq_dec _ _ _); exact H.
Qed.

Lemma le32_range got :
  Forall (fun b => 0 <= b < 256) got -> 0 <= le32 got 0 < 2 ^ 32.
Proof.
  intros Hb. pose proof (byte_at_range got Hb) as H. unfold le32.
  pose proof (H 0). pose proof (H (0 + 1)). pose proof (H (0 + 2)).
  pose proof (H (0 + 3)). lia.
Qed.

Lemma Forall_firstn_skipn {A : Type} (P : A -> Prop) l a b :
  Forall P l -> Forall P (firstn a (skipn b l)).
Proof.
  intros H.
  rewrite <- (firstn_skipn b l) in H. apply Forall_app in H. destruct H as [_ H].
  rewrite <- (firstn_skipn a (skipn b l)) in H. apply Forall_app in H.
  exact (proj1 H).
Qed.

(** A 32-bit read: the value is a 32-bit number, and is 0 when nothing
    is left to read. *)
Lemma SDL_ReadLE32_spec s :
  Forall (fun b => 0 <= b < 256) (rw_data s) -> 0 <= rw_pos s ->
  let '(v, s') := SDL_ReadLE32 s in
  moved_on s s' /\ 0 <= v < 2 ^ 32 /\
  (v <> 0 -> rw_available s' < rw_available s).
Proof.
  intros Hb Hp. unfold SDL_ReadLE32.
  pose proof (SDL_RWread_moved_on s 4) as Hm.
  pose proof (SDL_RWread_bounds s 4 Hp ltac:(lia)) as Hr.
  destruct (SDL_RWread s 4) as [got s'] eqn:E. cbn [snd] in Hm.
  destruct Hr as [Hlen ->].
  assert (Forall (fun b => 0 <= b < 256) got) as Hgot.
  { unfold SDL_RWread in E. injection E as <- _. apply Forall_firstn_skipn, Hb. }
  split; [exact Hm | ]. split; [apply le32_range, Hgot | ].
  intros Hv. destruct got as [ | b got]; [exfalso; apply Hv; reflexivity | ].
  cbn [length] in Hlen. unfold rw_available in *. cbn [rw_data rw_pos]. lia.
Qed.

Lemma wav_chunks_ends id3tag junk : forall turns wave found_FMT found_DATA,
  Forall (fun b => 0 <= b < 256) (rw_data (src wave)) ->
  0 <= cursor wave ->
  rw_available (src wave) < Z.of_nat turns ->
  wav_chunks id3tag junk turns wave found_FMT found_DATA <> Out_of_turns /\
  forall more,
    wav_chunks id3tag junk (turns + more) wave found_FMT found_DATA
    = wav_chunks id3tag junk turns wave found_FMT found_DATA.
Proof.
  induction turns as [ | turns IH]; intros wave fF fD Hb Hc Ha.
  { pose proof (rw_available_nonneg (src wave)). lia. }
  unfold cursor, SDL_RWtell in Hc.
  pose proof (SDL_ReadLE32_spec (src wave) Hb Hc) as H1.
  cbn [wav_chunks Nat.add].
  destruct (SDL_ReadLE32 (src wave)) as [ty s1].
  destruct H1 as ([D1 P1] & _ & _).
  assert (Forall (fun b => 0 <= b < 256) (rw_data s1)) as Hb1
    by (rewrite D1; exact Hb).
  pose proof (SDL_ReadLE32_spec s1 Hb1 ltac:(lia)) as H2.
  destruct (SDL_ReadLE32 s1) as [n s2].
  destruct H2 as ([D2 P2] & Hn & Hless).
  destruct (n =? 0) eqn:E0.
  { split; [destruct fF, fD; discriminate | reflexivity]. }
  apply Z.eqb_neq in E0. specialize (Hless E0).
  assert (rw_available s1 <= rw_available (src wave)) as Ha1
    by (apply moved_on_available; split; assumption).
  assert (forall wave' f1 f2,
            moved_on s2 (src wave') ->
            wav_chunks id3tag junk turns wave' f1 f2 <> Out_of_turns /\
            forall more,
              wav_chunks id3tag junk (turns + more) wave' f1 f2
              = wav_chunks id3tag junk turns wave' f1 f2) as Hrec.
  { intros wave' f1 f2 [D P]. apply IH.
    - rewrite D, D2. exact Hb1.
    - unfold cursor, SDL_RWtell. lia.
    - pose proof (moved_on_available s2 (src wave') (conj D P)). lia. }
  set (wave2 := set_src wave s2).
  change s2 with (src wave2) in Hrec.
  clearbody wave2.
  destruct (ty =? FMT).
  { pose proof (ParseFMT_moved_on wave2 n) as Hm.
    destruct (ParseFMT wave2 n) as [ok w]. cbn [snd] in Hm.
    destruct ok; [apply Hrec, Hm | split; [discriminate | reflexivity]]. }
  destruct (ty =? DATA).
  { pose proof (ParseDATA_moved_on wave2 n ltac:(lia)) as Hm.
    destruct (ParseDATA wave2 n) as [ok w]. cbn [snd] in Hm.
    destruct ok; [apply Hrec, Hm | split; [discriminate | reflexivity]]. }
  destruct (ty =? SMPL).
  { pose proof (ParseSMPL_moved_on junk wave2 n) as Hm.
    destruct (ParseSMPL junk wave2 n) as [[ok w] | ];
      [ | split; [discriminate | reflexivity]].
    specialize (Hm ok w eq_refl).
    destruct ok; [apply Hrec, Hm | split; [discriminate | reflexivity]]. }
  destruct (ty =? LIST).
  { pose proof (ParseLIST_moved_on wave2 n) as Hm.
    destruct (ParseLIST wave2 n) as [[ok w] | ];
      [ | split; [discriminate | reflexivity]].
    specialize (Hm ok w eq_refl).
    destruct ok; [apply Hrec, Hm | split; [discriminate | reflexivity]]. }
  destruct (ty =? ID3_).
  { pose proof (ParseID3_moved_on id3tag wave2 n) as Hm.
    destruct (ParseID3 id3tag wave2 n) as [ok w]. cbn [snd] in Hm.
    destruct ok; [apply Hrec, Hm | split; [discriminate | reflexivity]]. }
  pose proof (SDL_RWseek_cur_moved_on (src wave2) n ltac:(lia)) as Hm.
  destruct (SDL_RWseek_cur (src wave2) n) as [r s]. cbn [snd] in Hm.
  apply Hrec. exact Hm.
Qed.

(** X16.  The chunk walk of [LoadWAVMusic] cannot run on for ever,
    whatever the file holds: over a source of bytes with the cursor not
    negative, more turns than there are bytes left to read are never
    needed, and allowing more turns than that does not change the
    result. *)
Theorem LoadWAVMusic_always_ends :
  forall id3tag junk wave turns,
    Forall (fun b => 0 <= b < 256) (rw_data (src wave)) ->
    0 <= cursor wave ->
    rw_available (src wave) < Z.of_nat turns ->
    LoadWAVMusic id3tag junk turns wave <> Out_of_turns /\
    forall more,
      LoadWAVMusic id3tag junk (turns + more) wave
      = LoadWAVMusic id3tag junk turns wave.
Proof.
  intros id3tag junk wave turns Hb Hc Ha. unfold LoadWAVMusic.
  cbn [set_tags src].
  unfold cursor, SDL_RWtell in Hc.
  pose proof (SDL_ReadLE32_spec (src wave) Hb Hc) as H1.
  destruct (SDL_ReadLE32 (src wave)) as [wavelen s1].
  destruct H1 as ([D1 P1] & _ & _).
  assert (Forall (fun b => 0 <= b < 256) (rw_data s1)) as Hb1
    by (rewrite D1; exact Hb).
  pose proof (SDL_ReadLE32_spec s1 Hb1 ltac:(lia)) as H2.
  destruct (SDL_ReadLE32 s1) as [magic s2].
  destruct H2 as ([D2 P2] & _ & _).
  apply wav_chunks_ends.
  - cbn [set_src src]. rewrite D2. exact Hb1.
  - unfold cursor, SDL_RWtell. cbn [set_src src]. lia.
  - cbn [set_src src].
    pose proof (moved_on_available (src wave) s1 (conj D1 P1)).
    pose proof (moved_on_available s1 s2 (conj D2 P2)). lia.
Qed.

Lemma Forall_bytes l :
  forallb (fun b => (0 <=? b) && (b <? 256)) l = true ->
  Forall (fun b => 0 <= b < 256) l.
Proof.
  intros H. rewrite forallb_forall in H. apply Forall_forall. intros b Hb.
  apply H in Hb. apply andb_true_iff in Hb. destruct Hb as [H1 H2].
  apply Z.leb_le in H1. apply Z.ltb_lt in H2. lia.
Qed.

Lemma LoadWAVMusic_always_ends_witness :
  LoadWAVMusic (fun tags _ _ => tags) (fun _ => false) 44 demo_info_wave
  <> Out_of_turns.
Proof.
  apply (LoadWAVMusic_always_ends (fun tags _ _ => tags) (fun _ => false)
           demo_info_wave 44).
  - apply Forall_bytes. reflexivity.
  - vm_compute; discriminate.
  - vm_compute; reflexivity.
Defined.

(** ** Loading a WAVE file *)

Lemma skipn_more {A : Type} (l front tail : list A) a b :
  skipn a l = front ++ tail -> b = length front ->
  skipn (a + b) l = tail.
Proof.
  intros H ->. rewrite Nat.add_comm, <- skipn_skipn, H.
  apply skipn_app_length. reflexivity.
Qed.

Lemma skipn_length_bound {A : Type} (l front tail : list A) a :
  skipn a l = front ++ tail -> (0 < length front)%nat ->
  (a + length front <= length l)%nat.
Proof.
  intros H Hf. pose proof (f_equal (@length A) H) as E.
  rewrite length_skipn, length_app in E. lia.
Qed.

(** A 32-bit read of a value that lies at the cursor. *)
Lemma SDL_ReadLE32_front data pos v tail :
  0 <= pos -> 0 <= v < 2 ^ 32 ->
  skipn (Z.to_nat pos) data = le32_bytes v ++ tail ->
  SDL_ReadLE32 (mkRW data pos) = (v, mkRW data (pos + 4)) /\
  skipn (Z.to_nat (pos + 4)) data = tail.
Proof.
  intros Hp Hv Hs.
  pose proof (skipn_length_bound _ _ _ _ Hs) as Hl.
  rewrite length_le32_bytes in Hl. specialize (Hl ltac:(lia)).
  split.
  - unfold SDL_ReadLE32.
    destruct (SDL_RWread_full data pos 4 Hp ltac:(lia) ltac:(lia)) as [Hr _].
    rewrite Hr, Hs. cbn [le32_bytes app firstn Z.to_nat Pos.to_nat
                          Pos.iter_op Nat.add].
    f_equal. unfold le32, byte_at. cbn [Z.add Z.ltb Z.compare Z.to_nat
      Pos.to_nat Pos.iter_op Nat.add nth Pos.add Pos.succ].
    apply le32_bytes_value, Hv.
  - replace (Z.to_nat (pos + 4)) with (Z.to_nat pos + 4)%nat by lia.
    apply (skipn_more _ _ _ _ _ Hs). reflexivity.
Qed.

(** A 32-bit read with nothing left. *)
Lemma SDL_ReadLE32_end data pos :
  0 <= pos -> skipn (Z.to_nat pos) data = [] ->
  SDL_ReadLE32 (mkRW data pos) = (0, mkRW data pos).
Proof.
  intros Hp Hs. unfold SDL_ReadLE32, SDL_RWread. cbn [rw_data rw_pos].
  rewrite Hs, firstn_nil. cbn [length Z.of_nat]. rewrite Z.add_0_r.
  reflexivity.
Qed.

Lemma le16_bytes_value v :
  0 <= v < 2 ^ 16 -> v mod 2 ^ 8 + 2 ^ 8 * ((v / 2 ^ 8) mod 2 ^ 8) = v.
Proof.
  intros Hv. pose proof (Z.div_mod v (2 ^ 8) ltac:(lia)).
  assert (0 <= v / 2 ^ 8 < 2 ^ 8)
    by (split; [apply Z.div_pos; lia | apply Z.div_lt_upper_bound; lia]).
  rewrite (Z.mod_small (v / 2 ^ 8)) by lia. lia.
Qed.

Lemma fmt_payload_fields e c f br ba b :
  0 <= e < 2 ^ 16 -> 0 <= c < 2 ^ 16 -> 0 <= f < 2 ^ 32 -> 0 <= b < 2 ^ 16 ->
  let data := fmt_payload e c f br ba b in
  le16 data 0 = e /\ le16 data 2 = c /\ le32 data 4 = f /\ le16 data 14 = b.
Proof.
  intros He Hc Hf Hb data.
  assert (le16 data 0 = e mod 2 ^ 8 + 2 ^ 8 * ((e / 2 ^ 8) mod 2 ^ 8)) as ->
    by reflexivity.
  assert (le16 data 2 = c mod 2 ^ 8 + 2 ^ 8 * ((c / 2 ^ 8) mod 2 ^ 8)) as ->
    by reflexivity.
  assert (le16 data 14 = b mod 2 ^ 8 + 2 ^ 8 * ((b / 2 ^ 8) mod 2 ^ 8)) as ->
    by reflexivity.
  assert (le32 data 4
          = f mod 2 ^ 8 + 2 ^ 8 * ((f / 2 ^ 8) mod 2 ^ 8)
            + 2 ^ 16 * ((f / 2 ^ 16) mod 2 ^ 8)
            + 2 ^ 24 * ((f / 2 ^ 24) mod 2 ^ 8)) as ->
    by reflexivity.
  rewrite (le16_bytes_value e), (le16_bytes_value c), (le16_bytes_value b),
    le32_bytes_value by assumption.
  repeat split; reflexivity.
Qed.

Lemma fmt_table_ranges e b d fm :
  In (e, b, d, fm) fmt_table -> 0 <= e < 2 ^ 16 /\ 0 <= b < 2 ^ 16.
Proof.
  intros Hin. cbn in Hin.
  repeat (destruct Hin as [Hin | Hin];
          [injection Hin as <- <- _ _; vm_compute; repeat split; discriminate | ]).
  contradiction.
Qed.

(** [ParseFMT] on a 16-byte format chunk that lies at the cursor. *)
Lemma ParseFMT_front wave tail e c f br ba b d fm :
  0 <= cursor wave -> 0 <= c < 256 -> 0 <= f < 2 ^ 31 ->
  In (e, b, d, fm) fmt_table ->
  skipn (Z.to_nat (cursor wave)) (rw_data (src wave))
  = fmt_payload e c f br ba b ++ tail ->
  ParseFMT wave 16
  = (true,
     mkMusic (mkRW (rw_data (src wave)) (cursor wave + 16))
       (mkSpec f fm c 4096 (Z.quot (SDL_AUDIO_BITSIZE fm) 8 * c * 4096))
       (play_count wave) (start wave) (stop wave) (c * Z.quot b 8)
       (buffer wave) (stream wave) (loops wave) (tags wave) e d).
Proof.
  intros Hc Hch Hf Hin Hs.
  destruct (fmt_table_ranges _ _ _ _ Hin) as [He Hb].
  pose proof (skipn_length_bound _ _ _ _ Hs ltac:(cbn; lia)) as Hl.
  change (length (fmt_payload e c f br ba b)) with 16%nat in Hl.
  assert (16 <= rw_available (src wave)) as Ha
    by (unfold rw_available, cursor, SDL_RWtell in *; lia).
  rewrite ParseFMT_readable by lia. cbv zeta.
  assert (chunk_payload wave 16 = fmt_payload e c f br ba b) as ->.
  { unfold chunk_payload, source_bytes.
    replace (cursor wave + 16 - cursor wave) with 16 by lia.
    change (rw_data (src wave)) with (rw_data (src wave)).
    rewrite Hs. reflexivity. }
  destruct (fmt_payload_fields e c f br ba b He ltac:(lia) ltac:(lia) Hb)
    as (-> & -> & -> & ->).
  destruct (fmt_table_row _ _ _ _ Hin) as [-> ->].
  unfold calculate_spec.
  cbn [set_format set_freq set_spec set_decode set_encoding set_src
       set_samplesize spec spec_format spec_freq spec_channels spec_samples
       spec_size src play_count start stop samplesize buffer stream loops
       tags encoding decode].
  rewrite Sint32_small by lia.
  unfold Uint8. rewrite (Z.mod_small c) by lia.
  assert (0 <= Z.quot (SDL_AUDIO_BITSIZE fm) 8 <= 4) as Hk.
  { cbn in Hin.
    repeat (destruct Hin as [Hin | Hin];
            [injection Hin as _ _ _ <-; vm_compute; split; discriminate | ]).
    contradiction. }
  rewrite calculate_size by lia.
  reflexivity.
Qed.

Lemma wav_file_parts wavelen fmt payload :
  wav_file wavelen fmt payload
  = le32_bytes RIFF ++ le32_bytes wavelen ++ le32_bytes WAVE
    ++ le32_bytes FMT ++ le32_bytes (Z.of_nat (length fmt)) ++ fmt
    ++ le32_bytes DATA ++ le32_bytes (Z.of_nat (length payload)) ++ payload.
Proof.
  unfold wav_file, chunk_record. rewrite <- !app_assoc. reflexivity.
Qed.

Lemma length_wav_file wavelen e c f br ba b payload :
  Z.of_nat (length (wav_file wavelen (fmt_payload e c f br ba b) payload))
  = 44 + Z.of_nat (length payload).
Proof.
  rewrite wav_file_parts, !length_app, !length_le32_bytes.
  change (length (fmt_payload e c f br ba b)) with 16%nat. lia.
Qed.

(** The run of [LoadWAVMusic], the magic read, over a file of a format
    chunk and a data chunk. *)
Lemma LoadWAVMusic_file id3tag junk turns wavelen e c f br ba b d fm payload
  (wave : WAV_Music) :
  0 <= wavelen < 2 ^ 32 -> 0 <= c < 256 -> 0 <= f < 2 ^ 31 ->
  In (e, b, d, fm) fmt_table ->
  payload <> [] -> Z.of_nat (length payload) < 2 ^ 32 ->
  (3 <= turns)%nat ->
  let file := wav_file wavelen (fmt_payload e c f br ba b) payload in
  src wave = mkRW file 4 ->
  LoadWAVMusic id3tag junk turns wave
  = Returns
      (true,
       mkMusic (mkRW file (Z.of_nat (length file)))
         (mkSpec f fm c 4096 (Z.quot (SDL_AUDIO_BITSIZE fm) 8 * c * 4096))
         (play_count wave) 44 (44 + Z.of_nat (length payload))
         (c * Z.quot b 8) (buffer wave) (stream wave) (loops wave)
         meta_tags_init e d) /\
  skipn 44 file = payload.
Proof.
  intros Hw Hc Hf Hin Hne Hlen Hturns file Hsrc.
  set (fmt := fmt_payload e c f br ba b) in *.
  pose proof (wav_file_parts wavelen fmt payload) as Hfile. fold file in Hfile.
  change (Z.of_nat (length fmt)) with 16 in Hfile.
  pose proof (length_wav_file wavelen e c f br ba b payload) as Hflen.
  fold fmt in Hflen. fold file in Hflen.
  set (len := Z.of_nat (length payload)) in *.
  assert (0 < len) as Hpos
    by (subst len; destruct payload; [congruence | cbn [length]; lia]).
  assert (skipn (Z.to_nat 4) file
          = le32_bytes wavelen ++ le32_bytes WAVE ++ le32_bytes FMT
            ++ le32_bytes 16 ++ fmt ++ le32_bytes DATA ++ le32_bytes len
            ++ payload) as T1.
  { rewrite Hfile at 1. reflexivity. }
  destruct (SDL_ReadLE32_front file 4 wavelen _ ltac:(lia) Hw T1)
    as [R1 T2].
  destruct (SDL_ReadLE32_front file (4 + 4) WAVE _ ltac:(lia)
              ltac:(vm_compute; split; [discriminate | reflexivity]) T2)
    as [R2 T3].
  destruct (SDL_ReadLE32_front file (4 + 4 + 4) FMT _ ltac:(lia)
              ltac:(vm_compute; split; [discriminate | reflexivity]) T3)
    as [R3 T4].
  destruct (SDL_ReadLE32_front file (4 + 4 + 4 + 4) 16 _ ltac:(lia)
              ltac:(lia) T4)
    as [R4 T5].
  change (4 + 4) with 8 in *.
  change (8 + 4) with 12 in *. change (12 + 4) with 16 in *.
  change (16 + 4) with 20 in *.
  assert (skipn (Z.to_nat 36) file
          = le32_bytes DATA ++ le32_bytes len ++ payload) as T6.
  { change (Z.to_nat 36) with (Z.to_nat 20 + 16)%nat.
    apply (skipn_more _ _ _ _ _ T5). reflexivity. }
  destruct (SDL_ReadLE32_front file 36 DATA _ ltac:(lia)
              ltac:(vm_compute; split; [discriminate | reflexivity]) T6)
    as [R6 T7].
  destruct (SDL_ReadLE32_front file (36 + 4) len _ ltac:(lia) ltac:(lia) T7)
    as [R7 T8].
  change (36 + 4) with 40 in *. change (40 + 4) with 44 in *.
  assert (skipn (Z.to_nat (44 + len)) file = []) as T9
    by (apply skipn_all2; lia).
  pose proof (SDL_ReadLE32_end file (44 + len) ltac:(lia) T9) as R9.
  split; [ | exact T8].
  unfold LoadWAVMusic. cbn [set_src set_tags src]. rewrite Hsrc.
  rewrite R1, R2.
  destruct turns as [ | [ | [ | turns]]]; try lia.
  cbn [wav_chunks set_src src].
  rewrite R3, R4.
  change (16 =? 0) with false. change (FMT =? FMT) with true. cbv iota.
  rewrite (ParseFMT_front _ (le32_bytes DATA ++ le32_bytes len ++ payload)
             e c f br ba b d fm) by (try assumption; cbn; try lia; exact T5).
  cbn [cursor SDL_RWtell src rw_pos rw_data set_src spec play_count start stop
       samplesize buffer stream loops tags encoding decode].
  change (20 + 16) with 36.
  rewrite R6, R7.
  replace (len =? 0) with false by (symmetry; apply Z.eqb_neq; lia).
  change (DATA =? FMT) with false. change (DATA =? DATA) with true. cbv iota.
  unfold ParseDATA, SDL_RWseek_cur, SDL_RWseek.
  cbn [set_start set_stop set_src src SDL_RWtell rw_pos rw_data start stop
       spec play_count samplesize buffer stream loops tags encoding decode].
  replace (44 + len <? 0) with false by (symmetry; apply Z.ltb_ge; lia).
  cbn [set_src src spec play_count start stop samplesize buffer stream loops
       tags encoding decode].
  rewrite R9, R9.
  change (0 =? 0) with true. cbn [negb]. cbv iota.
  rewrite Hflen. reflexivity.
Qed.

(** The magic of a WAVE file. *)
Lemma wav_file_magic wavelen fmt payload :
  SDL_ReadLE32 (mkRW (wav_file wavelen fmt payload) 0)
  = (RIFF, mkRW (wav_file wavelen fmt payload) 4).
Proof.
  apply (SDL_ReadLE32_front _ 0 RIFF
           (le32_bytes wavelen ++ le32_bytes WAVE
            ++ chunk_record FMT fmt ++ chunk_record DATA payload));
    [lia | vm_compute; split; [discriminate | reflexivity] | reflexivity].
Qed.

(** X17.  A WAVE file of a 16-byte format chunk and a data chunk that
    is not empty is read back as written.  For each of the six formats
    that [ParseFMT] takes, up to 255 channels and a rate below 2^31,
    when the scratch buffer of 4096 output frames is allocated and the
    queue is made for the file's format, channels and rate:
    [WAV_CreateFromRW] returns an instance whose strategy and output
    format are those of the format's row, whose rate and channels are
    the file's, whose region is the payload of the data chunk, bytes 44
    to the end of the file, with no loop point and no tag, an empty
    queue and the allocated buffer.  When the allocation fails or the
    queue is refused, no instance is returned. *)
Theorem WAV_CreateFromRW_reads_back_file :
  forall id3tag junk SDL_malloc SDL_NewAudioStream turns wavelen e c f br ba b
         d fm payload,
    0 <= wavelen < 2 ^ 32 -> 0 <= c < 256 -> 0 <= f < 2 ^ 31 ->
    In (e, b, d, fm) fmt_table ->
    payload <> [] -> Z.of_nat (length payload) < 2 ^ 32 ->
    (3 <= turns)%nat ->
    let file := wav_file wavelen (fmt_payload e c f br ba b) payload in
    let size := Z.quot (SDL_AUDIO_BITSIZE fm) 8 * c * 4096 in
    let created :=
      WAV_CreateFromRW id3tag junk SDL_malloc SDL_NewAudioStream turns
        (mkRW file 0) in
    (forall buf,
       SDL_malloc size = Some buf ->
       SDL_NewAudioStream fm c f = true ->
       let music :=
         mkMusic (mkRW file (Z.of_nat (length file)))
           (mkSpec f fm c 4096 size) 0 44 (44 + Z.of_nat (length payload))
           (c * Z.quot b 8) buf [] [] meta_tags_init e d in
       created = Returns (true, music) /\
       region_bytes music = payload) /\
    (SDL_malloc size = None \/ SDL_NewAudioStream fm c f = false ->
     exists w, created = Returns (false, w)).
Proof.
  intros id3tag junk SDL_malloc SDL_NewAudioStream turns wavelen e c f br ba b
    d fm payload Hw Hc Hf Hin Hne Hlen Hturns file size created.
  set (fresh := mkMusic (mkRW file 4) (mkSpec 0 0 0 0 0) 0 0 0 0 [] [] []
                  (mkTags None None None None) PCM_CODE Fetch_pcm).
  destruct (LoadWAVMusic_file id3tag junk turns wavelen e c f br ba b d fm
              payload fresh Hw Hc Hf Hin Hne Hlen Hturns eq_refl)
    as [Hload Hskip].
  fold file in Hload, Hskip.
  assert (created
          = match SDL_malloc size with
            | None =>
                Returns (false,
                         mkMusic (mkRW file (Z.of_nat (length file)))
                           (mkSpec f fm c 4096 size) 0 44
                           (44 + Z.of_nat (length payload)) (c * Z.quot b 8)
                           [] [] [] meta_tags_init e d)
            | Some block =>
                let music :=
                  mkMusic (mkRW file (Z.of_nat (length file)))
                    (mkSpec f fm c 4096 size) 0 44
                    (44 + Z.of_nat (length payload)) (c * Z.quot b 8)
                    block [] [] meta_tags_init e d in
                if SDL_NewAudioStream fm c f then Returns (true, music)
                else Returns (false, music)
            end) as Hcreated.
  { subst created. unfold WAV_CreateFromRW. subst file. rewrite wav_file_magic.
    change ((RIFF =? RIFF) || (RIFF =? WAVE)) with true. cbv iota.
    unfold set_src.
    cbn [src spec play_count start stop samplesize buffer stream loops
         tags encoding decode].
    fold fresh. rewrite Hload. reflexivity. }
  rewrite Hcreated. split.
  - intros buf Hbuf Hstream music. rewrite Hbuf. cbv zeta. rewrite Hstream.
    split; [reflexivity | ].
    unfold region_bytes, source_bytes. subst music.
    cbn [start stop src rw_data].
    change (Z.to_nat 44) with 44%nat. rewrite Hskip.
    replace (Z.to_nat (44 + Z.of_nat (length payload) - 44))
      with (length payload) by lia.
    apply firstn_all.
  - intros [Hnone | Hrefused].
    + rewrite Hnone. eexists. reflexivity.
    + destruct (SDL_malloc size); [ | eexists; reflexivity].
      cbv zeta. rewrite Hrefused. eexists. reflexivity.
Qed.

Lemma WAV_CreateFromRW_reads_back_file_witness :
  let file := wav_file 0 (fmt_payload 1 2 44100 0 0 16) [1; 2; 3; 4] in
  exists music,
    WAV_CreateFromRW (fun tags _ _ => tags) (fun _ => false)
      (fun n => Some (repeat 0 (Z.to_nat n))) (fun _ _ _ => true) 3
      (mkRW file 0)
    = Returns (true, music) /\
    region_bytes music = [1; 2; 3; 4] /\
    (decode music, spec_format (spec music), spec_freq (spec music))
    = (Fetch_pcm, AUDIO_S16, 44100).
Proof.
  cbv zeta.
  destruct (WAV_CreateFromRW_reads_back_file (fun tags _ _ => tags)
              (fun _ => false) (fun n => Some (repeat 0 (Z.to_nat n)))
              (fun _ _ _ => true) 3 0 1 2 44100 0 0 16 Fetch_pcm
              AUDIO_S16 [1; 2; 3; 4]) as [Hmade _].
  - lia.
  - lia.
  - lia.
  - right. left. reflexivity.
  - discriminate.
  - cbn. lia.
  - lia.
  - destruct (Hmade _ eq_refl eq_refl) as [Hrun Hregion].
    eexists. split; [exact Hrun | ]. split; [exact Hregion | reflexivity].
Defined.

(** What [WAV_CreateFromRW] returns once the loader has taken the file,
    the scratch buffer is allocated and the queue is made. *)
Lemma WAV_CreateFromRW_made id3tag junk SDL_malloc SDL_NewAudioStream turns s
  magic s' loaded buf :
  SDL_ReadLE32 s = (magic, s') ->
  (let fresh :=
     mkMusic s' (mkSpec 0 0 0 0 0) 0 0 0 0 [] [] []
       (mkTags None None None None) PCM_CODE Fetch_pcm in
   if (magic =? RIFF) || (magic =? WAVE)
   then LoadWAVMusic id3tag junk turns fresh
   else if magic =? FORM then LoadAIFFMusic turns fresh
   else Returns (false, fresh))
  = Returns (true, loaded) ->
  SDL_malloc (spec_size (spec loaded)) = Some buf ->
  SDL_NewAudioStream (spec_format (spec loaded)) (spec_channels (spec loaded))
    (spec_freq (spec loaded)) = true ->
  WAV_CreateFromRW id3tag junk SDL_malloc SDL_NewAudioStream turns s
  = Returns (true, set_stream (set_buffer loaded buf) []).
Proof.
  intros Hmagic Hload Hbuf Hstream. unfold WAV_CreateFromRW. rewrite Hmagic.
  cbv zeta in Hload |- *.
  change (set_src (mkMusic s (mkSpec 0 0 0 0 0) 0 0 0 0 [] [] []
                     (mkTags None None None None) PCM_CODE Fetch_pcm) s')
    with (mkMusic s' (mkSpec 0 0 0 0 0) 0 0 0 0 [] [] []
            (mkTags None None None None) PCM_CODE Fetch_pcm).
  rewrite Hload, Hbuf.
  change (spec (set_buffer loaded buf)) with (spec loaded).
  rewrite Hstream. reflexivity.
Qed.

(** X18.  Loading and playing compose: a PCM or float WAVE file of a
    format chunk and a data chunk that is not empty, with 1 to 255
    channels, is loaded when the scratch buffer is allocated and the
    queue is made for the file's format, channels and rate, and after
    Play with a count [k >= 0] the calls of [WAV_GetSome], whatever
    positive budgets they are given, hand out the payload of the data
    chunk [k] times over, byte for byte, and then signal the end of the
    stream, not before. *)
Theorem wav_file_plays_its_data :
  forall id3tag junk SDL_malloc SDL_NewAudioStream buf turns wavelen e c f br
         ba b fm payload k budget,
    0 <= wavelen < 2 ^ 32 -> 0 < c < 256 -> 0 <= f < 2 ^ 31 ->
    In (e, b, Fetch_pcm, fm) fmt_table ->
    payload <> [] -> Z.of_nat (length payload) < 2 ^ 32 ->
    (3 <= turns)%nat ->
    0 <= k -> (forall i, 0 < budget i) ->
    SDL_malloc (Z.quot (SDL_AUDIO_BITSIZE fm) 8 * c * 4096) = Some buf ->
    SDL_NewAudioStream fm c f = true ->
    let file := wav_file wavelen (fmt_payload e c f br ba b) payload in
    exists music,
      WAV_CreateFromRW id3tag junk SDL_malloc SDL_NewAudioStream turns
        (mkRW file 0)
      = Returns (true, music) /\
      let session := snd (WAV_Play music k) in
      exists n,
        played budget n session = concat (repeat payload (Z.to_nat k)) /\
        done (WAV_GetSome (calls budget n session) (budget n)) = true /\
        forall j, (j < n)%nat ->
          done (WAV_GetSome (calls budget j session) (budget j)) = false.
Proof.
  intros id3tag junk SDL_malloc SDL_NewAudioStream buf turns wavelen e c f br
    ba b fm payload k budget Hw Hc Hf Hin Hne Hlen Hturns Hk Hb Hmalloc Hstream
    file.
  set (fresh := mkMusic (mkRW file 4) (mkSpec 0 0 0 0 0) 0 0 0 0 [] [] []
                  (mkTags None None None None) PCM_CODE Fetch_pcm).
  destruct (LoadWAVMusic_file id3tag junk turns wavelen e c f br ba b Fetch_pcm
              fm payload fresh Hw ltac:(lia) Hf Hin Hne Hlen Hturns eq_refl)
    as [Hload Hskip].
  fold file in Hload, Hskip.
  set (size := Z.quot (SDL_AUDIO_BITSIZE fm) 8 * c * 4096) in *.
  set (music := mkMusic (mkRW file (Z.of_nat (length file)))
                  (mkSpec f fm c 4096 size) 0 44
                  (44 + Z.of_nat (length payload)) (c * Z.quot b 8)
                  buf [] [] meta_tags_init e Fetch_pcm).
  exists music. split.
  { refine (eq_trans
              (WAV_CreateFromRW_made id3tag junk SDL_malloc SDL_NewAudioStream
                 turns _ _ _ _ buf (wav_file_magic _ _ _) Hload Hmalloc
                 Hstream) _).
    reflexivity. }
  intros session.
  assert (1 <= Z.quot (SDL_AUDIO_BITSIZE fm) 8 <= 4) as Hbits.
  { cbn in Hin.
    repeat (destruct Hin as [Hin | Hin];
            [first [injection Hin as _ _ <-; vm_compute; split; discriminate
                   | discriminate Hin] | ]).
    contradiction. }
  pose proof (length_wav_file wavelen e c f br ba b payload) as Hflen.
  fold file in Hflen.
  assert (region_bytes music = payload) as Hregion.
  { unfold region_bytes, source_bytes. cbn [music start stop src rw_data].
    change (Z.to_nat 44) with 44%nat. rewrite Hskip.
    replace (Z.to_nat (44 + Z.of_nat (length payload) - 44))
      with (length payload) by lia.
    apply firstn_all. }
  destruct (WAV_Play_plain_session music k) as [Hp Hrem];
    try reflexivity; try exact Hk.
  - cbn [music spec spec_size]. subst size. nia.
  - cbn [music start stop]. lia.
  - cbn [music stop src rw_data]. lia.
  - fold session in Hp, Hrem. rewrite Hregion in Hrem. rewrite <- Hrem.
    apply (plain_session_plays (Z.to_nat (calls_left session))); auto.
    pose proof (calls_left_nonneg _ Hp). lia.
Qed.

Lemma wav_file_plays_its_data_witness :
  let file := wav_file 0 (fmt_payload 1 2 44100 0 0 16) [1; 2; 3; 4] in
  exists music,
    WAV_CreateFromRW (fun tags _ _ => tags) (fun _ => false)
      (fun n => Some (repeat 0 (Z.to_nat n))) (fun _ _ _ => true) 3
      (mkRW file 0)
    = Returns (true, music) /\
    exists n,
      played (fun _ => 3) n (snd (WAV_Play music 2)) = [1; 2; 3; 4; 1; 2; 3; 4].
Proof.
  cbv zeta.
  destruct (wav_file_plays_its_data (fun tags _ _ => tags)
              (fun _ => false) (fun n => Some (repeat 0 (Z.to_nat n)))
              (fun _ _ _ => true) (repeat 0 (Z.to_nat 16384)) 3 0 1 2 44100 0 0
              16 AUDIO_S16 [1; 2; 3; 4] 2 (fun _ => 3))
    as (music & Hrun & n & Hplayed & _).
  - lia.
  - lia.
  - lia.
  - right. left. reflexivity.
  - discriminate.
  - cbn. lia.
  - lia.
  - lia.
  - intros i. lia.
  - reflexivity.
  - reflexivity.
  - exists music. split; [exact Hrun | ]. exists n. exact Hplayed.
Defined.

(** ** What a loaded WAVE instance is sure to satisfy *)

Lemma ParseFMT_format_consistent wave n :
  0 <= cursor wave -> 0 <= n < 2 ^ 32 ->
  fst (ParseFMT wave n) = true ->
  format_consistent (snd (ParseFMT wave n)).
Proof.
  intros Hc Hn Htrue.
  destruct (ParseFMT_true wave n Hc Hn Htrue) as (_ & d & f & Hin & Hres).
  rewrite Hres. clear Hres.
  set (data := chunk_payload wave n) in *.
  unfold format_consistent, bytes_per_sample, calculate_spec.
  cbn [spec spec_samples spec_channels spec_size spec_format spec_freq
       decode samplesize encoding].
  pose proof (Uint8_range (le16 data 2)) as Hch.
  set (c := Uint8 (le16 data 2)) in *.
  split; [exists (le16 data 14); split; [exact Hin | reflexivity] | ].
  set (b := le16 data 14) in *.
  cbn in Hin.
  repeat (destruct Hin as [Hin | Hin];
          [injection Hin as _ Hb <- <-; rewrite <- Hb;
           unfold AUDIO_U8, AUDIO_S16, AUDIO_S32, AUDIO_S32LSB, AUDIO_F32,
             AUDIO_F32LSB, SDL_AUDIO_BITSIZE, source_request;
           match goal with
           | |- context [Z.quot (Z.land ?x 255) 8] =>
               let v := eval vm_compute in (Z.quot (Z.land x 255) 8) in
               change (Z.quot (Z.land x 255) 8) with v
           end;
           match goal with
           | |- context [Z.quot ?x 8] =>
               let v := eval vm_compute in (Z.quot x 8) in
               change (Z.quot x 8) with v
           end;
           rewrite calculate_size by lia;
           repeat split; try lia;
           rewrite Z.quot_div_nonneg by lia;
           symmetry; apply Z.div_unique with 0; lia
          | ]).
  contradiction.
Qed.

Lemma ParseFMT_region wave n :
  region_part (snd (ParseFMT wave n)) = region_part wave.
Proof.
  unfold ParseFMT. destruct (n <? 16); [reflexivity | ].
  destruct (read_chunk (src wave) n) as [[ok data] s].
  destruct (negb ok); [reflexivity | ].
  cbn [encoding set_encoding set_src].
  destruct (fmt_decoder _); [ | reflexivity].
  destruct (fmt_format _ _); reflexivity.
Qed.

Lemma ParseDATA_format wave n :
  format_part (snd (ParseDATA wave n)) = format_part wave.
Proof.
  unfold ParseDATA. destruct (SDL_RWseek_cur _ _). reflexivity.
Qed.

Lemma ParseDATA_region wave n :
  0 <= cursor wave -> 0 <= n ->
  let w := snd (ParseDATA wave n) in
  start w = cursor wave /\ stop w = cursor wave + n /\ cursor w = stop w.
Proof.
  intros Hc Hn. unfold ParseDATA, SDL_RWseek_cur, SDL_RWseek, cursor in *.
  unfold SDL_RWtell in *.
  cbn [set_start set_stop src start stop].
  replace (rw_pos (src wave) + n <? 0) with false
    by (symmetry; apply Z.ltb_ge; lia).
  cbn. auto.
Qed.

Lemma smpl_loops_keeps junk : forall todo i data wave wave',
  smpl_loops junk todo i data wave = Some wave' ->
  format_part wave' = format_part wave /\ region_part wave' = region_part wave.
Proof.
  induction todo as [ | todo IH]; intros i data wave wave' H; cbn [smpl_loops] in H.
  - injection H as <-. auto.
  - destruct (load_le32 data (36 + 24 * i + 4)); [ | discriminate].
    destruct (load_le32 data (36 + 24 * i + 20)); [ | discriminate].
    destruct (load_le32 data (36 + 24 * i + 8)); [ | discriminate].
    destruct (load_le32 data (36 + 24 * i + 12)); [ | discriminate].
    apply IH in H. destruct H as [-> ->]. destruct (_ =? 0); auto.
Qed.

Lemma ParseSMPL_keeps junk wave n ok wave' :
  ParseSMPL junk wave n = Some (ok, wave') ->
  format_part wave' = format_part wave /\ region_part wave' = region_part wave.
Proof.
  unfold ParseSMPL.
  destruct (read_chunk (src wave) n) as [[ok' data] s].
  destruct (negb ok').
  - intros E. injection E as _ <-. auto.
  - destruct (load_le32 data 28); [ | discriminate].
    destruct (smpl_loops _ _ _ _ _) as [w | ] eqn:E; [ | discriminate].
    intros E'. injection E' as _ <-.
    apply smpl_loops_keeps in E. exact E.
Qed.

Lemma ParseLIST_keeps wave n ok wave' :
  ParseLIST wave n = Some (ok, wave') ->
  format_part wave' = format_part wave /\ region_part wave' = region_part wave.
Proof.
  unfold ParseLIST.
  destruct (SDL_RWread (src wave) n) as [data s].
  destruct (negb _); [intros E; injection E as _ <-; auto | ].
  destruct (tag_at data 0 "INFO"); [ | intros E; injection E as _ <-; auto].
  destruct (info_scan _ _ _ _ _); [ | discriminate].
  intros E. injection E as _ <-. auto.
Qed.

Lemma ParseID3_keeps id3tag wave n :
  format_part (snd (ParseID3 id3tag wave n)) = format_part wave /\
  region_part (snd (ParseID3 id3tag wave n)) = region_part wave.
Proof.
  unfold ParseID3.
  destruct (read_chunk (src wave) n) as [[ok data] s].
  destruct (negb ok); [auto | ].
  destruct (list_eq_dec _ _ _); auto.
Qed.

Lemma format_consistent_by_part w w' :
  format_part w' = format_part w -> format_consistent w -> format_consistent w'.
Proof.
  unfold format_part, format_consistent, bytes_per_sample.
  intros E. injection E as -> -> -> ->. auto.
Qed.

Lemma walk_invariant_kept origin found_FMT found_DATA w w' :
  format_part w' = format_part w -> region_part w' = region_part w ->
  cursor w <= cursor w' ->
  walk_invariant origin found_FMT found_DATA w ->
  walk_invariant origin found_FMT found_DATA w'.
Proof.
  intros Hf Hr Hc [H1 H2]. split.
  - intros E. apply (format_consistent_by_part w w' Hf), H1, E.
  - intros E. specialize (H2 E). unfold region_part in Hr.
    injection Hr as -> ->. lia.
Qed.

(** A 32-bit read that yields a value other than 0 has moved the
    cursor. *)
Lemma SDL_ReadLE32_moves s :
  let '(v, s') := SDL_ReadLE32 s in v <> 0 -> rw_pos s < rw_pos s'.
Proof.
  unfold SDL_ReadLE32, SDL_RWread.
  destruct (firstn _ _) as [ | b got]; cbn [length rw_pos].
  - intros H. exfalso. apply H. reflexivity.
  - intros _. lia.
Qed.

Lemma wav_chunks_loaded id3tag junk origin : forall turns wave found_FMT found_DATA w,
  Forall (fun b => 0 <= b < 256) (rw_data (src wave)) ->
  0 <= origin <= cursor wave ->
  walk_invariant origin found_FMT found_DATA wave ->
  wav_chunks id3tag junk turns wave found_FMT found_DATA = Returns (true, w) ->
  walk_invariant origin true true w /\
  rw_data (src w) = rw_data (src wave).
Proof.
  induction turns as [ | turns IH]; intros wave fF fD w Hb Hc Hinv Hrun;
    [discriminate | ].
  cbn [wav_chunks] in Hrun.
  unfold cursor, SDL_RWtell in Hc.
  pose proof (SDL_ReadLE32_spec (src wave) Hb ltac:(lia)) as H1.
  destruct (SDL_ReadLE32 (src wave)) as [ty s1].
  destruct H1 as ([D1 P1] & _ & _).
  assert (Forall (fun b => 0 <= b < 256) (rw_data s1)) as Hb1
    by (rewrite D1; exact Hb).
  pose proof (SDL_ReadLE32_spec s1 Hb1 ltac:(lia)) as H2.
  pose proof (SDL_ReadLE32_moves s1) as H3.
  destruct (SDL_ReadLE32 s1) as [n s2].
  destruct H2 as ([D2 P2] & Hn & _).
  set (wave2 := set_src wave s2) in *.
  assert (walk_invariant origin fF fD wave2) as Hinv2.
  { apply (walk_invariant_kept _ _ _ wave); auto.
    unfold cursor, SDL_RWtell. cbn [wave2 set_src src]. lia. }
  assert (rw_data (src wave2) = rw_data (src wave)) as Hd2
    by (cbn [wave2 set_src src]; congruence).
  assert (cursor wave2 = rw_pos s2) as Hc2 by reflexivity.
  destruct (n =? 0) eqn:E0.
  { destruct fF; [ | discriminate]. destruct fD; [ | discriminate].
    cbn [negb] in Hrun. injection Hrun as <-. auto. }
  apply Z.eqb_neq in E0. specialize (H3 E0).
  assert (forall wave' f1 f2,
            moved_on (src wave2) (src wave') ->
            walk_invariant origin f1 f2 wave' ->
            wav_chunks id3tag junk turns wave' f1 f2 = Returns (true, w) ->
            walk_invariant origin true true w /\
            rw_data (src w) = rw_data (src wave)) as Hrec.
  { intros wave' f1 f2 [D P] Hinv' Hrun'.
    destruct (IH wave' f1 f2 w) as [Hw Hdw]; auto.
    - rewrite D, Hd2. exact Hb.
    - unfold cursor, SDL_RWtell. cbn [wave2 set_src src] in P. lia.
    - split; [exact Hw | congruence]. }
  clearbody wave2.
  destruct (ty =? FMT).
  { pose proof (ParseFMT_moved_on wave2 n) as Hm.
    pose proof (ParseFMT_region wave2 n) as Hr.
    pose proof (ParseFMT_format_consistent wave2 n ltac:(lia) Hn) as Hf.
    destruct (ParseFMT wave2 n) as [ok w']. cbn [fst snd] in *.
    destruct ok; [ | discriminate].
    apply (Hrec w' true fD Hm); [ | exact Hrun].
    split; [intros _; apply Hf; reflexivity | ].
    intros E. destruct Hinv2 as [_ H2]. specialize (H2 E).
    unfold region_part in Hr. injection Hr as -> ->.
    destruct Hm as [_ Hm]. unfold cursor, SDL_RWtell in *. lia. }
  destruct (ty =? DATA).
  { pose proof (ParseDATA_moved_on wave2 n ltac:(lia)) as Hm.
    pose proof (ParseDATA_format wave2 n) as Hf.
    pose proof (ParseDATA_region wave2 n ltac:(lia) ltac:(lia)) as Hr.
    destruct (ParseDATA wave2 n) as [ok w']. cbn [fst snd] in *.
    destruct ok; [ | discriminate].
    apply (Hrec w' fF true Hm); [ | exact Hrun].
    split.
    - intros E. apply (format_consistent_by_part wave2 w' Hf).
      apply Hinv2, E.
    - intros _. destruct Hr as (-> & -> & ->). lia. }
  destruct (ty =? SMPL).
  { pose proof (ParseSMPL_moved_on junk wave2 n) as Hm.
    pose proof (ParseSMPL_keeps junk wave2 n) as Hk.
    destruct (ParseSMPL junk wave2 n) as [[ok w'] | ]; [ | discriminate].
    specialize (Hm ok w' eq_refl). destruct (Hk ok w' eq_refl) as [Hf Hr].
    destruct ok; [ | discriminate].
    apply (Hrec w' fF fD Hm); [ | exact Hrun].
    apply (walk_invariant_kept _ _ _ wave2); auto.
    destruct Hm as [_ Hm]. exact Hm. }
  destruct (ty =? LIST).
  { pose proof (ParseLIST_moved_on wave2 n) as Hm.
    pose proof (ParseLIST_keeps wave2 n) as Hk.
    destruct (ParseLIST wave2 n) as [[ok w'] | ]; [ | discriminate].
    specialize (Hm ok w' eq_refl). destruct (Hk ok w' eq_refl) as [Hf Hr].
    destruct ok; [ | discriminate].
    apply (Hrec w' fF fD Hm); [ | exact Hrun].
    apply (walk_invariant_kept _ _ _ wave2); auto.
    destruct Hm as [_ Hm]. exact Hm. }
  destruct (ty =? ID3_).
  { pose proof (ParseID3_moved_on id3tag wave2 n) as Hm.
    destruct (ParseID3_keeps id3tag wave2 n) as [Hf Hr].
    destruct (ParseID3 id3tag wave2 n) as [ok w']. cbn [fst snd] in *.
    destruct ok; [ | discriminate].
    apply (Hrec w' fF fD Hm); [ | exact Hrun].
    apply (walk_invariant_kept _ _ _ wave2); auto.
    destruct Hm as [_ Hm]. exact Hm. }
  pose proof (SDL_RWseek_cur_moved_on (src wave2) n ltac:(lia)) as Hm.
  destruct (SDL_RWseek_cur (src wave2) n) as [r s]. cbn [snd] in Hm.
  apply (Hrec (set_src wave2 s) fF fD Hm); [ | exact Hrun].
  apply (walk_invariant_kept _ _ _ wave2); auto.
  destruct Hm as [_ Hm]. exact Hm.
Qed.

(** X19.  Whatever the file holds, an instance that [LoadWAVMusic]
    reports as loaded hangs together.  Over a source of bytes with the
    cursor not negative, if the loader returns true then: strategy and
    output format are a row of the format table, the frame size is that
    of the row, and one fetch of [spec.size] bytes is 4096 whole frames
    on both sides; the region is not empty, begins after the position
    the loader started from, is shorter than 2^32 bytes, and ends at or
    before the cursor the loader leaves; and the source content is
    untouched.  (That the region lies inside the file is not among
    these: the declared length of the data chunk is taken as it is.) *)
Theorem LoadWAVMusic_loaded_is_consistent :
  forall id3tag junk turns wave w,
    Forall (fun b => 0 <= b < 256) (rw_data (src wave)) ->
    0 <= cursor wave ->
    LoadWAVMusic id3tag junk turns wave = Returns (true, w) ->
    format_consistent w /\
    cursor wave < start w < stop w /\
    stop w - start w < 2 ^ 32 /\
    stop w <= cursor w /\
    rw_data (src w) = rw_data (src wave).
Proof.
  intros id3tag junk turns wave w Hb Hc Hrun. unfold LoadWAVMusic in Hrun.
  cbn [set_tags src] in Hrun.
  unfold cursor, SDL_RWtell in Hc.
  pose proof (SDL_ReadLE32_spec (src wave) Hb Hc) as H1.
  destruct (SDL_ReadLE32 (src wave)) as [wavelen s1].
  destruct H1 as ([D1 P1] & _ & _).
  assert (Forall (fun b => 0 <= b < 256) (rw_data s1)) as Hb1
    by (rewrite D1; exact Hb).
  pose proof (SDL_ReadLE32_spec s1 Hb1 ltac:(lia)) as H2.
  destruct (SDL_ReadLE32 s1) as [magic s2].
  destruct H2 as ([D2 P2] & _ & _).
  destruct (wav_chunks_loaded id3tag junk (rw_pos (src wave)) turns
              (set_src (set_tags wave meta_tags_init) s2) false false w)
    as [[Hf Hr] Hd].
  - cbn [set_src src]. rewrite D2. exact Hb1.
  - unfold cursor, SDL_RWtell. cbn [set_src src]. lia.
  - split; discriminate.
  - exact Hrun.
  - specialize (Hf eq_refl). specialize (Hr eq_refl).
    cbn [set_src src] in Hd.
    split; [exact Hf | ]. split; [tauto | ]. split; [tauto | ].
    split; [tauto | congruence].
Qed.

Lemma LoadWAVMusic_loaded_is_consistent_witness :
  exists w,
    LoadWAVMusic (fun tags _ _ => tags) (fun _ => false) 3 demo_wav_wave
    = Returns (true, w) /\
    format_consistent w /\ (start w, stop w) = (44, 48).
Proof.
  eexists. split; [vm_compute; reflexivity | ].
  split; [ | reflexivity].
  apply (LoadWAVMusic_loaded_is_consistent (fun tags _ _ => tags)
           (fun _ => false) 3 demo_wav_wave).
  - apply Forall_bytes. reflexivity.
  - vm_compute; discriminate.
  - vm_compute; reflexivity.
Defined.

(** ** Loading an AIFF file *)

Lemma length_be32_bytes v : length (be32_bytes v) = 4%nat.
Proof. reflexivity. Qed.

Lemma length_be16_bytes v : length (be16_bytes v) = 2%nat.
Proof. reflexivity. Qed.

(** Big-endian reads of values that lie at the cursor. *)
Lemma SDL_ReadBE32_front data pos v tail :
  0 <= pos -> 0 <= v < 2 ^ 32 ->
  skipn (Z.to_nat pos) data = be32_bytes v ++ tail ->
  SDL_ReadBE32 (mkRW data pos) = (v, mkRW data (pos + 4)) /\
  skipn (Z.to_nat (pos + 4)) data = tail.
Proof.
  intros Hp Hv Hs.
  pose proof (skipn_length_bound _ _ _ _ Hs) as Hl.
  rewrite length_be32_bytes in Hl. specialize (Hl ltac:(lia)).
  split.
  - unfold SDL_ReadBE32.
    destruct (SDL_RWread_full data pos 4 Hp ltac:(lia) ltac:(lia)) as [Hr _].
    rewrite Hr, Hs. f_equal.
    change (2 ^ 24 * ((v / 2 ^ 24) mod 2 ^ 8) + 2 ^ 16 * ((v / 2 ^ 16) mod 2 ^ 8)
            + 2 ^ 8 * ((v / 2 ^ 8) mod 2 ^ 8) + v mod 2 ^ 8 = v).
    pose proof (le32_bytes_value v Hv). lia.
  - replace (Z.to_nat (pos + 4)) with (Z.to_nat pos + 4)%nat by lia.
    apply (skipn_more _ _ _ _ _ Hs). reflexivity.
Qed.

Lemma SDL_ReadBE16_front data pos v tail :
  0 <= pos -> 0 <= v < 2 ^ 16 ->
  skipn (Z.to_nat pos) data = be16_bytes v ++ tail ->
  SDL_ReadBE16 (mkRW data pos) = (v, mkRW data (pos + 2)) /\
  skipn (Z.to_nat (pos + 2)) data = tail.
Proof.
  intros Hp Hv Hs.
  pose proof (skipn_length_bound _ _ _ _ Hs) as Hl.
  rewrite length_be16_bytes in Hl. specialize (Hl ltac:(lia)).
  split.
  - unfold SDL_ReadBE16.
    destruct (SDL_RWread_full data pos 2 Hp ltac:(lia) ltac:(lia)) as [Hr _].
    rewrite Hr, Hs. f_equal.
    change (2 ^ 8 * ((v / 2 ^ 8) mod 2 ^ 8) + v mod 2 ^ 8 = v).
    pose proof (le16_bytes_value v Hv). lia.
  - replace (Z.to_nat (pos + 2)) with (Z.to_nat pos + 2)%nat by lia.
    apply (skipn_more _ _ _ _ _ Hs). reflexivity.
Qed.

(** A read of [n] bytes that lie at the cursor. *)
Lemma SDL_RWread_front data pos front tail n :
  0 <= pos -> n = Z.of_nat (length front) -> 0 < n < 2 ^ 64 ->
  skipn (Z.to_nat pos) data = front ++ tail ->
  SDL_RWread (mkRW data pos) n = (front, mkRW data (pos + n)) /\
  skipn (Z.to_nat (pos + n)) data = tail.
Proof.
  intros Hp Hn Hpos Hs.
  pose proof (skipn_length_bound _ _ _ _ Hs ltac:(lia)) as Hl.
  split.
  - destruct (SDL_RWread_full data pos n Hp ltac:(lia) ltac:(lia)) as [Hr _].
    rewrite Hr, Hs. subst n. rewrite Nat2Z.id, firstn_app, Nat.sub_diag, firstn_all.
    cbn [firstn]. rewrite app_nil_r. reflexivity.
  - replace (Z.to_nat (pos + n)) with (Z.to_nat pos + length front)%nat by lia.
    apply (skipn_more _ _ _ _ _ Hs). reflexivity.
Qed.

Lemma aiff_file_magic formlen channels numsamples bits sane blocksize payload :
  SDL_ReadLE32
    (mkRW (aiff_file formlen channels numsamples bits sane blocksize payload) 0)
  = (FORM,
     mkRW (aiff_file formlen channels numsamples bits sane blocksize payload) 4).
Proof.
  apply (SDL_ReadLE32_front _ 0 FORM
           (skipn 4 (aiff_file formlen channels numsamples bits sane
                       blocksize payload)));
    [lia | vm_compute; split; [discriminate | reflexivity] | reflexivity].
Qed.

Lemma length_aiff_file formlen channels numsamples bits sane blocksize payload :
  length sane = 10%nat ->
  Z.of_nat (length (aiff_file formlen channels numsamples bits sane blocksize
                      payload))
  = 54 + Z.of_nat (length payload).
Proof.
  intros Hs. unfold aiff_file.
  rewrite !length_app, !length_le32_bytes, !length_be32_bytes,
    !length_be16_bytes, Hs. lia.
Qed.

Lemma aiff_table_format bits d fm wave :
  In (bits, d, fm) aiff_table ->
  aiff_format false bits 0 wave
  = (if bits =? 24
     then set_decode (set_encoding wave PCM_CODE) Fetch_pcm24be
     else wave,
     Some fm) /\
  d = (if bits =? 24 then Fetch_pcm24be else Fetch_pcm).
Proof.
  intros Hin. cbn in Hin.
  repeat (destruct Hin as [Hin | Hin];
          [injection Hin as <- <- <-; split; reflexivity | ]).
  contradiction.
Qed.

(** The run of [LoadAIFFMusic], the magic read, over an AIFF file of a
    common chunk and a sound-data chunk. *)
Lemma LoadAIFFMusic_file turns formlen c frames bits d fm sane blocksize
  payload (wave : WAV_Music) :
  0 <= formlen < 2 ^ 32 -> 0 <= c < 256 -> 0 <= frames < 2 ^ 32 ->
  In (bits, d, fm) aiff_table ->
  length sane = 10%nat ->
  0 <= blocksize < 2 ^ 32 ->
  Z.of_nat (length payload) = c * frames * Z.quot bits 8 ->
  8 + Z.of_nat (length payload) < 2 ^ 32 ->
  (2 <= turns)%nat ->
  let file := aiff_file formlen c frames bits sane blocksize payload in
  src wave = mkRW file 4 ->
  decode wave = Fetch_pcm -> encoding wave = PCM_CODE ->
  LoadAIFFMusic turns wave
  = Returns
      (true,
       mkMusic (mkRW file 54)
         (mkSpec (Sint32 (SANE_to_Uint32 sane)) fm c 4096
            (Z.quot (SDL_AUDIO_BITSIZE fm) 8 * c * 4096))
         (play_count wave) 54 (54 + Z.of_nat (length payload))
         (c * Z.quot bits 8) (buffer wave) (stream wave) (loops wave)
         (tags wave) PCM_CODE d) /\
  skipn 54 file = payload.
Proof.
  intros Hfl Hc Hns Hin Hsane Hbs Hlen Hbound Hturns file Hsrc Hdec Henc.
  assert (0 <= bits < 2 ^ 16 /\ 1 <= Z.quot bits 8 <= 4) as [Hbits Hq].
  { cbn in Hin.
    repeat (destruct Hin as [Hin | Hin];
            [injection Hin as <- _ _; vm_compute; repeat split; discriminate | ]).
    contradiction. }
  set (len := Z.of_nat (length payload)) in *.
  assert (skipn (Z.to_nat 4) file
          = be32_bytes formlen ++ le32_bytes AIFF ++ le32_bytes COMM
            ++ be32_bytes 18 ++ be16_bytes c ++ be32_bytes frames
            ++ be16_bytes bits ++ sane ++ le32_bytes SSND
            ++ be32_bytes (8 + len) ++ be32_bytes 0 ++ be32_bytes blocksize
            ++ payload) as T1.
  { subst file. unfold aiff_file. rewrite <- !app_assoc. reflexivity. }
  destruct (SDL_ReadBE32_front file 4 formlen _ ltac:(lia) Hfl T1) as [R1 T2].
  destruct (SDL_ReadLE32_front file (4 + 4) AIFF _ ltac:(lia)
              ltac:(vm_compute; split; [discriminate | reflexivity]) T2)
    as [R2 T3].
  destruct (SDL_ReadLE32_front file (4 + 4 + 4) COMM _ ltac:(lia)
              ltac:(vm_compute; split; [discriminate | reflexivity]) T3)
    as [R3 T4].
  destruct (SDL_ReadBE32_front file (4 + 4 + 4 + 4) 18 _ ltac:(lia)
              ltac:(lia) T4) as [R4 T5].
  change (4 + 4) with 8 in *. change (8 + 4) with 12 in *.
  change (12 + 4) with 16 in *. change (16 + 4) with 20 in *.
  destruct (SDL_ReadBE16_front file 20 c _ ltac:(lia) ltac:(lia) T5)
    as [R5 T6].
  destruct (SDL_ReadBE32_front file (20 + 2) frames _ ltac:(lia) Hns T6)
    as [R6 T7].
  destruct (SDL_ReadBE16_front file (20 + 2 + 4) bits _ ltac:(lia) Hbits T7)
    as [R7 T8].
  destruct (SDL_RWread_front file (20 + 2 + 4 + 2) sane _ 10 ltac:(lia)
              ltac:(lia) ltac:(lia) T8) as [R8 T9].
  change (20 + 2) with 22 in *. change (22 + 4) with 26 in *.
  change (26 + 2) with 28 in *. change (28 + 10) with 38 in *.
  destruct (SDL_ReadLE32_front file 38 SSND _ ltac:(lia)
              ltac:(vm_compute; split; [discriminate | reflexivity]) T9)
    as [R9 T10].
  destruct (SDL_ReadBE32_front file (38 + 4) (8 + len) _ ltac:(lia)
              ltac:(lia) T10) as [R10 T11].
  destruct (SDL_ReadBE32_front file (38 + 4 + 4) 0 _ ltac:(lia)
              ltac:(lia) T11) as [R11 T12].
  destruct (SDL_ReadBE32_front file (38 + 4 + 4 + 4) blocksize _ ltac:(lia)
              Hbs T12) as [R12 T13].
  change (38 + 4) with 42 in *. change (42 + 4) with 46 in *.
  change (46 + 4) with 50 in *. change (50 + 4) with 54 in *.
  split; [ | exact T13].
  unfold LoadAIFFMusic. rewrite Hsrc, R1, R2.
  change (negb (AIFF =? AIFF) && negb (AIFF =? AIFC)) with false.
  change (AIFF =? AIFC) with false. cbv iota.
  destruct turns as [ | [ | turns]]; try lia.
  cbn [aiff_chunks set_src src]. rewrite R3, R4.
  change (18 =? 0) with false. cbv iota.
  unfold aiff_chunk at 1.
  change (COMM =? SSND) with false. change (COMM =? FVER) with false.
  change (COMM =? COMM) with true. cbv iota.
  cbn [set_src src]. rewrite R5, R6, R7, R8, Hsane.
  change (negb (10 =? 10)%nat) with false. cbv iota.
  cbn [found_SSND found_COMM found_FVER negb orb andb set_src src].
  unfold SDL_RWseek at 1. cbn [SDL_RWtell rw_pos].
  change (20 + 18 <? 0) with false. cbv iota.
  change (20 + 18 =? -1) with false. cbv iota.
  change (20 + 18) with 38. cbn [rw_data set_src src]. rewrite R9, R10.
  replace (8 + len =? 0) with false by (symmetry; apply Z.eqb_neq; lia).
  unfold aiff_chunk.
  change (SSND =? SSND) with true. cbv iota.
  cbn [set_src src]. rewrite R11, R12.
  cbn [found_SSND found_COMM found_FVER negb orb andb set_src set_start src
       channels numsamples aiff_samplesize frequency compressionType
       SDL_RWtell rw_pos start].
  destruct (aiff_table_format bits d fm
              (set_spec
                 (set_stop
                    (set_samplesize
                       (set_start
                          (set_src
                             (set_src
                                (set_src
                                   (set_src
                                      (set_src
                                         (set_src wave (mkRW file 12))
                                         (mkRW file 20))
                                      (mkRW file 38))
                                   (mkRW file 38))
                                (mkRW file 46))
                             (mkRW file 54))
                          (54 + 0))
                       (Sint32 (c * Z.quot bits 8)))
                    (54 + 0 + Uint32 (Uint32 (c * frames) * Z.quot bits 8)))
                 (mkSpec (Sint32 (SANE_to_Uint32 sane)) 0 0 0 0)) Hin)
    as [Hfmt Hd].
  cbn [set_samplesize set_start start] in Hfmt |- *.
  rewrite Hfmt. clear Hfmt.
  assert (Uint32 (Uint32 (c * frames) * Z.quot bits 8) = len) as Hstop.
  { unfold Uint32. rewrite Z.mul_mod_idemp_l by lia.
    rewrite <- Hlen. apply Z.mod_small. lia. }
  assert (0 <= Z.quot (SDL_AUDIO_BITSIZE fm) 8 <= 4) as Hk.
  { cbn in Hin.
    repeat (destruct Hin as [Hin | Hin];
            [injection Hin as _ _ <-; vm_compute; split; discriminate | ]).
    contradiction. }
  rewrite Hstop, Sint32_small by nia. change (54 + 0) with 54.
  destruct wave as [s sp pc st sto ss buf q ls tg enc dec].
  cbn in Hdec, Henc. subst enc dec.
  f_equal. f_equal.
  destruct (bits =? 24);
    cbv [calculate_spec set_format set_spec set_stop set_src set_decode
         set_encoding set_samplesize set_start
         src spec play_count start stop samplesize buffer stream loops tags
         encoding decode spec_freq spec_format spec_channels spec_samples
         spec_size];
    unfold Uint8; rewrite (Z.mod_small c) by lia;
    rewrite calculate_size by lia; subst d; reflexivity.
Qed.

(** X20.  An AIFF file of a common chunk and a sound-data chunk is read
    back as written.  For a file that is not AIFC, with 8, 16, 24 or 32
    bits per sample, up to 255 channels, [frames] sample frames and a
    payload of [channels * frames * (bits / 8)] bytes at offset 0 of the
    sound-data chunk, when the scratch buffer is allocated and the queue
    is made for the file's format, channels and rate:
    [WAV_CreateFromRW] returns an instance whose
    region is the payload, bytes 54 to the end of the file, whose rate
    is [SANE_to_Uint32] of the 10-byte rate field, whose output format
    is big-endian (signed 8-bit for 8 bits, 32-bit for 24 and 32), and
    whose strategy is direct copy, or the packed 24-bit expansion for 24
    bits; the cursor is left on the region start. *)
Theorem WAV_CreateFromRW_reads_back_aiff :
  forall id3tag junk SDL_malloc SDL_NewAudioStream buf turns formlen c frames
         bits d fm sane blocksize payload,
    0 <= formlen < 2 ^ 32 -> 0 <= c < 256 -> 0 <= frames < 2 ^ 32 ->
    In (bits, d, fm) aiff_table ->
    length sane = 10%nat ->
    0 <= blocksize < 2 ^ 32 ->
    Z.of_nat (length payload) = c * frames * Z.quot bits 8 ->
    8 + Z.of_nat (length payload) < 2 ^ 32 ->
    (2 <= turns)%nat ->
    let file := aiff_file formlen c frames bits sane blocksize payload in
    let size := Z.quot (SDL_AUDIO_BITSIZE fm) 8 * c * 4096 in
    SDL_malloc size = Some buf ->
    SDL_NewAudioStream fm c (Sint32 (SANE_to_Uint32 sane)) = true ->
    let music :=
      mkMusic (mkRW file 54)
        (mkSpec (Sint32 (SANE_to_Uint32 sane)) fm c 4096 size)
        0 54 (54 + Z.of_nat (length payload)) (c * Z.quot bits 8)
        buf [] [] (mkTags None None None None) PCM_CODE d in
    WAV_CreateFromRW id3tag junk SDL_malloc SDL_NewAudioStream turns
      (mkRW file 0)
    = Returns (true, music) /\
    region_bytes music = payload /\
    stop music = Z.of_nat (length file).
Proof.
  intros id3tag junk SDL_malloc SDL_NewAudioStream buf turns formlen c frames
    bits d fm sane blocksize payload Hfl Hc Hfr Hin Hsane Hbs Hlen Hbound Hturns
    file size Hmalloc Hstream music.
  set (fresh := mkMusic (mkRW file 4) (mkSpec 0 0 0 0 0) 0 0 0 0 [] [] []
                  (mkTags None None None None) PCM_CODE Fetch_pcm).
  destruct (LoadAIFFMusic_file turns formlen c frames bits d fm sane blocksize
              payload fresh Hfl Hc Hfr Hin Hsane Hbs Hlen Hbound Hturns
              eq_refl eq_refl eq_refl)
    as [Hload Hskip].
  fold file in Hload, Hskip.
  split; [ | split].
  - refine (eq_trans
              (WAV_CreateFromRW_made id3tag junk SDL_malloc SDL_NewAudioStream
                 turns _ _ _ _ buf (aiff_file_magic _ _ _ _ _ _ _) Hload
                 Hmalloc Hstream) _).
    reflexivity.
  - unfold region_bytes, source_bytes. subst music.
    cbn [start stop src rw_data].
    change (Z.to_nat 54) with 54%nat. rewrite Hskip.
    replace (Z.to_nat (54 + Z.of_nat (length payload) - 54))
      with (length payload) by lia.
    apply firstn_all.
  - subst music file. cbn [stop]. rewrite length_aiff_file by exact Hsane.
    reflexivity.
Qed.

Lemma WAV_CreateFromRW_reads_back_aiff_witness :
  let sane := [0x40; 0x0E; 0xAC; 0x44; 0; 0; 0; 0; 0; 0] in
  let file := aiff_file 0 2 1 16 sane 0 [1; 2; 3; 4] in
  exists music,
    WAV_CreateFromRW (fun tags _ _ => tags) (fun _ => false)
      (fun n => Some (repeat 0 (Z.to_nat n))) (fun _ _ _ => true) 2
      (mkRW file 0)
    = Returns (true, music) /\
    region_bytes music = [1; 2; 3; 4] /\
    (decode music, spec_format (spec music), spec_freq (spec music))
    = (Fetch_pcm, AUDIO_S16MSB, 44100).
Proof.
  cbv zeta.
  destruct (WAV_CreateFromRW_reads_back_aiff (fun tags _ _ => tags)
              (fun _ => false) (fun n => Some (repeat 0 (Z.to_nat n)))
              (fun _ _ _ => true) (repeat 0 (Z.to_nat 16384)) 2 0 2 1 16
              Fetch_pcm AUDIO_S16MSB [0x40; 0x0E; 0xAC; 0x44; 0; 0; 0; 0; 0; 0]
              0 [1; 2; 3; 4]) as (Hrun & Hregion & _).
  - lia.
  - lia.
  - lia.
  - right. left. reflexivity.
  - reflexivity.
  - lia.
  - reflexivity.
  - cbn. lia.
  - lia.
  - reflexivity.
  - reflexivity.
  - eexists. split; [exact Hrun | ]. split; [exact Hregion | ].
    vm_compute. reflexivity.
Defined.

(** X21.  Loading and playing compose for AIFF as well: an AIFF file
    with 8, 16 or 32 bits per sample, 1 to 255 channels and a payload
    of [channels * frames * (bits / 8)] bytes is loaded when the scratch
    buffer is allocated and the queue is made for the file's format,
    channels and rate, and
    after Play with a count [k >= 0] the calls of [WAV_GetSome],
    whatever positive budgets they are given, hand out the payload [k]
    times over, byte for byte, and then signal the end of the stream,
    not before. *)
Theorem aiff_file_plays_its_data :
  forall id3tag junk SDL_malloc SDL_NewAudioStream buf turns formlen c frames
         bits fm sane blocksize payload k budget,
    0 <= formlen < 2 ^ 32 -> 0 < c < 256 -> 0 <= frames < 2 ^ 32 ->
    In (bits, Fetch_pcm, fm) aiff_table ->
    length sane = 10%nat ->
    0 <= blocksize < 2 ^ 32 ->
    Z.of_nat (length payload) = c * frames * Z.quot bits 8 ->
    8 + Z.of_nat (length payload) < 2 ^ 32 ->
    (2 <= turns)%nat ->
    0 <= k -> (forall i, 0 < budget i) ->
    SDL_malloc (Z.quot (SDL_AUDIO_BITSIZE fm) 8 * c * 4096) = Some buf ->
    SDL_NewAudioStream fm c (Sint32 (SANE_to_Uint32 sane)) = true ->
    let file := aiff_file formlen c frames bits sane blocksize payload in
    exists music,
      WAV_CreateFromRW id3tag junk SDL_malloc SDL_NewAudioStream turns
        (mkRW file 0)
      = Returns (true, music) /\
      let session := snd (WAV_Play music k) in
      exists n,
        played budget n session = concat (repeat payload (Z.to_nat k)) /\
        done (WAV_GetSome (calls budget n session) (budget n)) = true /\
        forall j, (j < n)%nat ->
          done (WAV_GetSome (calls budget j session) (budget j)) = false.
Proof.
  intros id3tag junk SDL_malloc SDL_NewAudioStream buf turns formlen c frames
    bits fm sane blocksize payload k budget Hfl Hc Hfr Hin Hsane Hbs Hlen Hbound
    Hturns Hk Hb Hmalloc Hstream file.
  set (fresh := mkMusic (mkRW file 4) (mkSpec 0 0 0 0 0) 0 0 0 0 [] [] []
                  (mkTags None None None None) PCM_CODE Fetch_pcm).
  destruct (LoadAIFFMusic_file turns formlen c frames bits Fetch_pcm fm sane
              blocksize payload fresh Hfl ltac:(lia) Hfr Hin Hsane Hbs Hlen
              Hbound Hturns eq_refl eq_refl eq_refl)
    as [Hload Hskip].
  fold file in Hload, Hskip.
  set (size := Z.quot (SDL_AUDIO_BITSIZE fm) 8 * c * 4096) in *.
  set (music := mkMusic (mkRW file 54)
                  (mkSpec (Sint32 (SANE_to_Uint32 sane)) fm c 4096 size)
                  0 54 (54 + Z.of_nat (length payload)) (c * Z.quot bits 8)
                  buf [] [] (mkTags None None None None) PCM_CODE
                  Fetch_pcm).
  exists music. split.
  { refine (eq_trans
              (WAV_CreateFromRW_made id3tag junk SDL_malloc SDL_NewAudioStream
                 turns _ _ _ _ buf (aiff_file_magic _ _ _ _ _ _ _) Hload
                 Hmalloc Hstream) _).
    reflexivity. }
  intros session.
  assert (1 <= Z.quot (SDL_AUDIO_BITSIZE fm) 8 <= 4) as Hbits.
  { cbn in Hin.
    repeat (destruct Hin as [Hin | Hin];
            [first [injection Hin as _ <-; vm_compute; split; discriminate
                   | discriminate Hin] | ]).
    contradiction. }
  pose proof (length_aiff_file formlen c frames bits sane blocksize payload
                Hsane) as Hflen.
  fold file in Hflen.
  assert (region_bytes music = payload) as Hregion.
  { unfold region_bytes, source_bytes. cbn [music start stop src rw_data].
    change (Z.to_nat 54) with 54%nat. rewrite Hskip.
    replace (Z.to_nat (54 + Z.of_nat (length payload) - 54))
      with (length payload) by lia.
    apply firstn_all. }
  destruct (WAV_Play_plain_session music k) as [Hp Hrem];
    try reflexivity; try exact Hk.
  - cbn [music spec spec_size]. subst size. nia.
  - cbn [music start stop]. lia.
  - cbn [music stop src rw_data]. lia.
  - fold session in Hp, Hrem. rewrite Hregion in Hrem. rewrite <- Hrem.
    apply (plain_session_plays (Z.to_nat (calls_left session))); auto.
    pose proof (calls_left_nonneg _ Hp). lia.
Qed.

Lemma aiff_file_plays_its_data_witness :
  let sane := [0x40; 0x0E; 0xAC; 0x44; 0; 0; 0; 0; 0; 0] in
  let file := aiff_file 0 2 1 16 sane 0 [1; 2; 3; 4] in
  exists music,
    WAV_CreateFromRW (fun tags _ _ => tags) (fun _ => false)
      (fun n => Some (repeat 0 (Z.to_nat n))) (fun _ _ _ => true) 2
      (mkRW file 0)
    = Returns (true, music) /\
    exists n,
      played (fun _ => 3) n (snd (WAV_Play music 2)) = [1; 2; 3; 4; 1; 2; 3; 4].
Proof.
  cbv zeta.
  destruct (aiff_file_plays_its_data (fun tags _ _ => tags)
              (fun _ => false) (fun n => Some (repeat 0 (Z.to_nat n)))
              (fun _ _ _ => true) (repeat 0 (Z.to_nat 16384)) 2 0 2 1 16
              AUDIO_S16MSB [0x40; 0x0E; 0xAC; 0x44; 0; 0; 0; 0; 0; 0] 0
              [1; 2; 3; 4] 2 (fun _ => 3))
    as (music & Hrun & n & Hplayed & _).
  - lia.
  - lia.
  - lia.
  - right. left. reflexivity.
  - reflexivity.
  - lia.
  - reflexivity.
  - cbn. lia.
  - lia.
  - lia.
  - intros i. lia.
  - reflexivity.
  - reflexivity.
  - exists music. split; [exact Hrun | ]. exists n. exact Hplayed.
Defined.

(** ** A data chunk that is empty *)

(** X22.  A data chunk of length 0 is not a data chunk to the loader:
    the length 0 ends the chunk walk before the chunk is looked at.  A
    WAVE file of a format chunk and an empty data chunk is therefore
    refused, for every format, and so is such a file with further
    chunks after the empty one, which are never read. *)
Theorem WAV_CreateFromRW_refuses_empty_data :
  forall id3tag junk SDL_malloc SDL_NewAudioStream turns wavelen e c f br ba b
         d fm rest,
    0 <= wavelen < 2 ^ 32 -> 0 <= c < 256 -> 0 <= f < 2 ^ 31 ->
    In (e, b, d, fm) fmt_table ->
    (2 <= turns)%nat ->
    let file := wav_file wavelen (fmt_payload e c f br ba b) [] ++ rest in
    exists wave,
      WAV_CreateFromRW id3tag junk SDL_malloc SDL_NewAudioStream turns
        (mkRW file 0)
      = Returns (false, wave) /\
      cursor wave = 44.
Proof.
  intros id3tag junk SDL_malloc SDL_NewAudioStream turns wavelen e c f br ba b
    d fm rest Hw Hc Hf Hin Hturns file.
  set (fmt := fmt_payload e c f br ba b) in *.
  assert (file
          = le32_bytes RIFF ++ le32_bytes wavelen ++ le32_bytes WAVE
            ++ le32_bytes FMT ++ le32_bytes 16 ++ fmt
            ++ le32_bytes DATA ++ le32_bytes 0 ++ rest) as Hfile.
  { subst file. rewrite wav_file_parts, <- !app_assoc. reflexivity. }
  assert (skipn (Z.to_nat 0) file = file) as T0 by reflexivity.
  rewrite Hfile in T0 at 2.
  destruct (SDL_ReadLE32_front file 0 RIFF _ ltac:(lia)
              ltac:(vm_compute; split; [discriminate | reflexivity]) T0)
    as [R0 T1].
  destruct (SDL_ReadLE32_front file (0 + 4) wavelen _ ltac:(lia) Hw T1)
    as [R1 T2].
  destruct (SDL_ReadLE32_front file (0 + 4 + 4) WAVE _ ltac:(lia)
              ltac:(vm_compute; split; [discriminate | reflexivity]) T2)
    as [R2 T3].
  destruct (SDL_ReadLE32_front file (0 + 4 + 4 + 4) FMT _ ltac:(lia)
              ltac:(vm_compute; split; [discriminate | reflexivity]) T3)
    as [R3 T4].
  destruct (SDL_ReadLE32_front file (0 + 4 + 4 + 4 + 4) 16 _ ltac:(lia)
              ltac:(lia) T4)
    as [R4 T5].
  change (0 + 4) with 4 in *. change (4 + 4) with 8 in *.
  change (8 + 4) with 12 in *. change (12 + 4) with 16 in *.
  change (16 + 4) with 20 in *.
  assert (skipn (Z.to_nat 36) file
          = le32_bytes DATA ++ le32_bytes 0 ++ rest) as T6.
  { change (Z.to_nat 36) with (Z.to_nat 20 + 16)%nat.
    apply (skipn_more _ _ _ _ _ T5). reflexivity. }
  destruct (SDL_ReadLE32_front file 36 DATA _ ltac:(lia)
              ltac:(vm_compute; split; [discriminate | reflexivity]) T6)
    as [R6 T7].
  destruct (SDL_ReadLE32_front file (36 + 4) 0 _ ltac:(lia) ltac:(lia) T7)
    as [R7 T8].
  change (36 + 4) with 40 in *. change (40 + 4) with 44 in *.
  eexists. split.
  - unfold WAV_CreateFromRW. rewrite R0.
    change ((RIFF =? RIFF) || (RIFF =? WAVE)) with true. cbv iota.
    unfold LoadWAVMusic. cbn [set_src set_tags src].
    rewrite R1, R2.
    destruct turns as [ | [ | turns]]; try lia.
    cbn [wav_chunks set_src src].
    rewrite R3, R4.
    change (16 =? 0) with false. change (FMT =? FMT) with true. cbv iota.
    rewrite (ParseFMT_front _ (le32_bytes DATA ++ le32_bytes 0 ++ rest)
               e c f br ba b d fm) by (try assumption; cbn; try lia; exact T5).
    cbn [cursor SDL_RWtell src rw_pos rw_data set_src spec play_count start stop
         samplesize buffer stream loops tags encoding decode].
    change (20 + 16) with 36.
    rewrite R6, R7.
    change (0 =? 0) with true. cbn [negb]. cbv iota.
    reflexivity.
  - reflexivity.
Qed.

Lemma WAV_CreateFromRW_refuses_empty_data_witness :
  exists wave,
    WAV_CreateFromRW (fun tags _ _ => tags) (fun _ => false)
      (fun n => Some (repeat 0 (Z.to_nat n))) (fun _ _ _ => true) 9
      (mkRW (wav_file 0 (fmt_payload 1 2 44100 0 0 16) []
             ++ chunk_record DATA [1; 2; 3; 4]) 0)
    = Returns (false, wave).
Proof.
  destruct (WAV_CreateFromRW_refuses_empty_data (fun tags _ _ => tags)
              (fun _ => false) (fun n => Some (repeat 0 (Z.to_nat n)))
              (fun _ _ _ => true) 9 0 1 2 44100 0 0 16 Fetch_pcm
              AUDIO_S16 (chunk_record DATA [1; 2; 3; 4]))
    as (wave & Hrun & _).
  - lia.
  - lia.
  - lia.
  - right. left. reflexivity.
  - lia.
  - exists wave. exact Hrun.
Defined.

(** ** The AIFF chunk walk always ends *)

Lemma be32_range got :
  Forall (fun b => 0 <= b < 256) got -> 0 <= be32 got 0 < 2 ^ 32.
Proof.
  intros Hb. pose proof (byte_at_range got Hb) as H. unfold be32.
  pose proof (H 0). pose proof (H (0 + 1)). pose proof (H (0 + 2)).
  pose proof (H (0 + 3)). lia.
Qed.

Lemma SDL_ReadBE32_spec s :
  Forall (fun b => 0 <= b < 256) (rw_data s) -> 0 <= rw_pos s ->
  let '(v, s') := SDL_ReadBE32 s in
  moved_on s s' /\ 0 <= v < 2 ^ 32 /\
  (v <> 0 -> rw_pos s < rw_pos s' <= Z.of_nat (length (rw_data s))).
Proof.
  intros Hb Hp. unfold SDL_ReadBE32.
  pose proof (SDL_RWread_moved_on s 4) as Hm.
  pose proof (SDL_RWread_bounds s 4 Hp ltac:(lia)) as Hr.
  destruct (SDL_RWread s 4) as [got s'] eqn:E. cbn [snd] in Hm.
  destruct Hr as [Hlen ->].
  assert (Forall (fun b => 0 <= b < 256) got) as Hgot.
  { unfold SDL_RWread in E. injection E as <- _. apply Forall_firstn_skipn, Hb. }
  split; [exact Hm | ]. split; [apply be32_range, Hgot | ].
  intros Hv. destruct got as [ | b got]; [exfalso; apply Hv; reflexivity | ].
  cbn [length] in Hlen. unfold rw_available in *. cbn [rw_data rw_pos]. lia.
Qed.

Lemma aiff_chunk_returns is_AIFC chunk_type wave st :
  match aiff_chunk is_AIFC chunk_type wave st with
  | Returns (wave', _) => rw_data (src wave') = rw_data (src wave)
  | Reads_outside => True
  | Out_of_turns => False
  end.
Proof.
  unfold aiff_chunk.
  destruct (chunk_type =? SSND).
  { unfold SDL_ReadBE32.
    destruct (SDL_RWread (src wave) 4) as [g1 s1] eqn:E1.
    destruct (SDL_RWread s1 4) as [g2 s2] eqn:E2.
    pose proof (rw_data_SDL_RWread (src wave) 4) as D1. rewrite E1 in D1.
    pose proof (rw_data_SDL_RWread s1 4) as D2. rewrite E2 in D2.
    cbn [snd] in D1, D2. cbn [set_start set_src src]. congruence. }
  destruct (chunk_type =? FVER).
  { unfold SDL_ReadBE32.
    destruct (SDL_RWread (src wave) 4) as [g1 s1] eqn:E1.
    pose proof (rw_data_SDL_RWread (src wave) 4) as D1. rewrite E1 in D1.
    cbn [snd] in D1. cbn [set_src src]. congruence. }
  destruct (chunk_type =? COMM); [ | reflexivity].
  unfold SDL_ReadBE16, SDL_ReadBE32.
  destruct (SDL_RWread (src wave) 2) as [g1 s1] eqn:E1.
  destruct (SDL_RWread s1 4) as [g2 s2] eqn:E2.
  destruct (SDL_RWread s2 2) as [g3 s3] eqn:E3.
  destruct (SDL_RWread s3 10) as [g4 s4] eqn:E4.
  pose proof (rw_data_SDL_RWread (src wave) 2) as D1. rewrite E1 in D1.
  pose proof (rw_data_SDL_RWread s1 4) as D2. rewrite E2 in D2.
  pose proof (rw_data_SDL_RWread s2 2) as D3. rewrite E3 in D3.
  pose proof (rw_data_SDL_RWread s3 10) as D4. rewrite E4 in D4.
  cbn [snd] in D1, D2, D3, D4.
  destruct (negb _); [exact I | ].
  destruct is_AIFC.
  - unfold SDL_ReadLE32.
    destruct (SDL_RWread s4 4) as [g5 s5] eqn:E5.
    pose proof (rw_data_SDL_RWread s4 4) as D5. rewrite E5 in D5.
    cbn [snd] in D5. cbn [set_src src]. congruence.
  - cbn [set_src src]. congruence.
Qed.

Lemma aiff_chunks_ends : forall turns is_AIFC wave st,
  Forall (fun b => 0 <= b < 256) (rw_data (src wave)) ->
  0 <= cursor wave ->
  rw_available (src wave) < Z.of_nat turns ->
  aiff_chunks turns is_AIFC wave st <> Out_of_turns /\
  forall more,
    aiff_chunks (turns + more) is_AIFC wave st
    = aiff_chunks turns is_AIFC wave st.
Proof.
  induction turns as [ | turns IH]; intros is_AIFC wave st Hb Hc Ha.
  { pose proof (rw_available_nonneg (src wave)). lia. }
  unfold cursor, SDL_RWtell in Hc.
  pose proof (SDL_ReadLE32_spec (src wave) Hb Hc) as H1.
  cbn [aiff_chunks Nat.add].
  destruct (SDL_ReadLE32 (src wave)) as [ty s1].
  destruct H1 as ([D1 P1] & _ & _).
  assert (Forall (fun b => 0 <= b < 256) (rw_data s1)) as Hb1
    by (rewrite D1; exact Hb).
  pose proof (SDL_ReadBE32_spec s1 Hb1 ltac:(lia)) as H2.
  destruct (SDL_ReadBE32 s1) as [n s2].
  destruct H2 as ([D2 P2] & Hn & Hmove).
  destruct (n =? 0) eqn:E0.
  { split; [discriminate | reflexivity]. }
  apply Z.eqb_neq in E0. specialize (Hmove E0).
  pose proof (aiff_chunk_returns is_AIFC ty (set_src wave s2) st) as Hsw.
  destruct (aiff_chunk is_AIFC ty (set_src wave s2) st) as [[wave' st'] | | ];
    [ | split; [discriminate | reflexivity] | contradiction].
  cbn [set_src src] in Hsw.
  destruct (negb (found_SSND st') || negb (found_COMM st')
            || is_AIFC && negb (found_FVER st'));
    [ | split; [discriminate | reflexivity]].
  unfold SDL_RWseek, SDL_RWtell.
  replace (rw_pos s2 + n <? 0) with false by (symmetry; apply Z.ltb_ge; lia).
  replace (rw_pos s2 + n =? -1) with false by (symmetry; apply Z.eqb_neq; lia).
  apply IH.
  - cbn [set_src src rw_data]. rewrite Hsw, D2. exact Hb1.
  - unfold cursor, SDL_RWtell. cbn [set_src src rw_pos]. lia.
  - unfold rw_available in *. cbn [set_src src rw_data rw_pos].
    rewrite Hsw, D2, D1 in *. lia.
Qed.

(** X23.  The chunk walk of [LoadAIFFMusic] cannot run on for ever
    either, whatever the file holds: over a source of bytes with the
    cursor not negative, more turns than there are bytes left to read
    are never needed, and allowing more turns than that does not change
    the result. *)
Theorem LoadAIFFMusic_always_ends :
  forall wave turns,
    Forall (fun b => 0 <= b < 256) (rw_data (src wave)) ->
    0 <= cursor wave ->
    rw_available (src wave) < Z.of_nat turns ->
    LoadAIFFMusic turns wave <> Out_of_turns /\
    forall more, LoadAIFFMusic (turns + more) wave = LoadAIFFMusic turns wave.
Proof.
  intros wave turns Hb Hc Ha. unfold LoadAIFFMusic.
  unfold cursor, SDL_RWtell in Hc.
  pose proof (SDL_ReadBE32_spec (src wave) Hb Hc) as H1.
  destruct (SDL_ReadBE32 (src wave)) as [formlen s1].
  destruct H1 as ([D1 P1] & _ & _).
  assert (Forall (fun b => 0 <= b < 256) (rw_data s1)) as Hb1
    by (rewrite D1; exact Hb).
  pose proof (SDL_ReadLE32_spec s1 Hb1 ltac:(lia)) as H2.
  destruct (SDL_ReadLE32 s1) as [magic s2].
  destruct H2 as ([D2 P2] & _ & _).
  destruct (negb (magic =? AIFF) && negb (magic =? AIFC));
    [split; [discriminate | reflexivity] | ].
  destruct (aiff_chunks_ends turns (magic =? AIFC) (set_src wave s2)
              (mkAiff false false false 0 0 0 0 0)) as [Hend Hmore].
  - cbn [set_src src]. rewrite D2. exact Hb1.
  - unfold cursor, SDL_RWtell. cbn [set_src src]. lia.
  - cbn [set_src src].
    pose proof (moved_on_available (src wave) s1 (conj D1 P1)).
    pose proof (moved_on_available s1 s2 (conj D2 P2)). lia.
  - split.
    + destruct (aiff_chunks turns _ _ _) as [[w st] | | ];
        [ | discriminate | contradiction].
      destruct (negb (found_SSND st)); [discriminate | ].
      destruct (negb (found_COMM st)); [discriminate | ].
      destruct (aiff_format _ _ _ _) as [w' [f | ]]; discriminate.
    + intros more. rewrite Hmore. reflexivity.
Qed.

Lemma LoadAIFFMusic_always_ends_witness :
  LoadAIFFMusic 44 demo_info_wave <> Out_of_turns.
Proof.
  apply (LoadAIFFMusic_always_ends demo_info_wave 44).
  - apply Forall_bytes. reflexivity.
  - vm_compute; discriminate.
  - vm_compute; reflexivity.
Defined.

(** ** Playback: a law-expansion session over one channel *)

Lemma xlaw_pass_bytes decode_sample buf len :
  0 <= len -> 2 * len <= Z.of_nat (length buf) ->
  let out := mem_bytes (xlaw_pass decode_sample buf len) in
  length out = length buf /\
  (forall j, 0 <= j < len ->
     byte_at out (2 * j) = sample_lo decode_sample (byte_at buf j) /\
     byte_at out (2 * j + 1) = sample_hi decode_sample (byte_at buf j)).
Proof.
  intros Hlen Hroom out. subst out. unfold xlaw_pass.
  destruct (Z.eq_dec len 0) as [-> | Hne].
  - cbn. split; [reflexivity | intros j Hj; lia].
  - destruct (xlaw_loop_bytes decode_sample (Z.to_nat len) (len - 1) (mkMem buf []))
      as (H1 & H2 & _); cbn [mem_bytes]; try lia.
    cbv zeta in H1, H2. cbn [mem_bytes] in H1, H2.
    split; [exact H1 | intros j Hj; apply H2; lia].
Qed.

Lemma length_expand decode_sample bytes :
  length (expand decode_sample bytes) = (2 * length bytes)%nat.
Proof.
  induction bytes as [ | b bytes IH]; [reflexivity | ].
  cbn [expand flat_map app length] in *. unfold expand in IH. lia.
Qed.

Lemma expand_app decode_sample a b :
  expand decode_sample (a ++ b) = expand decode_sample a ++ expand decode_sample b.
Proof. apply flat_map_app. Qed.

Lemma nth_expand decode_sample : forall bytes j,
  (j < length bytes)%nat ->
  nth (2 * j) (expand decode_sample bytes) 0
  = sample_lo decode_sample (nth j bytes 0) /\
  nth (2 * j + 1) (expand decode_sample bytes) 0
  = sample_hi decode_sample (nth j bytes 0).
Proof.
  induction bytes as [ | b bytes IH]; intros j Hj; [cbn in Hj; lia | ].
  destruct j as [ | j].
  - split; reflexivity.
  - cbn [length] in Hj. destruct (IH j ltac:(lia)) as [H1 H2].
    replace (2 * S j)%nat with (S (S (2 * j))) by lia.
    replace (S (S (2 * j)) + 1)%nat with (S (S (2 * j + 1))) by lia.
    cbn [expand flat_map app nth]. split; [exact H1 | exact H2].
Qed.

(** What the expansion pass leaves at the front of the buffer. *)
Lemma firstn_xlaw_pass decode_sample buf got :
  (2 * length got <= length buf)%nat ->
  firstn (2 * length got)
    (mem_bytes (xlaw_pass decode_sample (read_into buf got)
                  (Z.of_nat (length got))))
  = expand decode_sample got.
Proof.
  intros Hroom.
  assert (length (read_into buf got) = length buf) as Hlen.
  { unfold read_into. rewrite length_app, length_skipn. lia. }
  destruct (xlaw_pass_bytes decode_sample (read_into buf got)
              (Z.of_nat (length got))) as [Hl Hb]; [lia | lia | ].
  cbv zeta in Hl, Hb.
  set (out := mem_bytes (xlaw_pass decode_sample (read_into buf got)
                           (Z.of_nat (length got)))) in *.
  apply (nth_ext _ _ 0 0).
  - rewrite length_firstn, length_expand. lia.
  - intros n Hn. rewrite length_firstn in Hn.
    rewrite nth_firstn.
    replace (n <? 2 * length got)%nat with true
      by (symmetry; apply Nat.ltb_lt; lia).
    assert (forall j, (j < length got)%nat ->
              byte_at (read_into buf got) (Z.of_nat j) = nth j got 0) as Hgot.
    { intros j Hj. unfold byte_at, read_into.
      replace (Z.of_nat j <? 0) with false by (symmetry; apply Z.ltb_ge; lia).
      rewrite Nat2Z.id, app_nth1 by lia. reflexivity. }
    assert (forall k, byte_at out (Z.of_nat k) = nth k out 0) as Hout.
    { intros k. unfold byte_at.
      replace (Z.of_nat k <? 0) with false by (symmetry; apply Z.ltb_ge; lia).
      rewrite Nat2Z.id. reflexivity. }
    destruct (Nat.Even_or_Odd n) as [[j Hj] | [j Hj]]; subst n.
    + destruct (Hb (Z.of_nat j) ltac:(lia)) as [H1 _].
      destruct (nth_expand decode_sample got j ltac:(lia)) as [E1 _].
      rewrite E1, <- Hgot by lia. rewrite <- H1, <- Hout. f_equal. lia.
    + destruct (Hb (Z.of_nat j) ltac:(lia)) as [_ H2].
      destruct (nth_expand decode_sample got j ltac:(lia)) as [_ E2].
      rewrite E2, <- Hgot by lia. rewrite <- H2, <- Hout. f_equal. lia.
Qed.

Lemma call_decode_law decode_sample m amount :
  decodes_with decode_sample m ->
  call_decode m amount = fetch_xlaw decode_sample m amount.
Proof.
  unfold call_decode. intros [[-> ->] | [-> ->]]; reflexivity.
Qed.

(** A call of such a session that finds the queue empty and the repeat
    count not 0: with two bytes or more left of the pass it plays half
    of what is left (at most half a fetch), with less it ends the
    pass. *)
Lemma law_session_fetch decode_sample m bytes :
  law_session decode_sample m -> stream m = [] -> play_count m <> 0 ->
  let c := WAV_GetSome m bytes in
  let t := Z.quot (Z.min (spec_size (spec m)) (stop m - cursor m)) 2 in
  produced c = [] /\ done c = false /\
  length (buffer (after c)) = length (buffer m) /\
  (if 2 <=? stop m - cursor m
   then stream (after c)
        = expand decode_sample (source_bytes m (cursor m) (cursor m + t)) /\
        cursor (after c) = cursor m + t /\
        play_count (after c) = play_count m /\
        1 <= t <= stop m - cursor m - 1
   else stream (after c) = [] /\
        if play_count m =? 1
        then play_count (after c) = 0 /\ cursor (after c) = cursor m
        else play_count (after c) = play_count m - 1 /\
             cursor (after c) = start m).
Proof.
  intros (Hdec & Hss & Hl & Hsz & Hbuf & Hst & Hdata & Hcur & Hpc) Hq Hne c t.
  set (a := Z.min (spec_size (spec m)) (stop m - cursor m)) in *.
  assert (0 <= a < 2 ^ 31) as Ha by lia.
  assert (fetch_amount m (stop m) (cursor m) = a) as Hamt.
  { unfold fetch_amount. rewrite Sint32_small by lia.
    destruct (stop m - cursor m <? spec_size (spec m)) eqn:E.
    - apply Z.ltb_lt in E. rewrite Sint32_small by lia. lia.
    - apply Z.ltb_ge in E. lia. }
  assert (0 <= t /\ 2 * t <= a) as [Ht0 Ht1].
  { subst t. pose proof (Z.quot_pos a 2). pose proof (Z.mul_quot_le a 2). lia. }
  destruct (SDL_RWread_full (rw_data (src m)) (cursor m) t) as [Hr Hg];
    try lia.
  set (got := firstn (Z.to_nat t) (skipn (Z.to_nat (cursor m)) (rw_data (src m))))
    in *.
  assert (source_bytes m (cursor m) (cursor m + t) = got) as Hsb
    by (unfold source_bytes; subst got; f_equal; f_equal; lia).
  rewrite Hsb. clear Hsb.
  set (buf1 := mem_bytes (xlaw_pass decode_sample (read_into (buffer m) got) t)).
  set (m1 := set_buffer (set_src m (mkRW (rw_data (src m)) (cursor m + t))) buf1).
  assert (length buf1 = length (buffer m)) as Hlen1.
  { subst buf1.
    destruct (xlaw_pass_bytes decode_sample (read_into (buffer m) got) t)
      as [Hl1 _]; [lia | | ].
    - unfold read_into. rewrite length_app, length_skipn. lia.
    - cbv zeta in Hl1. rewrite Hl1. unfold read_into.
      rewrite length_app, length_skipn. lia. }
  assert (firstn (Z.to_nat (2 * t)) buf1 = expand decode_sample got) as Hfront.
  { subst buf1. assert (t = Z.of_nat (length got)) as Ht' by lia.
    rewrite Ht'.
    replace (Z.to_nat (2 * Z.of_nat (length got))) with (2 * length got)%nat
      by lia.
    apply firstn_xlaw_pass. lia. }
  assert (c = region_boundary (if 0 <? 2 * t
                               then set_stream m1 (expand decode_sample got)
                               else m1)
                false (negb (0 <? 2 * t))) as Hc.
  { subst c. unfold WAV_GetSome. rewrite Hq.
    unfold SDL_AudioStreamGet. cbn [length firstn skipn].
    rewrite Z.min_r by lia. cbn [Z.to_nat firstn skipn length Z.of_nat].
    change (negb (0 =? 0)) with false. cbv iota.
    destruct (play_count m =? 0) eqn:E0; [apply Z.eqb_eq in E0; lia | ].
    rewrite Hl. cbn [find_loop fetch_ceiling].
    change (SDL_RWtell (src m)) with (cursor m). rewrite Hamt.
    rewrite (call_decode_law decode_sample) by exact Hdec.
    unfold fetch_xlaw. fold t.
    replace (src m) with (mkRW (rw_data (src m)) (cursor m))
      by (unfold cursor, SDL_RWtell; destruct (src m); reflexivity).
    rewrite Hr, Hg. rewrite Z2Nat.id by lia. rewrite (Sint32_small t) by lia.
    rewrite Hss. unfold whole_frames. rewrite Z.rem_1_r.
    change (1 =? 0) with false. change (1 =? -1) with false.
    rewrite andb_false_r. cbn [orb].
    change (0 =? 0) with true. cbv iota.
    fold buf1. cbn [rw_data]. fold m1.
    rewrite (Sint32_small (t * 2)) by lia.
    replace (t * 2) with (2 * t) by lia.
    destruct (0 <? 2 * t) eqn:EA.
    - cbn [SDL_AudioStreamPut].
      change (buffer m1) with buf1. change (stream m1) with (stream m).
      rewrite Hfront, Hq. cbn [app]. change (0 <? 0) with false. reflexivity.
    - change (0 <? 0) with false. reflexivity. }
  rewrite Hc. clear Hc c.
  assert (0 <= start m) as Hs0 by lia.
  unfold region_boundary. cbn [negb andb].
  destruct (2 <=? stop m - cursor m) eqn:E2.
  - apply Z.leb_le in E2.
    assert (1 <= t <= stop m - cursor m - 1) as Ht.
    { subst t. split.
      - apply Z.quot_le_lower_bound; lia.
      - assert (Z.quot a 2 <= Z.quot (stop m - cursor m) 2)
          by (apply Z.quot_le_mono; lia).
        pose proof (Z.mul_quot_le (stop m - cursor m) 2). lia. }
    replace (0 <? 2 * t) with true by (symmetry; apply Z.ltb_lt; lia).
    change (SDL_RWtell (src (set_stream m1 (expand decode_sample got))))
      with (cursor m + t).
    change (stop (set_stream m1 (expand decode_sample got))) with (stop m).
    cbn [negb orb].
    replace (stop m <=? cursor m + t) with false
      by (symmetry; apply Z.leb_gt; lia).
    cbn [after produced done set_stream stream buffer]. 
    repeat split; auto; lia.
  - apply Z.leb_gt in E2.
    assert (t = 0) as Hz.
    { subst t. apply Z.quot_small. lia. }
    replace (0 <? 2 * t) with false by (symmetry; apply Z.ltb_ge; lia).
    cbn [negb orb].
    change (play_count m1) with (play_count m).
    destruct (play_count m =? 1) eqn:E1.
    + cbn [after produced done set_stream set_play_count stream buffer
           SDL_AudioStreamFlush play_count].
      change (stream m1) with (stream m). change (buffer m1) with buf1.
      rewrite Hq. repeat split; auto.
      change (cursor m + t = cursor m). lia.
    + rewrite WAV_Play_ok by exact Hs0.
      change (0 <? 0) with false. cbv iota.
      replace (0 <? play_count m) with true by (symmetry; apply Z.ltb_lt; lia).
      cbn [after produced done set_src set_play_count set_loops stream buffer
           play_count].
      change (stream m1) with (stream m). change (buffer m1) with buf1.
      rewrite Hq. repeat split; auto.
Qed.

Lemma law_session_after decode_sample m m' :
  law_session decode_sample m ->
  description m' = description m ->
  length (buffer m') = length (buffer m) ->
  start m <= cursor m' <= stop m ->
  0 <= play_count m' ->
  law_session decode_sample m'.
Proof.
  intros (Hdec & Hss & Hl & Hsz & Hbuf & Hst & Hdata & _ & _) Hd Hb Hc Hp.
  unfold description in Hd.
  injection Hd as Hspec Hstart Hstop Hsize _ _ Hdecode Hrw Hloops.
  rewrite Hl in Hloops. cbn [map] in Hloops.
  unfold law_session, decodes_with.
  rewrite Hspec, Hstart, Hstop, Hsize, Hdecode, Hrw, Hb.
  repeat split; try tauto; try lia.
  destruct (loops m'); [reflexivity | discriminate].
Qed.

Lemma law_owed_after decode_sample m m' :
  description m' = description m ->
  law_owed decode_sample m'
  = stream m'
    ++ (if play_count m' =? 0 then []
        else expand decode_sample (source_bytes m (cursor m') (stop m - 1))
             ++ concat (repeat
                          (expand decode_sample
                             (source_bytes m (start m) (stop m - 1)))
                          (Z.to_nat (play_count m' - 1)))).
Proof.
  intros Hd. unfold description in Hd.
  injection Hd as _ Hstart Hstop _ _ _ _ Hrw _.
  unfold law_owed, source_bytes.
  rewrite Hstart, Hstop, Hrw. reflexivity.
Qed.

Lemma source_bytes_none m lo hi : hi <= lo -> source_bytes m lo hi = [].
Proof.
  intros H. unfold source_bytes.
  replace (Z.to_nat (hi - lo)) with 0%nat by lia. reflexivity.
Qed.

Lemma law_calls_left_nonneg decode_sample m :
  law_session decode_sample m -> 0 <= law_calls_left m.
Proof.
  intros (_ & _ & _ & _ & _ & Hst & _ & Hcur & Hpc). unfold law_calls_left.
  destruct (play_count m =? 0) eqn:E; [lia | ].
  apply Z.eqb_neq in E. nia.
Qed.

(** One call of such a session. *)
Lemma law_session_step decode_sample m bytes :
  law_session decode_sample m -> 0 < bytes ->
  let c := WAV_GetSome m bytes in
  (done c = true /\ law_owed decode_sample m = []) \/
  (done c = false /\ law_session decode_sample (after c) /\
   produced c ++ law_owed decode_sample (after c) = law_owed decode_sample m /\
   law_calls_left (after c) < law_calls_left m).
Proof.
  intros Hp Hb c.
  pose proof (description_WAV_GetSome m bytes) as Hd. fold c in Hd.
  destruct (stream m) as [ | x q] eqn:Hq.
  2: { right.
       destruct (WAV_GetSome_drain m bytes) as (k & Hk & Hres);
         [rewrite Hq; discriminate | exact Hb | ].
       fold c in Hres. rewrite Hres. cbn [done produced after].
       split; [reflexivity | ].
       split.
       { apply (law_session_after decode_sample m).
         - exact Hp.
         - rewrite Hres in Hd. exact Hd.
         - reflexivity.
         - change (cursor (set_stream m (skipn k (stream m)))) with (cursor m).
           destruct Hp as (_ & _ & _ & _ & _ & _ & _ & Hc & _). exact Hc.
         - destruct Hp as (_ & _ & _ & _ & _ & _ & _ & _ & Hc). exact Hc. }
       unfold law_owed, law_calls_left.
       cbn [set_stream stream play_count stop start].
       change (cursor (set_stream m _)) with (cursor m).
       change (source_bytes (set_stream m ?q) ?a ?b) with (source_bytes m a b).
       rewrite Hq in *. rewrite app_assoc, firstn_skipn.
       split; [reflexivity | ]. rewrite length_skipn. lia. }
  destruct (Z.eq_dec (play_count m) 0) as [Hz | Hnz].
  { left. subst c. rewrite WAV_GetSome_finished by assumption.
    split; [reflexivity | ]. unfold law_owed. rewrite Hq, Hz. reflexivity. }
  right.
  destruct (law_session_fetch decode_sample m bytes Hp Hq Hnz)
    as (Hprod & Hdone & Hbuf & Hcase).
  fold c in Hprod, Hdone, Hbuf, Hcase.
  pose proof Hp as (Hdec & Hss & Hl & Hsz & Hroom & Hst & Hdata & Hcur & Hpc).
  set (t := Z.quot (Z.min (spec_size (spec m)) (stop m - cursor m)) 2) in *.
  split; [exact Hdone | ].
  rewrite Hprod. cbn [app]. rewrite (law_owed_after decode_sample m (after c) Hd).
  unfold law_calls_left.
  assert (stop (after c) = stop m /\ start (after c) = start m) as [Hsto Hsta].
  { unfold description in Hd. injection Hd. auto. }
  rewrite Hsto, Hsta.
  unfold law_owed at 1. rewrite Hq. cbn [app length Z.of_nat].
  destruct (play_count m =? 0) eqn:E0; [apply Z.eqb_eq in E0; contradiction | ].
  destruct (2 <=? stop m - cursor m) eqn:E.
  - apply Z.leb_le in E. destruct Hcase as (Hs' & Hc' & Hp' & Ht).
    rewrite Hs', Hc', Hp', E0.
    split; [apply (law_session_after decode_sample m);
             [exact Hp | exact Hd | exact Hbuf | rewrite Hc'; lia
             | rewrite Hp'; lia] | ].
    split.
    + rewrite app_assoc, <- expand_app, source_bytes_split by lia.
      reflexivity.
    + rewrite length_expand, Nat2Z.inj_mul, source_bytes_length by lia.
      change (Z.of_nat 2) with 2. lia.
  - apply Z.leb_gt in E. destruct Hcase as (Hs' & Hcase).
    rewrite Hs'. cbn [app length Z.of_nat].
    rewrite (source_bytes_none m (cursor m) (stop m - 1)) by lia.
    cbn [expand flat_map app].
    destruct (play_count m =? 1) eqn:E1.
    + apply Z.eqb_eq in E1. destruct Hcase as [Hp' Hc'].
      rewrite Hp', Hc'. change (0 =? 0) with true. cbv iota.
      split; [apply (law_session_after decode_sample m);
             [exact Hp | exact Hd | exact Hbuf | rewrite Hc'; lia
             | rewrite Hp'; lia] | ].
      rewrite E1. cbn [Z.sub Z.to_nat repeat concat].
      split; [reflexivity | lia].
    + apply Z.eqb_neq in E1. destruct Hcase as [Hp' Hc'].
      rewrite Hp', Hc'.
      replace (play_count m - 1 =? 0) with false
        by (symmetry; apply Z.eqb_neq; lia).
      split; [apply (law_session_after decode_sample m);
             [exact Hp | exact Hd | exact Hbuf | rewrite Hc'; lia
             | rewrite Hp'; lia] | ].
      replace (Z.to_nat (play_count m - 1))
        with (S (Z.to_nat (play_count m - 1 - 1))) by lia.
      cbn [repeat concat].
      split; [reflexivity | nia].
Qed.

Lemma law_session_plays decode_sample : forall (bound : nat) m budget,
  law_session decode_sample m -> (forall k, 0 < budget k) ->
  law_calls_left m <= Z.of_nat bound ->
  exists n,
    played budget n m = law_owed decode_sample m /\
    done (WAV_GetSome (calls budget n m) (budget n)) = true /\
    forall j, (j < n)%nat ->
      done (WAV_GetSome (calls budget j m) (budget j)) = false.
Proof.
  induction bound as [ | bound IH]; intros m budget Hp Hb Hm;
    destruct (law_session_step decode_sample m (budget 0%nat) Hp (Hb 0%nat))
      as [[Hdone Hrem] | (Hdone & Hp' & Hown & Hless)].
  - exists 0%nat. cbn [played calls]. rewrite Hrem. split; [reflexivity | ].
    split; [exact Hdone | lia].
  - pose proof (law_calls_left_nonneg _ _ Hp'). lia.
  - exists 0%nat. cbn [played calls]. rewrite Hrem. split; [reflexivity | ].
    split; [exact Hdone | lia].
  - destruct (IH _ (fun k => budget (S k)) Hp' (fun k => Hb (S k)) ltac:(lia))
      as (n & Hplayed & Hend & Hbefore).
    exists (S n). rewrite played_front, Hplayed, Hown.
    split; [reflexivity | ].
    rewrite calls_front. split; [exact Hend | ].
    intros [ | j] Hj; [exact Hdone | ].
    rewrite calls_front. apply Hbefore. lia.
Qed.

(** X24.  A law-expansion session over one channel plays every byte of
    the region but the last.  A fetch asks the strategy for as many
    output bytes as are left of the region in source bytes, and the
    strategy reads half as many source bytes; so the cursor only halves
    its distance to the region stop, and the fetch that finds one byte
    left reads nothing, which ends the pass.  For an instance with the
    mu-law or A-law strategy, frame size 1, no loop point, an empty
    queue, a scratch buffer of [spec.size >= 2] bytes and a region
    inside the source: after Play with a count [k >= 0], whatever
    positive budgets the caller uses, some call signals the end of the
    stream, no earlier call does, and the bytes handed out before it are
    the 16-bit samples of the region's bytes without the last one, [k]
    times over. *)
Theorem law_session_drops_last_byte :
  forall decode_sample music k budget,
    decodes_with decode_sample music ->
    samplesize music = 1 ->
    loops music = [] ->
    stream music = [] ->
    2 <= spec_size (spec music) < 2 ^ 31 ->
    spec_size (spec music) <= Z.of_nat (length (buffer music)) ->
    0 <= start music <= stop music ->
    stop music <= Z.of_nat (length (rw_data (src music))) ->
    0 <= k ->
    (forall i, 0 < budget i) ->
    let session := snd (WAV_Play music k) in
    exists n,
      played budget n session
      = concat (repeat (expand decode_sample (removelast (region_bytes music)))
                  (Z.to_nat k)) /\
      done (WAV_GetSome (calls budget n session) (budget n)) = true /\
      forall j, (j < n)%nat ->
        done (WAV_GetSome (calls budget j session) (budget j)) = false.
Proof.
  intros f music k budget Hdec Hss Hl Hq Hsz Hbuf Hst Hdata Hk Hb session.
  assert (session
          = set_src (set_play_count (set_loops music (map rearm (loops music))) k)
              (mkRW (rw_data (src music)) (start music))) as Hs
    by (subst session; rewrite WAV_Play_ok by lia; reflexivity).
  assert (law_session f session) as Hp.
  { rewrite Hs, Hl. unfold law_session, decodes_with, cursor.
    cbn [set_src set_play_count set_loops decode loops spec start stop src
         rw_data play_count SDL_RWtell rw_pos map samplesize buffer].
    repeat split; auto; lia. }
  assert (removelast (region_bytes music)
          = source_bytes music (start music) (stop music - 1)) as Hlast.
  { unfold region_bytes, source_bytes.
    destruct (Z.eq_dec (stop music) (start music)) as [E | E].
    - rewrite E, Z.sub_diag.
      replace (Z.to_nat (start music - 1 - start music)) with 0%nat by lia.
      reflexivity.
    - replace (Z.to_nat (stop music - start music))
        with (S (Z.to_nat (stop music - 1 - start music))) by lia.
      apply removelast_firstn. rewrite length_skipn. lia. }
  assert (law_owed f session
          = concat (repeat (expand f (removelast (region_bytes music)))
                      (Z.to_nat k))) as Howed.
  { rewrite Hlast, Hs. unfold law_owed, source_bytes, cursor.
    cbn [set_src set_play_count set_loops stream play_count src rw_data
         SDL_RWtell rw_pos start stop].
    rewrite Hq. cbn [app].
    destruct (k =? 0) eqn:E.
    - apply Z.eqb_eq in E. subst k. reflexivity.
    - apply Z.eqb_neq in E.
      replace (Z.to_nat k) with (S (Z.to_nat (k - 1))) by lia.
      reflexivity. }
  rewrite <- Howed.
  apply (law_session_plays f (Z.to_nat (law_calls_left session))); auto.
  pose proof (law_calls_left_nonneg _ _ Hp). lia.
Qed.

Lemma law_session_drops_last_byte_witness :
  let music := set_loops demo_ulaw_music [] in
  (length (region_bytes music) = 64%nat) /\
  exists n,
    played (fun _ => 100) n (snd (WAV_Play music 1))
    = expand uLAW_To_PCM16 (removelast (region_bytes music)) ++ [].
Proof.
  cbv zeta. split; [reflexivity | ].
  destruct (law_session_drops_last_byte uLAW_To_PCM16
              (set_loops demo_ulaw_music []) 1 (fun _ => 100))
    as (n & Hn & _).
  - left. split; reflexivity.
  - reflexivity.
  - reflexivity.
  - reflexivity.
  - vm_compute. split; [discriminate | reflexivity].
  - vm_compute. discriminate.
  - vm_compute. split; discriminate.
  - vm_compute. discriminate.
  - lia.
  - intros i. lia.
  - exists n. exact Hn.
Defined.

(** ** Playback: a direct-copy session with one loop point *)

Lemma loop_start_from music loop : start music <= loop_start music loop.
Proof.
  unfold loop_start, Uint32.
  pose proof (Z.mod_pos_bound (lp_start loop * (bytes_per_sample music mod 2 ^ 32))
                (2 ^ 32) ltac:(lia)).
  lia.
Qed.

Lemma loop_eta loop :
  loop_with loop (lp_active loop) (lp_current_play_count loop) = loop.
Proof. destruct loop; reflexivity. Qed.

(** The region boundary, case by case. *)
Lemma region_boundary_cases m looped at_end :
  0 <= start m ->
  let c := region_boundary m looped at_end in
  produced c = [] /\ done c = false /\ stream (after c) = stream m /\
  if negb looped && (at_end || (stop m <=? cursor m))
  then if play_count m =? 1
       then play_count (after c) = 0 /\ cursor (after c) = cursor m /\
            loops (after c) = loops m
       else play_count (after c)
            = (if 0 <? play_count m then play_count m - 1 else -1) /\
            cursor (after c) = start m /\
            loops (after c) = map rearm (loops m)
  else after c = m.
Proof.
  intros Hs. unfold region_boundary.
  change (SDL_RWtell (src m)) with (cursor m).
  destruct (negb looped && (at_end || (stop m <=? cursor m))).
  - destruct (play_count m =? 1).
    + cbn. repeat split; reflexivity.
    + rewrite WAV_Play_ok by exact Hs.
      change (0 <? 0) with false. cbn. repeat split; reflexivity.
  - cbn. repeat split; reflexivity.
Qed.

(** The loop boundary when the call began inside the window of the only
    loop point. *)
Lemma loop_boundary_only m loop hi :
  loops m = [loop] -> 0 <= loop_start m loop ->
  loop_boundary m (Some (0%nat, loop)) hi
  = if hi <=? cursor m
    then if lp_current_play_count loop =? 1
         then (false, set_loops m [deactivate loop])
         else (true, set_src (set_loops m [count_down loop])
                       (mkRW (rw_data (src m)) (loop_start m loop)))
    else (false, m).
Proof.
  intros Hl Hlo. unfold loop_boundary.
  change (SDL_RWtell (src m)) with (cursor m).
  destruct (hi <=? cursor m); [ | reflexivity].
  destruct (lp_current_play_count loop =? 1); rewrite Hl; cbn [upd_nth];
    [reflexivity | ].
  change (loop_start (set_loops m [count_down loop]) loop)
    with (loop_start m loop).
  unfold SDL_RWseek.
  replace (loop_start m loop <? 0) with false by (symmetry; apply Z.ltb_ge; lia).
  reflexivity.
Qed.

Lemma find_loop_only m pos loop :
  find_loop m pos 0 [loop]
  = if lp_active loop && (loop_start m loop <=? pos) && (pos <? loop_stop m loop)
    then Some (0%nat, loop) else None.
Proof. reflexivity. Qed.

(** A call of a one-loop session that finds the queue empty and the
    repeat count not 0: it fetches [a > 0] bytes at the cursor and then
    goes on, jumps back to the window start, leaves the window for
    good, or ends the pass. *)
Lemma loop_session_fetch m bytes loop :
  loop_session m -> loops m = [loop] -> stream m = [] -> play_count m <> 0 ->
  let lo := loop_start m loop in
  let hi := loop_stop m loop in
  let cnt := lp_current_play_count loop in
  let c := WAV_GetSome m bytes in
  exists a,
    0 < a /\ cursor m + a <= stop m /\
    produced c = [] /\ done c = false /\
    stream (after c) = source_bytes m (cursor m) (cursor m + a) /\
    ((cursor m + a < (if lp_active loop then hi else stop m) /\
      cursor (after c) = cursor m + a /\
      play_count (after c) = play_count m /\
      loops (after c) = [loop_with loop (lp_active loop) cnt])
     \/ (lp_active loop = true /\ cursor m + a = hi /\ 2 <= cnt /\
         cursor (after c) = lo /\
         play_count (after c) = play_count m /\
         loops (after c) = [loop_with loop true (cnt - 1)])
     \/ (lp_active loop = true /\ cursor m + a = hi /\ cnt = 1 /\ hi < stop m /\
         cursor (after c) = hi /\
         play_count (after c) = play_count m /\
         loops (after c) = [loop_with loop false 1])
     \/ (cursor m + a = stop m /\
         (lp_active loop = true -> cnt = 1 /\ hi = stop m) /\
         if play_count m =? 1
         then play_count (after c) = 0 /\ cursor (after c) = stop m /\
              loops (after c) = [loop_with loop false cnt]
         else play_count (after c) = play_count m - 1 /\
              cursor (after c) = start m /\
              loops (after c)
              = [loop_with loop true (lp_initial_play_count loop)])).
Proof.
  intros (Hdec & Hsz & Hs0 & Hdata & Hpc & loop' & Hl' & Hwin & Hhi & Hk & Hph)
         Hl Hq Hne lo hi cnt c.
  rewrite Hl in Hl'. injection Hl' as <-.
  fold lo hi cnt in Hwin, Hhi, Hph.
  pose proof (loop_start_from m loop) as Hlo. fold lo in Hlo.
  assert (0 <= cursor m) as Hc0 by (destruct (lp_active loop); lia).
  pose proof (WAV_GetSome_fetch_pcm m bytes) as F.
  cbv zeta in F. rewrite Hl, find_loop_only in F.
  change (SDL_RWtell (src m)) with (cursor m) in F.
  fold lo hi in F. fold c in F.
  (* what the boundaries do after a fetch of [a] bytes *)
  assert (forall a found,
            0 < a <= spec_size (spec m) -> cursor m + a <= stop m ->
            fetch_amount m (fetch_ceiling m found) (cursor m) = a ->
            (if lp_active loop && (lo <=? cursor m) && (cursor m <? hi)
             then Some (0%nat, loop) else None) = found ->
            exists f,
              stream f = source_bytes m (cursor m) (cursor m + a) /\
              cursor f = cursor m + a /\ play_count f = play_count m /\
              loops f = [loop] /\ start f = start m /\ stop f = stop m /\
              loop_start f loop = lo /\
              c = (let '(looped, music') :=
                     loop_boundary f found (fetch_ceiling m found) in
                   region_boundary music' looped false)) as Fetch.
  { intros a found Ha Hend Hamt Hfound. rewrite Hfound in F.
    destruct (F a Hq Hne Hdec Hamt) as [Hg Hc]; try lia.
    - eexists. split; [ | split; [ | split; [ | split; [ | split; [ | split;
        [ | split; [ | exact Hc]]]]]]].
      + cbn [set_stream stream]. unfold source_bytes. f_equal. lia.
      + reflexivity.
      + reflexivity.
      + exact Hl.
      + reflexivity.
      + reflexivity.
      + reflexivity. }
  clear F.
  assert (loop_with loop (lp_active loop) cnt = loop) as Heta by apply loop_eta.
  destruct (lp_active loop) eqn:Hact.
  - destruct Hph as [Hcur Hcnt]. cbn [andb] in Fetch.
    destruct (lo <=? cursor m) eqn:Ein.
    + (* inside the window *)
      apply Z.leb_le in Ein.
      replace (cursor m <? hi) with true in Fetch
        by (symmetry; apply Z.ltb_lt; lia).
      cbn [andb] in Fetch.
      set (a := Z.min (spec_size (spec m)) (hi - cursor m)).
      destruct (Fetch a (Some (0%nat, loop))) as
          (f & Hfs & Hfc & Hfp & Hfl & Hfst & Hfsp & Hflo & Hc);
        [lia | lia | | reflexivity | ].
      { cbn [fetch_ceiling]. fold hi. unfold fetch_amount.
        rewrite Sint32_small by lia.
        destruct (hi - cursor m <? spec_size (spec m)) eqn:E.
        - apply Z.ltb_lt in E. rewrite Sint32_small by lia. lia.
        - apply Z.ltb_ge in E. lia. }
      exists a. split; [lia | ]. split; [lia | ].
      cbn [fetch_ceiling] in Hc. fold hi in Hc.
      rewrite (loop_boundary_only f loop hi Hfl) in Hc by lia.
      rewrite Hfc, Hflo in Hc. fold cnt in Hc.
      destruct (hi <=? cursor m + a) eqn:Eend.
      * apply Z.leb_le in Eend.
        destruct (cnt =? 1) eqn:E1.
        -- (* the window is left for good *)
           apply Z.eqb_eq in E1.
           set (f' := set_loops f [deactivate loop]) in Hc.
           destruct (region_boundary_cases f' false false) as (Hp & Hd & Hs & Hr);
             [exact (eq_ind_r (fun z => 0 <= z) Hs0 Hfst) | ].
           rewrite <- Hc in Hp, Hd, Hs, Hr.
           split; [exact Hp | ]. split; [exact Hd | ].
           split; [rewrite Hs; exact Hfs | ].
           change (cursor f') with (cursor f) in Hr.
           change (stop f') with (stop f) in Hr.
           change (play_count f') with (play_count f) in Hr.
           change (start f') with (start f) in Hr.
           change (loops f') with [deactivate loop] in Hr.
           rewrite Hfc, Hfsp, Hfp, Hfst in Hr. cbn [negb orb andb map] in Hr.
           destruct (stop m <=? cursor m + a) eqn:Es.
           ++ apply Z.leb_le in Es.
              right. right. right.
              split; [lia | ]. split; [intros _; lia | ].
              destruct (play_count m =? 1) eqn:Ep.
              ** destruct Hr as (H1 & H2 & H3).
                 split; [exact H1 | ]. split; [lia | exact H3].
              ** apply Z.eqb_neq in Ep.
                 replace (0 <? play_count m) with true in Hr
                   by (symmetry; apply Z.ltb_lt; lia).
                 exact Hr.
           ++ apply Z.leb_gt in Es. rewrite Hr.
              right. right. left.
              change (cursor f') with (cursor f).
              change (play_count f') with (play_count f).
              change (loops f') with [deactivate loop].
              rewrite Hfc, Hfp.
              repeat split; try lia; try reflexivity.
              unfold deactivate, loop_with. fold cnt. rewrite E1. reflexivity.
        -- (* back to the window start *)
           apply Z.eqb_neq in E1.
           set (f' := set_src (set_loops f [count_down loop])
                        (mkRW (rw_data (src f)) lo)) in Hc.
           destruct (region_boundary_cases f' true false) as (Hp & Hd & Hs & Hr);
             [exact (eq_ind_r (fun z => 0 <= z) Hs0 Hfst) | ].
           rewrite <- Hc in Hp, Hd, Hs, Hr.
           split; [exact Hp | ]. split; [exact Hd | ].
           split; [rewrite Hs; exact Hfs | ].
           cbn [negb andb] in Hr. rewrite Hr.
           right. left.
           change (cursor f') with lo.
           change (play_count f') with (play_count f).
           change (loops f') with [count_down loop].
           rewrite Hfp.
           repeat split; try lia; try reflexivity.
           unfold count_down, loop_with. fold cnt. rewrite Hact.
           replace (0 <? cnt) with true by (symmetry; apply Z.ltb_lt; lia).
           unfold Uint32. rewrite Z.mod_small by lia. reflexivity.
      * (* still inside the window *)
        apply Z.leb_gt in Eend.
        destruct (region_boundary_cases f false false) as (Hp & Hd & Hs & Hr);
          [exact (eq_ind_r (fun z => 0 <= z) Hs0 Hfst) | ].
        rewrite <- Hc in Hp, Hd, Hs, Hr.
        split; [exact Hp | ]. split; [exact Hd | ].
        split; [rewrite Hs; exact Hfs | ].
        rewrite Hfc, Hfsp in Hr. cbn [negb orb andb] in Hr.
        replace (stop m <=? cursor m + a) with false in Hr
          by (symmetry; apply Z.leb_gt; lia).
        rewrite Hr. left. rewrite Hfc, Hfp, Hfl.
        rewrite Heta.
        repeat split; try lia; reflexivity.
    + (* before the window *)
      apply Z.leb_gt in Ein. cbn [andb] in Fetch.
      set (a := spec_size (spec m)).
      destruct (Fetch a None) as
          (f & Hfs & Hfc & Hfp & Hfl & Hfst & Hfsp & Hflo & Hc);
        [lia | lia | | reflexivity | ].
      { cbn [fetch_ceiling]. unfold fetch_amount.
        rewrite Sint32_small by lia.
        destruct (stop m - cursor m <? spec_size (spec m)) eqn:E.
        - apply Z.ltb_lt in E. lia.
        - reflexivity. }
      exists a. split; [lia | ]. split; [lia | ].
      cbn [loop_boundary fetch_ceiling] in Hc.
      destruct (region_boundary_cases f false false) as (Hp & Hd & Hs & Hr);
        [exact (eq_ind_r (fun z => 0 <= z) Hs0 Hfst) | ].
      rewrite <- Hc in Hp, Hd, Hs, Hr.
      split; [exact Hp | ]. split; [exact Hd | ].
      split; [rewrite Hs; exact Hfs | ].
      rewrite Hfc, Hfsp in Hr. cbn [negb orb andb] in Hr.
      replace (stop m <=? cursor m + a) with false in Hr
        by (symmetry; apply Z.leb_gt; lia).
      rewrite Hr. left. rewrite Hfc, Hfp, Hfl.
      rewrite Heta.
      repeat split; try lia; reflexivity.
  - (* behind the window *)
    destruct Hph as [Hcur Hlt]. specialize (Hlt Hne). cbn [andb] in Fetch.
    set (a := Z.min (spec_size (spec m)) (stop m - cursor m)).
    destruct (Fetch a None) as
        (f & Hfs & Hfc & Hfp & Hfl & Hfst & Hfsp & Hflo & Hc);
      [lia | lia | | reflexivity | ].
    { cbn [fetch_ceiling]. unfold fetch_amount.
      rewrite Sint32_small by lia.
      destruct (stop m - cursor m <? spec_size (spec m)) eqn:E.
      - apply Z.ltb_lt in E. rewrite Sint32_small by lia. lia.
      - apply Z.ltb_ge in E. lia. }
    exists a. split; [lia | ]. split; [lia | ].
    cbn [loop_boundary fetch_ceiling] in Hc.
    destruct (region_boundary_cases f false false) as (Hp & Hd & Hs & Hr);
      [exact (eq_ind_r (fun z => 0 <= z) Hs0 Hfst) | ].
    rewrite <- Hc in Hp, Hd, Hs, Hr.
    split; [exact Hp | ]. split; [exact Hd | ].
    split; [rewrite Hs; exact Hfs | ].
    rewrite Hfc, Hfsp, Hfp, Hfl, Hfst in Hr. cbn [negb orb andb map] in Hr.
    destruct (stop m <=? cursor m + a) eqn:Es.
    + apply Z.leb_le in Es.
      right. right. right.
      split; [lia | ]. split; [intros H; discriminate H | ].
      destruct (play_count m =? 1) eqn:Ep.
      * destruct Hr as (H1 & H2 & H3).
        split; [exact H1 | ]. split; [lia | ].
        rewrite H3, Heta. reflexivity.
      * apply Z.eqb_neq in Ep.
        replace (0 <? play_count m) with true in Hr
          by (symmetry; apply Z.ltb_lt; lia).
        exact Hr.
    + apply Z.leb_gt in Es. rewrite Hr. left. rewrite Hfc, Hfp, Hfl.
      rewrite Heta.
      repeat split; try lia; reflexivity.
Qed.

Lemma window_after m m' loop act cnt :
  description m' = description m ->
  loop_start m' (loop_with loop act cnt) = loop_start m loop /\
  loop_stop m' (loop_with loop act cnt) = loop_stop m loop.
Proof.
  intros Hd. unfold description in Hd.
  injection Hd as Hspec Hstart _ _ _ _ _ _ _.
  unfold loop_start, loop_stop, bytes_per_sample.
  rewrite Hspec, Hstart. split; reflexivity.
Qed.

Lemma loop_rest_after m m' loop act cnt :
  description m' = description m ->
  loops m' = [loop_with loop act cnt] ->
  let lo := loop_start m loop in
  let hi := loop_stop m loop in
  loop_rest m'
  = if play_count m' =? 0 then []
    else (if act then pass_from m lo hi cnt (cursor m')
          else source_bytes m (cursor m') (stop m))
         ++ concat (repeat (pass_from m lo hi (lp_initial_play_count loop)
                              (start m))
                      (Z.to_nat (play_count m' - 1))).
Proof.
  intros Hd Hl lo hi.
  destruct (window_after m m' loop act cnt Hd) as [Hlo Hhi].
  unfold description in Hd. injection Hd as _ Hstart Hstop _ _ _ _ Hrw _.
  unfold loop_rest. rewrite Hl. cbv zeta. rewrite Hlo, Hhi.
  cbn [loop_with lp_active lp_current_play_count lp_initial_play_count].
  unfold pass_from, source_bytes. rewrite Hstart, Hstop, Hrw. reflexivity.
Qed.

Lemma loop_session_after m m' loop act cnt :
  loop_session m -> loops m = [loop] ->
  description m' = description m ->
  loops m' = [loop_with loop act cnt] ->
  0 <= play_count m' ->
  (if act
   then start m <= cursor m' < loop_stop m loop /\ 1 <= cnt < 2 ^ 32
   else loop_stop m loop <= cursor m' <= stop m /\
        (play_count m' <> 0 -> cursor m' < stop m)) ->
  loop_session m'.
Proof.
  intros (Hdec & Hsz & Hs0 & Hdata & Hpc & loop' & Hl' & Hwin & Hhi & Hk & Hph)
         Hl Hd Hl2 Hpc2 Hph2.
  rewrite Hl in Hl'. injection Hl' as <-.
  destruct (window_after m m' loop act cnt Hd) as [Hlo' Hhi'].
  unfold description in Hd.
  injection Hd as Hspec Hstart Hstop _ _ _ Hdecode Hrw _.
  unfold loop_session. rewrite Hspec, Hstart, Hstop, Hdecode, Hrw.
  split; [exact Hdec | ]. split; [exact Hsz | ]. split; [exact Hs0 | ].
  split; [exact Hdata | ]. split; [exact Hpc2 | ].
  exists (loop_with loop act cnt). rewrite Hlo', Hhi'.
  split; [exact Hl2 | ]. split; [exact Hwin | ]. split; [exact Hhi | ].
  split; [exact Hk | ].
  cbn [loop_with lp_active lp_current_play_count]. exact Hph2.
Qed.

Lemma concat_repeat_S {A : Type} (l : list A) n :
  (0 < n)%nat ->
  concat (repeat l n) = l ++ concat (repeat l (n - 1)).
Proof.
  intros Hn. destruct n as [ | n]; [lia | ].
  replace (S n - 1)%nat with n by lia. reflexivity.
Qed.

(** One call of a one-loop session: either it signals the end and
    nothing is owed, or it hands out a front part of what is owed and
    comes nearer to the end. *)
Lemma loop_session_step m bytes :
  loop_session m -> 0 < bytes ->
  let c := WAV_GetSome m bytes in
  (done c = true /\ loop_owed m = []) \/
  (done c = false /\ loop_session (after c) /\
   produced c ++ loop_owed (after c) = loop_owed m /\
   loop_calls_left (after c) < loop_calls_left m).
Proof.
  intros Hp Hb c.
  pose proof (description_WAV_GetSome m bytes) as Hd. fold c in Hd.
  destruct (stream m) as [ | x q] eqn:Hq.
  2: { right.
       destruct (WAV_GetSome_drain m bytes) as (k & Hk & Hres);
         [rewrite Hq; discriminate | exact Hb | ].
       fold c in Hres. rewrite Hres. cbn [done produced after].
       split; [reflexivity | ].
       split; [exact Hp | ].
       unfold loop_owed, loop_calls_left.
       change (loop_rest (set_stream m (skipn k (stream m)))) with (loop_rest m).
       cbn [set_stream stream play_count].
       rewrite Hq in *. rewrite app_assoc, firstn_skipn.
       split; [reflexivity | ]. rewrite length_skipn. lia. }
  destruct (Z.eq_dec (play_count m) 0) as [Hz | Hnz].
  { left. subst c. rewrite WAV_GetSome_finished by assumption.
    split; [reflexivity | ].
    unfold loop_owed, loop_rest. rewrite Hq, Hz. reflexivity. }
  right.
  pose proof Hp as
    (Hdec & Hsz & Hs0 & Hdata & Hpc & loop & Hl & Hwin & Hhi & Hk & Hph).
  destruct (loop_session_fetch m bytes loop Hp Hl Hq Hnz)
    as (a & Ha & Hend & Hprod & Hdone & Hstream & Hcase).
  fold c in Hprod, Hdone, Hstream, Hcase.
  set (lo := loop_start m loop) in *.
  set (hi := loop_stop m loop) in *.
  set (cnt := lp_current_play_count loop) in *.
  pose proof (loop_start_from m loop) as Hlo. fold lo in Hlo.
  assert (0 <= cursor m) as Hc0 by (destruct (lp_active loop); lia).
  assert (Z.of_nat (length (stream (after c))) = a) as Hlen.
  { rewrite Hstream, source_bytes_length; lia. }
  split; [exact Hdone | ].
  assert (loop_rest m
          = (if lp_active loop then pass_from m lo hi cnt (cursor m)
             else source_bytes m (cursor m) (stop m))
            ++ concat (repeat (pass_from m lo hi (lp_initial_play_count loop)
                                 (start m))
                         (Z.to_nat (play_count m - 1)))) as Hrest.
  { unfold loop_rest. rewrite Hl.
    destruct (play_count m =? 0) eqn:E0; [apply Z.eqb_eq in E0; lia | ].
    reflexivity. }
  assert (loop_session (after c) ->
          loop_rest m = stream (after c) ++ loop_rest (after c) ->
          play_count (after c) <= play_count m ->
          loop_session (after c) /\
          produced c ++ loop_owed (after c) = loop_owed m /\
          loop_calls_left (after c) < loop_calls_left m) as Finish.
  { intros Hs' Hown Hle. split; [exact Hs' | ].
    unfold loop_owed, loop_calls_left. rewrite Hprod, Hq, Hlen.
    cbn [app length Z.of_nat].
    split; [symmetry; exact Hown | ].
    apply (f_equal (@length Z)) in Hown. rewrite length_app in Hown. lia. }
  destruct Hcase as [(Hlt & Hc' & Hp' & Hl2) |
                     [(Hact & Heq & Hcnt & Hc' & Hp' & Hl2) |
                      [(Hact & Heq & Hcnt & Hlt & Hc' & Hp' & Hl2) |
                       (Heq & Hlast & Hcase)]]].
  - (* the call stays where it is in the pass *)
    apply Finish; [ | | lia].
    + apply (loop_session_after m (after c) loop (lp_active loop) cnt);
        [exact Hp | exact Hl | exact Hd | exact Hl2 | lia | ].
      rewrite Hc', Hp'. destruct (lp_active loop); [lia | ].
      split; [lia | intros _; exact Hlt].
    + rewrite (loop_rest_after m (after c) loop (lp_active loop) cnt Hd Hl2).
      fold lo hi. rewrite Hc', Hp', Hrest, Hstream.
      destruct (play_count m =? 0) eqn:E0; [apply Z.eqb_eq in E0; lia | ].
      rewrite app_assoc. f_equal.
      destruct (lp_active loop).
      * unfold pass_from.
        rewrite <- (source_bytes_split m (cursor m) (cursor m + a) hi) by lia.
        rewrite <- app_assoc. reflexivity.
      * apply eq_sym, source_bytes_split; lia.
  - (* back to the window start *)
    apply Finish; [ | | lia].
    + apply (loop_session_after m (after c) loop true (cnt - 1));
        [exact Hp | exact Hl | exact Hd | exact Hl2 | lia | ].
      rewrite Hc'. rewrite Hact in Hph. lia.
    + rewrite (loop_rest_after m (after c) loop true (cnt - 1) Hd Hl2).
      fold lo hi. rewrite Hc', Hp', Hrest, Hstream, Hact, Heq.
      destruct (play_count m =? 0) eqn:E0; [apply Z.eqb_eq in E0; lia | ].
      rewrite app_assoc. f_equal.
      unfold pass_from. f_equal.
      rewrite (concat_repeat_S _ (Z.to_nat (cnt - 1))) by lia.
      replace (Z.to_nat (cnt - 1) - 1)%nat with (Z.to_nat (cnt - 1 - 1)) by lia.
      rewrite <- app_assoc. reflexivity.
  - (* the window is left for good *)
    apply Finish; [ | | lia].
    + apply (loop_session_after m (after c) loop false 1);
        [exact Hp | exact Hl | exact Hd | exact Hl2 | lia | ].
      rewrite Hc'. split; [lia | intros _; exact Hlt].
    + rewrite (loop_rest_after m (after c) loop false 1 Hd Hl2).
      fold lo hi. rewrite Hc', Hp', Hrest, Hstream, Hact, Heq, Hcnt.
      destruct (play_count m =? 0) eqn:E0; [apply Z.eqb_eq in E0; lia | ].
      rewrite app_assoc. f_equal.
  - (* the pass ends *)
    assert ((if lp_active loop then pass_from m lo hi cnt (cursor m)
             else source_bytes m (cursor m) (stop m))
            = stream (after c)) as Hhead.
    { rewrite Hstream, Heq. destruct (lp_active loop); [ | reflexivity].
      destruct (Hlast eq_refl) as [H1 H2]. unfold pass_from.
      rewrite H1, H2. cbn [Z.sub Z.to_nat repeat concat app Z.pos_sub].
      rewrite source_bytes_empty, app_nil_r. reflexivity. }
    rewrite Hhead in Hrest.
    destruct (play_count m =? 1) eqn:E1.
    + apply Z.eqb_eq in E1. destruct Hcase as (Hp' & Hc' & Hl2).
      apply Finish; [ | | lia].
      * apply (loop_session_after m (after c) loop false cnt);
          [exact Hp | exact Hl | exact Hd | exact Hl2 | lia | ].
        rewrite Hc'. split; [lia | intros H; contradiction H].
      * rewrite (loop_rest_after m (after c) loop false cnt Hd Hl2).
        rewrite Hp', Hrest, E1. cbn [Z.sub Z.to_nat repeat concat Z.eqb Z.pos_sub].
        reflexivity.
    + apply Z.eqb_neq in E1. destruct Hcase as (Hp' & Hc' & Hl2).
      apply Finish; [ | | lia].
      * apply (loop_session_after m (after c) loop true
                 (lp_initial_play_count loop));
          [exact Hp | exact Hl | exact Hd | exact Hl2 | lia | ].
        rewrite Hc'. lia.
      * rewrite (loop_rest_after m (after c) loop true
                   (lp_initial_play_count loop) Hd Hl2).
        fold lo hi. rewrite Hp', Hc', Hrest.
        replace (play_count m - 1 =? 0) with false
          by (symmetry; apply Z.eqb_neq; lia).
        f_equal.
        rewrite (concat_repeat_S _ (Z.to_nat (play_count m - 1))) by lia.
        replace (Z.to_nat (play_count m - 1) - 1)%nat
          with (Z.to_nat (play_count m - 1 - 1)) by lia.
        reflexivity.
Qed.

Lemma loop_calls_left_nonneg m : loop_session m -> 0 <= loop_calls_left m.
Proof.
  intros (_ & _ & _ & _ & Hpc & _). unfold loop_calls_left. lia.
Qed.

Lemma loop_session_plays : forall (bound : nat) m budget,
  loop_session m -> (forall k, 0 < budget k) ->
  loop_calls_left m <= Z.of_nat bound ->
  exists n,
    played budget n m = loop_owed m /\
    done (WAV_GetSome (calls budget n m) (budget n)) = true /\
    forall j, (j < n)%nat ->
      done (WAV_GetSome (calls budget j m) (budget j)) = false.
Proof.
  induction bound as [ | bound IH]; intros m budget Hp Hb Hm;
    destruct (loop_session_step m (budget 0%nat) Hp (Hb 0%nat))
      as [[Hdone Hrem] | (Hdone & Hp' & Hown & Hless)].
  - exists 0%nat. cbn [played calls]. rewrite Hrem. split; [reflexivity | ].
    split; [exact Hdone | lia].
  - pose proof (loop_calls_left_nonneg _ Hp'). lia.
  - exists 0%nat. cbn [played calls]. rewrite Hrem. split; [reflexivity | ].
    split; [exact Hdone | lia].
  - destruct (IH _ (fun k => budget (S k)) Hp' (fun k => Hb (S k)) ltac:(lia))
      as (n & Hplayed & Hend & Hbefore).
    exists (S n). rewrite played_front, Hplayed, Hown.
    split; [reflexivity | ].
    rewrite calls_front. split; [exact Hend | ].
    intros [ | j] Hj; [exact Hdone | ].
    rewrite calls_front. apply Hbefore. lia.
Qed.

(** Play in front of a one-loop session. *)
Lemma WAV_Play_loop_session music loop k :
  decode music = Fetch_pcm ->
  loops music = [loop] ->
  stream music = [] ->
  0 < spec_size (spec music) < 2 ^ 31 ->
  0 <= start music ->
  stop music <= Z.of_nat (length (rw_data (src music))) ->
  let lo := loop_start music loop in
  let hi := loop_stop music loop in
  spec_size (spec music) <= hi - lo ->
  hi <= stop music ->
  1 <= lp_initial_play_count loop < 2 ^ 32 ->
  0 <= k ->
  loop_session (snd (WAV_Play music k)) /\
  loop_owed (snd (WAV_Play music k))
  = concat (repeat (pass_from music lo hi (lp_initial_play_count loop)
                      (start music))
              (Z.to_nat k)).
Proof.
  intros Hdec Hl Hq Hsz Hs0 Hdata lo hi Hwin Hhi Hcnt Hk.
  pose proof (loop_start_from music loop) as Hlo. fold lo in Hlo.
  rewrite WAV_Play_ok by lia. cbn [snd]. rewrite Hl. cbn [map]. split.
  - unfold loop_session, cursor.
    cbn [set_src set_play_count set_loops decode loops spec start stop src
         rw_data play_count SDL_RWtell rw_pos].
    split; [exact Hdec | ]. split; [exact Hsz | ]. split; [exact Hs0 | ].
    split; [exact Hdata | ]. split; [exact Hk | ].
    exists (rearm loop).
    change (loop_start _ (rearm loop)) with lo.
    change (loop_stop _ (rearm loop)) with hi.
    cbn [rearm lp_active lp_current_play_count lp_initial_play_count].
    split; [reflexivity | ]. split; [exact Hwin | ]. split; [exact Hhi | ].
    split; [exact Hcnt | ]. lia.
  - unfold loop_owed, loop_rest, cursor.
    cbn [set_src set_play_count set_loops stream play_count src rw_data
         SDL_RWtell rw_pos start stop loops].
    cbv zeta.
    change (loop_start _ (rearm loop)) with lo.
    change (loop_stop _ (rearm loop)) with hi.
    cbn [rearm lp_active lp_current_play_count lp_initial_play_count].
    rewrite Hq. cbn [app].
    destruct (k =? 0) eqn:E.
    + apply Z.eqb_eq in E. subst k. reflexivity.
    + apply Z.eqb_neq in E.
      rewrite (concat_repeat_S _ (Z.to_nat k)) by lia.
      replace (Z.to_nat k - 1)%nat with (Z.to_nat (k - 1)) by lia.
      reflexivity.
Qed.

(** X25.  A loop window that is at least one fetch long is never missed
    and is played exactly as often as its count says, wherever it starts.
    For a direct-copy instance with an empty queue, a fetch size from 1
    to 2^31 - 1, a region that starts at an offset that is not negative
    and is backed by the source, and one loop point of count [c],
    [1 <= c < 2^32], whose window [lo, hi) is at least [spec.size] bytes
    long and ends at or before the region stop: after Play with a count
    [k >= 0], whatever
    positive budgets the caller uses, some call signals the end of the
    stream, no earlier call does, and the bytes handed out before it are,
    [k] times over, the bytes of the region before the window, the window
    [c] times, and the bytes of the region after the window. *)
Theorem loop_window_plays_count_times :
  forall music loop k budget,
    decode music = Fetch_pcm ->
    loops music = [loop] ->
    stream music = [] ->
    0 < spec_size (spec music) < 2 ^ 31 ->
    0 <= start music ->
    stop music <= Z.of_nat (length (rw_data (src music))) ->
    let lo := loop_start music loop in
    let hi := loop_stop music loop in
    spec_size (spec music) <= hi - lo ->
    hi <= stop music ->
    1 <= lp_initial_play_count loop < 2 ^ 32 ->
    0 <= k ->
    (forall i, 0 < budget i) ->
    let session := snd (WAV_Play music k) in
    exists n,
      played budget n session
      = concat (repeat (source_bytes music (start music) lo
                        ++ concat (repeat (source_bytes music lo hi)
                                     (Z.to_nat (lp_initial_play_count loop)))
                        ++ source_bytes music hi (stop music))
                  (Z.to_nat k)) /\
      done (WAV_GetSome (calls budget n session) (budget n)) = true /\
      forall j, (j < n)%nat ->
        done (WAV_GetSome (calls budget j session) (budget j)) = false.
Proof.
  intros music loop k budget Hdec Hl Hq Hsz Hs0 Hdata lo hi Hwin Hhi Hcnt Hk Hb
         session.
  destruct (WAV_Play_loop_session music loop k Hdec Hl Hq Hsz Hs0 Hdata Hwin Hhi
              Hcnt Hk) as [Hp Hrem].
  fold session lo hi in Hp, Hrem.
  pose proof (loop_start_from music loop) as Hlo. fold lo in Hlo.
  assert (pass_from music lo hi (lp_initial_play_count loop) (start music)
          = source_bytes music (start music) lo
            ++ concat (repeat (source_bytes music lo hi)
                         (Z.to_nat (lp_initial_play_count loop)))
            ++ source_bytes music hi (stop music)) as Hpass.
  { unfold pass_from.
    rewrite <- (source_bytes_split music (start music) lo hi) by lia.
    rewrite (concat_repeat_S _ (Z.to_nat (lp_initial_play_count loop))) by lia.
    replace (Z.to_nat (lp_initial_play_count loop) - 1)%nat
      with (Z.to_nat (lp_initial_play_count loop - 1)) by lia.
    rewrite <- !app_assoc. reflexivity. }
  rewrite <- Hpass, <- Hrem.
  apply (loop_session_plays (Z.to_nat (loop_calls_left session))); auto.
  pose proof (loop_calls_left_nonneg _ Hp). lia.
Qed.

Lemma loop_window_plays_count_times_witness :
  let loop := mkLoop true 4096 8191 3 3 in
  (loop_start demo_music loop = 4140 /\ loop_stop demo_music loop = 8236) /\
  exists n,
    played (fun _ => 1000) n (snd (WAV_Play demo_music 2))
    = concat (repeat (source_bytes demo_music 44 4140
                      ++ concat (repeat (source_bytes demo_music 4140 8236) 3)
                      ++ source_bytes demo_music 8236 12332)
                2).
Proof.
  cbv zeta. split; [split; reflexivity | ].
  destruct (loop_window_plays_count_times demo_music
              (mkLoop true 4096 8191 3 3) 2 (fun _ => 1000)) as (n & Hn & _).
  - reflexivity.
  - reflexivity.
  - reflexivity.
  - vm_compute; split; reflexivity.
  - vm_compute; discriminate.
  - vm_compute; discriminate.
  - vm_compute; discriminate.
  - vm_compute; discriminate.
  - vm_compute; split; [discriminate | reflexivity].
  - lia.
  - intros i. reflexivity.
  - exists n. exact Hn.
Defined.

(** ** Playback: the cursor stays in the data region *)

Lemma find_loop_found m pos : forall ls i j loop,
  find_loop m pos i ls = Some (j, loop) ->
  In loop ls /\ loop_start m loop <= pos < loop_stop m loop.
Proof.
  induction ls as [ | l ls IH]; intros i j loop H; cbn [find_loop] in H.
  - discriminate.
  - destruct (lp_active l && (loop_start m l <=? pos) && (pos <? loop_stop m l))
      eqn:E.
    + injection H as _ <-.
      apply andb_prop in E as [E E3]. apply andb_prop in E as [_ E2].
      apply Z.leb_le in E2. apply Z.ltb_lt in E3.
      split; [left; reflexivity | lia].
    + destruct (IH _ _ _ H) as [Hin Hr].
      split; [right; exact Hin | exact Hr].
Qed.

Lemma windows_inside_description m m' :
  description m' = description m -> windows_inside m -> windows_inside m'.
Proof.
  intros Hd. unfold description in Hd.
  injection Hd as Hspec Hstart Hstop _ _ _ _ _ Hloops.
  unfold windows_inside. rewrite Hstop.
  assert (forall l l', lp_stop l' = lp_stop l ->
                       loop_stop m' l' = loop_stop m l) as Hw.
  { intros l l' Hs.
    unfold loop_stop, bytes_per_sample. rewrite Hspec, Hstart, Hs.
    reflexivity. }
  revert Hloops. generalize (loops m') (loops m).
  induction l as [ | y l' IH]; intros [ | x l] Hm Hf; cbn [map] in Hm;
    try discriminate.
  - constructor.
  - injection Hm as _ Hxy _ Hm. inversion Hf; subst.
    constructor; [rewrite (Hw x y Hxy); assumption | apply (IH l); assumption].
Qed.

Lemma window_description m m' loop :
  description m' = description m ->
  loop_start m' loop = loop_start m loop.
Proof.
  intros Hd. unfold description in Hd.
  injection Hd as Hspec Hstart _ _ _ _ _ _ _.
  unfold loop_start, bytes_per_sample. rewrite Hspec, Hstart. reflexivity.
Qed.

Lemma call_decode_cursor music amount :
  0 <= cursor music -> 0 <= amount < 2 ^ 63 ->
  cursor music <= cursor (snd (call_decode music amount))
  <= cursor music + amount.
Proof.
  intros Hc Ha.
  assert (0 <= source_request (decode music) amount <= amount) as Hreq.
  { unfold source_request. destruct (decode music).
    - lia.
    - pose proof (Z.quot_pos amount 4). pose proof (Z.mul_quot_le amount 4). lia.
    - pose proof (Z.quot_pos amount 2). pose proof (Z.mul_quot_le amount 2). lia.
    - pose proof (Z.quot_pos amount 2). pose proof (Z.mul_quot_le amount 2). lia. }
  destruct (call_decode_request music amount) as (got & buf & Hr & Hm).
  pose proof (SDL_RWread_bounds (src music) (source_request (decode music) amount)
                Hc ltac:(lia)) as Hb.
  rewrite Hr in Hb. destruct Hb as [Hlen Hs].
  assert (0 <= rw_available (src music)) by (unfold rw_available; lia).
  unfold cursor, SDL_RWtell in *. rewrite Hs. cbn [rw_pos]. lia.
Qed.

(** Where the loop boundary leaves the cursor. *)
Lemma loop_boundary_cursor m found stop_ :
  (forall i loop, found = Some (i, loop) -> 0 <= loop_start m loop) ->
  cursor (snd (loop_boundary m found stop_)) = cursor m \/
  exists i loop,
    found = Some (i, loop) /\
    cursor (snd (loop_boundary m found stop_)) = loop_start m loop.
Proof.
  intros H. unfold loop_boundary.
  destruct found as [[i loop] | ]; [ | left; reflexivity].
  destruct (stop_ <=? _); [ | left; reflexivity].
  destruct (lp_current_play_count loop =? 1); [left; reflexivity | ].
  right. exists i, loop. split; [reflexivity | ].
  change (loop_start (set_loops m _) loop) with (loop_start m loop).
  unfold SDL_RWseek.
  replace (loop_start m loop <? 0) with false
    by (symmetry; apply Z.ltb_ge; apply (H i loop); reflexivity).
  reflexivity.
Qed.

(** The two boundaries after a fetch keep the cursor in the region. *)
Lemma boundaries_stay_inside m found stop_ at_end :
  0 <= start m -> start m <= cursor m <= stop m ->
  (forall i loop, found = Some (i, loop) ->
     start m <= loop_start m loop <= stop m) ->
  let c := (let '(looped, m') := loop_boundary m found stop_ in
            region_boundary m' looped at_end) in
  start m <= cursor (after c) <= stop m.
Proof.
  intros Hs0 Hcur Hf.
  pose proof (description_loop_boundary m found stop_) as Hd.
  pose proof (loop_boundary_cursor m found stop_) as Hc.
  destruct (loop_boundary m found stop_) as [looped m']. cbn [snd] in *.
  unfold description in Hd. injection Hd as _ Hstart Hstop _ _ _ _ _ _.
  assert (start m <= cursor m' <= stop m) as Hcur'.
  { destruct Hc as [-> | (i & loop & E & ->)].
    - intros i loop E. specialize (Hf i loop E). lia.
    - exact Hcur.
    - exact (Hf i loop E). }
  destruct (region_boundary_cases m' looped at_end) as (_ & _ & _ & Hr);
    [lia | ].
  destruct (negb looped && (at_end || (stop m' <=? cursor m'))).
  - destruct (play_count m' =? 1).
    + destruct Hr as (_ & -> & _). exact Hcur'.
    + destruct Hr as (_ & -> & _). lia.
  - rewrite Hr. exact Hcur'.
Qed.

(** One call keeps the cursor in the region. *)
Lemma WAV_GetSome_stays_inside m bytes :
  0 <= start m -> start m <= cursor m <= stop m ->
  0 <= spec_size (spec m) < 2 ^ 31 -> windows_inside m ->
  start m <= cursor (after (WAV_GetSome m bytes)) <= stop m.
Proof.
  intros Hs0 Hcur Hsz Hw. unfold WAV_GetSome.
  destruct (SDL_AudioStreamGet (stream m) bytes) as [out q].
  destruct (negb _); [exact Hcur | ].
  destruct (play_count m =? 0); [exact Hcur | ].
  change (SDL_RWtell (src m)) with (cursor m).
  set (found := find_loop m (cursor m) 0 (loops m)).
  assert (forall i loop, found = Some (i, loop) ->
            start m <= loop_start m loop <= cursor m /\
            cursor m < loop_stop m loop <= stop m) as Hfound.
  { intros i loop E. destruct (find_loop_found _ _ _ _ _ _ E) as [Hin Hr].
    unfold windows_inside in Hw. rewrite Forall_forall in Hw.
    specialize (Hw _ Hin). pose proof (loop_start_from m loop). lia. }
  set (stop_ := fetch_ceiling m found).
  assert (cursor m <= stop_ <= stop m) as Hceil.
  { subst stop_. destruct found as [[i loop] | ]; cbn [fetch_ceiling].
    - specialize (Hfound i loop eq_refl). lia.
    - lia. }
  set (A := fetch_amount m stop_ (cursor m)).
  assert (0 <= A <= stop_ - cursor m /\ A < 2 ^ 31) as HA.
  { subst A. unfold fetch_amount. rewrite Sint32_small by lia.
    destruct (stop_ - cursor m <? spec_size (spec m)) eqn:E.
    - apply Z.ltb_lt in E. rewrite Sint32_small by lia. lia.
    - apply Z.ltb_ge in E. lia. }
  assert (cursor m <= cursor (snd (call_decode m A)) <= cursor m + A) as Hdc
    by (apply call_decode_cursor; lia).
  pose proof (description_call_decode m A) as Hd.
  destruct (call_decode m A) as [[amount | ] m1]; cbn [snd] in Hdc, Hd.
  2: { cbn [after]. unfold description in Hd.
       injection Hd as _ Hstart Hstop _ _ _ _ _ _. lia. }
  assert (forall i loop, found = Some (i, loop) ->
            start m1 <= loop_start m1 loop <= stop m1) as Hf1.
  { intros i loop E. rewrite (window_description m m1 loop Hd).
    unfold description in Hd. injection Hd as _ -> -> _ _ _ _ _ _.
    specialize (Hfound i loop E). lia. }
  unfold description in Hd. injection Hd as _ Hstart Hstop _ _ _ _ _ _.
  rewrite <- Hstart, <- Hstop in *.
  destruct (0 <? amount).
  - cbn [SDL_AudioStreamPut]. change (0 <? 0) with false. cbv iota.
    apply (boundaries_stay_inside
             (set_stream m1 (stream m1 ++ firstn (Z.to_nat amount) (buffer m1)))
             found stop_ false); [exact Hs0 | | exact Hf1].
    change (cursor (set_stream m1 _)) with (cursor m1).
    cbn [set_stream start stop]. lia.
  - change (0 <? 0) with false. cbv iota.
    apply (boundaries_stay_inside m1 found stop_ true);
      [exact Hs0 | lia | exact Hf1].
Qed.

(** X26.  Playback never leaves the cursor outside the data region.  For
    every decode strategy, any number of loop points, any queue content
    and any repeat count: if the fetch size is below 2^31, every loop
    window ends at or before the region stop, and the cursor is in
    [start, stop], then after any number of calls with any budgets the
    cursor is still in [start, stop]. *)
Theorem session_never_leaves_region :
  forall music budget n,
    0 <= start music ->
    start music <= cursor music <= stop music ->
    0 <= spec_size (spec music) < 2 ^ 31 ->
    windows_inside music ->
    start music <= cursor (calls budget n music) <= stop music.
Proof.
  intros music budget n Hs0 Hcur Hsz Hw.
  induction n as [ | n IH]; [exact Hcur | ].
  cbn [calls].
  pose proof (description_calls budget n music) as Hd.
  pose proof (windows_inside_description _ _ Hd Hw) as Hw'.
  unfold description in Hd. injection Hd as Hspec Hstart Hstop _ _ _ _ _ _.
  rewrite <- Hstart, <- Hstop, <- Hspec in *.
  apply WAV_GetSome_stays_inside; assumption.
Qed.

Lemma session_never_leaves_region_witness :
  (start demo_music = 44 /\ stop demo_music = 12332) /\
  44 <= cursor (calls (fun _ => 1000) 7 demo_music) <= 12332.
Proof.
  split; [split; reflexivity | ].
  apply (session_never_leaves_region demo_music (fun _ => 1000) 7).
  - vm_compute; discriminate.
  - vm_compute; split; discriminate.
  - vm_compute; split; [discriminate | reflexivity].
  - constructor; [vm_compute; discriminate | constructor].
Defined.

(** ** Loading an AIFC file *)

Lemma aifc_file_magic formlen version channels numsamples bits sane compression
  name blocksize payload :
  SDL_ReadLE32
    (mkRW (aifc_file formlen version channels numsamples bits sane compression
             name blocksize payload) 0)
  = (FORM,
     mkRW (aifc_file formlen version channels numsamples bits sane compression
             name blocksize payload) 4).
Proof.
  apply (SDL_ReadLE32_front _ 0 FORM
           (skipn 4 (aifc_file formlen version channels numsamples bits sane
                       compression name blocksize payload)));
    [lia | vm_compute; split; [discriminate | reflexivity] | reflexivity].
Qed.

(** The format switch on the rows of the table, and off them. *)
Lemma aifc_table_format bits comp enc d fm sp pc st sto ss buf q ls tg s :
  In (bits, comp, enc, d, fm) aifc_table ->
  aiff_format true bits comp
    (mkMusic s sp pc st sto ss buf q ls tg PCM_CODE Fetch_pcm)
  = (mkMusic s sp pc st sto ss buf q ls tg enc d, Some fm).
Proof.
  intros Hin. cbn in Hin.
  repeat (destruct Hin as [Hin | Hin];
          [injection Hin as <- <- <- <- <-; reflexivity | ]).
  contradiction.
Qed.

Lemma aifc_table_complete bits comp wave :
  (forall enc d fm, ~ In (bits, comp, enc, d, fm) aifc_table) ->
  snd (aiff_format true bits comp wave) = None.
Proof.
  intros Hnot. unfold aiff_format. cbn [negb].
  repeat match goal with
         | |- context [if ?a =? ?b then _ else _] =>
             let E := fresh "E" in
             destruct (a =? b) eqn:E; [apply Z.eqb_eq in E | ]
         end;
    try reflexivity; subst; exfalso;
    (eapply Hnot; cbn; tauto).
Qed.

Lemma length_aifc_file formlen version channels numsamples bits sane compression
  name blocksize payload :
  length sane = 10%nat ->
  Z.of_nat (length (aifc_file formlen version channels numsamples bits sane
                      compression name blocksize payload))
  = 70 + Z.of_nat (length name) + Z.of_nat (length payload).
Proof.
  intros Hs. unfold aifc_file.
  rewrite !length_app, !length_le32_bytes, !length_be32_bytes,
    !length_be16_bytes, Hs. lia.
Qed.

(** The run of [LoadAIFFMusic], the magic read, over an AIFC file of a
    version chunk, a common chunk and a sound-data chunk: the chunk walk
    takes the three chunks and leaves the format switch to decide. *)
Lemma LoadAIFFMusic_aifc_file turns formlen version c frames bits comp sane
  name blocksize payload sp pc st sto ss buf q ls tg :
  0 <= formlen < 2 ^ 32 -> 0 <= version < 2 ^ 32 ->
  0 <= c < 256 -> 0 <= frames < 2 ^ 32 ->
  0 <= bits < 2 ^ 16 -> 0 <= comp < 2 ^ 32 ->
  length sane = 10%nat ->
  22 + Z.of_nat (length name) < 2 ^ 32 ->
  0 <= blocksize < 2 ^ 32 ->
  Z.of_nat (length payload) = c * frames * Z.quot bits 8 ->
  8 + Z.of_nat (length payload) < 2 ^ 32 ->
  (3 <= turns)%nat ->
  let file := aifc_file formlen version c frames bits sane comp name blocksize
                payload in
  let at_ := 70 + Z.of_nat (length name) in
  LoadAIFFMusic turns
    (mkMusic (mkRW file 4) sp pc st sto ss buf q ls tg PCM_CODE Fetch_pcm)
  = match aiff_format true bits comp
            (mkMusic (mkRW file at_)
               (mkSpec (Sint32 (SANE_to_Uint32 sane)) 0 0 0 0) pc at_
               (at_ + Z.of_nat (length payload)) (c * Z.quot bits 8)
               buf q ls tg PCM_CODE Fetch_pcm) with
    | (w, None) => Returns (false, w)
    | (w, Some f) =>
        Returns (true, set_spec w (calculate_spec (set_format (spec w) f) c))
    end /\
  skipn (Z.to_nat at_) file = payload.
Proof.
  intros Hfl Hver Hc Hns Hbits Hcomp Hsane Hname Hbs Hlen Hbound Hturns file at_.
  set (len := Z.of_nat (length payload)) in *.
  set (n := Z.of_nat (length name)) in *.
  assert (0 <= Z.quot bits 8 < 2 ^ 13) as Hq.
  { pose proof (Z.quot_pos bits 8 ltac:(lia) ltac:(lia)).
    pose proof (Z.quot_lt_upper_bound bits 8 (2 ^ 13) ltac:(lia) ltac:(lia)
                  ltac:(lia)). lia. }
  assert (skipn (Z.to_nat 4) file
          = be32_bytes formlen ++ le32_bytes AIFC ++ le32_bytes FVER
            ++ be32_bytes 4 ++ be32_bytes version ++ le32_bytes COMM
            ++ be32_bytes (22 + n) ++ be16_bytes c ++ be32_bytes frames
            ++ be16_bytes bits ++ sane ++ le32_bytes comp ++ name
            ++ le32_bytes SSND ++ be32_bytes (8 + len) ++ be32_bytes 0
            ++ be32_bytes blocksize ++ payload) as T1.
  { subst file. unfold aifc_file. rewrite <- !app_assoc. reflexivity. }
  destruct (SDL_ReadBE32_front file 4 formlen _ ltac:(lia) Hfl T1) as [R1 T2].
  destruct (SDL_ReadLE32_front file (4 + 4) AIFC _ ltac:(lia)
              ltac:(vm_compute; split; [discriminate | reflexivity]) T2)
    as [R2 T3].
  destruct (SDL_ReadLE32_front file (4 + 4 + 4) FVER _ ltac:(lia)
              ltac:(vm_compute; split; [discriminate | reflexivity]) T3)
    as [R3 T4].
  destruct (SDL_ReadBE32_front file (4 + 4 + 4 + 4) 4 _ ltac:(lia)
              ltac:(lia) T4) as [R4 T5].
  change (4 + 4) with 8 in *. change (8 + 4) with 12 in *.
  change (12 + 4) with 16 in *. change (16 + 4) with 20 in *.
  destruct (SDL_ReadBE32_front file 20 version _ ltac:(lia) Hver T5)
    as [R5 T6].
  change (20 + 4) with 24 in *.
  destruct (SDL_ReadLE32_front file 24 COMM _ ltac:(lia)
              ltac:(vm_compute; split; [discriminate | reflexivity]) T6)
    as [R6 T7].
  destruct (SDL_ReadBE32_front file (24 + 4) (22 + n) _ ltac:(lia)
              ltac:(lia) T7) as [R7 T8].
  change (24 + 4) with 28 in *. change (28 + 4) with 32 in *.
  destruct (SDL_ReadBE16_front file 32 c _ ltac:(lia) ltac:(lia) T8)
    as [R8 T9].
  destruct (SDL_ReadBE32_front file (32 + 2) frames _ ltac:(lia) Hns T9)
    as [R9 T10].
  destruct (SDL_ReadBE16_front file (32 + 2 + 4) bits _ ltac:(lia) Hbits T10)
    as [R10 T11].
  destruct (SDL_RWread_front file (32 + 2 + 4 + 2) sane _ 10 ltac:(lia)
              ltac:(lia) ltac:(lia) T11) as [R11 T12].
  change (32 + 2) with 34 in *. change (34 + 4) with 38 in *.
  change (38 + 2) with 40 in *. change (40 + 10) with 50 in *.
  destruct (SDL_ReadLE32_front file 50 comp _ ltac:(lia) Hcomp T12)
    as [R12 T13].
  change (50 + 4) with 54 in *.
  assert (skipn (Z.to_nat (54 + n)) file
          = le32_bytes SSND ++ be32_bytes (8 + len) ++ be32_bytes 0
            ++ be32_bytes blocksize ++ payload) as T14.
  { replace (Z.to_nat (54 + n)) with (Z.to_nat 54 + length name)%nat by lia.
    apply (skipn_more _ _ _ _ _ T13). reflexivity. }
  destruct (SDL_ReadLE32_front file (54 + n) SSND _ ltac:(lia)
              ltac:(vm_compute; split; [discriminate | reflexivity]) T14)
    as [R13 T15].
  destruct (SDL_ReadBE32_front file (54 + n + 4) (8 + len) _ ltac:(lia)
              ltac:(lia) T15) as [R14 T16].
  destruct (SDL_ReadBE32_front file (54 + n + 4 + 4) 0 _ ltac:(lia)
              ltac:(lia) T16) as [R15 T17].
  destruct (SDL_ReadBE32_front file (54 + n + 4 + 4 + 4) blocksize _ ltac:(lia)
              Hbs T17) as [R16 T18].
  replace (54 + n + 4 + 4 + 4 + 4) with at_ in * by (subst at_; lia).
  split; [ | exact T18].
  unfold LoadAIFFMusic. cbn [src]. rewrite R1, R2.
  change (negb (AIFC =? AIFF) && negb (AIFC =? AIFC)) with false.
  change (AIFC =? AIFC) with true. cbv iota.
  destruct turns as [ | [ | [ | turns]]]; try lia.
  (* the version chunk *)
  cbn [aiff_chunks set_src src]. rewrite R3, R4.
  change (4 =? 0) with false. cbv iota.
  unfold aiff_chunk at 1.
  change (FVER =? SSND) with false. change (FVER =? FVER) with true. cbv iota.
  cbn [set_src src]. rewrite R5.
  cbn [found_SSND found_COMM found_FVER negb orb andb set_src src].
  unfold SDL_RWseek at 1. cbn [SDL_RWtell rw_pos].
  change (20 + 4 <? 0) with false. cbv iota.
  change (20 + 4 =? -1) with false. cbv iota.
  change (20 + 4) with 24. cbn [rw_data set_src src].
  (* the common chunk *)
  rewrite R6, R7.
  replace (22 + n =? 0) with false by (symmetry; apply Z.eqb_neq; lia).
  unfold aiff_chunk at 1.
  change (COMM =? SSND) with false. change (COMM =? FVER) with false.
  change (COMM =? COMM) with true. cbv iota.
  cbn [set_src src]. rewrite R8, R9, R10, R11, Hsane.
  change (negb (10 =? 10)%nat) with false. cbv iota.
  rewrite R12.
  cbn [found_SSND found_COMM found_FVER negb orb andb set_src src].
  unfold SDL_RWseek at 1. cbn [SDL_RWtell rw_pos].
  replace (32 + (22 + n) <? 0) with false by (symmetry; apply Z.ltb_ge; lia).
  cbv iota.
  replace (32 + (22 + n) =? -1) with false by (symmetry; apply Z.eqb_neq; lia).
  cbv iota.
  replace (32 + (22 + n)) with (54 + n) by lia. cbn [rw_data set_src src].
  (* the sound-data chunk *)
  rewrite R13, R14.
  replace (8 + len =? 0) with false by (symmetry; apply Z.eqb_neq; lia).
  unfold aiff_chunk.
  change (SSND =? SSND) with true. cbv iota.
  cbn [set_src src]. rewrite R15, R16.
  cbn [found_SSND found_COMM found_FVER negb orb andb set_src set_start src
       channels numsamples aiff_samplesize frequency compressionType
       SDL_RWtell rw_pos start set_samplesize set_stop set_spec].
  assert (Uint32 (Uint32 (c * frames) * Z.quot bits 8) = len) as Hstop.
  { unfold Uint32. rewrite Z.mul_mod_idemp_l by lia.
    rewrite <- Hlen. apply Z.mod_small. lia. }
  rewrite Hstop, Sint32_small by nia.
  replace (at_ + 0) with at_ by lia.
  reflexivity.
Qed.

(** X27.  An AIFC file of a version chunk, a common chunk and a
    sound-data chunk is taken for exactly eleven combinations of sample
    size and compression type, and is then read back as written.  For a
    row of the table, when the scratch buffer is allocated and the queue
    is made for the row's format and the file's channels and rate,
    [WAV_CreateFromRW] returns an instance with the
    encoding, strategy and output format of the row, whose region is the
    payload of the sound-data chunk up to the end of the file; the name
    that follows the compression type is skipped.  For a combination
    that is in no row, among them 8 bits with compression NONE, the file
    is refused. *)
Theorem WAV_CreateFromRW_aifc_accepts_eleven :
  forall id3tag junk SDL_malloc SDL_NewAudioStream turns formlen version c
         frames bits comp sane name blocksize payload,
    0 <= formlen < 2 ^ 32 -> 0 <= version < 2 ^ 32 ->
    0 <= c < 256 -> 0 <= frames < 2 ^ 32 ->
    0 <= bits < 2 ^ 16 -> 0 <= comp < 2 ^ 32 ->
    length sane = 10%nat ->
    22 + Z.of_nat (length name) < 2 ^ 32 ->
    0 <= blocksize < 2 ^ 32 ->
    Z.of_nat (length payload) = c * frames * Z.quot bits 8 ->
    8 + Z.of_nat (length payload) < 2 ^ 32 ->
    (3 <= turns)%nat ->
    let file := aifc_file formlen version c frames bits sane comp name
                  blocksize payload in
    let at_ := 70 + Z.of_nat (length name) in
    let created :=
      WAV_CreateFromRW id3tag junk SDL_malloc SDL_NewAudioStream turns
        (mkRW file 0) in
    (forall enc d fm buf,
       In (bits, comp, enc, d, fm) aifc_table ->
       let size := Z.quot (SDL_AUDIO_BITSIZE fm) 8 * c * 4096 in
       SDL_malloc size = Some buf ->
       SDL_NewAudioStream fm c (Sint32 (SANE_to_Uint32 sane)) = true ->
       let music :=
         mkMusic (mkRW file at_)
           (mkSpec (Sint32 (SANE_to_Uint32 sane)) fm c 4096 size)
           0 at_ (at_ + Z.of_nat (length payload)) (c * Z.quot bits 8)
           buf [] [] (mkTags None None None None) enc d in
       created = Returns (true, music) /\
       region_bytes music = payload /\
       stop music = Z.of_nat (length file)) /\
    ((forall enc d fm, ~ In (bits, comp, enc, d, fm) aifc_table) ->
     exists w, created = Returns (false, w)).
Proof.
  intros id3tag junk SDL_malloc SDL_NewAudioStream turns formlen version c
    frames bits comp sane name blocksize payload Hfl Hver Hc Hfr Hbits Hcomp
    Hsane Hname Hbs Hlen Hbound Hturns file at_ created.
  destruct (LoadAIFFMusic_aifc_file turns formlen version c frames bits comp
              sane name blocksize payload (mkSpec 0 0 0 0 0) 0 0 0 0 [] [] []
              (mkTags None None None None)
              Hfl Hver Hc Hfr Hbits Hcomp Hsane Hname Hbs Hlen Hbound Hturns)
    as [Hload Hskip].
  fold file at_ in Hload, Hskip.
  split.
  - intros enc d fm buf Hin size Hmalloc Hstream music.
    rewrite (aifc_table_format bits comp enc d fm _ _ _ _ _ _ _ _ _ _ Hin)
      in Hload.
    assert (0 <= Z.quot (SDL_AUDIO_BITSIZE fm) 8 <= 4) as Hk.
    { cbn in Hin.
      repeat (destruct Hin as [Hin | Hin];
              [injection Hin as _ _ _ _ <-; vm_compute; split; discriminate | ]).
      contradiction. }
    cbv [calculate_spec set_format set_spec
         src spec play_count start stop samplesize buffer stream loops tags
         encoding decode spec_freq spec_format spec_channels spec_samples
         spec_size] in Hload.
    unfold Uint8 in Hload. rewrite (Z.mod_small c) in Hload by lia.
    rewrite calculate_size in Hload by lia. fold size in Hload.
    split; [ | split].
    + refine (eq_trans
                (WAV_CreateFromRW_made id3tag junk SDL_malloc
                   SDL_NewAudioStream turns _ _ _ _ buf
                   (aifc_file_magic _ _ _ _ _ _ _ _ _ _) Hload Hmalloc Hstream)
                _).
      reflexivity.
    + unfold region_bytes, source_bytes. subst music.
      cbn [start stop src rw_data]. rewrite Hskip.
      replace (Z.to_nat (at_ + Z.of_nat (length payload) - at_))
        with (length payload) by lia.
      apply firstn_all.
    + subst music file. cbn [stop]. rewrite length_aifc_file by exact Hsane.
      reflexivity.
  - intros Hnot.
    pose proof (aifc_table_complete bits comp
                  (mkMusic (mkRW file at_)
                     (mkSpec (Sint32 (SANE_to_Uint32 sane)) 0 0 0 0) 0 at_
                     (at_ + Z.of_nat (length payload)) (c * Z.quot bits 8)
                     [] [] [] (mkTags None None None None) PCM_CODE Fetch_pcm)
                  Hnot) as Hnone.
    destruct (aiff_format true bits comp _) as [w o]. cbn [snd] in Hnone.
    subst o. exists w. subst created. unfold WAV_CreateFromRW. subst file.
    rewrite aifc_file_magic.
    change ((FORM =? RIFF) || (FORM =? WAVE)) with false.
    change (FORM =? FORM) with true. cbv iota.
    unfold set_src.
    cbn [src spec play_count start stop samplesize buffer stream loops
         tags encoding decode].
    rewrite Hload. reflexivity.
Qed.

Lemma WAV_CreateFromRW_aifc_accepts_eleven_witness :
  let sane := [0x40; 0x0E; 0xAC; 0x44; 0; 0; 0; 0; 0; 0] in
  let file := aifc_file 0 0 2 1 16 sane sowt [0; 0] 0 [1; 2; 3; 4] in
  exists music,
    WAV_CreateFromRW (fun tags _ _ => tags) (fun _ => false)
      (fun n => Some (repeat 0 (Z.to_nat n))) (fun _ _ _ => true) 3
      (mkRW file 0)
    = Returns (true, music) /\
    region_bytes music = [1; 2; 3; 4] /\
    (decode music, spec_format (spec music), spec_freq (spec music))
    = (Fetch_pcm, AUDIO_S16LSB, 44100).
Proof.
  cbv zeta.
  destruct (WAV_CreateFromRW_aifc_accepts_eleven (fun tags _ _ => tags)
              (fun _ => false) (fun n => Some (repeat 0 (Z.to_nat n)))
              (fun _ _ _ => true) 3 0 0 2 1 16 sowt
              [0x40; 0x0E; 0xAC; 0x44; 0; 0; 0; 0; 0; 0] [0; 0] 0
              [1; 2; 3; 4]) as [Htable _].
  - lia.
  - lia.
  - lia.
  - lia.
  - lia.
  - vm_compute. split; [discriminate | reflexivity].
  - reflexivity.
  - cbn. lia.
  - lia.
  - reflexivity.
  - cbn. lia.
  - lia.
  - destruct (Htable PCM_CODE Fetch_pcm AUDIO_S16LSB
                (repeat 0 (Z.to_nat 16384))) as (Hrun & Hregion & _).
    + cbn. tauto.
    + reflexivity.
    + reflexivity.
    + eexists. split; [exact Hrun | ]. split; [exact Hregion | ].
      vm_compute. reflexivity.
Defined.

(** ** Loading and playing a WAVE file with a loop *)

(** [ParseSMPL] over a chunk that is all there. *)
Lemma ParseSMPL_stored junk wave fields sampler_data records rest n :
  0 <= cursor wave ->
  length fields = 28%nat ->
  0 <= sampler_data < 2 ^ 32 ->
  Forall sample_loop_fits records ->
  n < 2 ^ 32 ->
  chunk_payload wave n = smpl_chunk fields sampler_data records rest ->
  n = Z.of_nat (length (smpl_chunk fields sampler_data records rest)) ->
  exists added,
    ParseSMPL junk wave n
    = Some (true,
            set_loops (set_src wave (mkRW (rw_data (src wave)) (cursor wave + n)))
              (loops wave ++ added)) /\
    map rearm added = forward_loops records.
Proof.
  intros Hc Hf Hsd Hfit Hn Hdata Hlen.
  assert (36 <= n) as Hn36.
  { rewrite Hlen. unfold smpl_chunk.
    rewrite !length_app, Hf, !length_le32_bytes. lia. }
  assert (n <= rw_available (src wave)) as Havail.
  { pose proof (f_equal (fun l => Z.of_nat (length l)) Hdata) as Hl.
    cbv beta in Hl. rewrite <- Hlen in Hl.
    unfold chunk_payload, source_bytes in Hl.
    rewrite length_firstn, length_skipn in Hl.
    unfold rw_available, cursor, SDL_RWtell in *. lia. }
  unfold ParseSMPL. rewrite read_chunk_spec by lia.
  replace (n <=? rw_available (src wave)) with true
    by (symmetry; apply Z.leb_le; exact Havail).
  cbn [negb]. rewrite Hdata.
  assert (Z.of_nat (length records) < 2 ^ 32) as Hcount.
  { rewrite Hlen in Hn. unfold smpl_chunk in Hn.
    rewrite !length_app, Hf, !length_le32_bytes in Hn.
    assert (length records <= length (concat (map sample_loop_bytes records)))%nat.
    { clear. induction records as [ | r rs IH]; [cbn; lia | ].
      cbn [map concat length]. rewrite length_app, length_sample_loop_bytes.
      lia. }
    lia. }
  unfold smpl_chunk at 1.
  rewrite load_le32_stored by (rewrite ?Hf; lia).
  rewrite Nat2Z.id.
  set (wave0 := set_src wave (mkRW (rw_data (src wave)) (cursor wave + n))).
  destruct (smpl_loops_records junk records
              (fields ++ le32_bytes (Z.of_nat (length records))
               ++ le32_bytes sampler_data)
              rest wave0 0 Hfit) as (added & Hrun & Hshape).
  { rewrite !length_app, Hf, !length_le32_bytes. lia. }
  unfold smpl_chunk. rewrite <- !app_assoc in Hrun. rewrite Hrun.
  exists added. split; [reflexivity | exact Hshape].
Qed.

Lemma looped_wav_file_magic wavelen fmt payload fields sampler_data r :
  SDL_ReadLE32 (mkRW (looped_wav_file wavelen fmt payload fields sampler_data r) 0)
  = (RIFF, mkRW (looped_wav_file wavelen fmt payload fields sampler_data r) 4).
Proof.
  apply (SDL_ReadLE32_front _ 0 RIFF
           (skipn 4 (looped_wav_file wavelen fmt payload fields sampler_data r)));
    [lia | vm_compute; split; [discriminate | reflexivity] | reflexivity].
Qed.

(** The run of [LoadWAVMusic], the magic read, over such a file: the
    loop point of the record is added, with whatever its flag holds. *)
Lemma LoadWAVMusic_looped_file id3tag junk turns wavelen e c f br ba b d fm
  payload fields sampler_data r sp pc st sto ss buf q tg enc dec :
  0 <= wavelen < 2 ^ 32 -> 0 <= c < 256 -> 0 <= f < 2 ^ 31 ->
  In (e, b, d, fm) fmt_table ->
  payload <> [] -> Z.of_nat (length payload) < 2 ^ 32 ->
  length fields = 28%nat -> 0 <= sampler_data < 2 ^ 32 ->
  sample_loop_fits r -> sl_type r = 0 ->
  (4 <= turns)%nat ->
  let file := looped_wav_file wavelen (fmt_payload e c f br ba b) payload
                fields sampler_data r in
  exists loop,
    rearm loop
    = mkLoop true (sl_start r) (sl_end r) (sl_play_count r) (sl_play_count r) /\
    LoadWAVMusic id3tag junk turns
      (mkMusic (mkRW file 4) sp pc st sto ss buf q [] tg enc dec)
    = Returns
        (true,
         mkMusic (mkRW file (Z.of_nat (length file)))
           (mkSpec f fm c 4096 (Z.quot (SDL_AUDIO_BITSIZE fm) 8 * c * 4096))
           pc 44 (44 + Z.of_nat (length payload)) (c * Z.quot b 8) buf q
           [loop] meta_tags_init e d) /\
    exists tail, skipn 44 file = payload ++ tail.
Proof.
  intros Hw Hc Hf Hin Hne Hlen Hfields Hsd Hfit Htype Hturns file.
  set (fmt := fmt_payload e c f br ba b) in *.
  set (smpl := smpl_chunk fields sampler_data [r] []) in *.
  assert (Z.of_nat (length smpl) = 60) as Hsl.
  { subst smpl. unfold smpl_chunk. cbn [map concat].
    rewrite !length_app, Hfields, !length_le32_bytes, length_sample_loop_bytes.
    reflexivity. }
  assert (file
          = le32_bytes RIFF ++ le32_bytes wavelen ++ le32_bytes WAVE
            ++ le32_bytes FMT ++ le32_bytes 16 ++ fmt
            ++ le32_bytes DATA ++ le32_bytes (Z.of_nat (length payload))
            ++ payload ++ le32_bytes SMPL ++ le32_bytes 60 ++ smpl) as Hfile.
  { subst file. unfold looped_wav_file. rewrite wav_file_parts.
    unfold chunk_record. fold smpl. rewrite Hsl.
    change (Z.of_nat (length fmt)) with 16.
    rewrite <- !app_assoc. reflexivity. }
  set (len := Z.of_nat (length payload)) in *.
  assert (Z.of_nat (length file) = 44 + len + 8 + 60) as Hflen.
  { rewrite Hfile, !length_app, !length_le32_bytes.
    change (length fmt) with 16%nat. fold len. lia. }
  assert (0 < len) as Hpos
    by (subst len; destruct payload; [congruence | cbn [length]; lia]).
  assert (skipn (Z.to_nat 4) file
          = le32_bytes wavelen ++ le32_bytes WAVE ++ le32_bytes FMT
            ++ le32_bytes 16 ++ fmt ++ le32_bytes DATA ++ le32_bytes len
            ++ payload ++ le32_bytes SMPL ++ le32_bytes 60 ++ smpl) as T1.
  { rewrite Hfile at 1. reflexivity. }
  destruct (SDL_ReadLE32_front file 4 wavelen _ ltac:(lia) Hw T1)
    as [R1 T2].
  destruct (SDL_ReadLE32_front file (4 + 4) WAVE _ ltac:(lia)
              ltac:(vm_compute; split; [discriminate | reflexivity]) T2)
    as [R2 T3].
  destruct (SDL_ReadLE32_front file (4 + 4 + 4) FMT _ ltac:(lia)
              ltac:(vm_compute; split; [discriminate | reflexivity]) T3)
    as [R3 T4].
  destruct (SDL_ReadLE32_front file (4 + 4 + 4 + 4) 16 _ ltac:(lia)
              ltac:(lia) T4)
    as [R4 T5].
  change (4 + 4) with 8 in *.
  change (8 + 4) with 12 in *. change (12 + 4) with 16 in *.
  change (16 + 4) with 20 in *.
  assert (skipn (Z.to_nat 36) file
          = le32_bytes DATA ++ le32_bytes len ++ payload ++ le32_bytes SMPL
            ++ le32_bytes 60 ++ smpl) as T6.
  { change (Z.to_nat 36) with (Z.to_nat 20 + 16)%nat.
    apply (skipn_more _ _ _ _ _ T5). reflexivity. }
  destruct (SDL_ReadLE32_front file 36 DATA _ ltac:(lia)
              ltac:(vm_compute; split; [discriminate | reflexivity]) T6)
    as [R6 T7].
  destruct (SDL_ReadLE32_front file (36 + 4) len _ ltac:(lia) ltac:(lia) T7)
    as [R7 T8].
  change (36 + 4) with 40 in *. change (40 + 4) with 44 in *.
  assert (skipn (Z.to_nat (44 + len)) file
          = le32_bytes SMPL ++ le32_bytes 60 ++ smpl) as T9.
  { replace (Z.to_nat (44 + len)) with (Z.to_nat 44 + length payload)%nat by lia.
    apply (skipn_more _ _ _ _ _ T8). reflexivity. }
  destruct (SDL_ReadLE32_front file (44 + len) SMPL _ ltac:(lia)
              ltac:(vm_compute; split; [discriminate | reflexivity]) T9)
    as [R9 T10].
  destruct (SDL_ReadLE32_front file (44 + len + 4) 60 _ ltac:(lia) ltac:(lia)
              T10) as [R10 T11].
  assert (skipn (Z.to_nat (44 + len + 4 + 4 + 60)) file = []) as T12
    by (apply skipn_all2; lia).
  pose proof (SDL_ReadLE32_end file (44 + len + 4 + 4 + 60) ltac:(lia) T12)
    as R12.
  set (wave2 := mkMusic (mkRW file (44 + len + 4 + 4))
                  (mkSpec f fm c 4096
                     (Z.quot (SDL_AUDIO_BITSIZE fm) 8 * c * 4096))
                  pc 44 (44 + len) (c * Z.quot b 8) buf q [] meta_tags_init
                  e d).
  destruct (ParseSMPL_stored junk wave2 fields sampler_data [r] [] 60)
    as (added & Hsmpl & Hadded).
  { unfold cursor. cbn [wave2 src SDL_RWtell rw_pos]. lia. }
  { exact Hfields. }
  { exact Hsd. }
  { constructor; [exact Hfit | constructor]. }
  { lia. }
  { unfold chunk_payload, source_bytes, cursor. cbn [wave2 src SDL_RWtell rw_pos rw_data].
    rewrite T11. fold smpl.
    replace (Z.to_nat (44 + len + 4 + 4 + 60 - (44 + len + 4 + 4)))
      with (length smpl) by lia.
    apply firstn_all. }
  { fold smpl. lia. }
  assert (exists loop,
            added = [loop] /\
            rearm loop
            = mkLoop true (sl_start r) (sl_end r) (sl_play_count r)
                (sl_play_count r)) as (loop & -> & Hloop).
  { unfold forward_loops in Hadded. cbn [filter] in Hadded.
    rewrite Htype in Hadded. cbn [Z.eqb map] in Hadded.
    destruct added as [ | l [ | l' added]];
      [discriminate Hadded | | discriminate Hadded].
    exists l. split; [reflexivity | ]. cbn [map] in Hadded.
    injection Hadded as H1 H2 H3 _.
    unfold rearm. rewrite H1, H2, H3. reflexivity. }
  exists loop. split; [exact Hloop | ].
  split; [ | exists (le32_bytes SMPL ++ le32_bytes 60 ++ smpl); exact T8].
  unfold LoadWAVMusic.
  cbn [set_src set_tags src spec play_count start stop samplesize buffer
       stream loops tags encoding decode].
  rewrite R1, R2.
  destruct turns as [ | [ | [ | [ | turns]]]]; try lia.
  cbn [wav_chunks set_src src].
  rewrite R3, R4.
  change (16 =? 0) with false. change (FMT =? FMT) with true. cbv iota.
  rewrite (ParseFMT_front _ (le32_bytes DATA ++ le32_bytes len ++ payload
                             ++ le32_bytes SMPL ++ le32_bytes 60 ++ smpl)
             e c f br ba b d fm) by (try assumption; cbn; try lia; exact T5).
  cbn [set_tags cursor SDL_RWtell src rw_pos rw_data set_src spec play_count start stop
       samplesize buffer stream loops tags encoding decode].
  change (20 + 16) with 36.
  rewrite R6, R7.
  replace (len =? 0) with false by (symmetry; apply Z.eqb_neq; lia).
  change (DATA =? FMT) with false. change (DATA =? DATA) with true. cbv iota.
  unfold ParseDATA, SDL_RWseek_cur, SDL_RWseek.
  cbn [set_tags set_start set_stop set_src src SDL_RWtell rw_pos rw_data start stop
       spec play_count samplesize buffer stream loops tags encoding decode].
  replace (44 + len <? 0) with false by (symmetry; apply Z.ltb_ge; lia).
  cbn [set_tags set_src src spec play_count start stop samplesize buffer stream
       loops tags encoding decode].
  change (44 + len + 4 + 4) with (44 + len + 4 + 4).
  rewrite R9, R10.
  change (60 =? 0) with false. change (SMPL =? FMT) with false.
  change (SMPL =? DATA) with false. change (SMPL =? SMPL) with true. cbv iota.
  change (ParseSMPL junk ?w 60) with (ParseSMPL junk wave2 60).
  rewrite Hsmpl.
  cbn [wave2 set_src set_loops src spec play_count start stop samplesize buffer
       stream loops tags encoding decode cursor SDL_RWtell rw_pos rw_data app].
  rewrite R12, R12.
  change (0 =? 0) with true. cbn [negb]. cbv iota.
  rewrite Hflen.
  replace (44 + len + 8 + 60) with (44 + len + 4 + 4 + 60) by lia.
  reflexivity.
Qed.

Lemma pass_from_whole music lo hi c :
  0 <= start music <= lo -> lo <= hi -> 1 <= c ->
  pass_from music lo hi c (start music)
  = source_bytes music (start music) lo
    ++ concat (repeat (source_bytes music lo hi) (Z.to_nat c))
    ++ source_bytes music hi (stop music).
Proof.
  intros Hlo Hhi Hc. unfold pass_from.
  rewrite <- (source_bytes_split music (start music) lo hi) by lia.
  rewrite (concat_repeat_S _ (Z.to_nat c)) by lia.
  replace (Z.to_nat c - 1)%nat with (Z.to_nat (c - 1)) by lia.
  rewrite <- !app_assoc. reflexivity.
Qed.

(** Bytes of the source that lie in a payload stored at [at_]. *)
Lemma source_bytes_payload music at_ payload tail a b :
  0 <= at_ ->
  skipn (Z.to_nat at_) (rw_data (src music)) = payload ++ tail ->
  0 <= a <= b -> b <= Z.of_nat (length payload) ->
  source_bytes music (at_ + a) (at_ + b)
  = firstn (Z.to_nat (b - a)) (skipn (Z.to_nat a) payload).
Proof.
  intros Hat Hs Hab Hb. unfold source_bytes.
  replace (Z.to_nat (at_ + a)) with (Z.to_nat a + Z.to_nat at_)%nat by lia.
  rewrite <- skipn_skipn, Hs, skipn_app, firstn_app.
  replace (Z.to_nat (at_ + b - (at_ + a))) with (Z.to_nat (b - a)) by lia.
  replace (Z.to_nat (b - a) - length (skipn (Z.to_nat a) payload))%nat
    with 0%nat by (rewrite length_skipn; lia).
  cbn [firstn]. apply app_nil_r.
Qed.

(** X28.  Loading and playing compose for a file with a loop: a PCM or
    float WAVE file with a format chunk, a data chunk and a sample-loop
    chunk holding one forward record over the frames [s .. e], [e]
    included, with play count [c >= 1], the window at least 4096 frames
    long and inside the data, is loaded by [WAV_CreateFromRW] when the
    scratch buffer is allocated and the queue is made for the file's
    format, channels and rate; and after
    Play with a count [k >= 0] the calls of [WAV_GetSome], whatever
    positive budgets they are given, hand out, [k] times over, the
    frames before [s], the frames [s .. e] [c] times, and the frames
    after [e], then signal the end of the stream, not before. *)
Theorem looped_wav_file_plays_window_count_times :
  forall id3tag junk SDL_malloc SDL_NewAudioStream buf turns wavelen e c f br
         ba b fm payload fields sampler_data r k budget,
    0 <= wavelen < 2 ^ 32 -> 0 < c < 256 -> 0 <= f < 2 ^ 31 ->
    In (e, b, Fetch_pcm, fm) fmt_table ->
    Z.of_nat (length payload) < 2 ^ 32 ->
    length fields = 28%nat -> 0 <= sampler_data < 2 ^ 32 ->
    sample_loop_fits r -> sl_type r = 0 ->
    SDL_malloc (Z.quot (SDL_AUDIO_BITSIZE fm) 8 * c * 4096) = Some buf ->
    SDL_NewAudioStream fm c f = true ->
    let frame := c * Z.quot b 8 in
    let lo := sl_start r * frame in
    let hi := (sl_end r + 1) * frame in
    sl_start r + 4096 <= sl_end r + 1 ->
    hi <= Z.of_nat (length payload) ->
    1 <= sl_play_count r ->
    (4 <= turns)%nat ->
    0 <= k -> (forall i, 0 < budget i) ->
    let file := looped_wav_file wavelen (fmt_payload e c f br ba b) payload
                  fields sampler_data r in
    exists music,
      WAV_CreateFromRW id3tag junk SDL_malloc SDL_NewAudioStream turns
        (mkRW file 0)
      = Returns (true, music) /\
      let session := snd (WAV_Play music k) in
      exists n,
        played budget n session
        = concat (repeat
                    (firstn (Z.to_nat lo) payload
                     ++ concat (repeat
                                  (firstn (Z.to_nat (hi - lo))
                                     (skipn (Z.to_nat lo) payload))
                                  (Z.to_nat (sl_play_count r)))
                     ++ skipn (Z.to_nat hi) payload)
                    (Z.to_nat k)) /\
        done (WAV_GetSome (calls budget n session) (budget n)) = true /\
        forall j, (j < n)%nat ->
          done (WAV_GetSome (calls budget j session) (budget j)) = false.
Proof.
  intros id3tag junk SDL_malloc SDL_NewAudioStream buf turns wavelen e c f br
    ba b fm payload fields sampler_data r k budget Hw Hc Hf Hin Hlen Hfields
    Hsd Hfit Htype Hmalloc Hstream frame lo hi Hwin Hhi Hcnt Hturns Hk Hb file.
  assert (Z.quot (SDL_AUDIO_BITSIZE fm) 8 = Z.quot b 8 /\ 1 <= Z.quot b 8 <= 4)
    as [Hbits Hq].
  { cbn in Hin.
    repeat (destruct Hin as [Hin | Hin];
            [first [injection Hin as _ <- <-; vm_compute;
                    repeat split; discriminate
                   | discriminate Hin] | ]).
    contradiction. }
  pose proof Hfit as (_ & Hs & He & Hpc).
  assert (0 < frame) as Hframe by (subst frame; nia).
  assert (payload <> []) as Hne.
  { intros ->. cbn [length Z.of_nat] in Hhi. subst hi. nia. }
  destruct (LoadWAVMusic_looped_file id3tag junk turns wavelen e c f br ba b
              Fetch_pcm fm payload fields sampler_data r (mkSpec 0 0 0 0 0)
              0 0 0 0 [] [] (mkTags None None None None) PCM_CODE Fetch_pcm
              Hw ltac:(lia) Hf Hin Hne Hlen Hfields Hsd Hfit Htype Hturns)
    as (loop & Hloop & Hload & tail & Hskip).
  fold file in Hload, Hskip.
  set (size := Z.quot (SDL_AUDIO_BITSIZE fm) 8 * c * 4096) in *.
  set (music := mkMusic (mkRW file (Z.of_nat (length file)))
                  (mkSpec f fm c 4096 size) 0 44
                  (44 + Z.of_nat (length payload)) (c * Z.quot b 8)
                  buf [] [loop] meta_tags_init e Fetch_pcm).
  exists music. split.
  { refine (eq_trans
              (WAV_CreateFromRW_made id3tag junk SDL_malloc SDL_NewAudioStream
                 turns _ _ _ _ buf (looped_wav_file_magic _ _ _ _ _ _) Hload
                 Hmalloc Hstream) _).
    reflexivity. }
  intros session.
  assert (lp_start loop = sl_start r /\ lp_stop loop = sl_end r /\
          lp_initial_play_count loop = sl_play_count r) as (Hls & Hle & Hli).
  { unfold rearm in Hloop. injection Hloop as H1 H2 H3 _. auto. }
  assert (Z.of_nat (length file) = 44 + Z.of_nat (length payload) + 68) as Hflen.
  { subst file. unfold looped_wav_file, chunk_record, smpl_chunk.
    cbn [map concat].
    rewrite !length_app, !length_le32_bytes, Hfields, length_sample_loop_bytes.
    change (length (@nil Z)) with 0%nat.
    pose proof (length_wav_file wavelen e c f br ba b payload). lia. }
  assert (loop_start music loop = 44 + lo) as Hlo.
  { unfold loop_start, bytes_per_sample.
    cbn [music start spec spec_format spec_channels]. rewrite Hls, Hbits.
    unfold Uint32. rewrite (Z.mod_small (Z.quot b 8 * c)) by nia.
    rewrite Z.mod_small by (subst hi lo frame; nia).
    subst lo frame. f_equal. ring. }
  assert (loop_stop music loop = 44 + hi) as Hhi'.
  { unfold loop_stop, bytes_per_sample.
    cbn [music start spec spec_format spec_channels]. rewrite Hle, Hbits.
    unfold Uint32. rewrite (Z.mod_small (Z.quot b 8 * c)) by nia.
    rewrite (Z.mod_small (sl_end r + 1)) by (subst hi frame; nia).
    rewrite Z.mod_small by (subst hi frame; nia).
    subst hi frame. f_equal. ring. }
  destruct (WAV_Play_loop_session music loop k) as [Hp Hrem];
    try reflexivity; try exact Hk.
  - cbn [music spec spec_size]. subst size. rewrite Hbits. nia.
  - cbn [music start]. lia.
  - cbn [music stop src rw_data]. lia.
  - rewrite Hlo, Hhi'. cbn [music spec spec_size]. subst size.
    rewrite Hbits. subst hi lo frame. nia.
  - rewrite Hhi'. cbn [music stop]. lia.
  - rewrite Hli. lia.
  - fold session in Hp, Hrem.
    rewrite Hlo, Hhi', Hli in Hrem.
    rewrite pass_from_whole in Hrem
      by (cbn [music start]; subst hi lo frame; nia).
    change (start music) with (44 + 0) in Hrem.
    change (stop music) with (44 + Z.of_nat (length payload)) in Hrem.
    rewrite (source_bytes_payload music 44 payload tail 0 lo) in Hrem
      by (try exact Hskip; subst hi lo frame; nia).
    rewrite (source_bytes_payload music 44 payload tail lo hi) in Hrem
      by (try exact Hskip; subst hi lo frame; nia).
    rewrite (source_bytes_payload music 44 payload tail hi
               (Z.of_nat (length payload))) in Hrem
      by (try exact Hskip; subst hi lo frame; nia).
    rewrite Z.sub_0_r in Hrem. cbn [Z.to_nat skipn] in Hrem.
    rewrite (firstn_all2 (skipn (Z.to_nat hi) payload)) in Hrem
      by (rewrite length_skipn; lia).
    rewrite <- Hrem.
    apply (loop_session_plays (Z.to_nat (loop_calls_left session))); auto.
    pose proof (loop_calls_left_nonneg _ Hp). lia.
Qed.

Lemma looped_wav_file_plays_window_count_times_witness :
  let payload := repeat 7 5000 in
  let r := mkSampleLoop 0 0 100 4195 0 2 in
  let file := looped_wav_file 0 (fmt_payload PCM_CODE 1 8000 0 0 8) payload
                (repeat 0 28) 0 r in
  exists music,
    WAV_CreateFromRW (fun tags _ _ => tags) (fun _ => false)
      (fun n => Some (repeat 0 (Z.to_nat n))) (fun _ _ _ => true) 4
      (mkRW file 0)
    = Returns (true, music) /\
    exists n,
      played (fun _ => 1000) n (snd (WAV_Play music 1))
      = concat (repeat
                  (firstn 100 payload
                   ++ concat (repeat (firstn 4096 (skipn 100 payload)) 2)
                   ++ skipn 4196 payload)
                  1).
Proof.
  cbv zeta.
  destruct (looped_wav_file_plays_window_count_times (fun tags _ _ => tags)
              (fun _ => false) (fun n => Some (repeat 0 (Z.to_nat n)))
              (fun _ _ _ => true) (repeat 0 (Z.to_nat 4096)) 4 0 PCM_CODE 1
              8000 0 0 8 AUDIO_U8
              (repeat 7 5000) (repeat 0 28) 0 (mkSampleLoop 0 0 100 4195 0 2)
              1 (fun _ => 1000)) as (music & Hrun & n & Hn & _).
  - lia.
  - lia.
  - lia.
  - left. reflexivity.
  - rewrite repeat_length. lia.
  - reflexivity.
  - lia.
  - unfold sample_loop_fits.
    cbn [sl_type sl_start sl_end sl_play_count]. lia.
  - reflexivity.
  - reflexivity.
  - reflexivity.
  - cbn [sl_start sl_end]. lia.
  - rewrite repeat_length. vm_compute. discriminate.
  - cbn [sl_play_count]. lia.
  - lia.
  - lia.
  - intros i. reflexivity.
  - exists music. split; [exact Hrun | ]. exists n. exact Hn.
Defined.
